(** * Tensor contraction engine of ATen/native/Linear.cpp

    A shallow embedding of [sumproduct_pair], [einsum], [_trilinear],
    [bilinear] and [tensordot] over a functional model of dense arrays,
    and the properties of the contraction engine proved about it.

    Conventions.
    - [int64_t] extents, axis numbers and counters are [Z]; the products
      of extents that the code forms are those of a tensor's element
      count, which ATen itself keeps in an [int64_t], so they are not
      wrapped.  The two [int] narrowings of [tensordot] are written out
      ([to_int]).
    - Elements are exact integers: the engine is generic in the element
      type and only uses its ring operations.
    - A tensor is its extents together with its element function; memory
      layout (strides, contiguity) is not part of the model, so [view]
      and [reshape] coincide.
    - [TORCH_CHECK] failures and the errors of the array primitives are
      values of [Error]; fallible code lives in the [Result] monad. *)

From Stdlib Require Import String Ascii ZArith List Lia Bool Arith Permutation FinFun.
Import ListNotations.
Open Scope Z_scope.


(** ** Errors and the result monad *)

Inductive Error : Type :=
| IndexError (d n : Z)            (* maybe_wrap_dim: dimension out of range *)
| DimRepeated (d : Z)             (* dim appears multiple times in the list of dims *)
| BroadcastError (a b : Z)        (* sizes of a and b must match at non-singleton dimension *)
| InplaceShapeError               (* output shape doesn't match the broadcast shape *)
| ShapeError (numel : Z)          (* shape is invalid for input of size numel *)
| ShapeAmbiguous                  (* unspecified dimension -1 can be any value *)
| ShapeNegative                   (* invalid shape dimension *)
| ShapeTwoInferred                (* only one dimension can be inferred *)
| PermuteCount                    (* number of dims don't match in permute *)
| PermuteRepeated                 (* repeated dim in permute *)
| DiagonalIdentical               (* diagonal dimensions cannot be identical *)
| NarrowScalar                    (* narrow() cannot be applied to a 0-dim tensor *)
| NarrowRange                     (* start + length exceeds dimension size *)
| MatmulError                     (* mm / bmm operand shapes *)
| VectorOutOfBounds (i : Z)       (* std::vector accessed outside its bounds *)
| EinsumNoOperand
| EinsumOperandCount (nlabels noperands : nat)
| EinsumSubscriptRange (c : ascii)
| EinsumRankMismatch (count dim : Z) (i : nat)
| EinsumOutputSubscript (c : ascii) (twice : bool)
| EinsumRepeatedSize (c : ascii) (i : nat) (sj sdim : Z)
| SumproductRank                  (* number of dimensions must match *)
| SumproductNonBroadcast          (* non-broadcast dimensions must match *)
| TrilinearUnrollDim (total_dim : Z)
| BilinearInputDims (d1 d2 : Z)
| BilinearBatch (i s1 s2 : Z)
| BilinearInput1 (got expected : Z)
| BilinearInput2 (got expected : Z)
| BilinearBias (got expected : Z)
| TensordotLength
| TensordotContracted (s1 d1 s2 d2 : Z).

Definition Result (A : Type) : Type := (Error + A)%type.

Definition ret {A} (a : A) : Result A := inr a.
Definition throw {A} (e : Error) : Result A := inl e.

Definition bind {A B} (m : Result A) (k : A -> Result B) : Result B :=
  match m with
  | inl e => inl e
  | inr a => k a
  end.

Notation "x <- m ;; k" := (bind m (fun x => k))
  (at level 61, m at next level, right associativity).
Notation "' p <- m ;; k" := (bind m (fun x => let p := x in k))
  (at level 61, p pattern, m at next level, right associativity).

(** [TORCH_CHECK(cond, msg)] *)
Definition TORCH_CHECK (cond : bool) (e : Error) : Result unit :=
  if cond then ret tt else throw e.

Fixpoint foldM {A S} (f : S -> A -> Result S) (l : list A) (s : S) : Result S :=
  match l with
  | [] => ret s
  | x :: xs => s' <- f s x ;; foldM f xs s'
  end.

Fixpoint mapM {A B} (f : A -> Result B) (l : list A) : Result (list B) :=
  match l with
  | [] => ret []
  | x :: xs => y <- f x ;; ys <- mapM f xs ;; ret (y :: ys)
  end.

(** ** Vectors indexed by [int64_t] *)

Definition znth {A} (i : Z) (l : list A) (d : A) : A := nth (Z.to_nat i) l d.

Fixpoint upd {A} (n : nat) (v : A) (l : list A) : list A :=
  match l, n with
  | [], _ => []
  | _ :: xs, O => v :: xs
  | x :: xs, S n' => x :: upd n' v xs
  end.

Definition zupd {A} (i : Z) (v : A) (l : list A) : list A := upd (Z.to_nat i) v l.

Definition zlen {A} (l : list A) : Z := Z.of_nat (length l).

(** [v[i] = x] on a [std::vector].  A position outside the vector is
    undefined behaviour in C++: the model stops there with
    [VectorOutOfBounds], which marks the write and is no outcome that a
    compiled program is bound to show. *)
Definition vset {A} (i : Z) (x : A) (v : list A) : Result (list A) :=
  if (0 <=? i) && (i <? zlen v) then ret (zupd i x v) else throw (VectorOutOfBounds i).

(** [0, 1, ..., n-1] *)
Definition zrange (n : Z) : list Z := map Z.of_nat (seq 0 (Z.to_nat n)).

(** [std::iota] over a vector of [n] slots starting at [start] *)
Definition iota (n start : Z) : list Z := map (fun k => start + k) (zrange n).

Definition prodZ (l : list Z) : Z := fold_right Z.mul 1 l.

Definition sumZ {A} (l : list A) (f : A -> Z) : Z :=
  fold_right (fun x acc => f x + acc) 0 l.

Fixpoint zipWith {A B C} (f : A -> B -> C) (l1 : list A) (l2 : list B) : list C :=
  match l1, l2 with
  | x :: xs, y :: ys => f x y :: zipWith f xs ys
  | _, _ => []
  end.

(** erase / insert at a position ([std::vector::erase], [insert]) *)
Definition erase {A} (n : nat) (l : list A) : list A := firstn n l ++ skipn (S n) l.
Definition insert_at {A} (n : nat) (v : A) (l : list A) : list A :=
  firstn n l ++ v :: skipn n l.

(** ** Dense arrays *)

Record Tensor : Type := mkTensor {
  sizes : list Z;
  elem : list Z -> Z
}.

Definition dim (t : Tensor) : Z := zlen (sizes t).
Definition numel (t : Tensor) : Z := prodZ (sizes t).

(** Row-major position of a multi-index and its inverse. *)
Fixpoint ravel (s idx : list Z) : Z :=
  match s, idx with
  | _ :: ss, i :: is' => i * prodZ ss + ravel ss is'
  | _, _ => 0
  end.

Fixpoint unravel (s : list Z) (k : Z) : list Z :=
  match s with
  | [] => []
  | _ :: ss => (k / prodZ ss) :: unravel ss (k mod prodZ ss)
  end.

(** All multi-indices of a shape, in row-major order. *)
Fixpoint indices (s : list Z) : list (list Z) :=
  match s with
  | [] => [[]]
  | n :: ss => flat_map (fun i => map (cons i) (indices ss)) (zrange n)
  end.

Fixpoint valid_index (s idx : list Z) : Prop :=
  match s, idx with
  | [], [] => True
  | n :: ss, i :: is' => 0 <= i < n /\ valid_index ss is'
  | _, _ => False
  end.

Definition wf_sizes (s : list Z) : Prop := Forall (fun n => 0 <= n) s.
Definition wf (t : Tensor) : Prop := wf_sizes (sizes t).

(** Two tensors are the same array when they have the same extents and
    the same element at every index within them. *)
Definition teq (a b : Tensor) : Prop :=
  sizes a = sizes b /\ forall idx, valid_index (sizes a) idx -> elem a idx = elem b idx.

Definition to_list (t : Tensor) : list Z := map (elem t) (indices (sizes t)).

(** A tensor given by its row-major contents. *)
Definition of_list (s : list Z) (data : list Z) : Tensor :=
  mkTensor s (fun idx => znth (ravel s idx) data 0).

(** The outcome of a call: the same error, or the same array. *)
Definition req (r1 r2 : Result Tensor) : Prop :=
  match r1, r2 with
  | inl e1, inl e2 => e1 = e2
  | inr a, inr b => teq a b
  | _, _ => False
  end.

(** ** The array primitives (ATen)

    The primitives below are declared outside the sources at hand; their
    models follow ATen's documented behaviour. *)

(** Modelled from the spec: [maybe_wrap_dim] (c10/core/WrapDimMinimal.h),
    the axis-number check behind every "shape query" and axis argument:
    an axis of a rank-[n] array is in [-n, n-1], negatives count from the
    end, anything else is an index error. *)
Definition maybe_wrap_dim (d n : Z) (wrap_scalar : bool) : Result Z :=
  if (n <=? 0) && negb wrap_scalar then throw (IndexError d n)
  else
    let n' := if n <=? 0 then 1 else n in
    if (d <? - n') || (n' - 1 <? d) then throw (IndexError d n)
    else ret (if d <? 0 then d + n' else d).

(** Modelled from the spec: shape query [Tensor::size(dim)]. *)
Definition size (t : Tensor) (d : Z) : Result Z :=
  d' <- maybe_wrap_dim d (dim t) false ;;
  ret (znth d' (sizes t) 0).

(** Modelled from the spec: [at::dim_list_to_bitset] (ATen/WrapDimUtilsMulti.h):
    the set of the listed axes, as one flag per axis; an axis listed
    twice is an error.  The capacity of the bit set is a constant of that
    header and is not modelled. *)
Definition bitset_step (ndims : Z) (seen : list bool) (d : Z) : Result (list bool) :=
  d' <- maybe_wrap_dim d ndims true ;;
  _ <- TORCH_CHECK (negb (znth d' seen false)) (DimRepeated d') ;;
  ret (zupd d' true seen).

Definition dim_list_to_bitset (dims : list Z) (ndims : Z) : Result (list bool) :=
  foldM (bitset_step ndims) dims (repeat false (Z.to_nat (Z.max ndims 1))).

Definition bit (b : list bool) (i : Z) : bool := znth i b false.

(** Modelled from the spec: broadcasting of two shapes ([at::infer_size]):
    shapes are aligned at their last axis, a missing axis counts as
    extent 1, and two extents are compatible when they are equal or one
    of them is 1. *)
Definition pad_left (n : nat) (s : list Z) : list Z :=
  repeat 1 (n - length s) ++ s.

Definition broadcast_dim (a b : Z) : Result Z :=
  _ <- TORCH_CHECK ((a =? b) || (a =? 1) || (b =? 1)) (BroadcastError a b) ;;
  ret (if a =? 1 then b else a).

Fixpoint broadcast_dims (a b : list Z) : Result (list Z) :=
  match a, b with
  | x :: xs, y :: ys =>
      z <- broadcast_dim x y ;; zs <- broadcast_dims xs ys ;; ret (z :: zs)
  | _, _ => ret []
  end.

Definition infer_size (a b : list Z) : Result (list Z) :=
  let n := Nat.max (length a) (length b) in
  broadcast_dims (pad_left n a) (pad_left n b).

(** Broadcast coordinates: an axis of extent 1 is always read at 0. *)
Definition broadcast_coords (ext c : list Z) : list Z :=
  zipWith (fun n i => if n =? 1 then 0 else i) ext c.

(** The index an operand of shape [s] is read at, for index [idx] of the
    broadcast result: leading axes the operand lacks are dropped. *)
Definition expand_index (s idx : list Z) : list Z :=
  broadcast_coords s (skipn (length idx - length s) idx).

Definition broadcast_op (op : Z -> Z -> Z) (a b : Tensor) : Result Tensor :=
  s <- infer_size (sizes a) (sizes b) ;;
  ret (mkTensor s (fun idx => op (elem a (expand_index (sizes a) idx))
                                 (elem b (expand_index (sizes b) idx)))).

(** Modelled from the spec: elementwise multiply, [at::mul]. *)
Definition mul (a b : Tensor) : Result Tensor := broadcast_op Z.mul a b.

(** Modelled from the spec: elementwise sum [a + b], [at::add]. *)
Definition add (a b : Tensor) : Result Tensor := broadcast_op Z.add a b.

(** Modelled from the spec: in-place [self.add_(other)]: [other] is
    broadcast to the shape of [self], which does not change. *)
Definition add_ (self other : Tensor) : Result Tensor :=
  s <- infer_size (sizes self) (sizes other) ;;
  _ <- TORCH_CHECK (if list_eq_dec Z.eq_dec s (sizes self) then true else false)
                   InplaceShapeError ;;
  ret (mkTensor (sizes self)
         (fun idx => elem self idx + elem other (expand_index (sizes other) idx))).

(** Reduction of one axis [d] (already wrapped). *)
Definition sum_axis (t : Tensor) (d : nat) (keepdim : bool) : Tensor :=
  mkTensor (firstn d (sizes t) ++ (if keepdim then [1] else []) ++ skipn (S d) (sizes t))
           (fun idx => sumZ (zrange (nth d (sizes t) 0))
                            (fun j => elem t (firstn d idx ++ j :: skipn (if keepdim then S d else d) idx))).

(** Reduction of the flagged axes, last axis first. *)
Fixpoint sum_mask (t : Tensor) (mask : list bool) (n : nat) (keepdim : bool) : Tensor :=
  match n with
  | O => t
  | S n' => let t' := if nth n' mask false then sum_axis t n' keepdim else t in
            sum_mask t' mask n' keepdim
  end.

(** Modelled from the spec: reduction-sum over a set of axes,
    [Tensor::sum(dims, keepdim)]; an empty list reduces every axis. *)
Definition sum (t : Tensor) (dims : list Z) (keepdim : bool) : Result Tensor :=
  mask <- (match dims with
           | [] => ret (repeat true (length (sizes t)))
           | _ => dim_list_to_bitset dims (dim t)
           end) ;;
  ret (sum_mask t mask (length (sizes t)) keepdim).

(** Position of axis [a] in a permutation. *)
Fixpoint index_of (a : Z) (p : list Z) : nat :=
  match p with
  | [] => O
  | x :: xs => if x =? a then O else S (index_of a xs)
  end.

Definition unpermute (p idx : list Z) : list Z :=
  map (fun a => nth (index_of a p) idx 0) (zrange (zlen p)).

Fixpoint wrap_permutation (dims : list Z) (n : Z) (seen : list Z) : Result (list Z) :=
  match dims with
  | [] => ret []
  | d :: ds =>
      d' <- maybe_wrap_dim d n true ;;
      _ <- TORCH_CHECK (negb (existsb (Z.eqb d') seen)) PermuteRepeated ;;
      ds' <- wrap_permutation ds n (d' :: seen) ;;
      ret (d' :: ds')
  end.

(** Modelled from the spec: axis permutation, [Tensor::permute]: axis [k]
    of the result is axis [dims[k]] of the argument. *)
Definition permute (t : Tensor) (dims : list Z) : Result Tensor :=
  _ <- TORCH_CHECK (zlen dims =? dim t) PermuteCount ;;
  p <- wrap_permutation dims (dim t) [] ;;
  ret (mkTensor (map (fun d => znth d (sizes t) 0) p)
                (fun idx => elem t (unpermute p idx))).

(** Shape inference of [reshape] and [view] ([at::infer_size] with the
    element count): at most one extent may be -1. *)
Definition infer_shape (shape : list Z) (n : Z) : Result (list Z) :=
  '(newsize, infer_dim) <-
    foldM (fun '(newsize, infer_dim) '(k, d) =>
             if d =? -1 then
               match infer_dim : option nat with
               | Some _ => throw ShapeTwoInferred
               | None => ret (newsize, Some k)
               end
             else if 0 <=? d then ret (newsize * d, infer_dim)
             else throw ShapeNegative)
          (combine (seq 0 (length shape)) shape) (1, None) ;;
  if (n =? newsize) ||
     (match infer_dim with Some _ => true | None => false end && (0 <? newsize) && (n mod newsize =? 0))
  then
    match infer_dim with
    | Some k => _ <- TORCH_CHECK (negb (newsize =? 0)) ShapeAmbiguous ;;
                ret (upd k (n / newsize) shape)
    | None => ret shape
    end
  else throw (ShapeError n).

(** Modelled from the spec: [Tensor::reshape]; the elements keep their
    row-major order. *)
Definition reshape (t : Tensor) (shape : list Z) : Result Tensor :=
  s <- infer_shape shape (numel t) ;;
  ret (mkTensor s (fun idx => elem t (unravel (sizes t) (ravel s idx)))).

(** Modelled from the spec: [Tensor::view]; as [reshape], layout apart. *)
Definition view (t : Tensor) (shape : list Z) : Result Tensor := reshape t shape.

(** Modelled from the spec: batched matrix multiply, [at::bmm]. *)
Definition bmm (a b : Tensor) : Result Tensor :=
  match sizes a, sizes b with
  | [ba; n; m], [bb; m'; p] =>
      _ <- TORCH_CHECK ((ba =? bb) && (m =? m')) MatmulError ;;
      ret (mkTensor [ba; n; p]
             (fun idx => sumZ (zrange m)
                              (fun k => elem a [znth 0 idx 0; znth 1 idx 0; k] *
                                        elem b [znth 0 idx 0; k; znth 2 idx 0])))
  | _, _ => throw MatmulError
  end.

(** Modelled from the spec: matrix multiply, [at::mm]. *)
Definition mm (a b : Tensor) : Result Tensor :=
  match sizes a, sizes b with
  | [n; m], [m'; p] =>
      _ <- TORCH_CHECK (m =? m') MatmulError ;;
      ret (mkTensor [n; p]
             (fun idx => sumZ (zrange m)
                              (fun k => elem a [znth 0 idx 0; k] * elem b [k; znth 1 idx 0])))
  | _, _ => throw MatmulError
  end.

(** Modelled from the spec: diagonal extraction along two axes,
    [Tensor::diagonal(0, dim1, dim2)]: both axes are dropped and the axis
    of the diagonal is appended as the last one. *)
Definition diagonal (t : Tensor) (dim1_ dim2_ : Z) : Result Tensor :=
  dim1 <- maybe_wrap_dim dim1_ (dim t) true ;;
  dim2 <- maybe_wrap_dim dim2_ (dim t) true ;;
  _ <- TORCH_CHECK (negb (dim1 =? dim2)) DiagonalIdentical ;;
  let lo := Z.to_nat (Z.min dim1 dim2) in
  let hi := Z.to_nat (Z.max dim1 dim2) in
  let diag_size := Z.max (Z.min (znth dim1 (sizes t) 0) (znth dim2 (sizes t) 0)) 0 in
  ret (mkTensor (erase lo (erase hi (sizes t)) ++ [diag_size])
         (fun idx => let k := last idx 0 in
                     elem t (insert_at hi k (insert_at lo k (removelast idx))))).

(** Modelled from the spec: axis insertion, [Tensor::unsqueeze]. *)
Definition unsqueeze (t : Tensor) (d : Z) : Result Tensor :=
  d' <- maybe_wrap_dim d (dim t + 1) true ;;
  ret (mkTensor (insert_at (Z.to_nat d') 1 (sizes t))
                (fun idx => elem t (erase (Z.to_nat d') idx))).

(** Modelled from the spec: axis removal, [Tensor::squeeze(dim)]: only an
    axis of extent 1 is removed. *)
Definition squeeze (t : Tensor) (d : Z) : Result Tensor :=
  d' <- maybe_wrap_dim d (dim t) true ;;
  ret (if (0 <? dim t) && (znth d' (sizes t) 0 =? 1)
       then mkTensor (erase (Z.to_nat d') (sizes t))
                     (fun idx => elem t (insert_at (Z.to_nat d') 0 idx))
       else t).

Definition swap {A} (i j : nat) (l : list A) (d : A) : list A :=
  upd i (nth j l d) (upd j (nth i l d) l).

(** Modelled from the spec: [Tensor::transpose]. *)
Definition transpose (t : Tensor) (d0 d1 : Z) : Result Tensor :=
  a <- maybe_wrap_dim d0 (dim t) true ;;
  b <- maybe_wrap_dim d1 (dim t) true ;;
  ret (mkTensor (swap (Z.to_nat a) (Z.to_nat b) (sizes t) 0)
                (fun idx => elem t (swap (Z.to_nat a) (Z.to_nat b) idx 0))).

(** Modelled from the spec: [Tensor::narrow(dim, start, length)]. *)
Definition narrow (t : Tensor) (d start length : Z) : Result Tensor :=
  _ <- TORCH_CHECK (0 <? dim t) NarrowScalar ;;
  cur_size <- size t d ;;
  d' <- maybe_wrap_dim d (dim t) false ;;
  start' <- (if start =? cur_size then ret start else maybe_wrap_dim start cur_size true) ;;
  _ <- TORCH_CHECK ((0 <=? length) && (start' <=? cur_size - length)) NarrowRange ;;
  ret (mkTensor (zupd d' length (sizes t))
                (fun idx => elem t (zupd d' (znth d' idx 0 + start') idx))).

(** Modelled from the spec: [at::zeros]. *)
Definition zeros (s : list Z) : Tensor := mkTensor s (fun _ => 0).

(** ** sumproduct_pair (Linear.cpp, lines 39-137) *)

Record pair_state : Type := mkPairState {
  ps_left : Tensor;
  ps_right : Tensor;
  lro : list Z;
  lo : list Z;
  ro : list Z;
  lro_size : Z;
  lo_size : Z;
  ro_size : Z;
  sum_size : Z
}.

(** One turn of the classification loop (lines 54-78). *)
Definition sumproduct_classify (sum_dims : list bool) (st : pair_state) (i : Z)
  : Result pair_state :=
  let left := ps_left st in
  let right := ps_right st in
  szl <- size left i ;;
  szr <- size right i ;;
  let sl := 1 <? szl in
  let sr := 1 <? szr in
  if bit sum_dims i then
    if sl && sr then
      _ <- TORCH_CHECK (szl =? szr) SumproductNonBroadcast ;;
      ret (mkPairState left right (lro st) (lo st) (ro st)
             (lro_size st) (lo_size st) (ro_size st) (sum_size st * szl))
    else if sl then
      left' <- sum left [i] true ;;
      ret (mkPairState left' right (lro st) (lo st) (ro st)
             (lro_size st) (lo_size st) (ro_size st) (sum_size st))
    else if sr then
      right' <- sum right [i] true ;;
      ret (mkPairState left right' (lro st) (lo st) (ro st)
             (lro_size st) (lo_size st) (ro_size st) (sum_size st))
    else ret st
  else if sl && sr then
    _ <- TORCH_CHECK (szl =? szr) SumproductNonBroadcast ;;
    ret (mkPairState left right (lro st ++ [i]) (lo st) (ro st)
           (lro_size st * szl) (lo_size st) (ro_size st) (sum_size st))
  else if sl then
    ret (mkPairState left right (lro st) (lo st ++ [i]) (ro st)
           (lro_size st) (lo_size st * szl) (ro_size st) (sum_size st))
  else
    ret (mkPairState left right (lro st) (lo st) (ro st ++ [i])
           (lro_size st) (lo_size st) (ro_size st * szr) (sum_size st)).

(** The writes [opermutation[*it] = i] of lines 104-118. *)
Fixpoint fill_opermutation (dims : list Z) (i : Z) (operm : list Z) : Result (list Z) :=
  match dims with
  | [] => ret operm
  | d :: ds => operm' <- vset d i operm ;; fill_opermutation ds (i + 1) operm'
  end.

(** Lines 128-133: the extents of the summed axes are erased, last first. *)
Fixpoint erase_summed (sum_dims : list bool) (n : nat) (szs : list Z) : list Z :=
  match n with
  | O => szs
  | S n' => erase_summed sum_dims n'
              (if nth n' sum_dims false then erase n' szs else szs)
  end.

Definition sumproduct_pair (left_ right_ : Tensor) (sum_dims_ : list Z) (keepdim : bool)
  : Result Tensor :=
  _ <- TORCH_CHECK (dim left_ =? dim right_) SumproductRank ;;
  match sum_dims_ with
  | [] => mul left_ right_
  | _ =>
    let dim := dim left_ in
    sum_dims <- dim_list_to_bitset sum_dims_ dim ;;
    st <- foldM (sumproduct_classify sum_dims) (zrange dim)
                (mkPairState left_ right_ [] [] [] 1 1 1 1) ;;
    let left := ps_left st in
    let right := ps_right st in
    out_lro <- mapM (size left) (lro st) ;;
    out_lo <- mapM (size left) (lo st) ;;
    out_ro <- mapM (size right) (ro st) ;;
    let out_size := out_lro ++ out_lo ++ map (fun _ => 1) sum_dims_ ++ out_ro in
    let lpermutation := lro st ++ lo st ++ sum_dims_ ++ ro st in
    let rpermutation := lro st ++ sum_dims_ ++ ro st ++ lo st in
    let opermutation :=
      repeat (-1) (length (lro st) + length (lo st) + length sum_dims_ + length (ro st)) in
    opermutation <- fill_opermutation (lro st ++ lo st ++ sum_dims_ ++ ro st) 0 opermutation ;;
    left <- permute left lpermutation ;;
    left <- reshape left [lro_size st; lo_size st; sum_size st] ;;
    right <- permute right rpermutation ;;
    right <- reshape right [lro_size st; sum_size st; ro_size st] ;;
    result <- bmm left right ;;
    result <- view result out_size ;;
    result <- permute result opermutation ;;
    if negb keepdim then
      view result (erase_summed sum_dims (Z.to_nat dim) (sizes result))
    else ret result
  end.

(** ** einsum (Linear.cpp, lines 139-312) *)

(** The [std::getline(lhs, token, ',')] loop of lines 148-152. *)
Fixpoint getline_all (s : string) : list string :=
  match s with
  | EmptyString => [EmptyString]
  | String c s' =>
      if Ascii.eqb c ","%char then EmptyString :: getline_all s'
      else match getline_all s' with
           | token :: rest => String c token :: rest
           | [] => [String c EmptyString]
           end
  end.

Definition total_labels : Z := 26.

Definition code (c : ascii) : Z := Z.of_nat (nat_of_ascii c).
Definition is_space (c : ascii) : bool := code c =? 32.
(** [c >= 'a' && c <= 'z'] *)
Definition is_label (c : ascii) : bool := (97 <=? code c) && (code c <=? 122).
(** [c - 'a'] *)
Definition label_of (c : ascii) : Z := code c - 97.

(** [std::vector<std::size_t>(total_labels, -1)] *)
Definition size_t_max : Z := 18446744073709551615.

Record parse_state : Type := mkParseState {
  label_count : list Z;
  label_last_operand : list Z
}.

(** One character of an operand's subscripts (lines 171-183). *)
Definition parse_label (operand : Tensor) (i : nat) (acc : parse_state * Z) (c : ascii)
  : Result (parse_state * Z) :=
  let '(st, count) := acc in
  if negb (is_space c) then
    _ <- TORCH_CHECK (is_label c) (EinsumSubscriptRange c) ;;
    sz <- size operand count ;;
    let last := if 1 <? sz then zupd (label_of c) (Z.of_nat i) (label_last_operand st)
                else label_last_operand st in
    ret (mkParseState (zupd (label_of c) (znth (label_of c) (label_count st) 0 + 1)
                            (label_count st)) last,
         count + 1)
  else ret acc.

(** The loop over the operands (lines 167-192). *)
Fixpoint parse_operands (operands : list Tensor) (operand_labels : list string) (i : nat)
  (st : parse_state) : Result parse_state :=
  match operands, operand_labels with
  | operand :: operands', labels :: operand_labels' =>
      '(st', count) <- foldM (parse_label operand i) (list_ascii_of_string labels) (st, 0) ;;
      _ <- TORCH_CHECK (count =? dim operand) (EinsumRankMismatch count (dim operand) i) ;;
      parse_operands operands' operand_labels' (S i) st'
  | _, _ => ret st
  end.

Record plan : Type := mkPlan {
  plan_label_count : list Z;
  label_out_index : list Z;
  permuted_labels : list Z;
  out_index : Z
}.

(** Implicit output (lines 199-204). *)
Definition implicit_output (pl : plan) (label : Z) : plan :=
  if znth label (plan_label_count pl) 0 =? 1 then
    mkPlan (plan_label_count pl)
           (zupd label (out_index pl) (label_out_index pl))
           (permuted_labels pl ++ [label])
           (out_index pl + 1)
  else pl.

(** Explicit output, one character of the right-hand side (lines 207-224). *)
Definition explicit_output (pl : plan) (c : ascii) : Result plan :=
  if negb (is_space c) then
    _ <- TORCH_CHECK (is_label c) (EinsumSubscriptRange c) ;;
    _ <- TORCH_CHECK (0 <? znth (label_of c) (plan_label_count pl) 0)
           (EinsumOutputSubscript c (znth (label_of c) (plan_label_count pl) 0 =? -1)) ;;
    ret (mkPlan (zupd (label_of c) (-1) (plan_label_count pl))
                (zupd (label_of c) (out_index pl) (label_out_index pl))
                (permuted_labels pl ++ [label_of c])
                (out_index pl + 1))
  else ret pl.

(** Contraction labels (lines 230-235). *)
Definition contraction_label (pl : plan) (label : Z) : plan :=
  if (0 <? znth label (plan_label_count pl) 0) && (znth label (label_out_index pl) 0 =? -1) then
    mkPlan (plan_label_count pl)
           (zupd label (out_index pl) (label_out_index pl))
           (permuted_labels pl ++ [label])
           (out_index pl + 1)
  else pl.

(** Lines 142-152: the position of the arrow and the subscripts of each
    operand. *)
Definition arrow_pos (equation : string) : option nat := index 0 "->" equation.

Definition split_operand_labels (equation : string) : list string :=
  getline_all (match arrow_pos equation with
               | Some p => substring 0 p equation
               | None => equation
               end).

(** Lines 195-235: output slots, then contraction slots.  The second
    component is [out_size]. *)
Definition build_plan (equation : string) (label_count : list Z) : Result (plan * Z) :=
  let pl0 := mkPlan label_count (repeat (-1) (Z.to_nat total_labels)) [] 0 in
  pl <- match arrow_pos equation with
        | None => ret (fold_left implicit_output (zrange total_labels) pl0)
        | Some p =>
            let rhs := substring (p + 2) (String.length equation - (p + 2)) equation in
            foldM explicit_output (list_ascii_of_string rhs) pl0
        end ;;
  ret (fold_left contraction_label (zrange total_labels) pl, out_index pl).

(** Lines 140-235. *)
Definition einsum_plan (equation : string) (operands : list Tensor)
  : Result (list string * plan * Z) :=
  _ <- TORCH_CHECK (negb (match operands with [] => true | _ => false end)) EinsumNoOperand ;;
  let operand_labels := split_operand_labels equation in
  _ <- TORCH_CHECK (length operand_labels =? length operands)%nat
         (EinsumOperandCount (length operand_labels) (length operands)) ;;
  st <- parse_operands operands operand_labels 0
          (mkParseState (repeat 0 (Z.to_nat total_labels))
                        (repeat size_t_max (Z.to_nat total_labels))) ;;
  '(pl, out_size) <- build_plan equation (label_count st) ;;
  ret (operand_labels, pl, out_size).

Record align_state : Type := mkAlignState {
  as_operand : Tensor;
  perm_shape : list Z;
  label_dim : list Z;
  as_j : Z
}.

(** The diagonal of a repeated subscript (lines 250-262): the diagonal of
    axes [j] and [dim] is taken, and moved from the last axis to [dim]. *)
Definition take_diagonal (c : ascii) (i : nat) (operand : Tensor) (j dim : Z)
  : Result Tensor :=
  sj <- size operand j ;;
  sd <- size operand dim ;;
  _ <- TORCH_CHECK (sj =? sd) (EinsumRepeatedSize c i sj sd) ;;
  operand <- diagonal operand j dim ;;
  operand <- unsqueeze operand dim ;;
  operand <- transpose operand dim (-1) ;;
  squeeze operand (-1).

(** One character of an operand's subscripts in the alignment loop
    (lines 246-268). *)
Definition align_label (label_out_index : list Z) (i : nat) (st : align_state) (c : ascii)
  : Result align_state :=
  if negb (is_space c) then
    if negb (znth (label_of c) (label_dim st) 0 =? -1) then
      let dim := znth (label_of c) (label_dim st) 0 in
      operand <- take_diagonal c i (as_operand st) (as_j st) dim ;;
      ret (mkAlignState operand (perm_shape st) (label_dim st) (as_j st))
    else
      perm_shape' <- vset (znth (label_of c) label_out_index 0) (as_j st) (perm_shape st) ;;
      ret (mkAlignState (as_operand st) perm_shape'
             (zupd (label_of c) (as_j st) (label_dim st)) (as_j st + 1))
  else ret st.

(** Lines 269-274: every slot of [perm_shape] still at -1 gets a fresh
    trailing axis of extent 1. *)
Definition align_fill (st : align_state) (k : nat) : Result align_state :=
  if nth k (perm_shape st) 0 =? -1 then
    operand <- unsqueeze (as_operand st) (-1) ;;
    ret (mkAlignState operand (upd k (as_j st) (perm_shape st)) (label_dim st) (as_j st + 1))
  else ret st.

(** Lines 241-275, for one operand. *)
Definition align_operand (label_out_index : list Z) (out_index : Z) (i : nat)
  (operand : Tensor) (labels : string) : Result Tensor :=
  let st0 := mkAlignState operand (repeat (-1) (Z.to_nat out_index))
                          (repeat (-1) (Z.to_nat total_labels)) 0 in
  st <- foldM (align_label label_out_index i) (list_ascii_of_string labels) st0 ;;
  st <- foldM align_fill (seq 0 (length (perm_shape st))) st ;;
  permute (as_operand st) (perm_shape st).

Fixpoint align_operands (label_out_index : list Z) (out_index : Z) (i : nat)
  (operands : list Tensor) (operand_labels : list string) : Result (list Tensor) :=
  match operands, operand_labels with
  | operand :: operands', labels :: operand_labels' =>
      t <- align_operand label_out_index out_index i operand labels ;;
      ts <- align_operands label_out_index out_index (S i) operands' operand_labels' ;;
      ret (t :: ts)
  | _, _ => ret []
  end.

(** Lines 278-289: the product of all aligned operands, then one
    reduction over the contraction slots. *)
Definition einsum_compute (permuted_operands : list Tensor) (out_size out_index : Z)
  : Result Tensor :=
  match permuted_operands with
  | [] => throw (VectorOutOfBounds 0)
  | first :: rest =>
      result <- foldM mul rest first ;;
      if out_size <? out_index then
        sum result (iota (out_index - out_size) out_size) false
      else ret result
  end.

Definition einsum (equation : string) (operands : list Tensor) : Result Tensor :=
  '(operand_labels, pl, out_size) <- einsum_plan equation operands ;;
  permuted_operands <-
    align_operands (label_out_index pl) (out_index pl) 0 operands operand_labels ;;
  einsum_compute permuted_operands out_size (out_index pl).

(** ** _trilinear (Linear.cpp, lines 318-385) *)

Record tri_state : Type := mkTriState {
  tri_i1 : Tensor;
  tri_i2 : Tensor;
  tri_i3 : Tensor;
  output_size : list Z;
  sum_dims_12 : list Z;
  sum_dims_23 : list Z;
  unroll_size : Z
}.

(** One turn of the loop of lines 334-358. *)
Definition trilinear_axis (expand1 expand2 expand3 sumdim : list bool) (unroll_dim : Z)
  (st : tri_state) (i : Z) : Result tri_state :=
  let s := 0 in
  '(i1, s) <- (if bit expand1 i then i1 <- unsqueeze (tri_i1 st) i ;; ret (i1, s)
               else s <- size (tri_i1 st) i ;; ret (tri_i1 st, s)) ;;
  '(i2, s) <- (if bit expand2 i then i2 <- unsqueeze (tri_i2 st) i ;; ret (i2, s)
               else s <- size (tri_i2 st) i ;; ret (tri_i2 st, s)) ;;
  '(i3, s, sd12, sd23) <-
     (if bit expand3 i then
        i3 <- unsqueeze (tri_i3 st) i ;;
        ret (i3, s,
             if bit sumdim i && negb (i =? unroll_dim) then sum_dims_12 st ++ [i]
             else sum_dims_12 st,
             sum_dims_23 st)
      else
        s <- size (tri_i3 st) i ;;
        ret (tri_i3 st, s, sum_dims_12 st,
             if bit sumdim i && negb (i =? unroll_dim) then sum_dims_23 st ++ [i]
             else sum_dims_23 st)) ;;
  ret (mkTriState i1 i2 i3
         (output_size st ++ [if bit sumdim i then 1 else s])
         sd12 sd23
         (if i =? unroll_dim then s else unroll_size st)).

(** [output.narrow(dim, k, 1).add_(buf)]: the slice is a view of [output],
    so the in-place addition is a write to slot [k] of [output]. *)
Definition narrow_add_ (output : Tensor) (d k : Z) (buf : Tensor) : Result Tensor :=
  slice <- narrow output d k 1 ;;
  slice' <- add_ slice buf ;;
  ret (mkTensor (sizes output)
         (fun idx => if znth d idx 0 =? k then elem slice' (zupd d 0 idx)
                     else elem output idx)).

(** The body of the two unrolled loops (lines 365-379). *)
Definition trilinear_step (st : tri_state) (sumdim : list bool) (unroll_dim : Z)
  (slicemul1 slicemul2 slicemul3 : Z) (output : Tensor) (k : Z) : Result Tensor :=
  a <- narrow (tri_i1 st) unroll_dim (k * slicemul1) 1 ;;
  b <- narrow (tri_i2 st) unroll_dim (k * slicemul2) 1 ;;
  buf <- sumproduct_pair a b (sum_dims_12 st) true ;;
  c <- narrow (tri_i3 st) unroll_dim (k * slicemul3) 1 ;;
  buf <- sumproduct_pair buf c (sum_dims_23 st) true ;;
  if negb (bit sumdim unroll_dim) then narrow_add_ output unroll_dim k buf
  else add_ output buf.

(** Lines 381-383: [output.squeeze_(i)] for the summed axes, last first. *)
Fixpoint squeeze_summed (sumdim : list bool) (n : nat) (output : Tensor) : Result Tensor :=
  match n with
  | O => ret output
  | S n' =>
      output' <- (if nth n' sumdim false then squeeze output (Z.of_nat n') else ret output) ;;
      squeeze_summed sumdim n' output'
  end.

Definition _trilinear (i1_ i2_ i3_ : Tensor) (expand1_ expand2_ expand3_ sumdim_ : list Z)
  (unroll_dim : Z) : Result Tensor :=
  let total_dim := dim i1_ + zlen expand1_ in
  _ <- TORCH_CHECK ((0 <=? unroll_dim) && (unroll_dim <? total_dim))
         (TrilinearUnrollDim total_dim) ;;
  expand1 <- dim_list_to_bitset expand1_ total_dim ;;
  expand2 <- dim_list_to_bitset expand2_ total_dim ;;
  expand3 <- dim_list_to_bitset expand3_ total_dim ;;
  sumdim <- dim_list_to_bitset sumdim_ total_dim ;;
  st <- foldM (trilinear_axis expand1 expand2 expand3 sumdim unroll_dim) (zrange total_dim)
              (mkTriState i1_ i2_ i3_ [] [] [] (-1)) ;;
  let slicemul1 := if bit expand1 unroll_dim then 0 else 1 in
  let slicemul2 := if bit expand2 unroll_dim then 0 else 1 in
  let slicemul3 := if bit expand3 unroll_dim then 0 else 1 in
  let output := zeros (output_size st) in
  output <- foldM (trilinear_step st sumdim unroll_dim slicemul1 slicemul2 slicemul3)
                  (zrange (unroll_size st)) output ;;
  squeeze_summed sumdim (length (sizes output)) output.

(** ** bilinear (Linear.cpp, lines 387-414) *)

(** The default of the last parameter of [_trilinear], from its
    declaration [int unroll_dim=1]. *)
Definition default_unroll_dim : Z := 1.

Definition bilinear (input1 input2 weight : Tensor) (bias : option Tensor) : Result Tensor :=
  _ <- TORCH_CHECK (dim input1 =? dim input2) (BilinearInputDims (dim input1) (dim input2)) ;;
  _ <- foldM (fun (_ : unit) i =>
                s1 <- size input1 i ;;
                s2 <- size input2 i ;;
                TORCH_CHECK (s1 =? s2) (BilinearBatch i s1 s2))
             (zrange (dim input1 - 1)) tt ;;
  l1 <- size input1 (dim input1 - 1) ;;
  w1 <- size weight 1 ;;
  _ <- TORCH_CHECK (l1 =? w1) (BilinearInput1 l1 w1) ;;
  l2 <- size input2 (dim input2 - 1) ;;
  w2 <- size weight 2 ;;
  _ <- TORCH_CHECK (l2 =? w2) (BilinearInput2 l2 w2) ;;
  _ <- match bias with
       | None => ret tt
       | Some b =>
           b0 <- size b 0 ;;
           w0 <- size weight 0 ;;
           TORCH_CHECK (b0 =? w0) (BilinearBias b0 w0)
       end ;;
  w0 <- size weight 0 ;;
  let output_size := removelast (sizes input1) ++ [w0] in
  f1 <- size input1 (-1) ;;
  input1_flattened <- view input1 [-1; f1] ;;
  f2 <- size input2 (-1) ;;
  input2_flattened <- view input2 [-1; f2] ;;
  output <- _trilinear input1_flattened weight input2_flattened
              [1; 3] [0] [1; 2] [2; 3] default_unroll_dim ;;
  output <- reshape output output_size ;;
  match bias with
  | Some b => add output b
  | None => ret output
  end.

(** ** tensordot (Linear.cpp, lines 418-472) *)

(** [int s = int64_t]: the value is narrowed to 32 bits. *)
Definition to_int (z : Z) : Z := (z + 2147483648) mod 4294967296 - 2147483648.

Record dot_state : Type := mkDotState {
  dot_t1 : Tensor;
  dot_t2 : Tensor;
  csize : Z
}.

(** One contracted pair (lines 424-434). *)
Definition tensordot_pair (input1 input2 : Tensor) (st : dot_state) (d : Z * Z)
  : Result dot_state :=
  let '(d1, d2) := d in
  z1 <- size input1 d1 ;;
  z2 <- size input2 d2 ;;
  let s1 := to_int z1 in
  let s2 := to_int z2 in
  if s2 =? 1 then
    t1 <- sum (dot_t1 st) [d1] true ;;
    ret (mkDotState t1 (dot_t2 st) (csize st))
  else if s1 =? 1 then
    t2 <- sum (dot_t2 st) [d2] true ;;
    ret (mkDotState (dot_t1 st) t2 (csize st))
  else
    _ <- TORCH_CHECK (s1 =? s2) (TensordotContracted s1 d1 s2 d2) ;;
    ret (mkDotState (dot_t1 st) (dot_t2 st) (csize st * s1)).

(** The axes of [t] that are not flagged, in order, with the product and
    the list of their extents (lines 447-453 and 460-466). *)
Definition free_axes (cdims : list bool) (t : Tensor) (n : Z)
  : Result (list Z * Z * list Z) :=
  foldM (fun '(p, sz, rs) i =>
           if negb (bit cdims i) then
             s <- size t i ;;
             ret (p ++ [i], sz * s, rs ++ [s])
           else ret (p, sz, rs))
        (zrange n) ([], 1, []).

Definition tensordot (input1 input2 : Tensor) (dims1 dims2 : list Z) : Result Tensor :=
  _ <- TORCH_CHECK (length dims1 =? length dims2)%nat TensordotLength ;;
  st <- foldM (tensordot_pair input1 input2) (combine dims1 dims2)
              (mkDotState input1 input2 1) ;;
  let t1 := dot_t1 st in
  let t2 := dot_t2 st in
  cdims1 <- dim_list_to_bitset dims1 (dim input1) ;;
  cdims2 <- dim_list_to_bitset dims2 (dim input2) ;;
  '(p1, size1, rsizes1) <- free_axes cdims1 t1 (dim input1) ;;
  let p1 := p1 ++ dims1 in
  '(p2, size2, rsizes2) <- free_axes cdims2 t2 (dim input2) ;;
  let p2 := dims2 ++ p2 in
  let rsizes := rsizes1 ++ rsizes2 in
  t1 <- permute t1 p1 ;;
  t1 <- reshape t1 [size1; csize st] ;;
  t2 <- permute t2 p2 ;;
  t2 <- reshape t2 [csize st; size2] ;;
  r <- mm t1 t2 ;;
  reshape r rsizes.


(** ** Reference results

    What the contraction engine is meant to compute, stated directly on
    the elements. *)

(** The ordinary product of an [n x m] and an [m x p] matrix. *)
Definition matrix_product (A B : Tensor) : Tensor :=
  mkTensor [znth 0 (sizes A) 0; znth 1 (sizes B) 0]
    (fun idx => sumZ (zrange (znth 1 (sizes A) 0))
                     (fun j => elem A [znth 0 idx 0; j] * elem B [j; znth 1 idx 0])).

(** The diagonal of a square matrix, and its trace as a rank-0 tensor. *)
Definition diagonal_vector (A : Tensor) : Tensor :=
  mkTensor [znth 0 (sizes A) 0] (fun idx => elem A [znth 0 idx 0; znth 0 idx 0]).

Definition trace_scalar (A : Tensor) : Tensor :=
  mkTensor [] (fun _ => sumZ (zrange (znth 0 (sizes A) 0)) (fun k => elem A [k; k])).

(** Number of times [label] is written in the subscripts of the operands
    (spaces are not subscripts). *)
Definition subscripts (labels : string) : list Z :=
  map label_of (filter (fun c => negb (is_space c)) (list_ascii_of_string labels)).

Definition count_of (l : list Z) (label : Z) : Z := Z.of_nat (count_occ Z.eq_dec l label).

Definition occurrences (operand_labels : list string) (label : Z) : Z :=
  sumZ operand_labels (fun labels => count_of (subscripts labels) label).

(** The labels that occur exactly once, in ascending order. *)
Definition free_labels (operand_labels : list string) : list Z :=
  filter (fun label => occurrences operand_labels label =? 1) (zrange total_labels).

(** [(left * right).sum(sum_dims)]: the broadcast product, reduced over
    the listed axes. *)
Definition product_sum (left right : Tensor) (sum_dims : list Z) (keepdim : bool)
  : Result Tensor :=
  x <- mul left right ;;
  mask <- dim_list_to_bitset sum_dims (dim x) ;;
  ret (sum_mask x mask (length (sizes x)) keepdim).

(** The axes of a rank-[n] tensor that are not in [dims], ascending. *)
Definition free_of (dims : list Z) (n : Z) : list Z :=
  filter (fun i => negb (existsb (Z.eqb i) dims)) (zrange n).

Definition extents (t : Tensor) (axes : list Z) : list Z :=
  map (fun d => znth d (sizes t) 0) axes.

(** The range of each contracted pair in the broadcast product. *)
Definition contracted_extents (A B : Tensor) (dims1 dims2 : list Z) : list Z :=
  zipWith (fun a b => if a =? 1 then b else a) (extents A dims1) (extents B dims2).

(** The contraction of [A] and [B] over the pairs [(dims1[k], dims2[k])]:
    the entry at the free coordinates [ia] of [A] followed by the free
    coordinates [ib] of [B] is the sum, over all coordinates [c] of the
    paired axes, of the product of the entries of [A] and [B], each read
    with broadcasting on its paired axes.  [unpermute axes coords] places
    the coordinates on the axes. *)
Definition tensordot_ref (A B : Tensor) (dims1 dims2 : list Z) : Tensor :=
  let f1 := free_of dims1 (dim A) in
  let f2 := free_of dims2 (dim B) in
  mkTensor (extents A f1 ++ extents B f2)
    (fun idx =>
       let ia := firstn (length f1) idx in
       let ib := skipn (length f1) idx in
       sumZ (indices (contracted_extents A B dims1 dims2))
            (fun c => elem A (unpermute (f1 ++ dims1)
                                (ia ++ broadcast_coords (extents A dims1) c)) *
                      elem B (unpermute (dims2 ++ f2)
                                (broadcast_coords (extents B dims2) c ++ ib)))).

(** The contracted pairs the contraction is stated for: axes in range,
    extents that fit an [int], equal or broadcast. *)
Definition compatible (ab : Z * Z) : Prop :=
  0 <= fst ab /\ 0 <= snd ab /\ (fst ab = snd ab \/ fst ab = 1 \/ snd ab = 1).

Definition good_pair (A B : Tensor) (d : Z * Z) : Prop :=
  0 <= fst d < dim A /\ 0 <= snd d < dim B /\
  znth (fst d) (sizes A) 0 < 2147483648 /\ znth (snd d) (sizes B) 0 < 2147483648 /\
  compatible (znth (fst d) (sizes A) 0, znth (snd d) (sizes B) 0).

(** What [tensordot] does with a contracted pair of extents [(a, b)]:
    which operand it sums beforehand, and the extent both operands are
    left with. *)
Definition presum1 (ab : Z * Z) : option Z := if snd ab =? 1 then Some (fst ab) else None.
Definition presum2 (ab : Z * Z) : option Z :=
  if snd ab =? 1 then None else if fst ab =? 1 then Some (snd ab) else None.
Definition common_extent (ab : Z * Z) : Z :=
  if (snd ab =? 1) || (fst ab =? 1) then 1 else fst ab.
Definition broadcast_extent (ab : Z * Z) : Z := if fst ab =? 1 then snd ab else fst ab.

Definition pair_extents (A B : Tensor) (pairs : list (Z * Z)) : list (Z * Z) :=
  map (fun d => (znth (fst d) (sizes A) 0, znth (snd d) (sizes B) 0)) pairs.

Definition presummed1 (A B : Tensor) (pairs : list (Z * Z)) : list (Z * option Z) :=
  map (fun d => (fst d, presum1 (znth (fst d) (sizes A) 0, znth (snd d) (sizes B) 0))) pairs.

Definition presummed2 (A B : Tensor) (pairs : list (Z * Z)) : list (Z * option Z) :=
  map (fun d => (snd d, presum2 (znth (fst d) (sizes A) 0, znth (snd d) (sizes B) 0))) pairs.

(** A function of the contracted coordinates, with the coordinates
    flagged [Some a] summed over [0 .. a-1] beforehand. *)
Fixpoint presum (modes : list (option Z)) (F : list Z -> Z) (c : list Z) : Z :=
  match modes, c with
  | [], _ => F []
  | Some a :: ms, _ :: c' => sumZ (zrange a) (fun j => presum ms (fun r => F (j :: r)) c')
  | None :: ms, v :: c' => presum ms (fun r => F (v :: r)) c'
  | _ :: _, [] => 0
  end.

(** A tensor with some of its axes summed (and kept with extent 1). *)
Definition presum_axis (t : Tensor) (op : Z * option Z) : Tensor :=
  match snd op with
  | Some _ => sum_axis t (Z.to_nat (fst op)) true
  | None => t
  end.

Definition presum_axes (t : Tensor) (ops : list (Z * option Z)) : Tensor :=
  fold_left presum_axis ops t.

(** Pre-summing [left] along axis [i] and multiplying with broadcasting. *)
Definition presum_mul (left right : Tensor) (i : Z) : Result Tensor :=
  left' <- sum left [i] true ;;
  mul left' right.

(** [(i1.unsqueeze(expand1) * i2.unsqueeze(expand2) * i3.unsqueeze(expand3)).sum(sumdim)],
    the result documented for [_trilinear]; axes are inserted in
    ascending order, and the reduction is [Tensor::sum], for which an
    empty list of axes means all of them. *)
Fixpoint unsqueeze_all (t : Tensor) (expand : list bool) (axes : list Z) : Result Tensor :=
  match axes with
  | [] => ret t
  | i :: axes' =>
      t' <- (if bit expand i then unsqueeze t i else ret t) ;;
      unsqueeze_all t' expand axes'
  end.

Definition trilinear_ref (i1 i2 i3 : Tensor) (expand1_ expand2_ expand3_ sumdim_ : list Z)
  : Result Tensor :=
  let total_dim := dim i1 + zlen expand1_ in
  expand1 <- dim_list_to_bitset expand1_ total_dim ;;
  expand2 <- dim_list_to_bitset expand2_ total_dim ;;
  expand3 <- dim_list_to_bitset expand3_ total_dim ;;
  a <- unsqueeze_all i1 expand1 (zrange total_dim) ;;
  b <- unsqueeze_all i2 expand2 (zrange total_dim) ;;
  c <- unsqueeze_all i3 expand3 (zrange total_dim) ;;
  ab <- mul a b ;;
  abc <- mul ab c ;;
  sum abc sumdim_ false.

(** [y[n, o] = bias[o] + sum_{i,j} x1[n, i] * weight[o, i, j] * x2[n, j]],
    with [n] ranging over the leading (batch) axes of [x1]. *)
Definition bilinear_ref (x1 x2 weight : Tensor) (bias : option Tensor) : Tensor :=
  mkTensor (removelast (sizes x1) ++ [znth 0 (sizes weight) 0])
    (fun idx =>
       let n := removelast idx in
       let o := last idx 0 in
       (match bias with Some b => elem b [o] | None => 0 end) +
       sumZ (zrange (znth 1 (sizes weight) 0)) (fun i =>
         sumZ (zrange (znth 2 (sizes weight) 0)) (fun j =>
           elem x1 (n ++ [i]) * elem weight [o; i; j] * elem x2 (n ++ [j])))).

(** ** The pairwise order of the specification

    The specification describes, beside the order of [einsum], a pairwise
    evaluation order: the pairwise contraction is applied to the aligned
    operands one after the other, each step forming the product of the
    result so far and the next operand, reduced over the contraction
    slots that no remaining operand needs.  Linear.cpp runs no such
    order ([einsum] multiplies all the operands and reduces once); the
    definitions below follow the words of the specification. *)





(** ** Notions for the analysis of sumproduct_pair

    Sums over several axes, permutations of the axes, the groups of axes
    that [sumproduct_pair] forms, and the axes it drops. *)

(** [msum ax F idx]: the sum of [F] over the indices obtained from [idx]
    by letting the coordinate of every axis [d] listed in [ax] range over
    its extent. *)
Fixpoint msum (ax : list (nat * Z)) (F : list Z -> Z) (idx : list Z) : Z :=
  match ax with
  | [] => F idx
  | (d, e) :: ax' => sumZ (zrange e) (fun j => msum ax' F (upd d j idx))
  end.

(** For every summed axis [a] the two factors have extents [l] and [r],
    equal or one of them 1.  The factor that has extent 1 does not depend
    on the coordinate; the other one can be summed along the axis before
    the product is formed, and the axis then ranges over one coordinate
    only.  [pre_left] and [pre_right] list the axes summed beforehand,
    [kept_extent] is the range left to the axis and [product_extent] its
    range in the product. *)
Definition pre_left (x : nat * Z * Z) : list (nat * Z) :=
  let '(a, l, r) := x in if (1 <? l) && negb (1 <? r) then [(a, l)] else [].
Definition pre_right (x : nat * Z * Z) : list (nat * Z) :=
  let '(a, l, r) := x in if negb (1 <? l) && (1 <? r) then [(a, r)] else [].
Definition kept_extent (x : nat * Z * Z) : nat * Z :=
  let '(a, l, r) := x in (a, if (1 <? l) && (1 <? r) then l else 1).
Definition product_extent (x : nat * Z * Z) : nat * Z :=
  let '(a, l, r) := x in (a, if l =? 1 then r else l).
Definition axis_of (x : nat * Z * Z) : nat := fst (fst x).

Definition independent (a : nat) (F : list Z -> Z) : Prop :=
  forall x v, F (upd a v x) = F x.

Definition summable (F G : list Z -> Z) (x : nat * Z * Z) : Prop :=
  let '(a, l, r) := x in
  1 <= l /\ 1 <= r /\ (l = r \/ l = 1 \/ r = 1) /\
  (l = 1 -> independent a F) /\ (r = 1 -> independent a G).

(** The coordinates (or extents) of the listed axes. *)
Definition gather (p x : list Z) : list Z := map (fun a => znth a x 0) p.

(** [opermutation] of [sumproduct_pair]: the position of every axis. *)
Definition inverse (p : list Z) : list Z :=
  map (fun a => Z.of_nat (index_of a p)) (zrange (zlen p)).

Definition is_perm (p : list Z) : Prop :=
  NoDup p /\ Forall (fun d => 0 <= d < zlen p) p.

Definition zmasked (mask : list bool) (k : Z) : list Z := filter (bit mask) (zrange k).

Definition with_ext (s : list Z) (axes : list Z) : list (nat * Z) :=
  map (fun i => (Z.to_nat i, znth i s 0)) axes.

(** Extents that go together in a product: positive, and equal or 1. *)
Definition broadcastable (a b : Z) : Prop := 1 <= a /\ 1 <= b /\ (a = b \/ a = 1 \/ b = 1).

Definition product_sizes (a b : list Z) : list Z :=
  zipWith (fun x y => if x =? 1 then y else x) a b.

Definition nontrivial (s : list Z) (i : Z) : bool := 1 <? znth i s 0.

Definition in_lro (ls rs : list Z) (mask : list bool) (i : Z) : bool :=
  negb (bit mask i) && nontrivial ls i && nontrivial rs i.
Definition in_lo (ls rs : list Z) (mask : list bool) (i : Z) : bool :=
  negb (bit mask i) && nontrivial ls i && negb (nontrivial rs i).
Definition in_ro (ls rs : list Z) (mask : list bool) (i : Z) : bool :=
  negb (bit mask i) && negb (nontrivial ls i).
Definition sum_left (ls rs : list Z) (mask : list bool) (i : Z) : bool :=
  bit mask i && nontrivial ls i && negb (nontrivial rs i).
Definition sum_right (ls rs : list Z) (mask : list bool) (i : Z) : bool :=
  bit mask i && negb (nontrivial ls i) && nontrivial rs i.
Definition sum_both (ls rs : list Z) (mask : list bool) (i : Z) : bool :=
  bit mask i && nontrivial ls i && nontrivial rs i.

Definition presum_ops (s : list Z) (axes : list Z) : list (Z * option Z) :=
  map (fun i => (i, Some (znth i s 0))) axes.

(** The state of the loop after the axes below [k]. *)
Definition classified (left right : Tensor) (mask : list bool) (k : Z) : pair_state :=
  let ls := sizes left in
  let rs := sizes right in
  mkPairState
    (presum_axes left (presum_ops ls (filter (sum_left ls rs mask) (zrange k))))
    (presum_axes right (presum_ops rs (filter (sum_right ls rs mask) (zrange k))))
    (filter (in_lro ls rs mask) (zrange k))
    (filter (in_lo ls rs mask) (zrange k))
    (filter (in_ro ls rs mask) (zrange k))
    (prodZ (gather (filter (in_lro ls rs mask) (zrange k)) ls))
    (prodZ (gather (filter (in_lo ls rs mask) (zrange k)) ls))
    (prodZ (gather (filter (in_ro ls rs mask) (zrange k)) rs))
    (prodZ (gather (filter (sum_both ls rs mask) (zrange k)) ls)).

(** The flagged axes below [k], in ascending order, in front of [hi]. *)
Fixpoint prepend_masked (mask : list bool) (k : nat) (hi : list nat) : list nat :=
  match k with
  | O => hi
  | S k' => prepend_masked mask k' (if nth k' mask false then k' :: hi else hi)
  end.

(** Coordinate 0 inserted at the listed axes, lowest axis first. *)
Definition insert_zeros (axes : list nat) (idx : list Z) : list Z :=
  fold_left (fun y d => insert_at d 0 y) axes idx.

(** The listed axes erased, highest axis first. *)
Definition erase_axes (axes : list nat) (s : list Z) : list Z :=
  fold_right (fun d s' => erase d s') s axes.

(** Strictly increasing axes within [lb, ub). *)
Fixpoint ascending (lb ub : nat) (l : list nat) : Prop :=
  match l with
  | [] => True
  | a :: l' => (lb <= a < ub)%nat /\ ascending (S a) ub l'
  end.

(** An axis on which both operands have an extent above 1, and not the
    same one. *)
Definition clashes (ls rs : list Z) (k : Z) : bool :=
  (1 <? znth k ls 0) && (1 <? znth k rs 0) && negb (znth k ls 0 =? znth k rs 0).

(** The broadcast product of two operands of equal rank. *)
Definition product_of (a b : Tensor) : Tensor :=
  mkTensor (product_sizes (sizes a) (sizes b))
    (fun idx => elem a (expand_index (sizes a) idx) * elem b (expand_index (sizes b) idx)).

(** ** Notions for the analysis of einsum *)

(** The subscripts of an operand: its characters other than spaces. *)
Definition nonspace (cs : list ascii) : list ascii :=
  filter (fun c => negb (is_space c)) cs.

(** An operand whose subscripts are letters, one per axis. *)
Definition well_labelled (operand : Tensor) (labels : string) : Prop :=
  Forall (fun c => is_label c = true) (nonspace (list_ascii_of_string labels)) /\
  zlen (nonspace (list_ascii_of_string labels)) = dim operand.

(** The characters after the arrow at position [p]. *)
Definition output_chars (equation : string) (p : nat) : list ascii :=
  list_ascii_of_string (substring (p + 2) (String.length equation - (p + 2)) equation).

(** The subscripts of an operand, as characters. *)
Definition operand_chars (w : string) : list ascii := nonspace (list_ascii_of_string w).

(** The slot of the plan that carries the subscript [c]. *)
Definition slot (pl : plan) (c : ascii) : Z := znth (label_of c) (label_out_index pl) 0.

(** The coordinates an operand with subscripts [w] is read at, for the
    coordinates [idx] of all the slots. *)
Definition coords (pl : plan) (w : string) (idx : list Z) : list Z :=
  map (fun c => znth (slot pl c) idx 0) (operand_chars w).

(** The slots of a plan are the positions of [permuted_labels]; [lc0]
    holds the occurrence counts of the labels. *)
Definition plan_inv (lc0 : list Z) (pl : plan) : Prop :=
  zlen (label_out_index pl) = total_labels /\
  zlen (plan_label_count pl) = total_labels /\
  zlen (permuted_labels pl) = out_index pl /\
  (forall t, 0 <= t < out_index pl ->
     0 <= znth t (permuted_labels pl) 0 < total_labels /\
     0 < znth (znth t (permuted_labels pl) 0) lc0 0 /\
     znth (znth t (permuted_labels pl) 0) (label_out_index pl) 0 = t) /\
  (forall l, 0 <= l < total_labels ->
     znth l (label_out_index pl) 0 = -1 \/
     (0 <= znth l (label_out_index pl) 0 < out_index pl /\
      znth (znth l (label_out_index pl) 0) (permuted_labels pl) 0 = l)) /\
  (forall l, 0 <= l < total_labels ->
     znth l (plan_label_count pl) 0 = znth l lc0 0 \/
     (znth l (plan_label_count pl) 0 = -1 /\ znth l (label_out_index pl) 0 <> -1)).

(** [perm_shape] after the subscripts with slots [slots] have been
    placed, the first on axis [j]. *)
Fixpoint place (slots : list Z) (j : Z) (ps : list Z) : list Z :=
  match slots with
  | [] => ps
  | s :: slots' => place slots' (j + 1) (zupd s j ps)
  end.

(** [perm_shape] after the slots still at -1 have been given the axes
    from [j] on. *)
Fixpoint fill (ps : list Z) (j : Z) : list Z :=
  match ps with
  | [] => []
  | x :: ps' => if x =? -1 then j :: fill ps' (j + 1) else x :: fill ps' j
  end.

(** The number of slots still at -1. *)
Definition count_free (ps : list Z) : Z := zlen (filter (Z.eqb (-1)) ps).

(** The distinct labels of a list, in the order of their first
    occurrence, after the labels [D]. *)
Fixpoint firsts (D : list Z) (ls : list Z) : list Z :=
  match ls with
  | [] => D
  | l :: ls' => firsts (if existsb (Z.eqb l) D then D else D ++ [l]) ls'
  end.

(** The state of the alignment loop of an operand [A] with extents
    [ext] per label, after the labels [pre]: the distinct labels [D] met
    so far are the leading axes of the operand, in this order, and the
    axes still to come have the extents [rs]. *)
Definition labels_placed (loi : list Z) (oi : Z) (A : Tensor) (ext : Z -> Z)
  (st : align_state) (D pre rs : list Z) : Prop :=
  NoDup D /\
  (forall l, In l D <-> In l pre) /\
  as_j st = zlen D /\
  zlen (label_dim st) = total_labels /\
  (forall l, 0 <= l < total_labels ->
     znth l (label_dim st) 0 =
     if existsb (Z.eqb l) D then Z.of_nat (index_of l D) else -1) /\
  perm_shape st = place (map (fun l => znth l loi 0) D) 0 (repeat (-1) (Z.to_nat oi)) /\
  sizes (as_operand st) = map ext D ++ rs /\
  (forall x y, length x = length D -> length y = length rs ->
     elem (as_operand st) (x ++ y) =
     elem A (map (fun l => nth (index_of l D) x 0) pre ++ y)).

(** The shape [E] of all the slots, with extent 1 on the slots that an
    operand does not carry. *)
Definition masked (M : Z -> bool) (E : list Z) : list Z :=
  map (fun t => if M t then znth t E 0 else 1) (zrange (zlen E)).

(** The slots that an operand with subscripts [w] carries. *)
Definition carried (pl : plan) (w : string) (t : Z) : bool :=
  existsb (Z.eqb t) (map (slot pl) (operand_chars w)).

(** The element of an operand that goes into the product at the
    coordinates [idx] of all the slots. *)
Definition factor (pl : plan) (aw : Tensor * string) (idx : list Z) : Z :=
  elem (fst aw) (coords pl (snd aw) idx).

(** An array laid out on the slots: shape [E] restricted to the slots of
    [M], and element [f idx] at the coordinates [idx]. *)
Definition aligned (E : list Z) (B : Tensor) (M : Z -> bool) (f : list Z -> Z) : Prop :=
  sizes B = masked M E /\
  forall idx, valid_index E idx -> elem B (broadcast_coords (sizes B) idx) = f idx.

(** The labels of the output: those written after the arrow or, without
    an arrow, those that occur once, in ascending order. *)
Definition output_labels (equation : string) : list Z :=
  match arrow_pos equation with
  | Some p => map label_of (nonspace (output_chars equation p))
  | None => free_labels (split_operand_labels equation)
  end.

(** The coordinate of label [l] when the labels [labels] have the
    coordinates [idx]. *)
Definition coord_of (labels idx : list Z) (l : Z) : Z := nth (index_of l labels) idx 0.

(** ** Notions for the analysis of _trilinear *)

(** An operand [t0] whose axes are the axes of [E] not listed in [e],
    after the loop has handled the axes below [i]: the listed axes below
    [i] have been inserted. *)
Definition unsqueezed (E e : list Z) (t0 t : Tensor) (i : Z) : Prop :=
  sizes t =
    map (fun j => if existsb (Z.eqb j) e then 1 else znth j E 0) (zrange i) ++
    gather (filter (fun j => negb (existsb (Z.eqb j) e)) (iota (zlen E - i) i)) E /\
  forall x, length x = length (sizes t) ->
    elem t x =
    elem t0 (gather (filter (fun j => negb (existsb (Z.eqb j) e)) (zrange i)) x ++
             skipn (Z.to_nat i) x).

(** The value of [s] at the end of the turn for axis [j]: the extent of
    the axis, and 0 when the axis is inserted in all three operands. *)
Definition carried_extent (E e1 e2 e3 : list Z) (j : Z) : Z :=
  if existsb (Z.eqb j) e1 && existsb (Z.eqb j) e2 && existsb (Z.eqb j) e3 then 0
  else znth j E 0.

(** The state of the loop after the axes below [i]. *)
Definition axes_done (E e1 e2 e3 sd : list Z) (u : Z) (i1 i2 i3 : Tensor) (i : Z)
  (st : tri_state) : Prop :=
  unsqueezed E e1 i1 (tri_i1 st) i /\
  unsqueezed E e2 i2 (tri_i2 st) i /\
  unsqueezed E e3 i3 (tri_i3 st) i /\
  output_size st =
    map (fun j => if existsb (Z.eqb j) sd then 1 else carried_extent E e1 e2 e3 j) (zrange i) /\
  sum_dims_12 st =
    filter (fun j => existsb (Z.eqb j) e3 && (existsb (Z.eqb j) sd && negb (j =? u)))
           (zrange i) /\
  sum_dims_23 st =
    filter (fun j => negb (existsb (Z.eqb j) e3) && (existsb (Z.eqb j) sd && negb (j =? u)))
           (zrange i) /\
  unroll_size st = if u <? i then carried_extent E e1 e2 e3 u else -1.

(** The element of an operand with the axes of [E] outside [e], at the
    coordinates [idx] of all the axes. *)
Definition axis_factor (E e : list Z) (t0 : Tensor) (idx : list Z) : Z :=
  elem t0 (gather (free_of e (zlen E)) idx).

(** The shape of the output of [_trilinear] before the summed axes are
    dropped. *)
Definition kept_shape (E sd : list Z) : list Z :=
  map (fun j => if existsb (Z.eqb j) sd then 1 else znth j E 0) (zrange (zlen E)).

(** The product of the three operands at the coordinates of all the
    axes. *)
Definition triple_product (E e1 e2 e3 : list Z) (i1 i2 i3 : Tensor) (x : list Z) : Z :=
  axis_factor E e1 i1 x * axis_factor E e2 i2 x * axis_factor E e3 i3 x.

(** An array on the axes of [E] that [sdm] does not flag, whose entries
    are the sums of [H] over the axes [sd]. *)
Definition contracted (E sd : list Z) (sdm : list bool) (H : list Z -> Z) (R : Tensor) : Prop :=
  sizes R = erase_axes (prepend_masked sdm (length E) []) (kept_shape E sd) /\
  forall o, valid_index (sizes R) o ->
    elem R o = msum (with_ext E sd) H (insert_zeros (prepend_masked sdm (length E) []) o).

(** ** Axes counted from the end *)

(** An axis of a rank-[n] array counted from the end when negative. *)
Definition wrap_axis (n d : Z) : Z := if d <? 0 then d + n else d.

(** A pair of contracted axes, one of each operand. *)
Definition wrap_pair (n m : Z) (d : Z * Z) : Z * Z :=
  (wrap_axis n (fst d), wrap_axis m (snd d)).

(** Lines 441-471 of [tensordot] for contracted axes [w1], [w2] that are
    in range and have passed the loop over the pairs. *)
Definition tensordot_tail (A B : Tensor) (w1 w2 : list Z) : Result Tensor :=
  let pairs := combine w1 w2 in
  let t1 := presum_axes A (presummed1 A B pairs) in
  let t2 := presum_axes B (presummed2 A B pairs) in
  let cs := 1 * prodZ (map common_extent (pair_extents A B pairs)) in
  let f1 := free_of w1 (dim A) in
  let f2 := free_of w2 (dim B) in
  t1' <- permute t1 (f1 ++ w1) ;;
  t1' <- reshape t1' [prodZ (extents t1 f1); cs] ;;
  t2' <- permute t2 (w2 ++ f2) ;;
  t2' <- reshape t2' [cs; prodZ (extents t2 f2)] ;;
  r <- mm t1' t2' ;;
  reshape r (extents t1 f1 ++ extents t2 f2).

(** ** Broadcast operands of einsum *)

(** The operand has an axis of extent other than 1 on slot [t]. *)
Definition spans (pl : plan) (aw : Tensor * string) (t : Z) : bool :=
  existsb (fun ac => (slot pl (snd ac) =? t) && negb (fst ac =? 1))
          (combine (sizes (fst aw)) (operand_chars (snd aw))).

(** The element of an operand that goes into the product at the
    coordinates [idx] of all the slots, when the operand is broadcast:
    an axis of extent 1 is read at 0. *)
Definition broadcast_factor (pl : plan) (aw : Tensor * string) (idx : list Z) : Z :=
  elem (fst aw) (broadcast_coords (sizes (fst aw)) (coords pl (snd aw) idx)).

(** ** Equations written from their parts *)

(** A string without its spaces. *)
Definition strip_spaces (s : string) : string :=
  string_of_list_ascii (nonspace (list_ascii_of_string s)).

(** The equation written from its subscript groups and, with an arrow,
    the subscripts of the output. *)
Fixpoint join_groups (groups : list string) : string :=
  match groups with
  | [] => EmptyString
  | g :: gs => match gs with
               | [] => g
               | _ :: _ => (g ++ String "," (join_groups gs))%string
               end
  end.

Definition equation_of (groups : list string) (rhs : option string) : string :=
  match rhs with
  | Some r => (join_groups groups ++ String "-" (String ">" r))%string
  | None => join_groups groups
  end.

(** A subscript group: no comma and no dash. *)
Definition group (s : string) : Prop :=
  Forall (fun c => c <> ","%char /\ c <> "-"%char) (list_ascii_of_string s).

(** A string without a dash: it has no arrow. *)
Definition dashless (s : string) : Prop :=
  Forall (fun c => c <> "-"%char) (list_ascii_of_string s).

(** ** Notions for the analysis of the pairwise order *)




(** ** Writes outside a vector *)

(** The run reaches a write at position [i] outside a [std::vector].  C++
    leaves the behaviour undefined from there on: the model stops, and
    says nothing about what a compiled program does next. *)
Definition writes_outside (r : Result Tensor) (i : Z) : Prop :=
  r = inl (VectorOutOfBounds i).

(** ** Sample arrays *)

Definition A22 : Tensor := of_list [2; 2] [1; 2; 3; 4].
Definition B22 : Tensor := of_list [2; 2] [5; 6; 7; 8].
Definition v2 : Tensor := of_list [2] [1; 2].
Definition A23 : Tensor := of_list [2; 3] [1; 2; 3; 4; 5; 6].
Definition W223 : Tensor := of_list [2; 2; 3] [1; 0; 0; 0; 1; 0; 1; 1; 1; 1; 1; 1].
Definition bias2 : Tensor := of_list [2] [100; 200].
(** Arrays with an axis of extent 0 have no element. *)
Definition empty0 : Tensor := of_list [0] [].
Definition one1 : Tensor := of_list [1] [3].
Definition empty02 : Tensor := of_list [0; 2] [].
Definition empty03 : Tensor := of_list [0; 3] [].
Definition u2 : Tensor := of_list [2] [2; 3].
Definition v2' : Tensor := of_list [2] [5; 7].
Definition w2 : Tensor := of_list [2] [1; 10].

(** The plan of ["ij,jk"] on two matrices. *)
Definition plan_ij_jk : plan :=
  Eval vm_compute in
    match einsum_plan "ij,jk" [A22; B22] with
    | inr (_, pl, _) => pl
    | inl _ => mkPlan [] [] [] 0
    end.

(** The observable content of a result: extents and row-major elements. *)
Definition observe (r : Result Tensor) : Error + (list Z * list Z) :=
  match r with
  | inl e => inl e
  | inr t => inr (sizes t, to_list t)
  end.

Definition R13 : Tensor := of_list [1; 3] [7; 8; 9].

(** * Properties *)

(** ** Lists and axis numbers *)

Lemma zlen_app {A} (l1 l2 : list A) : zlen (l1 ++ l2) = zlen l1 + zlen l2.
Proof. unfold zlen. rewrite length_app. lia. Qed.

Lemma zlen_cons {A} (x : A) l : zlen (x :: l) = 1 + zlen l.
Proof. unfold zlen. simpl length. lia. Qed.

Lemma zlen_nonneg {A} (l : list A) : 0 <= zlen l.
Proof. unfold zlen. lia. Qed.

Lemma to_nat_zlen {A} (l : list A) : Z.to_nat (zlen l) = length l.
Proof. unfold zlen. lia. Qed.

Lemma maybe_wrap_dim_id d n b : 0 <= d < n -> maybe_wrap_dim d n b = inr d.
Proof.
  intros H. unfold maybe_wrap_dim.
  replace (n <=? 0) with false by (symmetry; apply Z.leb_gt; lia).
  cbn [andb].
  replace (d <? - n) with false by (symmetry; apply Z.ltb_ge; lia).
  replace (n - 1 <? d) with false by (symmetry; apply Z.ltb_ge; lia).
  replace (d <? 0) with false by (symmetry; apply Z.ltb_ge; lia).
  reflexivity.
Qed.

Lemma maybe_wrap_dim_last n : 0 < n -> maybe_wrap_dim (-1) n true = inr (n - 1).
Proof.
  intros H. unfold maybe_wrap_dim.
  replace (n <=? 0) with false by (symmetry; apply Z.leb_gt; lia).
  cbn [andb negb].
  replace (-1 <? - n) with false by (symmetry; apply Z.ltb_ge; lia).
  replace (n - 1 <? -1) with false by (symmetry; apply Z.ltb_ge; lia).
  cbn [orb]. change (-1 <? 0) with true. cbv iota.
  unfold ret. f_equal. lia.
Qed.

Lemma size_in_range t d : 0 <= d < dim t -> size t d = inr (znth d (sizes t) 0).
Proof. intros H. unfold size. rewrite maybe_wrap_dim_id by assumption. reflexivity. Qed.

Lemma nth_app_mid {A} (l1 l2 : list A) x d : nth (length l1) (l1 ++ x :: l2) d = x.
Proof. rewrite app_nth2 by lia. rewrite Nat.sub_diag. reflexivity. Qed.

Lemma firstn_app_exact {A} (l1 l2 : list A) : firstn (length l1) (l1 ++ l2) = l1.
Proof. rewrite firstn_app, Nat.sub_diag, firstn_all. simpl. apply app_nil_r. Qed.

Lemma skipn_app_exact {A} (l1 l2 : list A) : skipn (length l1) (l1 ++ l2) = l2.
Proof. rewrite skipn_app, Nat.sub_diag, skipn_all. reflexivity. Qed.

Lemma erase_app {A} (l1 l2 : list A) x : erase (length l1) (l1 ++ x :: l2) = l1 ++ l2.
Proof.
  unfold erase. rewrite firstn_app_exact.
  change (S (length l1)) with (1 + length l1)%nat.
  rewrite <- skipn_skipn. rewrite skipn_app_exact. reflexivity.
Qed.

Lemma insert_at_app {A} (l1 l2 : list A) x : insert_at (length l1) x (l1 ++ l2) = l1 ++ x :: l2.
Proof. unfold insert_at. rewrite firstn_app_exact, skipn_app_exact. reflexivity. Qed.

Lemma upd_app {A} (l1 l2 : list A) x y : upd (length l1) y (l1 ++ x :: l2) = l1 ++ y :: l2.
Proof. induction l1; simpl; [reflexivity|]. f_equal. apply IHl1. Qed.

Lemma removelast_snoc {A} (l : list A) x : removelast (l ++ [x]) = l.
Proof. apply removelast_last. Qed.

Lemma last_snoc {A} (l : list A) x d : last (l ++ [x]) d = x.
Proof. apply last_last. Qed.


Lemma swap_ends {A} (l1 l2 : list A) x y d :
  swap (length l1) (length (l1 ++ x :: l2)) (l1 ++ x :: l2 ++ [y]) d = l1 ++ y :: l2 ++ [x].
Proof.
  unfold swap.
  assert (E : l1 ++ x :: l2 ++ [y] = (l1 ++ x :: l2) ++ [y])
    by (rewrite <- app_assoc; reflexivity).
  assert (N1 : nth (length (l1 ++ x :: l2)) (l1 ++ x :: l2 ++ [y]) d = y)
    by (rewrite E; apply nth_app_mid).
  assert (N2 : nth (length l1) (l1 ++ x :: l2 ++ [y]) d = x) by apply nth_app_mid.
  rewrite N1, N2. rewrite E, upd_app, <- app_assoc. cbn [app].
  apply upd_app.
Qed.

Ltac list_norm := repeat (progress (rewrite <- ?app_assoc; cbn [app])).

Ltac zlen_solve :=
  unfold dim, zlen in *; repeat (rewrite ?length_app; cbn [length]); lia.

(** Diagonal of a repeated subscript *)
(** ** The diagonal step *)

Lemma take_diagonal_spec c i (t : Tensor) (s1 s2 s3 : list Z) (a : Z) :
  sizes t = s1 ++ a :: s2 ++ a :: s3 -> 0 <= a ->
  exists r, take_diagonal c i t (zlen s1 + 1 + zlen s2) (zlen s1) = inr r /\
    sizes r = s1 ++ a :: s2 ++ s3 /\
    forall i1 x i2 i3,
      length i1 = length s1 -> length i2 = length s2 -> length i3 = length s3 ->
      elem r (i1 ++ x :: i2 ++ i3) = elem t (i1 ++ x :: i2 ++ x :: i3).
Proof.
  intros Hs Ha.
  assert (Hdim : dim t = zlen s1 + 1 + zlen s2 + 1 + zlen s3).
  { unfold dim. rewrite Hs. rewrite zlen_app, zlen_cons, zlen_app, zlen_cons. lia. }
  pose proof (zlen_nonneg s1). pose proof (zlen_nonneg s2). pose proof (zlen_nonneg s3).
  assert (Hj : Z.to_nat (zlen s1 + 1 + zlen s2) = length (s1 ++ a :: s2)).
  { rewrite length_app. simpl. unfold zlen. lia. }
  assert (Hs' : sizes t = (s1 ++ a :: s2) ++ a :: s3).
  { rewrite Hs, <- app_assoc. reflexivity. }
  assert (E2 : nth (length (s1 ++ a :: s2)) (sizes t) 0 = a).
  { rewrite Hs'. apply nth_app_mid. }
  assert (E3 : nth (length s1) (sizes t) 0 = a).
  { rewrite Hs. apply nth_app_mid. }
  assert (E1 : erase (length s1) (erase (length (s1 ++ a :: s2)) (sizes t)) = s1 ++ s2 ++ s3).
  { rewrite Hs', erase_app, <- app_assoc. cbn [app]. apply erase_app. }
  unfold take_diagonal.
  rewrite !size_in_range by lia.
  cbn [bind]. unfold znth. rewrite Hj, to_nat_zlen, E2, E3.
  rewrite Z.eqb_refl. cbn [TORCH_CHECK bind ret].
  unfold diagonal. rewrite !maybe_wrap_dim_id by lia. cbn [bind].
  replace (zlen s1 + 1 + zlen s2 =? zlen s1) with false by (symmetry; apply Z.eqb_neq; lia).
  cbn [negb TORCH_CHECK bind ret].
  rewrite Z.min_r, Z.max_l by lia.
  unfold znth. rewrite Hj, to_nat_zlen, E1, E2, E3.
  rewrite Z.min_id, (Z.max_l a 0) by lia.
  replace ((s1 ++ s2 ++ s3) ++ [a]) with (s1 ++ s2 ++ s3 ++ [a])
    by (rewrite <- !app_assoc; reflexivity).
  unfold unsqueeze. unfold dim at 1. cbn [sizes].
  rewrite maybe_wrap_dim_id
    by zlen_solve.
  cbn [bind ret sizes elem]. rewrite to_nat_zlen.
  rewrite insert_at_app.
  unfold transpose. unfold dim at 1 2. cbn [sizes].
  assert (Hlen : zlen (s1 ++ 1 :: s2 ++ s3 ++ [a]) = zlen s1 + 1 + zlen s2 + zlen s3 + 1).
  { zlen_solve. }
  rewrite Hlen.
  rewrite maybe_wrap_dim_id by lia.
  rewrite maybe_wrap_dim_last by lia.
  cbn [bind ret sizes elem]. rewrite to_nat_zlen.
  replace (Z.to_nat (zlen s1 + 1 + zlen s2 + zlen s3 + 1 - 1))
    with (length (s1 ++ 1 :: (s2 ++ s3)))
    by zlen_solve.
  replace (s1 ++ 1 :: s2 ++ s3 ++ [a]) with (s1 ++ 1 :: (s2 ++ s3) ++ [a])
    by (rewrite <- app_assoc; reflexivity).
  rewrite swap_ends.
  unfold squeeze. unfold dim at 1 2. cbn [sizes].
  assert (Hlen' : zlen (s1 ++ a :: (s2 ++ s3) ++ [1]) = zlen s1 + 1 + zlen s2 + zlen s3 + 1).
  { zlen_solve. }
  rewrite Hlen'. rewrite maybe_wrap_dim_last by lia.
  cbn [bind ret].
  replace (0 <? zlen s1 + 1 + zlen s2 + zlen s3 + 1) with true
    by (symmetry; apply Z.ltb_lt; lia).
  unfold znth.
  replace (Z.to_nat (zlen s1 + 1 + zlen s2 + zlen s3 + 1 - 1))
    with (length (s1 ++ a :: (s2 ++ s3)))
    by zlen_solve.
  replace (s1 ++ a :: (s2 ++ s3) ++ [1]) with ((s1 ++ a :: (s2 ++ s3)) ++ [1])
    by (rewrite <- app_assoc; reflexivity).
  rewrite nth_app_mid. cbn [Z.eqb Pos.eqb andb]. cbv iota.
  rewrite erase_app, app_nil_r.
  eexists. split; [reflexivity|]. cbn [sizes elem].
  split; [reflexivity|].
  intros i1 x i2 i3 L1 L2 L3.
  assert (X : erase (length s1)
                (swap (length s1) (length (s1 ++ 1 :: s2 ++ s3))
                   (insert_at (length (s1 ++ a :: s2 ++ s3)) 0 (i1 ++ x :: i2 ++ i3)) 0)
              = (i1 ++ i2 ++ i3) ++ [x]).
  { replace (length (s1 ++ a :: s2 ++ s3)) with (length (i1 ++ x :: i2 ++ i3))
      by (repeat (rewrite ?length_app; cbn [length]); lia).
    replace (insert_at (length (i1 ++ x :: i2 ++ i3)) 0 (i1 ++ x :: i2 ++ i3))
      with (i1 ++ x :: (i2 ++ i3) ++ [0]).
    2:{ rewrite <- (app_nil_r (i1 ++ x :: i2 ++ i3)) at 2.
        rewrite insert_at_app. list_norm. reflexivity. }
    replace (length (s1 ++ 1 :: s2 ++ s3)) with (length (i1 ++ x :: (i2 ++ i3)))
      by (repeat (rewrite ?length_app; cbn [length]); lia).
    rewrite <- L1. rewrite swap_ends, erase_app. list_norm. reflexivity. }
  rewrite X. rewrite last_snoc, removelast_snoc.
  rewrite <- L1. rewrite insert_at_app.
  replace (length (s1 ++ a :: s2)) with (length (i1 ++ x :: i2))
    by (repeat (rewrite ?length_app; cbn [length]); lia).
  replace (i1 ++ x :: i2 ++ i3) with ((i1 ++ x :: i2) ++ i3)
    by (rewrite <- app_assoc; reflexivity).
  rewrite insert_at_app. list_norm. reflexivity.
Qed.

(** ** Sums and ranges *)

Lemma In_zrange n x : In x (zrange n) <-> 0 <= x < n.
Proof.
  unfold zrange. rewrite in_map_iff. split.
  - intros [k [<- H]]. apply in_seq in H. lia.
  - intros H. exists (Z.to_nat x). split; [lia|]. apply in_seq. lia.
Qed.

Lemma sumZ_ext_in {A} (l : list A) f g :
  (forall x, In x l -> f x = g x) -> sumZ l f = sumZ l g.
Proof.
  induction l as [|a l IH]; simpl; intros H; [reflexivity|].
  rewrite (H a) by auto. rewrite IH; auto.
Qed.

Lemma clip_valid n i : 0 <= i < n -> (if n =? 1 then 0 else i) = i.
Proof. intros. destruct (n =? 1) eqn:E; [apply Z.eqb_eq in E; lia|reflexivity]. Qed.

Lemma broadcast_dim_same n : broadcast_dim n n = inr n.
Proof.
  unfold broadcast_dim. rewrite Z.eqb_refl. simpl. destruct (n =? 1); reflexivity.
Qed.

Lemma broadcast_dim_1_r n : broadcast_dim n 1 = inr n.
Proof.
  unfold broadcast_dim. simpl. rewrite orb_true_r. simpl.
  destruct (n =? 1) eqn:E; try reflexivity. apply Z.eqb_eq in E. subst; reflexivity.
Qed.

Lemma broadcast_dim_1_l n : broadcast_dim 1 n = inr n.
Proof. unfold broadcast_dim. simpl. rewrite orb_true_r. reflexivity. Qed.

(** ** einsum on fixed equations *)

(** Claim C1.  On square matrices [A] and [B] of equal size [n],
    [einsum "ij,jk->ik"] returns the ordinary matrix product: the result
    has extents [n; n] and its entry at [(i, k)] is the sum over [j] of
    [A[i,j] * B[j,k]]. *)
Theorem einsum_matmul (A B : Tensor) (n : Z) :
  0 <= n -> sizes A = [n; n] -> sizes B = [n; n] ->
  req (einsum "ij,jk->ik" [A; B]) (inr (matrix_product A B)).
Proof.
  destruct A as [sA fA], B as [sB fB]. simpl. intros Hn -> ->.
  unfold einsum.
  replace (einsum_plan "ij,jk->ik" [mkTensor [n; n] fA; mkTensor [n; n] fB])
    with (inr (A:=Error)
              (["ij"; "jk"]%string,
               mkPlan (map (fun k => if (k =? 8) || (k =? 10) then -1
                                     else if k =? 9 then 2 else 0) (zrange 26))
                      (map (fun k => if k =? 8 then 0 else if k =? 10 then 1
                                     else if k =? 9 then 2 else -1) (zrange 26))
                      [8; 10; 9] 3, 2))
    by (vm_compute; reflexivity).
  cbn [bind].
  match goal with |- req (bind ?a _) _ =>
    replace a with (inr (A:=Error)
                      [mkTensor [n; 1; n] (fun x => fA [nth 0 x 0; nth 2 x 0]);
                       mkTensor [1; n; n] (fun x => fB [nth 2 x 0; nth 1 x 0])])
      by (vm_compute; reflexivity)
  end.
  cbn [bind einsum_compute foldM].
  unfold mul, broadcast_op, infer_size.
  cbn [sizes length Nat.max pad_left Nat.sub repeat app broadcast_dims].
  rewrite broadcast_dim_1_r, broadcast_dim_1_l, broadcast_dim_same.
  cbn [bind ret out_index].
  change (2 <? 3) with true. cbv iota.
  change (iota (3 - 2) 2) with [2].
  unfold sum.
  change (dim_list_to_bitset [2] _) with (inr (A:=Error) [false; false; true]).
  cbn [bind ret sizes length sum_mask nth]. unfold sum_axis.
  unfold req, teq, matrix_product. cbn [sizes elem znth Z.to_nat nth firstn skipn app].
  split; [reflexivity|].
  intros idx Hv. destruct idx as [|i [|k [|? ?]]]; simpl in Hv; try tauto.
  destruct Hv as [Hi [Hk _]]. simpl.
  apply sumZ_ext_in. intros j Hj. apply In_zrange in Hj.
  rewrite !clip_valid by lia. reflexivity.
Qed.

Lemma einsum_matmul_witness :
  0 <= 2 /\ sizes A22 = [2; 2] /\ sizes B22 = [2; 2] /\
  req (einsum "ij,jk->ik" [A22; B22]) (inr (matrix_product A22 B22)).
Proof.
  split; [lia|]. split; [reflexivity|]. split; [reflexivity|].
  apply (einsum_matmul A22 B22 2); [lia | reflexivity | reflexivity].
Defined.



Lemma take_diagonal_matrix c i fA n :
  0 <= n ->
  exists f, take_diagonal c i (mkTensor [n; n] fA) 1 0 = inr (mkTensor [n] f) /\
            forall k, f [k] = fA [k; k].
Proof.
  intros Hn. unfold take_diagonal.
  change (size (mkTensor [n; n] fA) 1) with (inr (A:=Error) n).
  change (size (mkTensor [n; n] fA) 0) with (inr (A:=Error) n).
  cbn [bind]. rewrite Z.eqb_refl. cbn [TORCH_CHECK bind ret].
  unfold diagonal.
  change (maybe_wrap_dim 1 (dim (mkTensor [n; n] fA)) true) with (inr (A:=Error) 1).
  change (maybe_wrap_dim 0 (dim (mkTensor [n; n] fA)) true) with (inr (A:=Error) 0).
  cbn [bind]. change (negb (1 =? 0)) with true. cbn [TORCH_CHECK bind ret].
  change (znth 1 (sizes (mkTensor [n; n] fA)) 0) with n.
  change (znth 0 (sizes (mkTensor [n; n] fA)) 0) with n.
  rewrite Z.min_id, (Z.max_l n 0) by lia.
  eexists. split; [vm_compute; reflexivity|].
  intros k. reflexivity.
Qed.

(** ["ii->i"] on a square matrix is its diagonal. *)
Lemma einsum_diagonal (A : Tensor) (n : Z) :
  0 <= n -> sizes A = [n; n] ->
  req (einsum "ii->i" [A]) (inr (diagonal_vector A)).
Proof.
  destruct A as [sA fA]. simpl. intros Hn ->.
  unfold einsum.
  replace (einsum_plan "ii->i" [mkTensor [n; n] fA])
    with (inr (A:=Error)
              (["ii"]%string,
               mkPlan (map (fun k => if k =? 8 then -1 else 0) (zrange 26))
                      (map (fun k => if k =? 8 then 0 else -1) (zrange 26))
                      [8] 1, 1))
    by (vm_compute; reflexivity).
  cbn [bind label_out_index out_index align_operands].
  unfold align_operand. cbn [list_ascii_of_string foldM].
  match goal with |- context [bind (align_label ?l ?i ?st ?c) _] =>
    replace (align_label l i st c) with
      (inr (A:=Error) (mkAlignState (mkTensor [n; n] fA) [0]
         (map (fun k => if k =? 8 then 0 else -1) (zrange 26)) 1))
      by (vm_compute; reflexivity)
  end.
  cbn [bind].
  unfold align_label at 1.
  replace (is_space "i") with false by reflexivity.
  cbn [negb as_operand as_j label_dim perm_shape].
  change (znth (label_of "i") _ 0) with 0.
  change (negb (0 =? -1)) with true. cbv iota.
  destruct (take_diagonal_matrix "i" 0 fA n Hn) as [f [-> Hf]].
  vm_compute.
  split; [reflexivity|].
  intros idx Hv. destruct idx as [|k [|? ?]]; simpl in Hv; try tauto.
  apply Hf.
Qed.

Lemma einsum_trace (A : Tensor) (n : Z) :
  0 <= n -> sizes A = [n; n] ->
  req (einsum "ii->" [A]) (inr (trace_scalar A)).
Proof.
  destruct A as [sA fA]. simpl. intros Hn ->.
  unfold einsum.
  replace (einsum_plan "ii->" [mkTensor [n; n] fA])
    with (inr (A:=Error)
              (["ii"]%string,
               mkPlan (map (fun k => if k =? 8 then 2 else 0) (zrange 26))
                      (map (fun k => if k =? 8 then 0 else -1) (zrange 26))
                      [8] 1, 0))
    by (vm_compute; reflexivity).
  cbn [bind label_out_index out_index align_operands].
  unfold align_operand. cbn [list_ascii_of_string foldM].
  match goal with |- context [bind (align_label ?l ?i ?st ?c) _] =>
    replace (align_label l i st c) with
      (inr (A:=Error) (mkAlignState (mkTensor [n; n] fA) [0]
         (map (fun k => if k =? 8 then 0 else -1) (zrange 26)) 1))
      by (vm_compute; reflexivity)
  end.
  cbn [bind].
  unfold align_label at 1.
  replace (is_space "i") with false by reflexivity.
  cbn [negb as_operand as_j label_dim perm_shape].
  change (znth (label_of "i") _ 0) with 0.
  change (negb (0 =? -1)) with true. cbv iota.
  destruct (take_diagonal_matrix "i" 0 fA n Hn) as [f [-> Hf]].
  cbn [bind ret as_operand perm_shape length seq foldM].
  replace (align_fill _ 0%nat) with (inr (A:=Error) (mkAlignState (mkTensor [n] f) [0]
         (map (fun k => if k =? 8 then 0 else -1) (zrange 26)) 1))
    by (vm_compute; reflexivity).
  cbn [bind ret as_operand perm_shape].
  replace (permute (mkTensor [n] f) [0]) with (inr (A:=Error) (mkTensor [n] (fun idx => f [nth 0 idx 0])))
    by (vm_compute; reflexivity).
  cbn [bind ret einsum_compute foldM].
  change (0 <? 1) with true. cbv iota.
  change (iota (1 - 0) 0) with [0].
  unfold sum.
  change (dim_list_to_bitset [0] _) with (inr (A:=Error) [true]).
  cbn [bind ret sizes length sum_mask nth]. unfold sum_axis.
  unfold req, teq, trace_scalar. cbn [sizes elem znth Z.to_nat nth firstn skipn app].
  split; [reflexivity|].
  intros idx Hv. destruct idx as [|? ?]; simpl in Hv; try tauto.
  apply sumZ_ext_in. intros k Hk. apply Hf.
Qed.

Lemma bind_inr {A B} (m : Result A) (k : A -> Result B) (b : B) :
  bind m k = inr b -> exists a, m = inr a /\ k a = inr b.
Proof. destruct m as [e|a]; simpl; [discriminate|]. eauto. Qed.

Lemma inr_inj {A B} (x y : B) : @inr A B x = inr y -> x = y.
Proof. intros H. injection H. auto. Qed.

Lemma TORCH_CHECK_inr cond e u : TORCH_CHECK cond e = inr u -> cond = true.
Proof. destruct cond; [reflexivity|discriminate]. Qed.

Lemma length_upd {A} n (v : A) l : length (upd n v l) = length l.
Proof. revert n; induction l; intros [|n]; simpl; auto. Qed.

Lemma nth_upd_same {A} n (v d : A) l : (n < length l)%nat -> nth n (upd n v l) d = v.
Proof. revert n; induction l; intros [|n]; simpl; intros; try lia; auto. apply IHl; lia. Qed.

Lemma nth_upd_other {A} n m (v d : A) l : n <> m -> nth m (upd n v l) d = nth m l d.
Proof.
  revert n m; induction l; intros [|n] [|m]; simpl; intros; try congruence; auto.
Qed.

Lemma znth_zupd_same {A} i (v d : A) l : 0 <= i < zlen l -> znth i (zupd i v l) d = v.
Proof. intros. unfold znth, zupd. apply nth_upd_same. unfold zlen in *. lia. Qed.

Lemma znth_zupd_other {A} i j (v d : A) l :
  0 <= i -> 0 <= j -> i <> j -> znth j (zupd i v l) d = znth j l d.
Proof. intros. unfold znth, zupd. apply nth_upd_other. lia. Qed.

Lemma zlen_zupd {A} i (v : A) l : zlen (zupd i v l) = zlen l.
Proof. unfold zlen, zupd. rewrite length_upd. reflexivity. Qed.

Lemma is_label_range c : is_label c = true -> 0 <= label_of c < total_labels.
Proof.
  unfold is_label, label_of, total_labels. intros H.
  apply andb_true_iff in H. destruct H as [H1 H2].
  apply Z.leb_le in H1, H2. lia.
Qed.

(** ** Counting the subscripts *)

Lemma parse_label_count operand i st count c st' count' label :
  parse_label operand i (st, count) c = inr (st', count') ->
  zlen (label_count st) = total_labels ->
  0 <= label ->
  zlen (label_count st') = total_labels /\
  znth label (label_count st') 0 =
  znth label (label_count st) 0 +
  count_of (map label_of (filter (fun c => negb (is_space c)) [c])) label.
Proof.
  unfold parse_label. intros H L Hl. unfold count_of. cbn [filter].
  destruct (is_space c) eqn:Es; cbn [negb map] in *.
  - inversion H; subst. split; [assumption|]. cbn [count_occ Z.of_nat]. lia.
  - apply bind_inr in H. destruct H as [u [Hc H]]. apply TORCH_CHECK_inr in Hc.
    apply bind_inr in H. destruct H as [sz [_ H]].
    inversion H; subst; clear H. cbn [label_count].
    pose proof (is_label_range c Hc) as R.
    split; [rewrite zlen_zupd; assumption|].
    cbn [count_occ]. destruct (Z.eq_dec (label_of c) label) as [E|E].
    + subst. rewrite znth_zupd_same by lia. cbn [count_occ]. lia.
    + rewrite znth_zupd_other by lia. cbn [count_occ Z.of_nat]. lia.
Qed.

Lemma count_of_app l1 l2 label : count_of (l1 ++ l2) label = count_of l1 label + count_of l2 label.
Proof. unfold count_of. rewrite count_occ_app. lia. Qed.

Lemma parse_labels_count operand i cs st count st' count' label :
  foldM (parse_label operand i) cs (st, count) = inr (st', count') ->
  zlen (label_count st) = total_labels ->
  0 <= label ->
  zlen (label_count st') = total_labels /\
  znth label (label_count st') 0 =
  znth label (label_count st) 0 +
  count_of (map label_of (filter (fun c => negb (is_space c)) cs)) label.
Proof.
  revert st count. induction cs as [|c cs IH]; intros st count H L Hl.
  - inversion H; subst. split; [assumption|]. unfold count_of. simpl. lia.
  - cbn [foldM] in H. apply bind_inr in H. destruct H as [[st1 count1] [H1 H2]].
    destruct (parse_label_count _ _ _ _ _ _ _ label H1 L Hl) as [L1 E1].
    destruct (IH _ _ H2 L1 Hl) as [L2 E2].
    split; [assumption|]. rewrite E2, E1.
    change (c :: cs) with ([c] ++ cs). rewrite filter_app, map_app, count_of_app. lia.
Qed.

Lemma parse_operands_count operands operand_labels i st st' label :
  parse_operands operands operand_labels i st = inr st' ->
  length operand_labels = length operands ->
  zlen (label_count st) = total_labels ->
  0 <= label ->
  zlen (label_count st') = total_labels /\
  znth label (label_count st') 0 =
  znth label (label_count st) 0 + occurrences operand_labels label.
Proof.
  revert operand_labels i st.
  induction operands as [|operand operands IH]; intros [|labels operand_labels] i st H Hlen L Hl;
    simpl in Hlen; try discriminate.
  - inversion H; subst. split; [assumption|]. unfold occurrences. simpl. lia.
  - cbn [parse_operands] in H. apply bind_inr in H. destruct H as [[st1 count1] [H1 H2]].
    cbn beta iota in H2.
    apply bind_inr in H2. destruct H2 as [u [_ H2]].
    destruct (parse_labels_count _ _ _ _ _ _ _ label H1 L Hl) as [L1 E1].
    destruct (IH _ _ _ H2 ltac:(lia) L1 Hl) as [L2 E2].
    split; [assumption|]. rewrite E2, E1. unfold occurrences. cbn [sumZ fold_right].
    unfold subscripts, count_of. unfold sumZ. lia.
Qed.

(** ** The output slots of the plan *)

Lemma implicit_output_fold ls pl :
  let pl' := fold_left implicit_output ls pl in
  plan_label_count pl' = plan_label_count pl /\
  permuted_labels pl' =
    permuted_labels pl ++ filter (fun l => znth l (plan_label_count pl) 0 =? 1) ls /\
  out_index pl' =
    out_index pl + zlen (filter (fun l => znth l (plan_label_count pl) 0 =? 1) ls).
Proof.
  revert pl. induction ls as [|l ls IH]; intros pl; cbn [fold_left filter].
  - rewrite app_nil_r. unfold zlen. simpl. repeat split; lia.
  - specialize (IH (implicit_output pl l)). cbv zeta in IH.
    destruct IH as [I1 [I2 I3]].
    unfold implicit_output in *.
    destruct (znth l (plan_label_count pl) 0 =? 1) eqn:E; cbn [plan_label_count permuted_labels out_index] in *.
    + rewrite I1, I2, I3. rewrite <- app_assoc. unfold zlen. simpl length.
      repeat split; try reflexivity. lia.
    + auto.
Qed.

Lemma contraction_label_fold ls pl :
  exists extra,
    permuted_labels (fold_left contraction_label ls pl) = permuted_labels pl ++ extra /\
    out_index (fold_left contraction_label ls pl) = out_index pl + zlen extra.
Proof.
  revert pl. induction ls as [|l ls IH]; intros pl; cbn [fold_left].
  - exists []. rewrite app_nil_r. unfold zlen; simpl. split; [reflexivity|lia].
  - destruct (IH (contraction_label pl l)) as [extra [E1 E2]].
    unfold contraction_label in *.
    destruct ((0 <? znth l (plan_label_count pl) 0) && (znth l (label_out_index pl) 0 =? -1));
      cbn [permuted_labels out_index] in *.
    + exists (l :: extra). rewrite E1, E2, <- app_assoc. unfold zlen. simpl length.
      split; [reflexivity|lia].
    + exists extra. auto.
Qed.

Lemma zlen_repeat {A} (x : A) n : zlen (repeat x n) = Z.of_nat n.
Proof. unfold zlen. rewrite repeat_length. reflexivity. Qed.

Lemma znth_repeat {A} (x d : A) n i : 0 <= i < Z.of_nat n -> znth i (repeat x n) d = x.
Proof. intros. unfold znth. apply nth_repeat_lt. lia. Qed.

(** Without an arrow the output slots of the plan are the labels that
    occur once, in ascending order. *)
Lemma implicit_output_plan equation operands operand_labels pl out_size :
  arrow_pos equation = None ->
  einsum_plan equation operands = inr (operand_labels, pl, out_size) ->
  operand_labels = getline_all equation /\
  out_size = zlen (free_labels operand_labels) /\
  firstn (Z.to_nat out_size) (permuted_labels pl) = free_labels operand_labels.
Proof.
  intros Harrow H. unfold einsum_plan in H.
  apply bind_inr in H. destruct H as [u [_ H]].
  apply bind_inr in H. destruct H as [u' [Hlen H]]. apply TORCH_CHECK_inr in Hlen.
  apply Nat.eqb_eq in Hlen.
  apply bind_inr in H. destruct H as [st [Hparse H]].
  apply bind_inr in H. destruct H as [[pl1 out1] [Hplan H]].
  inversion H; subst; clear H.
  unfold split_operand_labels in *. rewrite Harrow in *.
  split; [reflexivity|].
  unfold build_plan in Hplan. rewrite Harrow in Hplan. cbn [bind ret] in Hplan.
  apply inr_inj in Hplan. apply pair_equal_spec in Hplan. destruct Hplan as [<- <-].
  match goal with |- context [fold_left implicit_output ?ls ?p] =>
    destruct (implicit_output_fold ls p) as [I1 [I2 I3]];
    destruct (contraction_label_fold (zrange total_labels) (fold_left implicit_output ls p))
      as [extra [C1 C2]]
  end.
  cbn [plan_label_count permuted_labels out_index app] in *.
  assert (F : filter (fun l => znth l (label_count st) 0 =? 1) (zrange total_labels) =
              free_labels (getline_all equation)).
  { unfold free_labels. apply filter_ext_in. intros l Hl. apply In_zrange in Hl.
    destruct (parse_operands_count _ _ _ _ _ l Hparse Hlen) as [_ E].
    - cbn [label_count]. apply zlen_repeat.
    - lia.
    - rewrite E. cbn [label_count]. rewrite znth_repeat by (unfold total_labels in *; lia).
      reflexivity. }
  rewrite F in *. rewrite I3. split; [lia|].
  rewrite C1, I2. replace (Z.to_nat (0 + zlen (free_labels (getline_all equation))))
    with (length (free_labels (getline_all equation))) by (unfold zlen; lia).
  apply firstn_app_exact.
Qed.

Ltac inv_bind H :=
  repeat match type of H with
  | bind _ _ = inr _ =>
      let a := fresh "a" in let Ha := fresh "Ha" in
      apply bind_inr in H; destruct H as [a [Ha H]]
  end.

(** ** maybe_wrap_dim and bit sets *)

Lemma maybe_wrap_dim_range d n b d' :
  maybe_wrap_dim d n b = inr d' -> 0 <= d' < Z.max n 1 /\ (0 <= d -> d' = d).
Proof.
  unfold maybe_wrap_dim.
  destruct ((n <=? 0) && negb b); [discriminate|].
  destruct (n <=? 0) eqn:En; cbv zeta.
  - apply Z.leb_le in En.
    match goal with |- context [if ?c then throw _ else _] => destruct c eqn:E end;
      [discriminate|].
    apply orb_false_iff in E. destruct E as [E1 E2].
    apply Z.ltb_ge in E1, E2. unfold ret. intros H. inversion H; subst; clear H.
    destruct (d <? 0) eqn:E3; [apply Z.ltb_lt in E3|apply Z.ltb_ge in E3]; lia.
  - apply Z.leb_gt in En.
    match goal with |- context [if ?c then throw _ else _] => destruct c eqn:E end;
      [discriminate|].
    apply orb_false_iff in E. destruct E as [E1 E2].
    apply Z.ltb_ge in E1, E2. unfold ret. intros H. inversion H; subst; clear H.
    destruct (d <? 0) eqn:E3; [apply Z.ltb_lt in E3|apply Z.ltb_ge in E3]; lia.
Qed.

Lemma bit_zupd_same i l : 0 <= i < zlen l -> bit (zupd i true l) i = true.
Proof. intros. unfold bit, znth, zupd. apply nth_upd_same. unfold zlen in *; lia. Qed.

Lemma bit_zupd_other i j l : 0 <= i -> 0 <= j -> i <> j -> bit (zupd i true l) j = bit l j.
Proof. intros. unfold bit, znth, zupd. apply nth_upd_other. lia. Qed.

Lemma bitset_fold dims ndims seen mask :
  foldM (bitset_step ndims) dims seen = inr mask ->
  zlen seen = Z.max ndims 1 ->
  Forall (fun d => 0 <= d) dims ->
  zlen mask = Z.max ndims 1 /\
  forall i, 0 <= i -> bit mask i = true <-> (bit seen i = true \/ In i dims).
Proof.
  revert seen. induction dims as [|d dims IH]; intros seen H L F.
  - inversion H; subst. split; [assumption|]. intros. simpl. tauto.
  - cbn [foldM] in H. apply bind_inr in H. destruct H as [seen1 [H1 H2]].
    unfold bitset_step in H1. inv_bind H1. inversion H1; subst; clear H1.
    inversion F; subst.
    destruct (maybe_wrap_dim_range _ _ _ _ Ha) as [R E]. specialize (E ltac:(assumption)). subst a.
    destruct (IH _ H2) as [L' B].
    + unfold zlen, zupd. rewrite length_upd. exact L.
    + assumption.
    + split; [assumption|]. intros i Hi. rewrite (B i Hi). cbn [In].
      destruct (Z.eq_dec d i) as [->|N].
      * rewrite bit_zupd_same by lia. tauto.
      * rewrite bit_zupd_other by lia. intuition congruence.
Qed.

Lemma dim_list_to_bitset_spec dims ndims mask :
  dim_list_to_bitset dims ndims = inr mask ->
  Forall (fun d => 0 <= d) dims ->
  zlen mask = Z.max ndims 1 /\
  forall i, 0 <= i -> bit mask i = true <-> In i dims.
Proof.
  intros H F. destruct (bitset_fold dims ndims _ mask H) as [L B].
  - unfold zlen. rewrite repeat_length. lia.
  - assumption.
  - split; [assumption|]. intros i Hi. rewrite (B i Hi).
    assert (bit (repeat false (Z.to_nat (Z.max ndims 1))) i = false).
    { unfold bit, znth. destruct (Nat.lt_ge_cases (Z.to_nat i) (Z.to_nat (Z.max ndims 1))).
      - apply nth_repeat_lt; assumption.
      - apply nth_overflow. rewrite repeat_length. assumption. }
    rewrite H0. intuition congruence.
Qed.

(** ** Ranks *)

Lemma wrap_permutation_length dims n seen p :
  wrap_permutation dims n seen = inr p -> length p = length dims.
Proof.
  revert seen p. induction dims as [|d dims IH]; intros seen p H; cbn [wrap_permutation] in H.
  - inversion H. reflexivity.
  - inv_bind H. inversion H; subst. simpl. f_equal. eapply IH; eassumption.
Qed.

Lemma permute_rank t dims r : permute t dims = inr r -> length (sizes r) = length dims.
Proof.
  unfold permute. intros H. inv_bind H. inversion H; subst; clear H. cbn [sizes].
  rewrite length_map. eapply wrap_permutation_length; eassumption.
Qed.

Lemma vset_length {A} i (x : A) v v' : vset i x v = inr v' -> length v' = length v.
Proof.
  unfold vset. destruct ((0 <=? i) && (i <? zlen v)); [|discriminate].
  intros H. inversion H. apply length_upd.
Qed.

Lemma align_label_length loi i st c st' :
  align_label loi i st c = inr st' -> length (perm_shape st') = length (perm_shape st).
Proof.
  unfold align_label. destruct (negb (is_space c)).
  - destruct (negb (znth (label_of c) (label_dim st) 0 =? -1)); intros H; inv_bind H;
      inversion H; subst; clear H; cbn [perm_shape]; [reflexivity|].
    eapply vset_length; eassumption.
  - intros H; inversion H; reflexivity.
Qed.

Lemma foldM_invariant {A S} (P : S -> Prop) (f : S -> A -> Result S) l s s' :
  (forall s x s', P s -> f s x = inr s' -> P s') ->
  P s -> foldM f l s = inr s' -> P s'.
Proof.
  intros Hf. revert s. induction l as [|x l IH]; intros s Hs H; cbn [foldM] in H.
  - inversion H; subst; assumption.
  - apply bind_inr in H. destruct H as [s1 [H1 H2]]. eapply IH; [|eassumption]. eauto.
Qed.

Lemma align_fill_length st k st' :
  align_fill st k = inr st' -> length (perm_shape st') = length (perm_shape st).
Proof.
  unfold align_fill. destruct (nth k (perm_shape st) 0 =? -1); intros H.
  - inv_bind H. inversion H; subst. cbn [perm_shape]. apply length_upd.
  - inversion H; reflexivity.
Qed.

Lemma align_operand_rank loi oi i operand labels t :
  align_operand loi oi i operand labels = inr t -> length (sizes t) = Z.to_nat oi.
Proof.
  unfold align_operand. intros H. inv_bind H.
  apply permute_rank in H. rewrite H.
  apply (foldM_invariant (fun st => length (perm_shape st) = Z.to_nat oi)) in Ha.
  - apply (foldM_invariant (fun st => length (perm_shape st) = Z.to_nat oi)) in Ha0; auto.
    intros s x s' Hs Hx. apply align_fill_length in Hx. congruence.
  - intros s x s' Hs Hx. apply align_label_length in Hx. congruence.
  - cbn [perm_shape]. apply repeat_length.
Qed.

Lemma align_operands_rank loi oi i operands labels ts :
  align_operands loi oi i operands labels = inr ts ->
  Forall (fun t => length (sizes t) = Z.to_nat oi) ts.
Proof.
  revert i labels ts. induction operands as [|op ops IH]; intros i [|l ls] ts H;
    cbn [align_operands] in H; try (inversion H; constructor).
  inv_bind H. inversion H; subst. constructor.
  - eapply align_operand_rank; eassumption.
  - eapply IH; eassumption.
Qed.

Lemma broadcast_dims_length a b r :
  broadcast_dims a b = inr r -> length r = Nat.min (length a) (length b).
Proof.
  revert b r. induction a as [|x a IH]; intros [|y b] r H; cbn [broadcast_dims] in H;
    try (inversion H; reflexivity).
  inv_bind H. inversion H; subst. simpl. f_equal. eapply IH; eassumption.
Qed.

Lemma pad_left_length n s : (length s <= n)%nat -> length (pad_left n s) = n.
Proof. intros. unfold pad_left. rewrite length_app, repeat_length. lia. Qed.

Lemma broadcast_op_rank op a b r :
  broadcast_op op a b = inr r -> length (sizes r) = Nat.max (length (sizes a)) (length (sizes b)).
Proof.
  unfold broadcast_op, infer_size. intros H. inv_bind H. inversion H; subst. cbn [sizes].
  apply broadcast_dims_length in Ha. rewrite Ha, !pad_left_length by lia. lia.
Qed.

Lemma foldM_mul_rank n rest first r :
  foldM mul rest first = inr r ->
  length (sizes first) = n -> Forall (fun t => length (sizes t) = n) rest ->
  length (sizes r) = n.
Proof.
  revert first. induction rest as [|t rest IH]; intros first H L F; cbn [foldM] in H.
  - inversion H; congruence.
  - inv_bind H. inversion F; subst. apply broadcast_op_rank in Ha.
    eapply IH; [eassumption| |assumption]. lia.
Qed.

Lemma sum_axis_rank t d : (d < length (sizes t))%nat ->
  length (sizes (sum_axis t d false)) = (length (sizes t) - 1)%nat.
Proof.
  intros. unfold sum_axis. cbn [sizes app]. rewrite length_app, length_firstn, length_skipn. lia.
Qed.

Lemma sum_mask_none t mask n kd :
  (forall i, (i < n)%nat -> nth i mask false = false) -> sum_mask t mask n kd = t.
Proof.
  induction n as [|n IH]; intros H; cbn [sum_mask]; [reflexivity|].
  rewrite H by lia. apply IH. intros; apply H; lia.
Qed.

Lemma sum_mask_trailing_rank t mask s k :
  length (sizes t) = (s + k)%nat ->
  (forall i, (i < s)%nat -> nth i mask false = false) ->
  (forall i, (s <= i < s + k)%nat -> nth i mask false = true) ->
  length (sizes (sum_mask t mask (s + k) false)) = s.
Proof.
  revert t. induction k as [|k IH]; intros t L F T.
  - rewrite Nat.add_0_r in *. rewrite sum_mask_none by assumption. assumption.
  - replace (s + S k)%nat with (S (s + k)) by lia. cbn [sum_mask].
    rewrite T by lia. apply IH.
    + rewrite sum_axis_rank by lia. lia.
    + assumption.
    + intros; apply T; lia.
Qed.

Lemma In_iota n start x : In x (iota n start) <-> start <= x < start + n.
Proof.
  unfold iota. rewrite in_map_iff. split.
  - intros [k [<- H]]. apply In_zrange in H. lia.
  - intros H. exists (x - start). split; [lia|]. apply In_zrange. lia.
Qed.

Lemma sum_trailing_rank t s k r :
  0 <= s -> 0 < k -> dim t = s + k ->
  sum t (iota k s) false = inr r -> dim r = s.
Proof.
  intros Hs Hk Hd H. unfold sum in H.
  assert (Hne : iota k s <> []).
  { intros E. assert (In s (iota k s)) by (apply In_iota; lia). rewrite E in H0. destruct H0. }
  destruct (iota k s) eqn:Ei; [congruence|]. rewrite <- Ei in *.
  inv_bind H. inversion H; subst; clear H.
  destruct (dim_list_to_bitset_spec _ _ _ Ha) as [L B].
  { apply Forall_forall. intros x Hx. apply In_iota in Hx. lia. }
  unfold dim, zlen in *.
  replace (length (sizes t)) with (Z.to_nat s + Z.to_nat k)%nat by lia.
  rewrite (sum_mask_trailing_rank t a (Z.to_nat s) (Z.to_nat k)).
  - lia.
  - lia.
  - intros i Hi. destruct (nth i a false) eqn:E; [|reflexivity].
    exfalso. assert (B' := B (Z.of_nat i) ltac:(lia)). unfold bit, znth in B'.
    rewrite Nat2Z.id in B'. apply B' in E. apply In_iota in E. lia.
  - intros i Hi. assert (B' := B (Z.of_nat i) ltac:(lia)). unfold bit, znth in B'.
    rewrite Nat2Z.id in B'. apply B'. apply In_iota. lia.
Qed.



Lemma align_operands_length loi oi i operands labels ts :
  align_operands loi oi i operands labels = inr ts ->
  length ts = Nat.min (length operands) (length labels).
Proof.
  revert i labels ts. induction operands as [|op ops IH]; intros i [|l ls] ts H;
    cbn [align_operands] in H; try (inversion H; reflexivity).
  inv_bind H. inversion H; subst. simpl. f_equal. eapply IH; eassumption.
Qed.

Lemma build_plan_implicit_bounds equation lc pl out_size :
  arrow_pos equation = None ->
  build_plan equation lc = inr (pl, out_size) ->
  0 <= out_size <= out_index pl.
Proof.
  intros Harrow H. unfold build_plan in H. rewrite Harrow in H. cbn [bind ret] in H.
  apply inr_inj in H. apply pair_equal_spec in H. destruct H as [<- <-].
  match goal with |- context [fold_left implicit_output ?ls ?p] =>
    destruct (implicit_output_fold ls p) as [I1 [I2 I3]];
    destruct (contraction_label_fold (zrange total_labels) (fold_left implicit_output ls p))
      as [extra [C1 C2]]
  end.
  cbn [out_index] in *. rewrite C2, I3.
  pose proof (zlen_nonneg extra).
  match goal with |- context [zlen (filter ?f ?l)] => pose proof (zlen_nonneg (filter f l)) end.
  lia.
Qed.

Lemma einsum_rank equation operands operand_labels pl out_size r :
  einsum_plan equation operands = inr (operand_labels, pl, out_size) ->
  0 <= out_size <= out_index pl ->
  einsum equation operands = inr r -> dim r = out_size.
Proof.
  intros Hplan Hb H. unfold einsum in H. rewrite Hplan in H. cbn [bind] in H.
  inv_bind H. unfold einsum_compute in H.
  destruct a as [|first rest]; [discriminate|].
  pose proof (align_operands_rank _ _ _ _ _ _ Ha) as F. inversion F; subst.
  inv_bind H.
  pose proof (foldM_mul_rank _ _ _ _ Ha0 H2 H3) as R.
  destruct (out_size <? out_index pl) eqn:E.
  - apply Z.ltb_lt in E.
    apply (sum_trailing_rank a out_size (out_index pl - out_size)); try lia; try assumption.
    unfold dim, zlen. rewrite R. lia.
  - apply Z.ltb_ge in E. inversion H; subst. unfold dim, zlen. rewrite R. lia.
Qed.

Lemma nth_zrange n k : (k < Z.to_nat n)%nat -> nth k (zrange n) 0 = Z.of_nat k.
Proof.
  intros H. unfold zrange.
  change 0 with (Z.of_nat 0). rewrite map_nth. rewrite seq_nth by assumption. reflexivity.
Qed.

Lemma length_zrange n : length (zrange n) = Z.to_nat n.
Proof. unfold zrange. rewrite length_map, length_seq. reflexivity. Qed.

Lemma parse_operands_label_count operands operand_labels st :
  parse_operands operands operand_labels 0
    (mkParseState (repeat 0 (Z.to_nat total_labels))
                  (repeat size_t_max (Z.to_nat total_labels))) = inr st ->
  length operand_labels = length operands ->
  label_count st = map (occurrences operand_labels) (zrange total_labels).
Proof.
  intros H Hlen.
  assert (L : zlen (label_count st) = total_labels).
  { eapply (parse_operands_count _ _ _ _ _ 0 H Hlen); [apply zlen_repeat|lia]. }
  apply (nth_ext _ _ 0 0).
  - rewrite length_map, length_zrange. unfold zlen in L. lia.
  - intros n Hn. unfold zlen in L.
    rewrite (nth_indep (map (occurrences operand_labels) (zrange total_labels)) 0
                       (occurrences operand_labels 0))
      by (rewrite length_map, length_zrange; lia).
    rewrite map_nth, nth_zrange by lia.
    destruct (parse_operands_count _ _ _ _ _ (Z.of_nat n) H Hlen) as [_ E];
      [apply zlen_repeat|lia|].
    unfold znth in E. rewrite Nat2Z.id in E. rewrite E. cbn [label_count].
    rewrite nth_repeat_lt by (unfold total_labels in *; lia). lia.
Qed.

Lemma einsum_implicit_matmul (A B : Tensor) :
  einsum "ij,jk" [A; B] = einsum "ij,jk->ik" [A; B].
Proof.
  unfold einsum, einsum_plan.
  cbn [TORCH_CHECK negb bind ret].
  change (split_operand_labels "ij,jk->ik") with ["ij"; "jk"]%string.
  change (split_operand_labels "ij,jk") with ["ij"; "jk"]%string.
  cbn [length Nat.eqb TORCH_CHECK bind ret].
  destruct (parse_operands [A; B] ["ij"%string; "jk"%string] 0 _) as [e|st] eqn:Hparse;
    [reflexivity|].
  cbn [bind].
  rewrite (parse_operands_label_count _ _ _ Hparse eq_refl).
  match goal with |- context [build_plan "ij,jk" ?lc] =>
    let v := eval vm_compute in (build_plan "ij,jk" lc) in
    replace (build_plan "ij,jk" lc) with v by (vm_compute; reflexivity);
    let w := eval vm_compute in (build_plan "ij,jk->ik" lc) in
    replace (build_plan "ij,jk->ik" lc) with w by (vm_compute; reflexivity)
  end.
  reflexivity.
Qed.

(** Claim C3.  When the equation has no arrow, the output slots that
    [einsum] plans are exactly the labels whose occurrence count over all
    operands is 1, in ascending order of the label; a result of [einsum]
    has one axis per such label; and on all operands ["ij,jk"] gives the
    same result as ["ij,jk->ik"]. *)
Theorem einsum_implicit_output equation operands operand_labels pl out_size :
  arrow_pos equation = None ->
  einsum_plan equation operands = inr (operand_labels, pl, out_size) ->
  firstn (Z.to_nat out_size) (permuted_labels pl) = free_labels (getline_all equation) /\
  (forall r, einsum equation operands = inr r ->
             dim r = zlen (free_labels (getline_all equation))) /\
  (forall A B, einsum "ij,jk" [A; B] = einsum "ij,jk->ik" [A; B]).
Proof.
  intros Harrow Hplan.
  destruct (implicit_output_plan _ _ _ _ _ Harrow Hplan) as [E1 [E2 E3]]. subst operand_labels.
  split; [assumption|]. split; [|exact einsum_implicit_matmul].
  intros r Hr. rewrite <- E2. eapply einsum_rank; try eassumption.
  unfold einsum_plan in Hplan. inv_bind Hplan. destruct a2 as [pl1 out1].
  inversion Hplan; subst. eapply build_plan_implicit_bounds; eassumption.
Qed.

Lemma einsum_implicit_output_witness :
  firstn (Z.to_nat 2) (permuted_labels plan_ij_jk) = free_labels (getline_all "ij,jk") /\
  (forall r, einsum "ij,jk" [A22; B22] = inr r ->
             dim r = zlen (free_labels (getline_all "ij,jk"))) /\
  (forall A B, einsum "ij,jk" [A; B] = einsum "ij,jk->ik" [A; B]).
Proof.
  apply (einsum_implicit_output "ij,jk" [A22; B22] ["ij"; "jk"]%string plan_ij_jk 2);
    reflexivity.
Defined.

(** Claim C4.  On a square matrix [A], ["ii->i"] returns the diagonal
    of [A] and ["ii->"] its trace.  In general, when the alignment loop
    meets a label that the operand already carries on an earlier axis,
    it replaces the two axes by their diagonal: the operand loses the
    later axis, keeps the one at the first occurrence, and its entry at
    coordinate [x] of that axis is the entry of the operand at [x] on
    both axes. *)
Theorem einsum_repeated_label (A : Tensor) (n : Z) :
  0 <= n -> sizes A = [n; n] ->
  req (einsum "ii->i" [A]) (inr (diagonal_vector A)) /\
  req (einsum "ii->" [A]) (inr (trace_scalar A)) /\
  (forall loi i st c s1 a s2 s3,
      is_space c = false ->
      znth (label_of c) (label_dim st) 0 = zlen s1 ->
      as_j st = zlen s1 + 1 + zlen s2 ->
      sizes (as_operand st) = s1 ++ a :: s2 ++ a :: s3 -> 0 <= a ->
      exists r,
        align_label loi i st c = inr (mkAlignState r (perm_shape st) (label_dim st) (as_j st)) /\
        sizes r = s1 ++ a :: s2 ++ s3 /\
        forall i1 x i2 i3,
          length i1 = length s1 -> length i2 = length s2 -> length i3 = length s3 ->
          elem r (i1 ++ x :: i2 ++ i3) = elem (as_operand st) (i1 ++ x :: i2 ++ x :: i3)).
Proof.
  intros Hn HA. split; [eapply einsum_diagonal; eassumption|].
  split; [eapply einsum_trace; eassumption|].
  intros loi i st c s1 a s2 s3 Hc Hd Hj Hs Ha.
  destruct (take_diagonal_spec c i (as_operand st) s1 s2 s3 a Hs Ha) as [r [Hr [Hsz He]]].
  exists r. split; [|split; assumption].
  unfold align_label. rewrite Hc. cbn [negb]. rewrite Hd.
  replace (zlen s1 =? -1) with false by (symmetry; apply Z.eqb_neq; pose proof (zlen_nonneg s1); lia).
  cbn [negb]. rewrite Hj, Hr. reflexivity.
Qed.

Lemma einsum_repeated_label_witness :
  req (einsum "ii->i" [A22]) (inr (diagonal_vector A22)) /\
  req (einsum "ii->" [A22]) (inr (trace_scalar A22)).
Proof.
  destruct (einsum_repeated_label A22 2 ltac:(lia) eq_refl) as [H1 [H2 _]].
  split; assumption.
Defined.

(** ** Errors of einsum *)

Lemma einsum_operand_count equation operands :
  operands <> [] ->
  length (split_operand_labels equation) <> length operands ->
  einsum equation operands =
  inl (EinsumOperandCount (length (split_operand_labels equation)) (length operands)).
Proof.
  intros Hne Hlen. unfold einsum, einsum_plan.
  destruct operands as [|o os]; [congruence|]. cbn [negb TORCH_CHECK bind ret].
  apply Nat.eqb_neq in Hlen. rewrite Hlen. reflexivity.
Qed.

Lemma einsum_one_operand_for_two (A : Tensor) :
  einsum "ij,jk->ik" [A] = inl (EinsumOperandCount 2 1).
Proof. reflexivity. Qed.

Lemma einsum_too_few_subscripts (A B : Tensor) :
  2 < dim A ->
  einsum "iz,jk->ik" [A; B] = inl (EinsumRankMismatch 2 (dim A) 0).
Proof.
  intros H. unfold einsum, einsum_plan.
  cbn [negb TORCH_CHECK bind ret].
  change (split_operand_labels "iz,jk->ik") with ["iz"; "jk"]%string.
  cbn [length Nat.eqb TORCH_CHECK bind ret parse_operands list_ascii_of_string foldM].
  unfold parse_label at 1.
  change (negb (is_space "i")) with true. change (is_label "i") with true.
  cbn [TORCH_CHECK bind ret]. rewrite size_in_range by lia. cbn [bind ret].
  unfold parse_label at 1.
  change (negb (is_space "z")) with true. change (is_label "z") with true.
  cbn [TORCH_CHECK bind ret]. rewrite size_in_range by lia. cbn [bind ret].
  change (0 + 1 + 1) with 2.
  replace (2 =? dim A) with false by (symmetry; apply Z.eqb_neq; lia).
  reflexivity.
Qed.

Lemma einsum_too_many_subscripts (A B : Tensor) :
  dim A = 1 ->
  einsum "iz,jk->ik" [A; B] = inl (IndexError 1 1).
Proof.
  intros H. unfold einsum, einsum_plan.
  cbn [negb TORCH_CHECK bind ret].
  change (split_operand_labels "iz,jk->ik") with ["iz"; "jk"]%string.
  cbn [length Nat.eqb TORCH_CHECK bind ret parse_operands list_ascii_of_string foldM].
  unfold parse_label at 1.
  change (negb (is_space "i")) with true. change (is_label "i") with true.
  cbn [TORCH_CHECK bind ret]. rewrite size_in_range by lia. cbn [bind ret].
  unfold parse_label at 1.
  change (negb (is_space "z")) with true. change (is_label "z") with true.
  cbn [TORCH_CHECK bind ret]. unfold size. rewrite H. reflexivity.
Qed.

(** Claim C10 fails on an operand with fewer axes than subscripts:
    for [A] of rank 1 and the subscripts ["iz"], the extent of axis 1
    is read while the subscripts are counted, so [einsum] stops with the
    array library's index error and not with its own rank-mismatch
    error. *)
Theorem einsum_rank_mismatch_index_error :
  einsum "iz,jk->ik" [v2; B22] = inl (IndexError 1 1).
Proof. reflexivity. Qed.

(** ** Arrays with an axis of extent 0 *)

(** Claim C2 fails on an axis of extent 0: summing the product of two
    arrays of extents [0] over axis 0 is the array of extents [1]
    holding 0, but [sumproduct_pair] stops with a reshape error. *)
Theorem sumproduct_pair_zero_extent :
  sumproduct_pair empty0 empty0 [0] true = inl (ShapeError 0) /\
  observe (product_sum empty0 empty0 [0] true) = inr ([1], [0]).
Proof. split; reflexivity. Qed.

(** Claim C6 fails for [sumproduct_pair] when the other operand has
    extent 0 on the contracted axis: summing it first along that axis
    and multiplying gives the array of extents [1] holding 0, but
    [sumproduct_pair] stops with a reshape error; [tensordot] on the
    same operands returns the sum. *)
Theorem sumproduct_pair_presum_zero_extent :
  sumproduct_pair empty0 one1 [0] true = inl (ShapeError 0) /\
  observe (presum_mul empty0 one1 0) = inr ([1], [0]) /\
  observe (tensordot empty0 one1 [0] [0]) = inr ([], [0]).
Proof. repeat split; reflexivity. Qed.

(** Claim C7 fails on an empty batch: for [x1] of extents [0; 2] and
    [x2] of extents [0; 3] the bilinear form is the empty array of
    extents [0; 2], but [bilinear] stops with a reshape error. *)
Theorem bilinear_empty_batch :
  bilinear empty02 empty03 W223 (Some bias2) = inl (ShapeError 0) /\
  observe (inr (bilinear_ref empty02 empty03 W223 (Some bias2))) = inr ([0; 2], []).
Proof. split; reflexivity. Qed.

(** Claim C8 fails: the result of [_trilinear] depends on the unroll
    axis.  On the operands of an empty batch in the arrangement that
    [bilinear] uses, unrolling axis 0 returns the empty array of the
    reference and unrolling axis 1 stops with a reshape error.  On three
    vectors that all get axis 1 inserted and summed, unrolling axis 0
    returns the product [10; 210] of the reference and unrolling axis 1
    returns [0; 0]. *)
Theorem trilinear_unroll_axis_dependence :
  (_trilinear empty02 W223 empty03 [1; 3] [0] [1; 2] [2; 3] 1 = inl (ShapeError 0) /\
   observe (_trilinear empty02 W223 empty03 [1; 3] [0] [1; 2] [2; 3] 0) = inr ([0; 2], []) /\
   observe (trilinear_ref empty02 W223 empty03 [1; 3] [0] [1; 2] [2; 3]) = inr ([0; 2], [])) /\
  (observe (_trilinear u2 v2' w2 [1] [1] [1] [1] 1) = inr ([2], [0; 0]) /\
   observe (_trilinear u2 v2' w2 [1] [1] [1] [1] 0) = inr ([2], [10; 210]) /\
   observe (trilinear_ref u2 v2' w2 [1] [1] [1] [1]) = inr ([2], [10; 210])).
Proof. repeat split; reflexivity. Qed.

(** * Contraction over listed axes *)


(** ** Sums *)

Lemma sumZ_app {A} (l1 l2 : list A) f : sumZ (l1 ++ l2) f = sumZ l1 f + sumZ l2 f.
Proof. induction l1; simpl; [reflexivity|]. rewrite IHl1. lia. Qed.

Lemma sumZ_map {A B} (g : A -> B) l f : sumZ (map g l) f = sumZ l (fun x => f (g x)).
Proof. induction l; simpl; [reflexivity|]. rewrite IHl. reflexivity. Qed.

Lemma sumZ_flat_map {A B} (g : A -> list B) l f :
  sumZ (flat_map g l) f = sumZ l (fun x => sumZ (g x) f).
Proof. induction l; simpl; [reflexivity|]. rewrite sumZ_app, IHl. reflexivity. Qed.

Lemma sumZ_ext {A} (l : list A) f g : (forall x, f x = g x) -> sumZ l f = sumZ l g.
Proof. intros H. induction l; simpl; [reflexivity|]. rewrite H, IHl. reflexivity. Qed.

Lemma sumZ_add {A} (l : list A) f g : sumZ l (fun x => f x + g x) = sumZ l f + sumZ l g.
Proof. induction l; simpl; [reflexivity|]. rewrite IHl. lia. Qed.

Lemma sumZ_zero {A} (l : list A) : sumZ l (fun _ => 0) = 0.
Proof. induction l; simpl; [reflexivity|]. rewrite IHl. reflexivity. Qed.

Lemma sumZ_mul_l {A} (l : list A) k f : k * sumZ l f = sumZ l (fun x => k * f x).
Proof. induction l; simpl; [lia|]. rewrite <- IHl. lia. Qed.

Lemma sumZ_mul_r {A} (l : list A) k f : sumZ l f * k = sumZ l (fun x => f x * k).
Proof. induction l; simpl; [lia|]. rewrite <- IHl. lia. Qed.

Lemma sumZ_swap {A B} (l1 : list A) (l2 : list B) f :
  sumZ l1 (fun x => sumZ l2 (fun y => f x y)) = sumZ l2 (fun y => sumZ l1 (fun x => f x y)).
Proof.
  induction l1; simpl.
  - rewrite sumZ_zero. reflexivity.
  - rewrite IHl1, <- sumZ_add. reflexivity.
Qed.

Lemma zrange_1 : zrange 1 = [0].
Proof. reflexivity. Qed.

Lemma zrange_nonpos n : n <= 0 -> zrange n = [].
Proof. intros. unfold zrange. replace (Z.to_nat n) with 0%nat by lia. reflexivity. Qed.


Lemma seq_shift_Z s b :
  map Z.of_nat (seq s b) = map (fun r => Z.of_nat s + r) (map Z.of_nat (seq 0 b)).
Proof.
  rewrite map_map. revert s. induction b as [|b IH]; intros s; [reflexivity|].
  cbn [seq map]. f_equal; [lia|].
  rewrite (IH (S s)). rewrite <- (seq_shift b 0), map_map. apply map_ext. intros. lia.
Qed.

Lemma zrange_add a b :
  0 <= a -> 0 <= b -> zrange (a + b) = zrange a ++ map (fun r => a + r) (zrange b).
Proof.
  intros Ha Hb. unfold zrange. rewrite Z2Nat.inj_add by assumption.
  rewrite seq_app, map_app. f_equal. cbn [Nat.add].
  rewrite seq_shift_Z. apply map_ext. intros. lia.
Qed.

Lemma zrange_succ n : 0 <= n -> zrange (n + 1) = zrange n ++ [n].
Proof. intros. rewrite zrange_add by lia. rewrite zrange_1. simpl. do 2 f_equal. lia. Qed.



Lemma sumZ_zrange_mul n p h :
  0 <= n -> 0 <= p ->
  sumZ (zrange (n * p)) h = sumZ (zrange n) (fun v => sumZ (zrange p) (fun r => h (v * p + r))).
Proof.
  intros Hn Hp. rewrite <- (Z2Nat.id n Hn). clear Hn.
  induction (Z.to_nat n) as [|k IH].
  - simpl. reflexivity.
  - rewrite Nat2Z.inj_succ. unfold Z.succ.
    rewrite Z.mul_add_distr_r, Z.mul_1_l.
    rewrite zrange_add by lia. rewrite zrange_succ by lia.
    rewrite !sumZ_app, IH. f_equal. rewrite sumZ_map.
    unfold sumZ at 2. cbn [fold_right]. rewrite Z.add_0_r. reflexivity.
Qed.

(** ** Multi-indices *)

Lemma prodZ_app l1 l2 : prodZ (l1 ++ l2) = prodZ l1 * prodZ l2.
Proof.
  induction l1; cbn [app]; unfold prodZ in *; cbn [fold_right]; [lia | rewrite IHl1; lia].
Qed.

Lemma prodZ_cons n s : prodZ (n :: s) = n * prodZ s.
Proof. reflexivity. Qed.

Lemma prodZ_nonneg s : wf_sizes s -> 0 <= prodZ s.
Proof. induction 1; [unfold prodZ; simpl; lia|]. rewrite prodZ_cons. lia. Qed.

Lemma wf_sizes_app s1 s2 : wf_sizes (s1 ++ s2) <-> wf_sizes s1 /\ wf_sizes s2.
Proof. apply Forall_app. Qed.

Lemma valid_index_length s idx : valid_index s idx -> length idx = length s.
Proof.
  revert idx. induction s as [|n s IH]; intros [|i idx] H; simpl in *; try tauto.
  f_equal. apply IH. tauto.
Qed.

Lemma valid_index_app s1 s2 i1 i2 :
  length i1 = length s1 ->
  valid_index (s1 ++ s2) (i1 ++ i2) <-> valid_index s1 i1 /\ valid_index s2 i2.
Proof.
  revert i1. induction s1 as [|n s1 IH]; intros [|i i1] L; simpl in *; try discriminate.
  - tauto.
  - rewrite IH by lia. tauto.
Qed.

Lemma valid_index_split s1 s2 idx :
  valid_index (s1 ++ s2) idx ->
  valid_index s1 (firstn (length s1) idx) /\ valid_index s2 (skipn (length s1) idx).
Proof.
  revert idx. induction s1 as [|n s1 IH]; intros idx H; simpl in *.
  - split; [exact I|assumption].
  - destruct idx as [|i idx]; [tauto|]. simpl. destruct H as [H1 H2].
    apply IH in H2. tauto.
Qed.

Lemma sumZ_indices_cons n s f :
  sumZ (indices (n :: s)) f = sumZ (zrange n) (fun v => sumZ (indices s) (fun c => f (v :: c))).
Proof. cbn [indices]. rewrite sumZ_flat_map. apply sumZ_ext. intros. apply sumZ_map. Qed.

Lemma In_indices s idx : In idx (indices s) <-> valid_index s idx.
Proof.
  revert idx. induction s as [|n s IH]; intros idx; cbn [indices].
  - destruct idx; simpl; intuition congruence.
  - rewrite in_flat_map. split.
    + intros [v [Hv H]]. apply in_map_iff in H. destruct H as [c [<- Hc]].
      apply In_zrange in Hv. apply IH in Hc. simpl. tauto.
    + destruct idx as [|v c]; simpl; [tauto|]. intros [Hv Hc].
      exists v. split; [apply In_zrange; assumption|]. apply in_map. apply IH. assumption.
Qed.

Lemma ravel_bound s idx : valid_index s idx -> 0 <= ravel s idx < prodZ s.
Proof.
  revert idx. induction s as [|n s IH]; intros [|i idx] H; cbn [valid_index ravel] in *;
    try tauto; [unfold prodZ; simpl; lia|].
  destruct H as [Hi H]. specialize (IH _ H). rewrite prodZ_cons. nia.
Qed.

Lemma unravel_ravel s idx : valid_index s idx -> unravel s (ravel s idx) = idx.
Proof.
  revert idx. induction s as [|n s IH]; intros [|i idx] H; cbn [valid_index ravel unravel] in *;
    try tauto.
  destruct H as [Hi H]. pose proof (ravel_bound _ _ H) as B.
  f_equal.
  - rewrite Z.div_add_l by lia. rewrite Z.div_small by lia. lia.
  - rewrite Z.add_comm, Z.mod_add by lia. rewrite Z.mod_small by lia. apply IH. assumption.
Qed.

Lemma ravel_app s1 s2 i1 i2 :
  length i1 = length s1 ->
  ravel (s1 ++ s2) (i1 ++ i2) = ravel s1 i1 * prodZ s2 + ravel s2 i2.
Proof.
  revert i1. induction s1 as [|n s1 IH]; intros [|i i1] L; cbn [length app ravel] in *;
    try discriminate.
  - lia.
  - rewrite IH by lia. rewrite prodZ_app. lia.
Qed.

Lemma sumZ_zrange_indices s h :
  wf_sizes s ->
  sumZ (zrange (prodZ s)) h = sumZ (indices s) (fun c => h (ravel s c)).
Proof.
  intros W. revert h. induction W as [|n s Hn W IH]; intros h.
  - reflexivity.
  - cbn [prodZ fold_right]. change (fold_right Z.mul 1 s) with (prodZ s).
    rewrite sumZ_zrange_mul by (try assumption; apply prodZ_nonneg; assumption).
    rewrite sumZ_indices_cons. apply sumZ_ext. intros v.
    rewrite IH. reflexivity.
Qed.



(** ** The primitives on well-formed arguments *)

Lemma sum_mask_single t d n N kd :
  (n <= N)%nat ->
  sum_mask t (upd d true (repeat false N)) n kd =
  if (d <? n)%nat then sum_axis t d kd else t.
Proof.
  intros Hn. induction n as [|n IH]; cbn [sum_mask].
  - reflexivity.
  - destruct (Nat.eq_dec n d) as [->|Hd].
    + rewrite nth_upd_same by (rewrite repeat_length; lia).
      rewrite sum_mask_none.
      * replace (d <? S d)%nat with true by (symmetry; apply Nat.ltb_lt; lia). reflexivity.
      * intros i Hi. rewrite nth_upd_other by lia. apply nth_repeat_lt. lia.
    + rewrite nth_upd_other by lia. rewrite nth_repeat_lt by lia.
      rewrite IH by lia.
      destruct (d <? n)%nat eqn:E1; destruct (d <? S n)%nat eqn:E2; try reflexivity;
        [apply Nat.ltb_lt in E1; apply Nat.ltb_ge in E2; lia
        |apply Nat.ltb_ge in E1; apply Nat.ltb_lt in E2; lia].
Qed.

Lemma dim_list_to_bitset_single d n :
  0 <= d < n ->
  dim_list_to_bitset [d] n = inr (upd (Z.to_nat d) true (repeat false (Z.to_nat n))).
Proof.
  intros H. unfold dim_list_to_bitset. cbn [foldM]. unfold bitset_step.
  rewrite maybe_wrap_dim_id by assumption. cbn [bind].
  rewrite Z.max_l by lia.
  rewrite znth_repeat by lia. reflexivity.
Qed.

Lemma sum_keep t d :
  0 <= d < dim t -> sum t [d] true = inr (sum_axis t (Z.to_nat d) true).
Proof.
  intros H. unfold sum. rewrite dim_list_to_bitset_single by assumption. cbn [bind ret].
  unfold dim, zlen in *. rewrite Nat2Z.id.
  rewrite sum_mask_single by lia.
  replace (Z.to_nat d <? length (sizes t))%nat with true
    by (symmetry; apply Nat.ltb_lt; lia).
  reflexivity.
Qed.

Lemma firstn_skipn_upd {A} d (v : A) l :
  (d < length l)%nat -> firstn d l ++ v :: skipn (S d) l = upd d v l.
Proof.
  revert d. induction l as [|x l IH]; intros [|d] H; simpl in *; try lia; try reflexivity.
  f_equal. apply IH. lia.
Qed.

Lemma sum_axis_keep_sizes t d :
  (d < length (sizes t))%nat -> sizes (sum_axis t d true) = upd d 1 (sizes t).
Proof. intros. unfold sum_axis. cbn [sizes app]. apply firstn_skipn_upd. assumption. Qed.

Lemma sum_axis_keep_elem t d idx :
  (d < length idx)%nat ->
  elem (sum_axis t d true) idx =
  sumZ (zrange (nth d (sizes t) 0)) (fun j => elem t (upd d j idx)).
Proof.
  intros. unfold sum_axis. cbn [elem]. apply sumZ_ext. intros j.
  rewrite firstn_skipn_upd by assumption. reflexivity.
Qed.

Lemma wrap_permutation_ok dims n seen :
  Forall (fun d => 0 <= d < n) dims -> NoDup dims ->
  (forall d, In d dims -> ~ In d seen) ->
  wrap_permutation dims n seen = inr dims.
Proof.
  revert seen. induction dims as [|d dims IH]; intros seen F N D; cbn [wrap_permutation].
  - reflexivity.
  - inversion F; subst. inversion N; subst.
    rewrite maybe_wrap_dim_id by assumption. cbn [bind].
    replace (existsb (Z.eqb d) seen) with false.
    + cbn [negb TORCH_CHECK bind ret]. rewrite IH; try assumption; [reflexivity|].
      intros x Hx [E|E]; [subst; contradiction|]. apply (D x); [right; assumption|assumption].
    + symmetry. apply not_true_is_false. intros E. apply existsb_exists in E.
      destruct E as [x [Hx E]]. apply Z.eqb_eq in E. subst. apply (D x); [left; reflexivity|assumption].
Qed.

Lemma permute_ok t p :
  Forall (fun d => 0 <= d < dim t) p -> NoDup p -> zlen p = dim t ->
  permute t p = inr (mkTensor (extents t p) (fun idx => elem t (unpermute p idx))).
Proof.
  intros F N L. unfold permute. rewrite L, Z.eqb_refl. cbn [TORCH_CHECK bind ret].
  rewrite wrap_permutation_ok by auto. reflexivity.
Qed.

Lemma infer_shape_fold shape k acc :
  Forall (fun d => 0 <= d) shape ->
  foldM (fun '(newsize, infer_dim) '(k, d) =>
           if d =? -1 then
             match infer_dim : option nat with
             | Some _ => throw ShapeTwoInferred
             | None => ret (newsize, Some k)
             end
           else if 0 <=? d then ret (newsize * d, infer_dim)
           else throw ShapeNegative)
        (combine (seq k (length shape)) shape) (acc, None) = inr (acc * prodZ shape, None).
Proof.
  intros F. revert k acc. induction F as [|d shape Hd F IH]; intros k acc.
  - cbn. unfold ret. do 2 f_equal. unfold prodZ. simpl. lia.
  - cbn [length seq combine foldM].
    replace (d =? -1) with false by (symmetry; apply Z.eqb_neq; lia).
    replace (0 <=? d) with true by (symmetry; apply Z.leb_le; lia).
    cbn [bind ret]. rewrite IH. rewrite prodZ_cons. do 2 f_equal. lia.
Qed.

Lemma infer_shape_exact shape n :
  Forall (fun d => 0 <= d) shape -> prodZ shape = n -> infer_shape shape n = inr shape.
Proof.
  intros F E. unfold infer_shape. rewrite infer_shape_fold by assumption. cbn [bind].
  rewrite Z.mul_1_l. rewrite E, Z.eqb_refl. reflexivity.
Qed.

Lemma reshape_ok t shape :
  Forall (fun d => 0 <= d) shape -> prodZ shape = numel t ->
  reshape t shape =
  inr (mkTensor shape (fun idx => elem t (unravel (sizes t) (ravel shape idx)))).
Proof.
  intros F E. unfold reshape. rewrite infer_shape_exact by assumption. reflexivity.
Qed.

(** ** Placing coordinates on axes *)

Lemma length_unpermute p idx : length (unpermute p idx) = length p.
Proof. unfold unpermute. rewrite length_map, length_zrange. unfold zlen. lia. Qed.

Lemma index_of_nth p q :
  NoDup p -> (q < length p)%nat -> index_of (nth q p 0) p = q.
Proof.
  revert q. induction p as [|x p IH]; intros q N L; simpl in L; [lia|].
  inversion N; subst. destruct q as [|q]; cbn [nth index_of].
  - rewrite Z.eqb_refl. reflexivity.
  - destruct (x =? nth q p 0) eqn:E.
    + apply Z.eqb_eq in E. subst. exfalso. apply H1. apply nth_In. lia.
    + f_equal. apply IH; [assumption|lia].
Qed.

Lemma index_of_In a p : In a p -> (index_of a p < length p)%nat /\ nth (index_of a p) p 0 = a.
Proof.
  induction p as [|x p IH]; intros H; [destruct H|]. cbn [index_of].
  destruct (x =? a) eqn:E.
  - apply Z.eqb_eq in E. subst. simpl. split; [lia|reflexivity].
  - destruct H as [H|H]; [subst; rewrite Z.eqb_refl in E; discriminate|].
    destruct (IH H). simpl. split; [lia|assumption].
Qed.

Lemma index_of_notin a p : ~ In a p -> index_of a p = length p.
Proof.
  induction p as [|x p IH]; intros H; [reflexivity|]. cbn [index_of].
  destruct (x =? a) eqn:E.
  - apply Z.eqb_eq in E. subst. exfalso. apply H. left. reflexivity.
  - simpl. f_equal. apply IH. intros H'. apply H. right. assumption.
Qed.

Lemma nth_unpermute p x k :
  (k < length p)%nat -> nth k (unpermute p x) 0 = nth (index_of (Z.of_nat k) p) x 0.
Proof.
  intros Hk. unfold unpermute.
  set (f := fun a => nth (index_of a p) x 0).
  rewrite (nth_indep _ 0 (f 0)) by (rewrite length_map, length_zrange; unfold zlen; lia).
  rewrite map_nth, nth_zrange by (unfold zlen; lia). reflexivity.
Qed.

(** Changing the coordinate at position [q] of the list changes the
    coordinate on axis [p[q]]. *)
Lemma unpermute_upd p q v x :
  NoDup p -> (q < length p)%nat -> 0 <= nth q p 0 < zlen p -> length x = length p ->
  unpermute p (upd q v x) = upd (Z.to_nat (nth q p 0)) v (unpermute p x).
Proof.
  intros N Hq Hr Hx.
  apply (nth_ext _ _ 0 0).
  - rewrite length_upd, !length_unpermute. reflexivity.
  - intros k Hk. rewrite length_unpermute in Hk.
    rewrite nth_unpermute by assumption.
    destruct (Nat.eq_dec k (Z.to_nat (nth q p 0))) as [E|E].
    + subst k. rewrite Z2Nat.id by lia. rewrite index_of_nth by assumption.
      rewrite nth_upd_same by lia.
      rewrite nth_upd_same by (rewrite length_unpermute; lia). reflexivity.
    + rewrite (nth_upd_other _ _ _ _ _ (not_eq_sym E)).
      rewrite nth_unpermute by assumption.
      apply nth_upd_other.
      destruct (in_dec Z.eq_dec (Z.of_nat k) p) as [I|I].
      * destruct (index_of_In _ _ I) as [I1 I2]. intros Eq. rewrite <- Eq in I2.
        rewrite I2 in E. apply E. lia.
      * rewrite (index_of_notin _ _ I). lia.
Qed.







Lemma presum_ext ms F G c :
  (forall r, length r = length ms -> F r = G r) -> presum ms F c = presum ms G c.
Proof.
  revert F G c. induction ms as [|m ms IH]; intros F G c H; cbn [presum].
  - apply H. reflexivity.
  - destruct m as [a|]; destruct c as [|v c']; try reflexivity.
    + apply sumZ_ext. intros j. apply IH. intros r Hr. apply H. simpl. lia.
    + apply IH. intros r Hr. apply H. simpl. lia.
Qed.

Lemma presum_sum {A} ms (l : list A) (H : A -> list Z -> Z) c :
  length c = length ms ->
  presum ms (fun r => sumZ l (fun j => H j r)) c = sumZ l (fun j => presum ms (H j) c).
Proof.
  revert H c. induction ms as [|m ms IH]; intros H c L; cbn [presum].
  - reflexivity.
  - destruct c as [|v c']; [discriminate|]. simpl in L. destruct m as [a|].
    + rewrite sumZ_swap. apply sumZ_ext. intros j.
      apply (IH (fun j0 r => H j0 (j :: r))). lia.
    + apply (IH (fun j0 r => H j0 (v :: r))). lia.
Qed.

Lemma clip_small n v : 0 <= v < n -> (if n =? 1 then 0 else v) = v.
Proof. intros. destruct (n =? 1) eqn:E; [apply Z.eqb_eq in E; lia|reflexivity]. Qed.

(** Summing beforehand the operand that is alone in having a non-trivial
    extent gives the contraction of the broadcast product. *)
Lemma contraction_presum abs F G :
  Forall compatible abs ->
  sumZ (indices (map common_extent abs))
       (fun c => presum (map presum1 abs) F c * presum (map presum2 abs) G c) =
  sumZ (indices (map broadcast_extent abs))
       (fun c => F (broadcast_coords (map fst abs) c) * G (broadcast_coords (map snd abs) c)).
Proof.
  intros C. revert F G. induction C as [|[a b] abs [Ha [Hb Hab]] C IH]; intros F G.
  - reflexivity.
  - cbn [map]. rewrite !sumZ_indices_cons.
    unfold presum1 at 1, presum2 at 1, common_extent at 1, broadcast_extent at 1.
    cbn [fst snd] in *.
    destruct (b =? 1) eqn:Eb.
    + (* the first operand is summed beforehand *)
      apply Z.eqb_eq in Eb. subst b. cbn [orb].
      replace (if a =? 1 then 1 else a) with a
        by (destruct (a =? 1) eqn:E; [apply Z.eqb_eq in E; lia|reflexivity]).
      rewrite zrange_1. unfold sumZ at 1. cbn [fold_right]. rewrite Z.add_0_r.
      cbn [presum].
      erewrite sumZ_ext; [|intros c; apply sumZ_mul_r].
      rewrite sumZ_swap. apply sumZ_ext_in. intros v Hv. apply In_zrange in Hv.
      rewrite IH. apply sumZ_ext. intros c.
      unfold broadcast_coords. cbn [zipWith]. change (1 =? 1) with true. cbv iota.
      rewrite clip_small by assumption. reflexivity.
    + apply Z.eqb_neq in Eb. cbn [orb].
      destruct (a =? 1) eqn:Ea.
      * (* the second operand is summed beforehand *)
        apply Z.eqb_eq in Ea. subst a.
        rewrite zrange_1. unfold sumZ at 1. cbn [fold_right]. rewrite Z.add_0_r.
        cbn [presum].
        erewrite sumZ_ext; [|intros c; apply sumZ_mul_l].
        rewrite sumZ_swap. apply sumZ_ext_in. intros v Hv. apply In_zrange in Hv.
        rewrite IH. apply sumZ_ext. intros c.
        unfold broadcast_coords. cbn [zipWith]. change (1 =? 1) with true. cbv iota.
        rewrite clip_small by assumption. reflexivity.
      * (* both extents are equal and contracted together *)
        apply Z.eqb_neq in Ea. assert (a = b) by lia. subst b.
        apply sumZ_ext_in. intros v Hv. apply In_zrange in Hv.
        cbn [presum]. rewrite IH. apply sumZ_ext. intros c.
        unfold broadcast_coords. cbn [zipWith].
        rewrite !clip_small by assumption. reflexivity.
Qed.





Lemma presum_axis_length t op :
  0 <= fst op < dim t -> length (sizes (presum_axis t op)) = length (sizes t).
Proof.
  intros H. unfold presum_axis. destruct (snd op); [|reflexivity].
  rewrite sum_axis_keep_sizes by (unfold dim, zlen in H; lia). apply length_upd.
Qed.

Lemma presum_axis_dim t op : 0 <= fst op < dim t -> dim (presum_axis t op) = dim t.
Proof. intros H. unfold dim, zlen. rewrite presum_axis_length by assumption. reflexivity. Qed.

Lemma presum_axis_other t op x :
  0 <= fst op < dim t -> Z.to_nat (fst op) <> x ->
  nth x (sizes (presum_axis t op)) 0 = nth x (sizes t) 0.
Proof.
  intros H N. unfold presum_axis. destruct (snd op); [|reflexivity].
  rewrite sum_axis_keep_sizes by (unfold dim, zlen in H; lia). apply nth_upd_other. assumption.
Qed.

Lemma presum_axis_same t op :
  0 <= fst op < dim t ->
  znth (fst op) (sizes (presum_axis t op)) 0 =
  match snd op with Some _ => 1 | None => znth (fst op) (sizes t) 0 end.
Proof.
  intros H. unfold presum_axis, znth. destruct (snd op); [|reflexivity].
  rewrite sum_axis_keep_sizes by (unfold dim, zlen in H; lia).
  apply nth_upd_same. unfold dim, zlen in H; lia.
Qed.

Lemma presum_axes_dim t ops :
  Forall (fun op => 0 <= fst op < dim t) ops -> dim (presum_axes t ops) = dim t.
Proof.
  revert t. induction ops as [|op ops IH]; intros t F; [reflexivity|].
  inversion F; subst. unfold presum_axes in *. cbn [fold_left].
  rewrite IH; [apply presum_axis_dim; assumption|].
  rewrite presum_axis_dim by assumption. assumption.
Qed.

Lemma presum_axes_other t ops x :
  Forall (fun op => 0 <= fst op < dim t) ops ->
  (forall op, In op ops -> Z.to_nat (fst op) <> x) ->
  nth x (sizes (presum_axes t ops)) 0 = nth x (sizes t) 0.
Proof.
  revert t. induction ops as [|op ops IH]; intros t F N; [reflexivity|].
  inversion F; subst. unfold presum_axes in *. cbn [fold_left].
  rewrite IH.
  - apply presum_axis_other; [assumption|]. apply N. left. reflexivity.
  - rewrite presum_axis_dim by assumption. assumption.
  - intros op' I. apply N. right. assumption.
Qed.

(** The extents of the summed tensor on the listed axes. *)
Lemma presum_axes_extents t ops :
  Forall (fun op => 0 <= fst op < dim t) ops -> NoDup (map fst ops) ->
  extents (presum_axes t ops) (map fst ops) =
  map (fun op => match snd op with Some _ => 1 | None => znth (fst op) (sizes t) 0 end) ops.
Proof.
  revert t. induction ops as [|op ops IH]; intros t F N; [reflexivity|].
  inversion F; subst. inversion N; subst.
  assert (F' : Forall (fun op0 => 0 <= fst op0 < dim (presum_axis t op)) ops)
    by (rewrite presum_axis_dim by assumption; assumption).
  cbn [map extents]. f_equal.
  - unfold presum_axes. cbn [fold_left]. unfold znth.
    change (fold_left presum_axis ops (presum_axis t op)) with (presum_axes (presum_axis t op) ops).
    rewrite presum_axes_other.
    + apply presum_axis_same. assumption.
    + assumption.
    + intros op' I E. apply H3. apply in_map_iff. exists op'. split; [|assumption].
      rewrite Forall_forall in H2. specialize (H2 _ I). lia.
  - unfold presum_axes in *. cbn [fold_left]. change (map (fun d => znth d (sizes (fold_left presum_axis ops (presum_axis t op))) 0) (map fst ops)) with (extents (fold_left presum_axis ops (presum_axis t op)) (map fst ops)).
    rewrite IH by assumption. apply map_ext_in. intros op' I.
    destruct (snd op'); [reflexivity|]. unfold znth. apply presum_axis_other; [assumption|].
    intros E. apply H3. apply in_map_iff. exists op'. split; [|assumption].
    rewrite Forall_forall in H2. specialize (H2 _ I). lia.
Qed.

(** The elements of the summed tensor, read through a placement [p] of
    coordinates on axes in which the summed axes are consecutive. *)
Lemma presum_axes_elem p ops post ipost :
  NoDup p -> Forall (fun d => 0 <= d < zlen p) p -> length ipost = length post ->
  forall t front ifront c,
  zlen p = dim t ->
  p = front ++ map fst ops ++ post ->
  Forall (fun op => match snd op with
                    | Some a => znth (fst op) (sizes t) 0 = a
                    | None => True
                    end) ops ->
  length ifront = length front -> length c = length ops ->
  elem (presum_axes t ops) (unpermute p (ifront ++ c ++ ipost)) =
  presum (map snd ops) (fun r => elem t (unpermute p (ifront ++ r ++ ipost))) c.
Proof.
  intros N R L3.
  induction ops as [|[d m] ops IH]; intros t front ifront c L P S L1 Lc.
  - destruct c; [|discriminate]. reflexivity.
  - destruct c as [|v c]; [discriminate|]. cbn [length] in Lc.
    pose proof (Forall_inv S) as Sd. pose proof (Forall_inv_tail S) as S'.
    cbn [fst snd map] in *.
    assert (P' : p = (front ++ [d]) ++ map fst ops ++ post)
      by (rewrite P; list_norm; reflexivity).
    assert (Hdp : 0 <= d < zlen p).
    { rewrite Forall_forall in R. apply R. rewrite P.
      rewrite !in_app_iff. right. left. left. reflexivity. }
    assert (Hd : 0 <= d < dim t) by lia.
    assert (Hq : nth (length front) p 0 = d) by (rewrite P; apply nth_app_mid).
    assert (Hqlt : (length front < length p)%nat).
    { rewrite P. repeat (rewrite ?length_app, ?length_map; cbn [length]). lia. }
    assert (Hnot : forall op, In op ops -> Z.to_nat (fst op) <> Z.to_nat d).
    { intros op I E.
      assert (Ip : In (fst op) p).
      { rewrite P. rewrite !in_app_iff. right. left. right. apply in_map. assumption. }
      rewrite Forall_forall in R. specialize (R _ Ip).
      assert (fst op = d) by lia.
      rewrite P in N. apply NoDup_remove_2 in N. apply N.
      rewrite !in_app_iff. right. left. rewrite <- H. apply in_map. assumption. }
    assert (Hupd : forall j r, length r = length ops ->
              upd (Z.to_nat d) j (unpermute p (ifront ++ (v :: r) ++ ipost)) =
              unpermute p (ifront ++ (j :: r) ++ ipost)).
    { intros j r Hr. rewrite <- Hq at 1.
      rewrite <- unpermute_upd; try assumption.
      - f_equal. rewrite <- L1. cbn [app]. apply upd_app.
      - rewrite Hq. assumption.
      - rewrite P. repeat (rewrite ?length_app, ?length_map; cbn [length]). lia. }
    unfold presum_axes. cbn [fold_left].
    change (fold_left presum_axis ops ?x) with (presum_axes x ops).
    replace (ifront ++ (v :: c) ++ ipost) with ((ifront ++ [v]) ++ c ++ ipost)
      by (list_norm; reflexivity).
    rewrite (IH (presum_axis t (d, m)) (front ++ [d]) (ifront ++ [v]) c).
    + cbn [presum]. unfold presum_axis. cbn [fst snd]. destruct m as [a|].
      * rewrite <- presum_sum by (rewrite length_map; lia).
        apply presum_ext. intros r Hr. rewrite length_map in Hr.
        rewrite sum_axis_keep_elem
          by (rewrite length_unpermute; unfold zlen in Hdp; lia).
        unfold znth in Sd. rewrite Sd. apply sumZ_ext. intros j.
        replace ((ifront ++ [v]) ++ r ++ ipost) with (ifront ++ (v :: r) ++ ipost)
          by (list_norm; reflexivity).
        rewrite Hupd by assumption. reflexivity.
      * apply presum_ext. intros r Hr. list_norm. reflexivity.
    + rewrite presum_axis_dim by assumption. assumption.
    + assumption.
    + rewrite Forall_forall in *. intros op I. specialize (S' op I).
      destruct (snd op) eqn:Eo; [|trivial]. unfold znth.
      rewrite presum_axis_other; [exact S'|assumption|]. cbn [fst].
      intros E. apply (Hnot op I). lia.
    + repeat (rewrite ?length_app; cbn [length]). lia.
    + lia.
Qed.







Lemma to_int_small z : 0 <= z < 2147483648 -> to_int z = z.
Proof. intros. unfold to_int. rewrite Z.mod_small by lia. lia. Qed.

Lemma tensordot_fold A B pairs st :
  Forall (good_pair A B) pairs ->
  dim (dot_t1 st) = dim A -> dim (dot_t2 st) = dim B ->
  foldM (tensordot_pair A B) pairs st =
  inr (mkDotState (presum_axes (dot_t1 st) (presummed1 A B pairs))
                  (presum_axes (dot_t2 st) (presummed2 A B pairs))
                  (csize st * prodZ (map common_extent (pair_extents A B pairs)))).
Proof.
  intros F. revert st. induction F as [|[d1 d2] pairs G F IH]; intros st D1 D2.
  - cbn. unfold ret. destruct st as [t1 t2 cs]. cbn [dot_t1 dot_t2 csize]. f_equal. f_equal.
    unfold prodZ. simpl. lia.
  - destruct G as [R1 [R2 [I1 [I2 [N1 [N2 C]]]]]]. cbn [fst snd] in *.
    cbn [foldM]. unfold tensordot_pair at 1.
    rewrite !size_in_range by assumption. cbn [bind].
    rewrite !to_int_small by lia.
    unfold presummed1, presummed2, pair_extents. cbn [map fst snd].
    fold (presummed1 A B pairs). fold (presummed2 A B pairs). fold (pair_extents A B pairs).
    unfold presum_axes. cbn [fold_left].
    unfold presum_axis at 2 4. cbn [fst snd]. unfold presum1, presum2. cbn [fst snd].
    rewrite prodZ_cons. unfold common_extent at 1. cbn [fst snd].
    destruct (znth d2 (sizes B) 0 =? 1) eqn:Eb.
    + rewrite sum_keep by lia. cbn [bind ret orb].
      rewrite IH; cbn [dot_t1 dot_t2 csize].
      * unfold presum_axes. do 2 f_equal. lia.
      * unfold dim, zlen. rewrite sum_axis_keep_sizes by (unfold dim, zlen in *; lia).
        rewrite length_upd. exact D1.
      * assumption.
    + cbn [orb]. destruct (znth d1 (sizes A) 0 =? 1) eqn:Ea.
      * rewrite sum_keep by lia. cbn [bind ret].
        rewrite IH; cbn [dot_t1 dot_t2 csize].
        -- unfold presum_axes. do 2 f_equal. lia.
        -- assumption.
        -- unfold dim, zlen. rewrite sum_axis_keep_sizes by (unfold dim, zlen in *; lia).
           rewrite length_upd. exact D2.
      * apply Z.eqb_neq in Ea, Eb.
        replace (znth d1 (sizes A) 0 =? znth d2 (sizes B) 0) with true
          by (symmetry; apply Z.eqb_eq; lia).
        cbn [TORCH_CHECK bind ret].
        rewrite IH; cbn [dot_t1 dot_t2 csize]; try assumption.
        unfold presum_axes. do 2 f_equal. lia.
Qed.

(** ** The axes that are not contracted *)

Lemma in_free_of dims n i : In i (free_of dims n) <-> 0 <= i < n /\ ~ In i dims.
Proof.
  unfold free_of. rewrite filter_In, In_zrange, negb_true_iff.
  split; intros [H1 H2]; split; try assumption.
  - intros I. assert (existsb (Z.eqb i) dims = true).
    { apply existsb_exists. exists i. split; [assumption|apply Z.eqb_refl]. }
    congruence.
  - apply not_true_is_false. intros E. apply existsb_exists in E.
    destruct E as [x [Hx E]]. apply Z.eqb_eq in E. subst. contradiction.
Qed.

Lemma NoDup_zrange n : NoDup (zrange n).
Proof.
  unfold zrange. apply Injective_map_NoDup; [|apply seq_NoDup].
  intros x y H. lia.
Qed.

Lemma NoDup_free_of dims n : NoDup (free_of dims n).
Proof. unfold free_of. apply NoDup_filter. apply NoDup_zrange. Qed.

Lemma free_of_perm dims n :
  Forall (fun d => 0 <= d < n) dims -> NoDup dims ->
  Permutation (free_of dims n ++ dims) (zrange n).
Proof.
  intros R N. apply NoDup_Permutation.
  - apply NoDup_app; [apply NoDup_free_of|assumption|].
    intros a I. apply in_free_of in I. tauto.
  - apply NoDup_zrange.
  - intros x. rewrite in_app_iff, in_free_of, In_zrange. rewrite Forall_forall in R.
    split.
    + intros [[H _]|H]; [assumption|apply R; assumption].
    + intros H. destruct (in_dec Z.eq_dec x dims); tauto.
Qed.

Lemma free_of_length dims n :
  0 <= n -> Forall (fun d => 0 <= d < n) dims -> NoDup dims ->
  zlen (free_of dims n ++ dims) = n.
Proof.
  intros Hn R N. unfold zlen. rewrite (Permutation_length (free_of_perm dims n R N)).
  rewrite length_zrange. lia.
Qed.

Lemma free_axes_fold cdims dims t l p sz rs :
  (forall i, 0 <= i -> bit cdims i = true <-> In i dims) ->
  Forall (fun i => 0 <= i < dim t) l ->
  foldM (fun '(p, sz, rs) i =>
           if negb (bit cdims i) then
             s <- size t i ;;
             ret (p ++ [i], sz * s, rs ++ [s])
           else ret (p, sz, rs)) l (p, sz, rs) =
  let f := filter (fun i => negb (existsb (Z.eqb i) dims)) l in
  inr (p ++ f, sz * prodZ (extents t f), rs ++ extents t f).
Proof.
  intros Hb F. revert p sz rs. induction F as [|i l Hi F IH]; intros p sz rs.
  - cbn [foldM filter extents map]. cbv zeta. unfold ret. rewrite !app_nil_r.
    change (prodZ []) with 1. rewrite Z.mul_1_r. reflexivity.
  - cbn [foldM filter].
    assert (E : bit cdims i = existsb (Z.eqb i) dims).
    { destruct (bit cdims i) eqn:E1; destruct (existsb (Z.eqb i) dims) eqn:E2; try reflexivity.
      - apply Hb in E1; [|lia]. assert (existsb (Z.eqb i) dims = true).
        { apply existsb_exists. exists i. split; [assumption|apply Z.eqb_refl]. }
        congruence.
      - apply existsb_exists in E2. destruct E2 as [x [Hx E2]]. apply Z.eqb_eq in E2. subst.
        apply Hb in Hx; [|lia]. congruence. }
    rewrite E. destruct (existsb (Z.eqb i) dims); cbn [negb].
    + cbn [bind ret]. apply IH.
    + rewrite size_in_range by assumption. cbn [bind ret]. rewrite IH. cbv zeta.
      unfold extents. cbn [map]. rewrite prodZ_cons. list_norm.
      rewrite Z.mul_assoc. reflexivity.
Qed.

Lemma free_axes_ok cdims dims t :
  (forall i, 0 <= i -> bit cdims i = true <-> In i dims) ->
  free_axes cdims t (dim t) =
  inr (free_of dims (dim t), prodZ (extents t (free_of dims (dim t))),
       extents t (free_of dims (dim t))).
Proof.
  intros Hb. unfold free_axes. rewrite (free_axes_fold cdims dims); [|assumption|].
  - cbv zeta. cbn [app]. rewrite Z.mul_1_l. reflexivity.
  - apply Forall_forall. intros i Hi. apply In_zrange in Hi. assumption.
Qed.



Lemma bitset_fold_ok dims ndims seen :
  Forall (fun d => 0 <= d < ndims) dims -> NoDup dims ->
  zlen seen = ndims ->
  (forall d, In d dims -> bit seen d = false) ->
  exists mask, foldM (bitset_step ndims) dims seen = inr mask.
Proof.
  revert seen. induction dims as [|d dims IH]; intros seen F N L Hs.
  - eexists. reflexivity.
  - inversion F; subst. inversion N; subst. cbn [foldM]. unfold bitset_step at 1.
    rewrite maybe_wrap_dim_id by assumption. cbn [bind].
    unfold bit in Hs. rewrite (Hs d) by (left; reflexivity). cbn [negb TORCH_CHECK bind ret].
    apply IH; try assumption.
    + apply zlen_zupd.
    + intros x Hx. rewrite Forall_forall in H2. specialize (H2 _ Hx).
      rewrite bit_zupd_other; [|lia|lia|intros E; subst; contradiction].
      apply Hs. right. assumption.
Qed.

Lemma dim_list_to_bitset_ok dims ndims :
  Forall (fun d => 0 <= d < ndims) dims -> NoDup dims ->
  exists mask, dim_list_to_bitset dims ndims = inr mask /\
               forall i, 0 <= i -> bit mask i = true <-> In i dims.
Proof.
  intros F N. destruct dims as [|d0 dims'].
  - exists (repeat false (Z.to_nat (Z.max ndims 1))). split; [reflexivity|].
    intros i Hi. split; [|intros []].
    unfold bit, znth. intros E. exfalso.
    destruct (Nat.lt_ge_cases (Z.to_nat i) (Z.to_nat (Z.max ndims 1))).
    + rewrite nth_repeat_lt in E by assumption. discriminate.
    + rewrite nth_overflow in E by (rewrite repeat_length; assumption). discriminate.
  - assert (0 < ndims) by (inversion F; lia).
    destruct (bitset_fold_ok (d0 :: dims') ndims (repeat false (Z.to_nat (Z.max ndims 1))) F N)
      as [mask Hm].
    + rewrite zlen_repeat. lia.
    + intros d Hd. unfold bit. rewrite Forall_forall in F. specialize (F _ Hd).
      apply znth_repeat. lia.
    + exists mask. split; [exact Hm|].
      apply (dim_list_to_bitset_spec _ _ _ Hm).
      eapply Forall_impl; [|exact F]. cbv beta. intros. lia.
Qed.

Lemma wf_presum_axis t op : wf t -> 0 <= fst op < dim t -> wf (presum_axis t op).
Proof.
  intros W H. unfold presum_axis. destruct (snd op); [|assumption].
  unfold wf, wf_sizes in *. rewrite sum_axis_keep_sizes by (unfold dim, zlen in H; lia).
  apply Forall_forall. intros x Hx. apply In_nth with (d := 0) in Hx.
  destruct Hx as [k [Hk Ek]]. rewrite length_upd in Hk.
  destruct (Nat.eq_dec k (Z.to_nat (fst op))) as [->|Nk].
  - rewrite nth_upd_same in Ek by assumption. lia.
  - rewrite nth_upd_other in Ek by lia. subst x.
    rewrite Forall_forall in W. apply W. apply nth_In. assumption.
Qed.

Lemma wf_presum_axes t ops :
  wf t -> Forall (fun op => 0 <= fst op < dim t) ops -> wf (presum_axes t ops).
Proof.
  revert t. induction ops as [|op ops IH]; intros t W F; [assumption|].
  inversion F; subst. unfold presum_axes. cbn [fold_left]. apply IH.
  - apply wf_presum_axis; assumption.
  - rewrite presum_axis_dim by assumption. assumption.
Qed.

Lemma wf_extents t axes : wf t -> wf_sizes (extents t axes).
Proof.
  intros W. unfold extents, wf_sizes. apply Forall_forall. intros x Hx.
  apply in_map_iff in Hx. destruct Hx as [d [<- _]]. unfold znth.
  destruct (Nat.lt_ge_cases (Z.to_nat d) (length (sizes t))).
  - unfold wf, wf_sizes in W. rewrite Forall_forall in W. apply W. apply nth_In. assumption.
  - rewrite nth_overflow by assumption. lia.
Qed.

Lemma extents_app t a b : extents t (a ++ b) = extents t a ++ extents t b.
Proof. unfold extents. apply map_app. Qed.

(** ** Contraction by one matrix multiply

    Flattening [X] to [rows x inner] and [Y] to [inner x columns],
    multiplying and unflattening contracts the [inner] axes. *)
Lemma contract_by_mm (X Y : Tensor) (rs1 cs rs2 : list Z) :
  sizes X = rs1 ++ cs -> sizes Y = cs ++ rs2 ->
  wf_sizes rs1 -> wf_sizes cs -> wf_sizes rs2 ->
  exists R,
    (x <- reshape X [prodZ rs1; prodZ cs] ;;
     y <- reshape Y [prodZ cs; prodZ rs2] ;;
     m <- mm x y ;;
     reshape m (rs1 ++ rs2)) = inr R /\
    sizes R = rs1 ++ rs2 /\
    forall ia ib, valid_index rs1 ia -> valid_index rs2 ib ->
      elem R (ia ++ ib) =
      sumZ (indices cs) (fun c => elem X (ia ++ c) * elem Y (c ++ ib)).
Proof.
  intros HX HY W1 Wc W2.
  pose proof (prodZ_nonneg _ W1) as P1. pose proof (prodZ_nonneg _ Wc) as Pc.
  pose proof (prodZ_nonneg _ W2) as P2.
  rewrite reshape_ok.
  2:{ repeat constructor; assumption. }
  2:{ unfold numel. rewrite HX, prodZ_app, !prodZ_cons. change (prodZ []) with 1. ring. }
  cbn [bind]. rewrite reshape_ok.
  2:{ repeat constructor; assumption. }
  2:{ unfold numel. rewrite HY, prodZ_app, !prodZ_cons. change (prodZ []) with 1. ring. }
  cbn [bind]. unfold mm. cbn [sizes]. rewrite Z.eqb_refl. cbn [TORCH_CHECK bind ret].
  rewrite reshape_ok.
  2:{ apply Forall_app. split; assumption. }
  2:{ unfold numel. cbn [sizes]. rewrite prodZ_app, !prodZ_cons. change (prodZ []) with 1. ring. }
  eexists. split; [reflexivity|]. cbn [sizes elem]. split; [reflexivity|].
  intros ia ib Va Vb.
  pose proof (ravel_bound _ _ Va) as Ba. pose proof (ravel_bound _ _ Vb) as Bb.
  assert (E : ravel (rs1 ++ rs2) (ia ++ ib) = ravel [prodZ rs1; prodZ rs2] [ravel rs1 ia; ravel rs2 ib]).
  { rewrite ravel_app by (apply valid_index_length; assumption).
    cbn [ravel]. rewrite !prodZ_cons. change (prodZ []) with 1. ring. }
  rewrite E. rewrite unravel_ravel by (cbn [valid_index]; tauto).
  cbn [znth Z.to_nat nth]. change (Pos.to_nat 1) with 1%nat. cbn [nth].
  rewrite sumZ_zrange_indices by assumption.
  apply sumZ_ext_in. intros c Hc. apply In_indices in Hc.
  pose proof (ravel_bound _ _ Hc) as Bc.
  f_equal.
  - f_equal. rewrite HX.
    replace (ravel [prodZ rs1; prodZ cs] [ravel rs1 ia; ravel cs c])
      with (ravel (rs1 ++ cs) (ia ++ c)).
    + apply unravel_ravel. apply valid_index_app; [apply valid_index_length; assumption|tauto].
    + rewrite ravel_app by (apply valid_index_length; assumption).
      cbn [ravel]. rewrite !prodZ_cons. change (prodZ []) with 1. ring.
  - f_equal. rewrite HY.
    replace (ravel [prodZ cs; prodZ rs2] [ravel cs c; ravel rs2 ib])
      with (ravel (cs ++ rs2) (c ++ ib)).
    + apply unravel_ravel. apply valid_index_app; [apply valid_index_length; assumption|tauto].
    + rewrite ravel_app by (apply valid_index_length; assumption).
      cbn [ravel]. rewrite !prodZ_cons. change (prodZ []) with 1. ring.
Qed.





Lemma map_fst_combine {A B} (l1 : list A) (l2 : list B) :
  length l1 = length l2 -> map fst (combine l1 l2) = l1.
Proof.
  revert l2. induction l1; intros [|b l2] H; simpl in *; try discriminate; [reflexivity|].
  f_equal. apply IHl1. lia.
Qed.

Lemma map_snd_combine {A B} (l1 : list A) (l2 : list B) :
  length l1 = length l2 -> map snd (combine l1 l2) = l2.
Proof.
  revert l2. induction l1; intros [|b l2] H; simpl in *; try discriminate; [reflexivity|].
  f_equal. apply IHl1. lia.
Qed.

Lemma zipWith_map_combine {A B C D} (f : C -> D -> Z) (g : A -> C) (h : B -> D) l1 l2 :
  zipWith f (map g l1) (map h l2) = map (fun d => f (g (fst d)) (h (snd d))) (combine l1 l2).
Proof.
  revert l2. induction l1; intros [|b l2]; simpl; try reflexivity. f_equal. apply IHl1.
Qed.

Lemma skipn_app_exact' {A} (l1 l2 : list A) n : n = length l1 -> skipn n (l1 ++ l2) = l2.
Proof. intros ->. apply skipn_app_exact. Qed.

Lemma firstn_app_exact' {A} (l1 l2 : list A) n : n = length l1 -> firstn n (l1 ++ l2) = l1.
Proof. intros ->. apply firstn_app_exact. Qed.

Lemma length_extents t axes : length (extents t axes) = length axes.
Proof. unfold extents. apply length_map. Qed.

Lemma presum_axes_free_extents t ops axes :
  Forall (fun op => 0 <= fst op < dim t) ops ->
  Forall (fun x => 0 <= x) axes ->
  (forall op, In op ops -> ~ In (fst op) axes) ->
  extents (presum_axes t ops) axes = extents t axes.
Proof.
  intros F P D. unfold extents. apply map_ext_in. intros x Hx. unfold znth.
  apply presum_axes_other; [assumption|].
  intros op I E. apply (D op I). rewrite Forall_forall in F, P.
  specialize (F _ I). specialize (P _ Hx). replace (fst op) with x by lia. assumption.
Qed.

Theorem tensordot_contraction (A B : Tensor) (dims1 dims2 : list Z) :
  wf A -> wf B ->
  length dims1 = length dims2 ->
  NoDup dims1 -> NoDup dims2 ->
  Forall (good_pair A B) (combine dims1 dims2) ->
  req (tensordot A B dims1 dims2) (inr (tensordot_ref A B dims1 dims2)).
Proof.
  intros WA WB Hlen N1 N2 G.
  set (pairs := combine dims1 dims2) in *.
  assert (M1 : map fst pairs = dims1) by (apply map_fst_combine; assumption).
  assert (M2 : map snd pairs = dims2) by (apply map_snd_combine; assumption).
  assert (R1 : Forall (fun d => 0 <= d < dim A) dims1).
  { rewrite <- M1. apply Forall_map. eapply Forall_impl; [|exact G].
    intros d H. apply H. }
  assert (R2 : Forall (fun d => 0 <= d < dim B) dims2).
  { rewrite <- M2. apply Forall_map. eapply Forall_impl; [|exact G].
    intros d H. apply H. }
  assert (C : Forall compatible (pair_extents A B pairs)).
  { unfold pair_extents. apply Forall_map. eapply Forall_impl; [|exact G].
    intros d H. apply H. }
  assert (O1 : map fst (presummed1 A B pairs) = dims1).
  { unfold presummed1. rewrite map_map. cbn [fst]. exact M1. }
  assert (O2 : map fst (presummed2 A B pairs) = dims2).
  { unfold presummed2. rewrite map_map. cbn [fst]. exact M2. }
  assert (F1 : Forall (fun op => 0 <= fst op < dim A) (presummed1 A B pairs)).
  { apply Forall_map with (f := fst) (P := fun d => 0 <= d < dim A). rewrite O1. exact R1. }
  assert (F2 : Forall (fun op => 0 <= fst op < dim B) (presummed2 A B pairs)).
  { apply Forall_map with (f := fst) (P := fun d => 0 <= d < dim B). rewrite O2. exact R2. }
  set (t1 := presum_axes A (presummed1 A B pairs)).
  set (t2 := presum_axes B (presummed2 A B pairs)).
  assert (D1 : dim t1 = dim A) by (apply presum_axes_dim; assumption).
  assert (D2 : dim t2 = dim B) by (apply presum_axes_dim; assumption).
  assert (W1 : wf t1) by (apply wf_presum_axes; assumption).
  assert (W2 : wf t2) by (apply wf_presum_axes; assumption).
  set (f1 := free_of dims1 (dim A)). set (f2 := free_of dims2 (dim B)).
  set (cs := map common_extent (pair_extents A B pairs)).
  assert (X1 : extents t1 dims1 = cs).
  { replace (extents t1 dims1) with (extents t1 (map fst (presummed1 A B pairs)))
      by (rewrite O1; reflexivity).
    unfold t1. rewrite presum_axes_extents by (try assumption; rewrite O1; assumption).
    unfold cs, presummed1, pair_extents. rewrite !map_map. apply map_ext_in.
    intros d I. cbn [fst snd]. unfold presum1, common_extent. cbn [fst snd].
    destruct (znth (snd d) (sizes B) 0 =? 1); [reflexivity|]. cbn [orb].
    destruct (znth (fst d) (sizes A) 0 =? 1) eqn:E; [apply Z.eqb_eq in E; lia|reflexivity]. }
  assert (X2 : extents t2 dims2 = cs).
  { replace (extents t2 dims2) with (extents t2 (map fst (presummed2 A B pairs)))
      by (rewrite O2; reflexivity).
    unfold t2. rewrite presum_axes_extents by (try assumption; rewrite O2; assumption).
    unfold cs, presummed2, pair_extents. rewrite !map_map. apply map_ext_in.
    intros d I. cbn [fst snd]. unfold presum2, common_extent. cbn [fst snd].
    rewrite Forall_forall in G. destruct (G d I) as [_ [_ [_ [_ [Ha [Hb Hab]]]]]].
    cbn [fst snd] in *.
    destruct (znth (snd d) (sizes B) 0 =? 1) eqn:Eb; [apply Z.eqb_eq in Eb; cbn [orb]; lia|].
    cbn [orb]. apply Z.eqb_neq in Eb.
    destruct (znth (fst d) (sizes A) 0 =? 1) eqn:Ea; [reflexivity|].
    apply Z.eqb_neq in Ea. lia. }
  assert (Y1 : extents t1 f1 = extents A f1).
  { apply presum_axes_free_extents; [assumption| |].
    - apply Forall_forall. intros x Hx. apply in_free_of in Hx. lia.
    - intros op I Hf. apply in_free_of in Hf. destruct Hf as [_ Hf]. apply Hf.
      rewrite <- O1. apply in_map. assumption. }
  assert (Y2 : extents t2 f2 = extents B f2).
  { apply presum_axes_free_extents; [assumption| |].
    - apply Forall_forall. intros x Hx. apply in_free_of in Hx. lia.
    - intros op I Hf. apply in_free_of in Hf. destruct Hf as [_ Hf]. apply Hf.
      rewrite <- O2. apply in_map. assumption. }
  assert (NA : 0 <= dim A) by (unfold dim; apply zlen_nonneg).
  assert (NB : 0 <= dim B) by (unfold dim; apply zlen_nonneg).
  pose proof (free_of_perm dims1 (dim A) R1 N1) as Pm1.
  pose proof (free_of_perm dims2 (dim B) R2 N2) as Pm2.
  assert (Np1 : NoDup (f1 ++ dims1)).
  { eapply Permutation_NoDup; [apply Permutation_sym; exact Pm1|apply NoDup_zrange]. }
  assert (Np2 : NoDup (dims2 ++ f2)).
  { eapply Permutation_NoDup; [|apply NoDup_zrange].
    eapply Permutation_trans; [apply Permutation_sym; exact Pm2|apply Permutation_app_comm]. }
  assert (Lp1 : zlen (f1 ++ dims1) = dim A) by (apply free_of_length; assumption).
  assert (Lp2 : zlen (dims2 ++ f2) = dim B).
  { unfold zlen. rewrite length_app, Nat.add_comm, <- length_app. apply free_of_length; assumption. }
  assert (Rp1 : Forall (fun d => 0 <= d < dim A) (f1 ++ dims1)).
  { apply Forall_forall. intros x Hx. apply (Permutation_in _ Pm1) in Hx.
    apply In_zrange in Hx. assumption. }
  assert (Rp2 : Forall (fun d => 0 <= d < dim B) (dims2 ++ f2)).
  { apply Forall_forall. intros x Hx. apply in_app_or in Hx.
    assert (In x (free_of dims2 (dim B) ++ dims2)) by (apply in_or_app; tauto).
    apply (Permutation_in _ Pm2) in H. apply In_zrange in H. assumption. }
  (* the code *)
  unfold tensordot. rewrite Hlen, Nat.eqb_refl. cbn [TORCH_CHECK bind ret].
  fold pairs. rewrite tensordot_fold by (try assumption; reflexivity).
  cbn [bind dot_t1 dot_t2 csize]. fold t1 t2 cs. rewrite Z.mul_1_l.
  destruct (dim_list_to_bitset_ok dims1 (dim A) R1 N1) as [cdims1 [-> Hc1]].
  destruct (dim_list_to_bitset_ok dims2 (dim B) R2 N2) as [cdims2 [-> Hc2]].
  cbn [bind].
  rewrite <- D1 at 1. rewrite (free_axes_ok cdims1 dims1 t1 Hc1). rewrite D1. fold f1.
  cbn [bind].
  rewrite <- D2 at 1. rewrite (free_axes_ok cdims2 dims2 t2 Hc2). rewrite D2. fold f2.
  cbn [bind].
  rewrite permute_ok by (rewrite ?D1; assumption). cbn [bind].
  rewrite (permute_ok t2) by (rewrite ?D2; assumption). cbn [bind].
  match goal with |- req (bind (reshape ?X _) _) _ => set (TX := X) end.
  match goal with |- context [reshape ?Y [prodZ cs; _]] => set (TY := Y) end.
  destruct (contract_by_mm TX TY (extents t1 f1) cs (extents t2 f2)) as [R [HR [HS HE]]].
  { unfold TX. cbn [sizes]. rewrite extents_app, X1. reflexivity. }
  { unfold TY. cbn [sizes]. rewrite extents_app, X2. reflexivity. }
  { apply wf_extents. assumption. }
  { rewrite <- X1. apply wf_extents. assumption. }
  { apply wf_extents. assumption. }
  rewrite HR. unfold req, teq. rewrite HS. unfold tensordot_ref. cbn [sizes elem].
  fold f1 f2. rewrite Y1, Y2. split; [reflexivity|].
  intros idx V.
  destruct (valid_index_split _ _ _ V) as [Va Vb].
  rewrite length_extents in Va, Vb.
  set (ia := firstn (length f1) idx) in *. set (ib := skipn (length f1) idx) in *.
  assert (Eidx : idx = ia ++ ib) by (symmetry; apply firstn_skipn).
  rewrite Eidx at 1. rewrite HE by (rewrite ?Y1, ?Y2; assumption).
  assert (La : length ia = length f1)
    by (rewrite <- (length_extents A f1); apply valid_index_length; assumption).
  assert (Lb : length ib = length f2)
    by (rewrite <- (length_extents B f2); apply valid_index_length; assumption).
  (* elements of the two summed operands *)
  transitivity
    (sumZ (indices cs)
       (fun c => presum (map presum1 (pair_extents A B pairs))
                        (fun r => elem A (unpermute (f1 ++ dims1) (ia ++ r))) c *
                 presum (map presum2 (pair_extents A B pairs))
                        (fun r => elem B (unpermute (dims2 ++ f2) (r ++ ib))) c)).
  { apply sumZ_ext_in. intros c Hc. apply In_indices in Hc.
    assert (Lc : length c = length pairs).
    { apply valid_index_length in Hc. unfold cs, pair_extents in Hc.
      rewrite !length_map in Hc. assumption. }
    unfold TX, TY. cbn [elem]. f_equal.
    - unfold t1.
      replace (ia ++ c) with (ia ++ c ++ []) by (rewrite app_nil_r; reflexivity).
      rewrite (presum_axes_elem (f1 ++ dims1) (presummed1 A B pairs) [] [] ) with (front := f1);
        try assumption; try reflexivity.
      + unfold presummed1, pair_extents. rewrite !map_map. cbn [snd].
        apply presum_ext. intros r _. rewrite app_nil_r. reflexivity.
      + rewrite Lp1. eapply Forall_impl; [|exact Rp1]. cbv beta. intros; lia.
      + rewrite O1, app_nil_r. reflexivity.
      + unfold presummed1. apply Forall_map. apply Forall_forall. intros d _. cbn [fst snd].
        unfold presum1. cbn [fst snd]. destruct (znth (snd d) (sizes B) 0 =? 1); [reflexivity|exact I].
      + unfold presummed1. rewrite length_map. assumption.
    - unfold t2.
      change (c ++ ib) with ([] ++ c ++ ib).
      rewrite (presum_axes_elem (dims2 ++ f2) (presummed2 A B pairs) f2 ib) with (front := []);
        try assumption; try reflexivity.
      + unfold presummed2, pair_extents. rewrite !map_map. cbn [snd]. reflexivity.
      + rewrite Lp2. eapply Forall_impl; [|exact Rp2]. cbv beta. intros; lia.
      + rewrite O2. reflexivity.
      + unfold presummed2. apply Forall_map. apply Forall_forall. intros d _. cbn [fst snd].
        unfold presum2. cbn [fst snd]. destruct (znth (snd d) (sizes B) 0 =? 1); [exact I|].
        destruct (znth (fst d) (sizes A) 0 =? 1); [reflexivity|exact I].
      + unfold presummed2. rewrite length_map. assumption. }
  unfold cs. rewrite contraction_presum by assumption.
  assert (E1 : map fst (pair_extents A B pairs) = extents A dims1).
  { unfold pair_extents, extents. rewrite map_map. cbn [fst]. rewrite <- M1, map_map. reflexivity. }
  assert (E2 : map snd (pair_extents A B pairs) = extents B dims2).
  { unfold pair_extents, extents. rewrite map_map. cbn [snd]. rewrite <- M2, map_map. reflexivity. }
  assert (E3 : map broadcast_extent (pair_extents A B pairs) = contracted_extents A B dims1 dims2).
  { unfold contracted_extents, extents, pair_extents. rewrite zipWith_map_combine.
    fold pairs. rewrite map_map. reflexivity. }
  rewrite E1, E2, E3. reflexivity.
Qed.


Lemma teq_refl a : teq a a.
Proof. split; reflexivity. Qed.

Lemma teq_trans a b c : teq a b -> teq b c -> teq a c.
Proof.
  intros [S1 E1] [S2 E2]. split; [congruence|].
  intros idx V. rewrite E1 by assumption. apply E2. rewrite <- S1. assumption.
Qed.

Lemma req_teq r a b : req r (inr a) -> teq a b -> req r (inr b).
Proof. destruct r as [e|t]; simpl; [tauto|]. apply teq_trans. Qed.

Lemma sumZ_indices_1 n f : sumZ (indices [n]) f = sumZ (zrange n) (fun j => f [j]).
Proof.
  rewrite sumZ_indices_cons. apply sumZ_ext. intros v. cbn [indices sumZ fold_right]. lia.
Qed.

Lemma tensordot_ref_matrix (A B : Tensor) (n m p : Z) :
  sizes A = [n; m] -> sizes B = [m; p] ->
  teq (tensordot_ref A B [1] [0]) (matrix_product A B).
Proof.
  destruct A as [sA fA], B as [sB fB]. cbn [sizes]. intros -> ->.
  unfold teq, tensordot_ref, matrix_product. cbn [sizes elem].
  change (free_of [1] (dim (mkTensor [n; m] fA))) with [0].
  change (free_of [0] (dim (mkTensor [m; p] fB))) with [1].
  change (extents (mkTensor [n; m] fA) [0]) with [n].
  change (extents (mkTensor [m; p] fB) [1]) with [p].
  change (extents (mkTensor [n; m] fA) [1]) with [m].
  change (extents (mkTensor [m; p] fB) [0]) with [m].
  cbn [app znth Z.to_nat nth]. change (Pos.to_nat 1) with 1%nat. cbn [nth].
  split; [reflexivity|].
  intros idx V. destruct idx as [|i [|k [|? ?]]]; cbn [valid_index] in V; try tauto.
  cbn [length firstn skipn nth].
  unfold contracted_extents. 
  change (extents (mkTensor [n; m] fA) [1]) with [m].
  change (extents (mkTensor [m; p] fB) [0]) with [m].
  cbn [zipWith].
  replace (if m =? 1 then m else m) with m by (destruct (m =? 1); reflexivity).
  rewrite sumZ_indices_1. apply sumZ_ext_in. intros j Hj. apply In_zrange in Hj.
  unfold broadcast_coords. cbn [zipWith app]. rewrite clip_valid by assumption.
  reflexivity.
Qed.

(** Claim C5, for lists of pairwise distinct axes and contracted
    extents that fit an [int].  [tensordot A B dims1 dims2] is the sum,
    over the coordinates of all paired axes, of the broadcast product of
    [A] and [B]; its axes are the axes of [A] that are not contracted,
    in their order, followed by those of [B], in their order.  On an
    [n x m] and an [m x p] matrix, [tensordot A B [1] [0]] is the matrix
    product. *)
Theorem tensordot_contracts (A B : Tensor) (dims1 dims2 : list Z) :
  wf A -> wf B ->
  length dims1 = length dims2 ->
  NoDup dims1 -> NoDup dims2 ->
  Forall (good_pair A B) (combine dims1 dims2) ->
  req (tensordot A B dims1 dims2) (inr (tensordot_ref A B dims1 dims2)) /\
  (forall n m p, sizes A = [n; m] -> sizes B = [m; p] -> m < 2147483648 ->
                 req (tensordot A B [1] [0]) (inr (matrix_product A B))).
Proof.
  intros WA WB Hlen N1 N2 G. split.
  - apply tensordot_contraction; assumption.
  - intros n m p HA HB Hm.
    apply req_teq with (a := tensordot_ref A B [1] [0]).
    + apply tensordot_contraction; try assumption; try reflexivity.
      * repeat constructor; intros [].
      * repeat constructor; intros [].
      * unfold wf, wf_sizes in WA, WB. rewrite HA in WA. rewrite HB in WB.
        inversion WA as [|? ? ? WA']; subst. inversion WA'; subst.
        inversion WB as [|? ? ? WB']; subst.
        cbn [combine]. constructor; [|constructor].
        unfold good_pair, compatible, dim, zlen. rewrite HA, HB. cbn [fst snd length znth Z.to_nat nth].
        change (Pos.to_nat 1) with 1%nat. cbn [nth]. lia.
    + eapply tensordot_ref_matrix; eassumption.
Qed.

Lemma tensordot_contracts_witness :
  req (tensordot A22 B22 [1] [0]) (inr (tensordot_ref A22 B22 [1] [0])) /\
  req (tensordot A22 B22 [1] [0]) (inr (matrix_product A22 B22)).
Proof.
  destruct (tensordot_contracts A22 B22 [1] [0]) as [H1 H2].
  - repeat constructor; lia.
  - repeat constructor; lia.
  - reflexivity.
  - repeat constructor; intros [].
  - repeat constructor; intros [].
  - constructor; [|constructor]. unfold good_pair, compatible. cbn [fst snd].
    change (dim A22) with 2. change (dim B22) with 2.
    change (znth 1 (sizes A22) 0) with 2. change (znth 0 (sizes B22) 0) with 2. lia.
  - split; [exact H1|]. apply (H2 2 2 2); [reflexivity|reflexivity|lia].
Defined.

(** Claim C5 fails when an axis is listed twice: the lists [0; 0] and
    [0; 1] on two 2 x 2 matrices have equal length and compatible
    extents, and [tensordot] rejects them. *)
Lemma tensordot_repeated_axis :
  length [0; 0] = length [0; 1] /\
  Forall (fun d => compatible (znth (fst d) (sizes A22) 0, znth (snd d) (sizes B22) 0))
         (combine [0; 0] [0; 1]) /\
  tensordot A22 B22 [0; 0] [0; 1] = inl (DimRepeated 0) /\
  ~ req (tensordot A22 B22 [0; 0] [0; 1]) (inr (tensordot_ref A22 B22 [0; 0] [0; 1])).
Proof.
  split; [reflexivity|]. split.
  - constructor; [|constructor; [|constructor]]; unfold compatible; cbn [fst snd].
    + change (znth 0 (sizes A22) 0) with 2. change (znth 0 (sizes B22) 0) with 2. lia.
    + change (znth 0 (sizes A22) 0) with 2. change (znth 1 (sizes B22) 0) with 2. lia.
  - assert (E : tensordot A22 B22 [0; 0] [0; 1] = inl (DimRepeated 0)) by reflexivity.
    split; [exact E|]. rewrite E. intros H. exact H.
Qed.

(** * sumproduct_pair on operands of positive extents *)

(** ** Sums over the coordinates of several axes *)

Lemma upd_comm {A} d1 d2 (v w : A) l :
  d1 <> d2 -> upd d1 v (upd d2 w l) = upd d2 w (upd d1 v l).
Proof.
  revert d1 d2. induction l as [|x l IH]; intros [|d1] [|d2] H; cbn [upd]; try reflexivity.
  - congruence.
  - f_equal. apply IH. congruence.
Qed.

Lemma upd_upd {A} d (v w : A) l : upd d v (upd d w l) = upd d v l.
Proof.
  revert d. induction l as [|x l IH]; intros [|d]; cbn [upd]; try reflexivity.
  f_equal. apply IH.
Qed.

Lemma msum_ext_on (P : list Z -> Prop) ax F G idx :
  (forall x d e j, P x -> In (d, e) ax -> 0 <= j < e -> P (upd d j x)) ->
  (forall x, P x -> F x = G x) ->
  P idx -> msum ax F idx = msum ax G idx.
Proof.
  revert idx. induction ax as [|[d e] ax IH]; intros idx HP HFG Hidx; cbn [msum].
  - apply HFG, Hidx.
  - apply sumZ_ext_in. intros j Hj. apply In_zrange in Hj. apply IH.
    + intros x d' e' j' Hx Hin Hj'. eapply HP; [assumption|right; eassumption|assumption].
    + assumption.
    + eapply HP; [assumption|left; reflexivity|assumption].
Qed.

Lemma msum_ext ax F G idx : (forall x, F x = G x) -> msum ax F idx = msum ax G idx.
Proof.
  intros H. apply (msum_ext_on (fun _ => True)); auto.
Qed.

Lemma msum_ext_length ax F G idx :
  (forall x, length x = length idx -> F x = G x) -> msum ax F idx = msum ax G idx.
Proof.
  intros H. apply (msum_ext_on (fun x => length x = length idx)); auto.
  intros x d e j Hx _ _. rewrite length_upd. assumption.
Qed.

Lemma msum_snoc ax d e F idx :
  msum (ax ++ [(d, e)]) F idx =
  msum ax (fun x => sumZ (zrange e) (fun j => F (upd d j x))) idx.
Proof.
  revert idx. induction ax as [|[d' e'] ax IH]; intros idx; cbn [msum app].
  - reflexivity.
  - apply sumZ_ext. intros j. apply IH.
Qed.

(** A sum over an axis that is not listed can be moved inside. *)
Lemma msum_sum_inner ax a e F idx :
  ~ In a (map fst ax) ->
  sumZ (zrange e) (fun j => msum ax F (upd a j idx)) =
  msum ax (fun x => sumZ (zrange e) (fun j => F (upd a j x))) idx.
Proof.
  revert idx. induction ax as [|[d e'] ax IH]; intros idx Hn; cbn [msum].
  - reflexivity.
  - cbn [map fst In] in Hn.
    rewrite sumZ_swap. apply sumZ_ext. intros i.
    rewrite <- IH by tauto. apply sumZ_ext. intros j.
    rewrite upd_comm by (intros E; apply Hn; left; exact E). reflexivity.
Qed.

Lemma msum_indep ax a v H idx :
  ~ In a (map fst ax) ->
  (forall x, H (upd a v x) = H x) ->
  msum ax H (upd a v idx) = msum ax H idx.
Proof.
  revert idx. induction ax as [|[d e] ax IH]; intros idx Hn HH; cbn [msum].
  - apply HH.
  - cbn [map fst In] in Hn. apply sumZ_ext. intros j.
    rewrite upd_comm by (intros E; apply Hn; left; exact E).
    apply IH; [tauto|assumption].
Qed.

(** The order of the axes does not matter. *)
Lemma msum_perm ax ax' :
  Permutation ax ax' -> NoDup (map fst ax) ->
  forall F idx, msum ax F idx = msum ax' F idx.
Proof.
  induction 1 as [|[d e] l l' HP IH|[d1 e1] [d2 e2] l|l l' l'' HP1 IH1 HP2 IH2];
    intros ND F idx; cbn [msum].
  - reflexivity.
  - cbn [map fst] in ND. apply NoDup_cons_iff in ND. destruct ND as [_ ND].
    apply sumZ_ext. intros j. apply IH, ND.
  - cbn [map fst] in ND. apply NoDup_cons_iff in ND. destruct ND as [Hn _].
    cbn [In] in Hn. rewrite sumZ_swap. apply sumZ_ext. intros i. apply sumZ_ext. intros j.
    rewrite upd_comm by (intros E; apply Hn; left; lia). reflexivity.
  - rewrite IH1 by assumption. apply IH2.
    eapply Permutation_NoDup; [|exact ND]. apply Permutation_map, HP1.
Qed.

(** ** Summing a factor beforehand *)

Lemma pre_left_axis x : forall y, In y (pre_left x) -> fst y = axis_of x.
Proof.
  destruct x as [[a l] r]. unfold pre_left, axis_of. cbn [fst].
  destruct ((1 <? l) && negb (1 <? r)); intros y Hy; cbn [In] in Hy;
    [destruct Hy as [<-|[]]; reflexivity|destruct Hy].
Qed.

Lemma pre_right_axis x : forall y, In y (pre_right x) -> fst y = axis_of x.
Proof.
  destruct x as [[a l] r]. unfold pre_right, axis_of. cbn [fst].
  destruct (negb (1 <? l) && (1 <? r)); intros y Hy; cbn [In] in Hy;
    [destruct Hy as [<-|[]]; reflexivity|destruct Hy].
Qed.

Lemma in_flat_map_axis (f : nat * Z * Z -> list (nat * Z)) axl a :
  (forall x y, In y (f x) -> fst y = axis_of x) ->
  In a (map fst (flat_map f axl)) -> In a (map axis_of axl).
Proof.
  intros Hf H. apply in_map_iff in H. destruct H as [y [<- Hy]].
  apply in_flat_map in Hy. destruct Hy as [x [Hx Hy]].
  apply in_map_iff. exists x. split; [symmetry; eapply Hf; eassumption|assumption].
Qed.

Lemma map_fst_kept axl : map fst (map kept_extent axl) = map axis_of axl.
Proof. rewrite map_map. apply map_ext. intros [[a l] r]. reflexivity. Qed.

Lemma map_fst_product axl : map fst (map product_extent axl) = map axis_of axl.
Proof. rewrite map_map. apply map_ext. intros [[a l] r]. reflexivity. Qed.

Lemma independent_sum a b e F :
  a <> b -> independent a F ->
  independent a (fun x => sumZ (zrange e) (fun j => F (upd b j x))).
Proof.
  intros Hab HF x v. apply sumZ_ext. intros j.
  rewrite upd_comm by (intros E; apply Hab; symmetry; exact E). apply HF.
Qed.

Lemma presum_product axl :
  NoDup (map axis_of axl) ->
  forall F G idx,
  Forall (summable F G) axl ->
  msum (map kept_extent axl)
       (fun x => msum (flat_map pre_left axl) F x * msum (flat_map pre_right axl) G x) idx =
  msum (map product_extent axl) (fun x => F x * G x) idx.
Proof.
  induction axl as [|[[a l] r] axl IH]; intros ND F G idx HS.
  - reflexivity.
  - cbn [map axis_of fst] in ND. apply NoDup_cons_iff in ND. destruct ND as [Hn ND].
    pose proof (Forall_inv HS) as Ha. pose proof (Forall_inv_tail HS) as HS'.
    destruct Ha as [Hl [Hr [Hc [HiF HiG]]]].
    assert (HnL : ~ In a (map fst (flat_map pre_left axl))).
    { intros H. apply Hn. eapply in_flat_map_axis; [|exact H].
      intros x y. apply pre_left_axis. }
    assert (HnR : ~ In a (map fst (flat_map pre_right axl))).
    { intros H. apply Hn. eapply in_flat_map_axis; [|exact H].
      intros x y. apply pre_right_axis. }
    assert (HnK : ~ In a (map fst (map kept_extent axl))) by (rewrite map_fst_kept; exact Hn).
    assert (HnP : ~ In a (map fst (map product_extent axl)))
      by (rewrite map_fst_product; exact Hn).
    cbn [map flat_map kept_extent product_extent pre_left pre_right msum].
    destruct (1 <? l) eqn:El; destruct (1 <? r) eqn:Er; cbn [andb negb app].
    + (* both operands carry the axis *)
      apply Z.ltb_lt in El, Er. assert (l = r) by lia. subst r.
      replace (l =? 1) with false by (symmetry; apply Z.eqb_neq; lia).
      apply sumZ_ext. intros j. apply IH; assumption.
    + (* the left operand is summed beforehand *)
      apply Z.ltb_lt in El. apply Z.ltb_ge in Er. assert (r = 1) by lia. subst r.
      replace (l =? 1) with false by (symmetry; apply Z.eqb_neq; lia).
      rewrite zrange_1. cbn [sumZ fold_right msum]. rewrite Z.add_0_r.
      specialize (HiG eq_refl).
      set (F' := fun x => sumZ (zrange l) (fun j => F (upd a j x))).
      transitivity (msum (map kept_extent axl)
                      (fun x => msum (flat_map pre_left axl) F' x *
                                msum (flat_map pre_right axl) G x) (upd a 0 idx)).
      { apply msum_ext. intros x. f_equal. unfold F'. apply msum_sum_inner, HnL. }
      rewrite IH; [|assumption|].
      2:{ clear - HS' Hn. induction axl as [|[[b lb] rb] axl IHl]; constructor.
          - pose proof (Forall_inv HS') as Hb. destruct Hb as [H1 [H2 [H3 [H4 H5]]]].
            repeat split; try assumption. intros E. apply independent_sum; [|auto].
            intros E'. apply Hn. left. exact E'.
          - apply IHl; [|exact (Forall_inv_tail HS')]. intros H. apply Hn. right. exact H. }
      rewrite msum_indep; [|assumption|].
      2:{ intros x. unfold F'. rewrite HiG. f_equal. apply sumZ_ext. intros j.
          rewrite upd_upd. reflexivity. }
      rewrite msum_sum_inner by assumption. apply msum_ext. intros x. unfold F'.
      rewrite sumZ_mul_r. apply sumZ_ext. intros j. rewrite HiG. reflexivity.
    + (* the right operand is summed beforehand *)
      apply Z.ltb_lt in Er. apply Z.ltb_ge in El. assert (l = 1) by lia. subst l.
      change (1 =? 1) with true. cbv iota.
      rewrite zrange_1. cbn [sumZ fold_right msum]. rewrite Z.add_0_r.
      specialize (HiF eq_refl).
      set (G' := fun x => sumZ (zrange r) (fun j => G (upd a j x))).
      transitivity (msum (map kept_extent axl)
                      (fun x => msum (flat_map pre_left axl) F x *
                                msum (flat_map pre_right axl) G' x) (upd a 0 idx)).
      { apply msum_ext. intros x. f_equal. unfold G'. apply msum_sum_inner, HnR. }
      rewrite IH; [|assumption|].
      2:{ clear - HS' Hn. induction axl as [|[[b lb] rb] axl IHl]; constructor.
          - pose proof (Forall_inv HS') as Hb. destruct Hb as [H1 [H2 [H3 [H4 H5]]]].
            repeat split; try assumption. intros E. apply independent_sum; [|auto].
            intros E'. apply Hn. left. exact E'.
          - apply IHl; [|exact (Forall_inv_tail HS')]. intros H. apply Hn. right. exact H. }
      rewrite msum_indep; [|assumption|].
      2:{ intros x. unfold G'. rewrite HiF. f_equal. apply sumZ_ext. intros j.
          rewrite upd_upd. reflexivity. }
      rewrite msum_sum_inner by assumption. apply msum_ext. intros x. unfold G'.
      rewrite sumZ_mul_l. apply sumZ_ext. intros j. rewrite HiF. reflexivity.
    + (* neither operand carries the axis *)
      apply Z.ltb_ge in El, Er. assert (l = 1) by lia. assert (r = 1) by lia. subst l r.
      change (1 =? 1) with true. cbv iota.
      apply sumZ_ext. intros j. apply IH; assumption.
Qed.

(** ** Permutations of the axes *)

Lemma length_gather p x : length (gather p x) = length p.
Proof. apply length_map. Qed.

Lemma gather_app p q x : gather (p ++ q) x = gather p x ++ gather q x.
Proof. apply map_app. Qed.

Lemma is_perm_zrange p : is_perm p -> Permutation p (zrange (zlen p)).
Proof.
  intros [ND R]. apply NoDup_Permutation_bis; [assumption| |].
  - rewrite length_zrange. unfold zlen. lia.
  - intros x Hx. apply In_zrange. rewrite Forall_forall in R. auto.
Qed.

Lemma is_perm_In p k : is_perm p -> 0 <= k < zlen p -> In k p.
Proof.
  intros Hp Hk. eapply Permutation_in; [apply Permutation_sym, is_perm_zrange, Hp|].
  apply In_zrange. assumption.
Qed.

Lemma perm_is_perm p n : Permutation p (zrange n) -> is_perm p.
Proof.
  intros H. assert (L : zlen p = Z.max n 0).
  { unfold zlen. rewrite (Permutation_length H), length_zrange. lia. }
  split.
  - eapply Permutation_NoDup; [apply Permutation_sym; exact H|apply NoDup_zrange].
  - apply Forall_forall. intros x Hx. apply (Permutation_in _ H) in Hx.
    apply In_zrange in Hx. lia.
Qed.

Lemma nth_gather p x k : (k < length p)%nat -> nth k (gather p x) 0 = znth (nth k p 0) x 0.
Proof.
  intros H. unfold gather.
  rewrite (nth_indep _ 0 (znth 0 x 0)) by (rewrite length_map; assumption).
  apply (map_nth (fun a => znth a x 0)).
Qed.

Lemma unpermute_gather p x :
  is_perm p -> length x = length p -> unpermute p (gather p x) = x.
Proof.
  intros Hp L. apply nth_ext with (d := 0) (d' := 0).
  - rewrite length_unpermute. congruence.
  - intros k Hk. rewrite length_unpermute in Hk. rewrite nth_unpermute by assumption.
    assert (I : In (Z.of_nat k) p) by (apply is_perm_In; [assumption|unfold zlen; lia]).
    destruct (index_of_In _ _ I) as [Hlt Hnth].
    rewrite nth_gather by assumption. rewrite Hnth. unfold znth. rewrite Nat2Z.id. reflexivity.
Qed.

Lemma gather_unpermute p v :
  is_perm p -> length v = length p -> gather p (unpermute p v) = v.
Proof.
  intros [ND R] L. apply nth_ext with (d := 0) (d' := 0).
  - rewrite length_gather. congruence.
  - intros k Hk. rewrite length_gather in Hk. rewrite nth_gather by assumption.
    rewrite Forall_forall in R. pose proof (R _ (nth_In p 0 Hk)) as Hr.
    unfold znth. rewrite nth_unpermute by (unfold zlen in Hr; lia).
    rewrite Z2Nat.id by lia. rewrite index_of_nth by assumption. reflexivity.
Qed.

Lemma zlen_inverse p : zlen (inverse p) = zlen p.
Proof.
  unfold inverse, zlen. rewrite length_map, length_zrange. rewrite Nat2Z.id. reflexivity.
Qed.

Lemma length_inverse p : length (inverse p) = length p.
Proof. pose proof (zlen_inverse p). unfold zlen in *. lia. Qed.

Lemma nth_inverse p k :
  (k < length p)%nat -> nth k (inverse p) 0 = Z.of_nat (index_of (Z.of_nat k) p).
Proof.
  intros H. unfold inverse.
  rewrite (nth_indep _ 0 (Z.of_nat (index_of 0 p)))
    by (rewrite length_map, length_zrange; unfold zlen; lia).
  rewrite (map_nth (fun a => Z.of_nat (index_of a p))).
  rewrite nth_zrange by (unfold zlen; lia). reflexivity.
Qed.

Lemma is_perm_inverse p : is_perm p -> is_perm (inverse p).
Proof.
  intros Hp. split.
  - unfold inverse. apply Injective_map_NoDup_in; [|apply NoDup_zrange].
    intros x y Hx Hy E. apply In_zrange in Hx, Hy.
    destruct (index_of_In _ _ (is_perm_In _ _ Hp Hx)) as [_ H1].
    destruct (index_of_In _ _ (is_perm_In _ _ Hp Hy)) as [_ H2].
    apply Nat2Z.inj in E. rewrite <- H1, <- H2, E. reflexivity.
  - rewrite zlen_inverse. apply Forall_forall. intros x Hx.
    unfold inverse in Hx. apply in_map_iff in Hx. destruct Hx as [a [<- Ha]].
    apply In_zrange in Ha.
    destruct (index_of_In _ _ (is_perm_In _ _ Hp Ha)) as [H1 _]. unfold zlen. lia.
Qed.

Lemma index_of_inverse p k :
  is_perm p -> (k < length p)%nat ->
  index_of (Z.of_nat k) (inverse p) = Z.to_nat (nth k p 0).
Proof.
  intros Hp Hk. pose proof Hp as [ND R].
  rewrite Forall_forall in R. pose proof (R _ (nth_In p 0 Hk)) as Hr.
  assert (Hq : (Z.to_nat (nth k p 0%Z) < length (inverse p))%nat)
    by (rewrite length_inverse; unfold zlen in Hr; lia).
  rewrite <- (index_of_nth (inverse p) (Z.to_nat (nth k p 0)));
    [|apply is_perm_inverse; assumption|assumption].
  f_equal. rewrite nth_inverse by (rewrite length_inverse in Hq; assumption).
  rewrite Z2Nat.id by lia. rewrite index_of_nth by assumption. reflexivity.
Qed.

Lemma unpermute_inverse p x :
  is_perm p -> unpermute (inverse p) x = gather p x.
Proof.
  intros Hp. apply nth_ext with (d := 0) (d' := 0).
  - rewrite length_unpermute, length_inverse, length_gather. reflexivity.
  - intros k Hk. rewrite length_unpermute, length_inverse in Hk.
    rewrite nth_unpermute by (rewrite length_inverse; assumption).
    rewrite index_of_inverse by assumption. rewrite nth_gather by assumption. reflexivity.
Qed.

Lemma gather_inverse p x : gather (inverse p) x = unpermute p x.
Proof.
  unfold gather, inverse, unpermute. rewrite map_map. apply map_ext. intros a.
  unfold znth. rewrite Nat2Z.id. reflexivity.
Qed.

(** The writes [opermutation[p[i]] = i]. *)
Lemma fill_opermutation_spec ds : forall i operm,
  NoDup ds -> Forall (fun d => 0 <= d < zlen operm) ds ->
  exists r, fill_opermutation ds i operm = inr r /\ zlen r = zlen operm /\
    forall a, 0 <= a < zlen operm ->
      znth a r 0 = if in_dec Z.eq_dec a ds then i + Z.of_nat (index_of a ds) else znth a operm 0.
Proof.
  induction ds as [|d ds IH]; intros i operm ND R; cbn [fill_opermutation].
  - exists operm. split; [reflexivity|]. split; [reflexivity|]. intros a _.
    destruct (in_dec Z.eq_dec a []) as [[]|]; reflexivity.
  - apply NoDup_cons_iff in ND. destruct ND as [Hn ND].
    pose proof (Forall_inv R) as Hd. pose proof (Forall_inv_tail R) as R'.
    cbv beta in Hd. unfold vset. replace ((0 <=? d) && (d <? zlen operm)) with true
      by (symmetry; apply andb_true_iff; split; [apply Z.leb_le|apply Z.ltb_lt]; lia).
    cbn [bind ret].
    destruct (IH (i + 1) (zupd d i operm) ND) as [r [Hr [Hl He]]].
    { rewrite zlen_zupd. assumption. }
    exists r. split; [assumption|]. rewrite zlen_zupd in Hl, He. split; [assumption|].
    intros a Ha. rewrite He by assumption. cbn [index_of].
    destruct (in_dec Z.eq_dec a ds) as [I|I]; destruct (in_dec Z.eq_dec a (d :: ds)) as [J|J].
    + destruct (d =? a) eqn:E; [apply Z.eqb_eq in E; subst; contradiction|]. lia.
    + exfalso. apply J. right. assumption.
    + destruct J as [->|J]; [|contradiction]. rewrite Z.eqb_refl.
      rewrite znth_zupd_same by assumption. cbn. lia.
    + rewrite znth_zupd_other; try lia. intros E. apply J. left. assumption.
Qed.

Lemma fill_opermutation_ok p :
  is_perm p -> fill_opermutation p 0 (repeat (-1) (length p)) = inr (inverse p).
Proof.
  intros Hp. pose proof Hp as [ND R].
  assert (L : zlen (repeat (-1) (length p)) = zlen p) by (unfold zlen; rewrite repeat_length; reflexivity).
  destruct (fill_opermutation_spec p 0 (repeat (-1) (length p)) ND) as [r [Hr [Hl He]]].
  { rewrite L. assumption. }
  rewrite Hr. f_equal. rewrite L in Hl, He.
  apply nth_ext with (d := 0) (d' := 0).
  - rewrite length_inverse. unfold zlen in Hl. lia.
  - intros k Hk. assert (Hk' : (k < length p)%nat) by (unfold zlen in Hl; lia).
    rewrite nth_inverse by assumption.
    specialize (He (Z.of_nat k) ltac:(unfold zlen; lia)).
    unfold znth in He. rewrite Nat2Z.id in He. rewrite He.
    destruct (in_dec Z.eq_dec (Z.of_nat k) p) as [I|I]; [lia|].
    exfalso. apply I. apply is_perm_In; [assumption|unfold zlen; lia].
Qed.

(** Two ways of listing the same assignment of coordinates to axes. *)
Lemma unpermute_assign p v p' v' :
  NoDup p -> NoDup p' -> length p = length v -> length p' = length v' ->
  Permutation (combine p v) (combine p' v') ->
  unpermute p v = unpermute p' v'.
Proof.
  intros ND ND' L L' HP.
  assert (Ll : length p = length p').
  { pose proof (Permutation_length HP) as H. rewrite !length_combine in H. lia. }
  unfold unpermute. replace (zlen p') with (zlen p) by (unfold zlen; lia).
  apply map_ext. intros a.
  destruct (in_dec Z.eq_dec a p) as [I|I].
  - destruct (index_of_In _ _ I) as [Hq Hn].
    assert (J : In (a, nth (index_of a p) v 0) (combine p' v')).
    { apply (Permutation_in _ HP).
      rewrite <- Hn at 1. rewrite <- combine_nth by assumption.
      apply nth_In. rewrite length_combine. lia. }
    apply (In_nth _ _ (0, 0)) in J. destruct J as [q' [Hq' E]].
    rewrite length_combine in Hq'. rewrite combine_nth in E by assumption.
    apply pair_equal_spec in E. destruct E as [E1 E2].
    rewrite <- E1 at 2. rewrite index_of_nth by (try assumption; lia).
    symmetry. exact E2.
  - assert (I' : ~ In a p').
    { intros J. apply I.
      destruct (In_nth _ _ 0 J) as [q' [Hq' E]].
      assert (K : In (a, nth q' v' 0) (combine p v)).
      { apply (Permutation_in _ (Permutation_sym HP)).
        rewrite <- E. rewrite <- combine_nth by assumption.
        apply nth_In. rewrite length_combine. lia. }
      apply in_combine_l in K. assumption. }
    rewrite (index_of_notin _ _ I), (index_of_notin _ _ I').
    rewrite !nth_overflow by lia. reflexivity.
Qed.

Lemma combine_app {A B} (l1 l2 : list A) (m1 m2 : list B) :
  length l1 = length m1 ->
  combine (l1 ++ l2) (m1 ++ m2) = combine l1 m1 ++ combine l2 m2.
Proof.
  revert m1. induction l1 as [|x l1 IH]; intros [|y m1] H; cbn in *; try discriminate.
  - reflexivity.
  - f_equal. apply IH. lia.
Qed.

(** The right operand lists the axes as lro, sum, ro, lo. *)
Lemma unpermute_rotate (A B C D a b c d : list Z) :
  NoDup (A ++ B ++ C ++ D) ->
  length A = length a -> length B = length b -> length C = length c -> length D = length d ->
  unpermute (A ++ C ++ D ++ B) (a ++ c ++ d ++ b) = unpermute (A ++ B ++ C ++ D) (a ++ b ++ c ++ d).
Proof.
  intros ND LA LB LC LD.
  assert (P : Permutation (A ++ C ++ D ++ B) (A ++ B ++ C ++ D)).
  { apply Permutation_app_head. rewrite (app_assoc C D B).
    apply Permutation_app_comm. }
  apply unpermute_assign.
  - eapply Permutation_NoDup; [apply Permutation_sym; exact P|exact ND].
  - exact ND.
  - rewrite !length_app. lia.
  - rewrite !length_app. lia.
  - rewrite !combine_app by (rewrite ?length_app; lia).
    apply Permutation_app_head.
    rewrite (app_assoc (combine C c)). apply Permutation_app_comm.
Qed.

(** A sum over the listed axes, read in permuted coordinates. *)
Lemma msum_unpermute (e : Z -> Z) H p post vp : forall S front vf vs,
  NoDup p -> Forall (fun d => 0 <= d < zlen p) p ->
  p = front ++ S ++ post ->
  length vf = length front -> length vs = length S -> length vp = length post ->
  msum (map (fun d => (Z.to_nat d, e d)) S) H (unpermute p (vf ++ vs ++ vp)) =
  sumZ (indices (map e S)) (fun c => H (unpermute p (vf ++ c ++ vp))).
Proof.
  induction S as [|d S IH]; intros front vf vs ND R Hp Lf Ls Lp.
  - destruct vs; [|discriminate]. cbn [map msum indices sumZ fold_right]. lia.
  - destruct vs as [|v1 vs]; [discriminate|]. cbn [map msum].
    rewrite sumZ_indices_cons. apply sumZ_ext. intros j.
    assert (Hq : (length front < length p)%nat).
    { rewrite Hp. rewrite length_app. cbn [length app]. lia. }
    assert (Hn : nth (length front) p 0 = d) by (rewrite Hp; apply nth_app_mid).
    assert (Hr : 0 <= d < zlen p).
    { rewrite Forall_forall in R. apply R. rewrite Hp. apply in_or_app. right. left. reflexivity. }
    replace (upd (Z.to_nat d) j (unpermute p (vf ++ (v1 :: vs) ++ vp)))
      with (unpermute p ((vf ++ [j]) ++ vs ++ vp)).
    + rewrite (IH (front ++ [d]) (vf ++ [j]) vs); try assumption.
      * apply sumZ_ext. intros c. rewrite <- app_assoc. reflexivity.
      * rewrite Hp, <- app_assoc. reflexivity.
      * rewrite !length_app. cbn [length]. lia.
      * cbn [length] in Ls. lia.
    + rewrite <- Hn. rewrite <- unpermute_upd; try assumption.
      * rewrite <- Lf. cbn [app]. rewrite upd_app. rewrite <- app_assoc. reflexivity.
      * rewrite Hn. assumption.
      * rewrite Hp. cbn [length] in Ls. repeat (rewrite ?length_app; cbn [length]). lia.
Qed.

(** ** Broadcast coordinates *)

Lemma broadcast_coords_app s1 s2 c1 c2 :
  length s1 = length c1 ->
  broadcast_coords (s1 ++ s2) (c1 ++ c2) = broadcast_coords s1 c1 ++ broadcast_coords s2 c2.
Proof.
  unfold broadcast_coords. revert c1. induction s1 as [|x s1 IH]; intros [|y c1] H;
    cbn in *; try discriminate; [reflexivity|]. f_equal. apply IH. lia.
Qed.

Lemma broadcast_coords_valid s c : valid_index s c -> broadcast_coords s c = c.
Proof.
  unfold broadcast_coords. revert c. induction s as [|x s IH]; intros [|y c] H;
    cbn [valid_index zipWith] in *; try tauto.
  destruct H as [H1 H2]. rewrite IH by assumption. f_equal.
  destruct (x =? 1) eqn:E; [apply Z.eqb_eq in E; lia|reflexivity].
Qed.

Lemma broadcast_coords_ones s c :
  Forall (eq 1) s -> length s = length c -> broadcast_coords s c = map (fun _ => 0) s.
Proof.
  unfold broadcast_coords. revert c. induction s as [|x s IH]; intros [|y c] H L;
    cbn in *; try discriminate; [reflexivity|].
  pose proof (Forall_inv H) as <-. cbn. f_equal. apply IH; [exact (Forall_inv_tail H)|lia].
Qed.

Lemma length_broadcast_coords s c : length s = length c -> length (broadcast_coords s c) = length s.
Proof.
  unfold broadcast_coords. revert c. induction s as [|x s IH]; intros [|y c] H;
    cbn in *; try discriminate; [reflexivity|]. f_equal. apply IH. lia.
Qed.

Lemma nth_broadcast_coords s c k :
  length s = length c -> (k < length s)%nat ->
  nth k (broadcast_coords s c) 0 = if nth k s 0 =? 1 then 0 else nth k c 0.
Proof.
  unfold broadcast_coords. revert c k. induction s as [|x s IH]; intros [|y c] k H Hk;
    cbn in *; try discriminate; try lia.
  destruct k as [|k]; [reflexivity|]. apply IH; lia.
Qed.

Lemma broadcast_coords_unpermute s p v :
  is_perm p -> length s = length p -> length v = length p ->
  broadcast_coords s (unpermute p v) = unpermute p (broadcast_coords (gather p s) v).
Proof.
  intros Hp Ls Lv. apply nth_ext with (d := 0) (d' := 0).
  - rewrite length_broadcast_coords by (rewrite length_unpermute; assumption).
    rewrite length_unpermute. assumption.
  - intros k Hk.
    rewrite length_broadcast_coords in Hk by (rewrite length_unpermute; assumption).
    rewrite nth_broadcast_coords by (rewrite ?length_unpermute; assumption).
    rewrite !nth_unpermute by lia.
    assert (I : In (Z.of_nat k) p) by (apply is_perm_In; [assumption|unfold zlen; lia]).
    destruct (index_of_In _ _ I) as [Hlt Hnth].
    rewrite nth_broadcast_coords by (rewrite length_gather; lia).
    rewrite nth_gather by assumption. rewrite Hnth. unfold znth. rewrite Nat2Z.id. reflexivity.
Qed.

Lemma broadcast_coords_upd s d j y :
  0 <= j < nth d s 0 ->
  upd d j (broadcast_coords (upd d 1 s) y) = broadcast_coords s (upd d j y).
Proof.
  unfold broadcast_coords. revert d y. induction s as [|x s IH]; intros d y Hj.
  - destruct d; cbn in Hj; lia.
  - destruct y as [|y0 y]; [destruct d; reflexivity|]. destruct d as [|d]; cbn [nth] in Hj.
    + cbn [upd zipWith]. f_equal.
      destruct (x =? 1) eqn:E; [apply Z.eqb_eq in E; lia|reflexivity].
    + cbn [upd zipWith]. f_equal. apply IH. assumption.
Qed.

Lemma valid_gather s idx axes :
  valid_index s idx -> Forall (fun d => 0 <= d < zlen s) axes ->
  valid_index (gather axes s) (gather axes idx).
Proof.
  intros V R. assert (N : forall k, (k < length s)%nat -> 0 <= nth k idx 0 < nth k s 0).
  { clear R. revert idx V. induction s as [|x s IH]; intros [|y idx] V k Hk;
      cbn [valid_index length] in *; try tauto; try lia.
    destruct V as [V1 V2]. destruct k as [|k]; cbn [nth]; [assumption|]. apply IH; [assumption|lia]. }
  induction axes as [|a axes IH]; cbn [gather map valid_index]; [exact I|].
  split.
  - unfold znth. apply N. pose proof (Forall_inv R) as Ha. unfold zlen in Ha. lia.
  - apply IH. exact (Forall_inv_tail R).
Qed.

(** ** The product reduced over the flagged axes *)

Lemma zmasked_succ mask k :
  zmasked mask (Z.of_nat (S k)) =
  zmasked mask (Z.of_nat k) ++ (if nth k mask false then [Z.of_nat k] else []).
Proof.
  unfold zmasked. rewrite Nat2Z.inj_succ, <- Z.add_1_r, zrange_succ by lia.
  rewrite filter_app. cbn [filter]. unfold bit, znth. rewrite Nat2Z.id.
  destruct (nth k mask false); reflexivity.
Qed.

Lemma with_ext_upd s k v axes :
  Forall (fun i => 0 <= i /\ Z.to_nat i <> k) axes ->
  with_ext (upd k v s) axes = with_ext s axes.
Proof.
  intros H. unfold with_ext. apply map_ext_in. intros i Hi.
  rewrite Forall_forall in H. destruct (H i Hi) as [H0 Hk].
  unfold znth. rewrite nth_upd_other by congruence. reflexivity.
Qed.

Lemma sum_mask_keep mask k : forall t,
  (k <= length (sizes t))%nat ->
  length (sizes (sum_mask t mask k true)) = length (sizes t) /\
  (forall i, nth i (sizes (sum_mask t mask k true)) 0 =
             if (i <? k)%nat && nth i mask false then 1 else nth i (sizes t) 0) /\
  forall idx, length idx = length (sizes t) ->
    elem (sum_mask t mask k true) idx =
    msum (with_ext (sizes t) (zmasked mask (Z.of_nat k))) (elem t) idx.
Proof.
  induction k as [|k IH]; intros t Hk.
  - cbn [sum_mask]. split; [reflexivity|]. split.
    + intros i. reflexivity.
    + intros idx _. reflexivity.
  - cbn [sum_mask]. rewrite zmasked_succ. destruct (nth k mask false) eqn:M.
    + assert (Hs : sizes (sum_axis t k true) = upd k 1 (sizes t))
        by (apply sum_axis_keep_sizes; lia).
      destruct (IH (sum_axis t k true)) as [IL [IS IE]].
      { rewrite Hs, length_upd. lia. }
      rewrite Hs in IL, IS, IE. rewrite length_upd in IL, IE.
      split; [assumption|]. split.
      * intros i. rewrite IS. destruct (Nat.eq_dec i k) as [-> | N].
        -- rewrite Nat.ltb_irrefl. cbn [andb]. rewrite nth_upd_same by lia.
           replace (k <? S k)%nat with true by (symmetry; apply Nat.ltb_lt; lia).
           rewrite M. reflexivity.
        -- rewrite nth_upd_other by congruence.
           replace (i <? S k)%nat with (i <? k)%nat; [reflexivity|].
           destruct (i <? k)%nat eqn:E1; destruct (i <? S k)%nat eqn:E2; try reflexivity;
             [apply Nat.ltb_lt in E1; apply Nat.ltb_ge in E2|
              apply Nat.ltb_ge in E1; apply Nat.ltb_lt in E2]; lia.
      * intros idx Hl. rewrite IE by assumption.
        rewrite with_ext_upd.
        2:{ apply Forall_forall. intros i Hi. unfold zmasked in Hi. apply filter_In in Hi.
            destruct Hi as [Hi _]. apply In_zrange in Hi. lia. }
        unfold with_ext at 2. rewrite map_app. cbn [map]. fold (with_ext (sizes t)).
        rewrite msum_snoc. rewrite Nat2Z.id.
        apply msum_ext_length. intros x Hx.
        rewrite sum_axis_keep_elem by lia. unfold znth. rewrite Nat2Z.id. reflexivity.
    + destruct (IH t) as [IL [IS IE]]; [lia|].
      split; [assumption|]. split.
      * intros i. rewrite IS. destruct (Nat.eq_dec i k) as [-> | N].
        -- rewrite M, !andb_false_r. reflexivity.
        -- replace (i <? S k)%nat with (i <? k)%nat; [reflexivity|].
           destruct (i <? k)%nat eqn:E1; destruct (i <? S k)%nat eqn:E2; try reflexivity;
             [apply Nat.ltb_lt in E1; apply Nat.ltb_ge in E2|
              apply Nat.ltb_ge in E1; apply Nat.ltb_lt in E2]; lia.
      * intros idx Hl. rewrite app_nil_r. apply IE. assumption.
Qed.

Lemma broadcast_dims_same a b :
  Forall2 broadcastable a b -> broadcast_dims a b = inr (product_sizes a b).
Proof.
  induction 1 as [|x y a b Hxy H IH]; cbn [broadcast_dims product_sizes zipWith].
  - reflexivity.
  - destruct Hxy as [Hx [Hy Hc]]. unfold broadcast_dim.
    replace ((x =? y) || (x =? 1) || (y =? 1)) with true.
    + cbn [TORCH_CHECK bind ret]. rewrite IH. reflexivity.
    + symmetry. destruct Hc as [-> | [-> | ->]]; rewrite ?Z.eqb_refl, ?orb_true_r; reflexivity.
Qed.

Lemma mul_same_rank a b :
  Forall2 broadcastable (sizes a) (sizes b) ->
  mul a b = inr (mkTensor (product_sizes (sizes a) (sizes b))
                   (fun idx => elem a (expand_index (sizes a) idx) *
                               elem b (expand_index (sizes b) idx))).
Proof.
  intros H. unfold mul, broadcast_op, infer_size.
  pose proof (Forall2_length H) as L. rewrite <- L, Nat.max_id.
  unfold pad_left. rewrite Nat.sub_diag. rewrite L at 1. rewrite Nat.sub_diag. cbn [repeat app].
  rewrite (broadcast_dims_same _ _ H). reflexivity.
Qed.

Lemma expand_index_same s idx :
  length idx = length s -> expand_index s idx = broadcast_coords s idx.
Proof. intros H. unfold expand_index. rewrite H, Nat.sub_diag. reflexivity. Qed.

Lemma length_product_sizes a b : length a = length b -> length (product_sizes a b) = length a.
Proof.
  unfold product_sizes. revert b. induction a as [|x a IH]; intros [|y b] H;
    cbn in *; try discriminate; [reflexivity|]. f_equal. apply IH. lia.
Qed.

Lemma nth_product_sizes a b k :
  length a = length b ->
  nth k (product_sizes a b) 0 = if nth k a 0 =? 1 then nth k b 0 else nth k a 0.
Proof.
  unfold product_sizes. revert b k. induction a as [|x a IH]; intros [|y b] k H;
    cbn [length] in *; try discriminate.
  - destruct k; reflexivity.
  - destruct k as [|k]; cbn [zipWith nth]; [reflexivity|]. apply IH. lia.
Qed.

Lemma Forall2_nth_broadcastable a b k :
  Forall2 broadcastable a b -> (k < length a)%nat -> broadcastable (nth k a 0) (nth k b 0).
Proof.
  intros H. revert k. induction H as [|x y a b Hxy H IH]; intros k Hk; cbn [length] in Hk.
  - lia.
  - destruct k as [|k]; cbn [nth]; [assumption|]. apply IH. lia.
Qed.

(** ** The operands summed beforehand *)

Lemma presum_axes_clip_msum ops : forall t x,
  Forall (fun op => 0 <= fst op < dim t /\ snd op = Some (znth (fst op) (sizes t) 0)) ops ->
  NoDup (map fst ops) ->
  length x = length (sizes t) ->
  elem (presum_axes t ops) (broadcast_coords (sizes (presum_axes t ops)) x) =
  msum (map (fun op => (Z.to_nat (fst op), znth (fst op) (sizes t) 0)) ops)
       (fun y => elem t (broadcast_coords (sizes t) y)) x.
Proof.
  induction ops as [|[d m] ops IH]; intros t x HF ND Lx.
  - reflexivity.
  - pose proof (Forall_inv HF) as [Hd Hm]. pose proof (Forall_inv_tail HF) as HF'.
    cbn [fst snd] in Hd, Hm. cbn [map fst] in ND. apply NoDup_cons_iff in ND.
    destruct ND as [Hn ND].
    unfold presum_axes. cbn [fold_left]. fold (presum_axes (presum_axis t (d, m)) ops).
    unfold presum_axis. cbn [fst snd]. rewrite Hm.
    set (k := Z.to_nat d). assert (Hk : (k < length (sizes t))%nat) by (unfold dim, zlen in Hd; lia).
    assert (Hs : sizes (sum_axis t k true) = upd k 1 (sizes t))
      by (apply sum_axis_keep_sizes; assumption).
    assert (Hother : forall op, In op ops -> Z.to_nat (fst op) <> k /\ 0 <= fst op < dim t).
    { intros op Hop. rewrite Forall_forall in HF'. destruct (HF' op Hop) as [H1 _].
      split; [|assumption]. intros E. apply Hn. apply in_map_iff. exists op.
      split; [|assumption]. unfold k in E. lia. }
    rewrite IH; [| | assumption | rewrite Hs, length_upd; assumption].
    2:{ apply Forall_forall. intros op Hop. rewrite Forall_forall in HF'.
        destruct (HF' op Hop) as [H1 H2]. destruct (Hother op Hop) as [H3 _].
        unfold dim, zlen. rewrite Hs, length_upd. split; [exact H1|].
        rewrite H2. unfold znth. rewrite nth_upd_other by congruence. reflexivity. }
    cbn [map msum fst].
    rewrite msum_sum_inner.
    2:{ rewrite map_map. cbn [fst]. intros H. apply in_map_iff in H.
        destruct H as [op [E Hop]]. destruct (Hother op Hop) as [H3 _]. fold k in E. congruence. }
    replace (map (fun op => (Z.to_nat (fst op), znth (fst op) (sizes (sum_axis t k true)) 0)) ops)
      with (map (fun op => (Z.to_nat (fst op), znth (fst op) (sizes t) 0)) ops).
    2:{ apply map_ext_in. intros op Hop. destruct (Hother op Hop) as [H3 _].
        rewrite Hs. unfold znth. rewrite nth_upd_other by congruence. reflexivity. }
    apply msum_ext_length. intros y Hy.
    rewrite sum_axis_keep_elem.
    2:{ rewrite length_broadcast_coords; rewrite Hs, length_upd; lia. }
    unfold znth. fold k. apply sumZ_ext_in. intros j Hj. apply In_zrange in Hj.
    rewrite Hs. rewrite broadcast_coords_upd by assumption. reflexivity.
Qed.

(** ** The classification loop of sumproduct_pair *)

Lemma foldM_app {A S} (f : S -> A -> Result S) l1 l2 s :
  foldM f (l1 ++ l2) s = (s' <- foldM f l1 s ;; foldM f l2 s').
Proof.
  revert s. induction l1 as [|x l1 IH]; intros s; cbn [app foldM bind ret].
  - reflexivity.
  - destruct (f s x) as [e|s1]; cbn [bind]; [reflexivity|]. apply IH.
Qed.

Lemma presum_ops_range t s f k :
  0 <= k <= dim t ->
  Forall (fun op => 0 <= fst op < dim t) (presum_ops s (filter f (zrange k))).
Proof.
  intros Hk. unfold presum_ops. apply Forall_map. apply Forall_forall. intros i Hi.
  apply filter_In in Hi. destruct Hi as [Hi _]. apply In_zrange in Hi. cbn [fst]. lia.
Qed.

Lemma presum_ops_below t s f k :
  0 <= k < dim t ->
  znth k (sizes (presum_axes t (presum_ops s (filter f (zrange k))))) 0 = znth k (sizes t) 0.
Proof.
  intros Hk. unfold znth. apply presum_axes_other.
  - apply presum_ops_range. lia.
  - intros op Hop. unfold presum_ops in Hop. apply in_map_iff in Hop.
    destruct Hop as [i [<- Hi]]. apply filter_In in Hi. destruct Hi as [Hi _].
    apply In_zrange in Hi. cbn [fst]. lia.
Qed.

Lemma prodZ_snoc l x : prodZ (l ++ [x]) = prodZ l * x.
Proof. rewrite prodZ_app, prodZ_cons. change (prodZ []) with 1. ring. Qed.

Lemma presum_axes_snoc t ops i e :
  presum_axes t (ops ++ [(i, Some e)]) = sum_axis (presum_axes t ops) (Z.to_nat i) true.
Proof. unfold presum_axes. rewrite fold_left_app. reflexivity. Qed.

Lemma classify_step left right mask k :
  Forall2 broadcastable (sizes left) (sizes right) ->
  0 <= k < dim left ->
  sumproduct_classify mask (classified left right mask k) k =
  inr (classified left right mask (k + 1)).
Proof.
  intros HB Hk.
  assert (D : dim right = dim left) by (unfold dim, zlen; rewrite (Forall2_length HB); reflexivity).
  pose proof (Forall2_nth_broadcastable _ _ (Z.to_nat k) HB ltac:(unfold dim, zlen in Hk; lia))
    as [Hl [Hr Hc]].
  fold (znth k (sizes left) 0) in Hl, Hc. fold (znth k (sizes right) 0) in Hr, Hc.
  unfold sumproduct_classify, classified.
  cbn [ps_left ps_right lro lo ro lro_size lo_size ro_size sum_size].
  rewrite !size_in_range by (rewrite presum_axes_dim; [lia|apply presum_ops_range; lia]).
  cbn [bind]. rewrite !presum_ops_below by lia.
  rewrite zrange_succ by lia. rewrite !filter_app. cbn [filter].
  unfold in_lro, in_lo, in_ro, sum_left, sum_right, sum_both, nontrivial.
  destruct (bit mask k); destruct (1 <? znth k (sizes left) 0) eqn:El;
    destruct (1 <? znth k (sizes right) 0) eqn:Er; cbn [andb negb];
    rewrite ?app_nil_r; unfold presum_ops; rewrite ?map_app; cbn [map];
    rewrite ?presum_axes_snoc, ?gather_app; cbn [gather map]; rewrite ?prodZ_snoc.
  - apply Z.ltb_lt in El, Er.
    replace (znth k (sizes left) 0 =? znth k (sizes right) 0) with true
      by (symmetry; apply Z.eqb_eq; lia).
    reflexivity.
  - rewrite sum_keep by (rewrite presum_axes_dim; [lia|apply (presum_ops_range _ _ _ k); lia]).
    reflexivity.
  - rewrite sum_keep by (rewrite presum_axes_dim; [lia|apply (presum_ops_range _ _ _ k); lia]).
    reflexivity.
  - reflexivity.
  - apply Z.ltb_lt in El, Er.
    replace (znth k (sizes left) 0 =? znth k (sizes right) 0) with true
      by (symmetry; apply Z.eqb_eq; lia).
    reflexivity.
  - reflexivity.
  - reflexivity.
  - reflexivity.
Qed.

Lemma classify_fold left right mask :
  Forall2 broadcastable (sizes left) (sizes right) ->
  foldM (sumproduct_classify mask) (zrange (dim left))
        (mkPairState left right [] [] [] 1 1 1 1) =
  inr (classified left right mask (dim left)).
Proof.
  intros HB.
  assert (G : forall k : nat, Z.of_nat k <= dim left ->
            foldM (sumproduct_classify mask) (zrange (Z.of_nat k))
                  (mkPairState left right [] [] [] 1 1 1 1) =
            inr (classified left right mask (Z.of_nat k))).
  { induction k as [|k IH]; intros Hk.
    - reflexivity.
    - rewrite Nat2Z.inj_succ, <- Z.add_1_r. rewrite zrange_succ by lia.
      rewrite foldM_app, IH by lia. cbn [bind foldM].
      rewrite classify_step by (try assumption; lia). reflexivity. }
  specialize (G (length (sizes left))). apply G. unfold dim, zlen. lia.
Qed.

Lemma mapM_size t axes :
  Forall (fun d => 0 <= d < dim t) axes -> mapM (size t) axes = inr (gather axes (sizes t)).
Proof.
  induction axes as [|a axes IH]; intros H; cbn [mapM gather map].
  - reflexivity.
  - rewrite size_in_range by exact (Forall_inv H). cbn [bind].
    rewrite IH by exact (Forall_inv_tail H). reflexivity.
Qed.

(** ** Contraction by one batched matrix multiply *)

Lemma prodZ_ones l : Forall (eq 1) l -> prodZ l = 1.
Proof.
  induction 1 as [|x l <- H IH]; [reflexivity|]. rewrite prodZ_cons, IH. reflexivity.
Qed.

Lemma wf_sizes_ones l : Forall (eq 1) l -> wf_sizes l.
Proof. intros H. eapply Forall_impl; [|exact H]. cbv beta. intros; lia. Qed.

Lemma valid_index_zeros l : Forall (eq 1) l -> valid_index l (map (fun _ => 0) l).
Proof.
  induction 1 as [|x l <- H IH]; cbn [map valid_index]; [exact I|]. split; [lia|assumption].
Qed.

Lemma valid_index_ones l c : Forall (eq 1) l -> valid_index l c -> c = map (fun _ => 0) l.
Proof.
  intros H. revert c. induction H as [|x l <- H IH]; intros [|y c] V;
    cbn [valid_index map] in *; try tauto.
  destruct V as [V1 V2]. f_equal; [lia|]. apply IH. assumption.
Qed.

Lemma contract_by_bmm (X Y : Tensor) (bs xs cs ys ox oy oc : list Z) :
  sizes X = bs ++ xs ++ cs ++ ox -> sizes Y = bs ++ cs ++ ys ++ oy ->
  wf_sizes bs -> wf_sizes xs -> wf_sizes cs -> wf_sizes ys ->
  Forall (eq 1) ox -> Forall (eq 1) oy -> Forall (eq 1) oc ->
  exists R,
    (forall K : Tensor -> Result Tensor,
       (x <- reshape X [prodZ bs; prodZ xs; prodZ cs] ;;
        y <- reshape Y [prodZ bs; prodZ cs; prodZ ys] ;;
        m <- bmm x y ;;
        r <- view m (bs ++ xs ++ oc ++ ys) ;;
        K r) = K R) /\
    sizes R = bs ++ xs ++ oc ++ ys /\
    forall ib ix iy, valid_index bs ib -> valid_index xs ix -> valid_index ys iy ->
      elem R (ib ++ ix ++ map (fun _ => 0) oc ++ iy) =
      sumZ (indices cs) (fun c => elem X (ib ++ ix ++ c ++ map (fun _ => 0) ox) *
                                  elem Y (ib ++ c ++ iy ++ map (fun _ => 0) oy)).
Proof.
  intros HX HY Wb Wx Wc Wy Ox Oy Oc.
  pose proof (prodZ_nonneg _ Wb) as Pb. pose proof (prodZ_nonneg _ Wx) as Px.
  pose proof (prodZ_nonneg _ Wc) as Pc. pose proof (prodZ_nonneg _ Wy) as Py.
  pose proof (prodZ_ones _ Ox) as Pox. pose proof (prodZ_ones _ Oy) as Poy.
  pose proof (prodZ_ones _ Oc) as Poc.
  eexists. split; [|split].
  - intros K. rewrite reshape_ok.
    2:{ repeat constructor; assumption. }
    2:{ unfold numel. rewrite HX, !prodZ_app, !prodZ_cons, Pox. change (prodZ []) with 1. ring. }
    cbn [bind]. rewrite reshape_ok.
    2:{ repeat constructor; assumption. }
    2:{ unfold numel. rewrite HY, !prodZ_app, !prodZ_cons, Poy. change (prodZ []) with 1. ring. }
    cbn [bind]. unfold bmm. cbn [sizes]. rewrite !Z.eqb_refl. cbn [andb TORCH_CHECK bind ret].
    unfold view. rewrite reshape_ok.
    2:{ rewrite !Forall_app. repeat split; try assumption. apply wf_sizes_ones. assumption. }
    2:{ unfold numel. cbn [sizes]. rewrite !prodZ_app, !prodZ_cons, Poc. change (prodZ []) with 1. ring. }
    cbn [bind]. reflexivity.
  - reflexivity.
  - cbn [elem sizes]. intros ib ix iy Vb Vx Vy.
    pose proof (ravel_bound _ _ Vb) as Bb. pose proof (ravel_bound _ _ Vx) as Bx.
    pose proof (ravel_bound _ _ Vy) as By.
    pose proof (valid_index_zeros _ Oc) as Vc.
    pose proof (ravel_bound _ _ Vc) as Bc. rewrite Poc in Bc.
    pose proof (valid_index_length _ _ Vb) as Lb. pose proof (valid_index_length _ _ Vx) as Lx.
    pose proof (valid_index_length _ _ Vy) as Ly. pose proof (valid_index_length _ _ Vc) as Lc.
    assert (E : ravel (bs ++ xs ++ oc ++ ys) (ib ++ ix ++ map (fun _ => 0) oc ++ iy) =
                ravel [prodZ bs; prodZ xs; prodZ ys] [ravel bs ib; ravel xs ix; ravel ys iy]).
    { rewrite !ravel_app by assumption. rewrite !prodZ_app, Poc.
      cbn [ravel]. rewrite !prodZ_cons. change (prodZ []) with 1.
      replace (ravel oc (map (fun _ => 0) oc)) with 0 by lia. ring. }
    rewrite E. rewrite unravel_ravel by (cbn [valid_index]; tauto).
    cbn [znth Z.to_nat nth]. change (Pos.to_nat 1) with 1%nat. change (Pos.to_nat 2) with 2%nat.
    cbn [nth].
    rewrite sumZ_zrange_indices by assumption.
    apply sumZ_ext_in. intros c Hc. apply In_indices in Hc.
    pose proof (ravel_bound _ _ Hc) as Bcs. pose proof (valid_index_length _ _ Hc) as Lcs.
    pose proof (valid_index_zeros _ Ox) as Vox. pose proof (valid_index_zeros _ Oy) as Voy.
    pose proof (ravel_bound _ _ Vox) as Box. rewrite Pox in Box.
    pose proof (ravel_bound _ _ Voy) as Boy. rewrite Poy in Boy.
    f_equal.
    + f_equal. rewrite HX.
      replace (ravel [prodZ bs; prodZ xs; prodZ cs] [ravel bs ib; ravel xs ix; ravel cs c])
        with (ravel (bs ++ xs ++ cs ++ ox) (ib ++ ix ++ c ++ map (fun _ => 0) ox)).
      * apply unravel_ravel.
        repeat (apply valid_index_app; [assumption|split; [assumption|]]). assumption.
      * rewrite !ravel_app by assumption. rewrite !prodZ_app, Pox.
        cbn [ravel]. rewrite !prodZ_cons. change (prodZ []) with 1.
        replace (ravel ox (map (fun _ => 0) ox)) with 0 by lia. ring.
    + f_equal. rewrite HY.
      replace (ravel [prodZ bs; prodZ cs; prodZ ys] [ravel bs ib; ravel cs c; ravel ys iy])
        with (ravel (bs ++ cs ++ ys ++ oy) (ib ++ c ++ iy ++ map (fun _ => 0) oy)).
      * apply unravel_ravel.
        repeat (apply valid_index_app; [assumption|split; [assumption|]]). assumption.
      * rewrite !ravel_app by assumption. rewrite !prodZ_app, Poy.
        cbn [ravel]. rewrite !prodZ_cons. change (prodZ []) with 1.
        replace (ravel oy (map (fun _ => 0) oy)) with 0 by lia. ring.
Qed.

(** ** The axes of sumproduct_pair *)

(** Every axis is in one of the four groups. *)
Lemma classes_perm ls rs mask l :
  Permutation (filter (in_lro ls rs mask) l ++ filter (in_lo ls rs mask) l ++
               filter (bit mask) l ++ filter (in_ro ls rs mask) l) l.
Proof.
  induction l as [|a l IH]; cbn [filter]; [constructor|].
  unfold in_lro at 1, in_lo at 1, in_ro at 1.
  destruct (bit mask a); destruct (nontrivial ls a); destruct (nontrivial rs a);
    cbn [andb negb app];
    rewrite <- ?Permutation_middle; constructor; exact IH.
Qed.

Lemma masked_perm S n mask :
  Forall (fun d => 0 <= d < n) S -> NoDup S ->
  (forall i, 0 <= i -> bit mask i = true <-> In i S) ->
  Permutation S (zmasked mask n).
Proof.
  intros R ND Hb. apply NoDup_Permutation; [assumption| |].
  - unfold zmasked. apply NoDup_filter, NoDup_zrange.
  - intros x. unfold zmasked. rewrite filter_In, In_zrange. rewrite Forall_forall in R.
    split.
    + intros H. pose proof (R x H). split; [lia|]. apply Hb; [lia|assumption].
    + intros [H1 H2]. apply Hb; [lia|assumption].
Qed.

Lemma presum_axes_at ops : forall t d e,
  Forall (fun op => 0 <= fst op < dim t) ops -> NoDup (map fst ops) ->
  In (d, Some e) ops ->
  znth d (sizes (presum_axes t ops)) 0 = 1.
Proof.
  induction ops as [|op ops IH]; intros t d e R ND I; [destruct I|].
  pose proof (Forall_inv R) as Hop. pose proof (Forall_inv_tail R) as R'.
  cbn [map] in ND. apply NoDup_cons_iff in ND. destruct ND as [Hn ND].
  unfold presum_axes. cbn [fold_left]. fold (presum_axes (presum_axis t op) ops).
  assert (R1 : Forall (fun op' => 0 <= fst op' < dim (presum_axis t op)) ops).
  { rewrite presum_axis_dim by assumption. assumption. }
  destruct I as [->|I].
  - cbn [fst] in *. unfold znth. rewrite presum_axes_other; [| assumption |].
    + pose proof (presum_axis_same t (d, Some e) Hop) as H. cbn [fst snd] in H. exact H.
    + intros op' Hop' E. apply Hn. apply in_map_iff. exists op'. split; [|assumption].
      rewrite Forall_forall in R'. pose proof (R' op' Hop'). lia.
  - eapply IH; eassumption.
Qed.

Lemma broadcast_coords_indep s a v y :
  nth a s 0 = 1 -> broadcast_coords s (upd a v y) = broadcast_coords s y.
Proof.
  unfold broadcast_coords. revert a y. induction s as [|x s IH]; intros a y H.
  - reflexivity.
  - destruct y as [|y0 y]; [destruct a; reflexivity|]. destruct a as [|a]; cbn [nth] in H.
    + cbn [upd zipWith]. subst x. reflexivity.
    + cbn [upd zipWith]. f_equal. apply IH. assumption.
Qed.

Lemma flat_map_pre_left ls rs mask l :
  flat_map pre_left (map (fun i => (Z.to_nat i, znth i ls 0, znth i rs 0)) (filter (bit mask) l)) =
  map (fun i => (Z.to_nat i, znth i ls 0)) (filter (sum_left ls rs mask) l).
Proof.
  induction l as [|a l IH]; cbn [filter]; [reflexivity|].
  unfold sum_left at 1, nontrivial. destruct (bit mask a); cbn [andb map flat_map pre_left].
  - destruct (1 <? znth a ls 0); destruct (1 <? znth a rs 0); cbn [andb negb app map];
      rewrite IH; reflexivity.
  - exact IH.
Qed.

Lemma flat_map_pre_right ls rs mask l :
  flat_map pre_right (map (fun i => (Z.to_nat i, znth i ls 0, znth i rs 0)) (filter (bit mask) l)) =
  map (fun i => (Z.to_nat i, znth i rs 0)) (filter (sum_right ls rs mask) l).
Proof.
  induction l as [|a l IH]; cbn [filter]; [reflexivity|].
  unfold sum_right at 1, nontrivial. destruct (bit mask a); cbn [andb map flat_map pre_right].
  - destruct (1 <? znth a ls 0); destruct (1 <? znth a rs 0); cbn [andb negb app map];
      rewrite IH; reflexivity.
  - exact IH.
Qed.

Lemma NoDup_map_to_nat l : Forall (fun d => 0 <= d) l -> NoDup l -> NoDup (map Z.to_nat l).
Proof.
  intros R ND. apply Injective_map_NoDup_in; [|assumption].
  intros x y Hx Hy E. rewrite Forall_forall in R. pose proof (R x Hx). pose proof (R y Hy). lia.
Qed.

Lemma prodZ_perm l l' : Permutation l l' -> prodZ l = prodZ l'.
Proof.
  induction 1 as [|x l l' H IH|x y l|l l' l'' H1 IH1 H2 IH2]; rewrite ?prodZ_cons.
  - reflexivity.
  - rewrite IH. reflexivity.
  - ring.
  - congruence.
Qed.

(** The extents of the summed axes multiply to [sum_size]. *)
Lemma prodZ_sum_both ls rs mask (e : Z -> Z) l :
  (forall i, In i l -> bit mask i = true ->
             e i = if nontrivial ls i && nontrivial rs i then znth i ls 0 else 1) ->
  prodZ (map e (filter (bit mask) l)) = prodZ (gather (filter (sum_both ls rs mask) l) ls).
Proof.
  induction l as [|a l IH]; intros H; cbn [filter]; [reflexivity|].
  unfold sum_both at 1.
  assert (IH' : prodZ (map e (filter (bit mask) l)) =
                prodZ (gather (filter (sum_both ls rs mask) l) ls)).
  { apply IH. intros i Hi. apply H. right. assumption. }
  pose proof (H a (or_introl eq_refl)) as Ha.
  destruct (bit mask a); cbn [andb]; [|exact IH'].
  specialize (Ha eq_refl). cbn [map]. rewrite prodZ_cons, Ha, IH'.
  destruct (nontrivial ls a && nontrivial rs a); cbn [gather map]; rewrite ?prodZ_cons;
    fold (gather (filter (sum_both ls rs mask) l) ls); ring.
Qed.

(** ** Dropping the summed axes *)

Lemma ascending_weaken lb lb' ub l : (lb' <= lb)%nat -> ascending lb ub l -> ascending lb' ub l.
Proof. destruct l as [|a l]; cbn [ascending]; [trivial|]. intros H [H1 H2]. split; [lia|assumption]. Qed.

Lemma ascending_prepend mask k ub hi :
  (k <= ub)%nat -> ascending k ub hi -> ascending 0 ub (prepend_masked mask k hi).
Proof.
  revert hi. induction k as [|k IH]; intros hi Hk H; cbn [prepend_masked]; [assumption|].
  apply IH; [lia|]. destruct (nth k mask false).
  - cbn [ascending]. split; [lia|assumption].
  - eapply ascending_weaken; [|exact H]. lia.
Qed.

Lemma in_prepend_masked mask k hi a :
  In a (prepend_masked mask k hi) -> In a hi \/ ((a < k)%nat /\ nth a mask false = true).
Proof.
  revert hi. induction k as [|k IH]; intros hi H; cbn [prepend_masked] in H; [tauto|].
  apply IH in H. destruct H as [H|[H1 H2]]; [|right; split; [lia|assumption]].
  destruct (nth k mask false) eqn:E; [|tauto].
  destruct H as [<-|H]; [right; split; [lia|assumption]|tauto].
Qed.

Lemma erase_summed_axes mask k hi s :
  erase_axes (prepend_masked mask k hi) s = erase_summed mask k (erase_axes hi s).
Proof.
  revert hi. induction k as [|k IH]; intros hi; cbn [prepend_masked erase_summed]; [reflexivity|].
  rewrite IH. destruct (nth k mask false); reflexivity.
Qed.

(** One axis. *)
Lemma erase_cons {A} d (x : A) l : erase (S d) (x :: l) = x :: erase d l.
Proof. reflexivity. Qed.

Lemma insert_at_cons {A} d (v x : A) l : insert_at (S d) v (x :: l) = x :: insert_at d v l.
Proof. reflexivity. Qed.

Lemma length_erase {A} d (l : list A) : (d < length l)%nat -> length (erase d l) = (length l - 1)%nat.
Proof. intros H. unfold erase. rewrite length_app, length_firstn, length_skipn. lia. Qed.

Lemma length_insert_at {A} d (v : A) l : length (insert_at d v l) = S (length l).
Proof.
  unfold insert_at. rewrite length_app. cbn [length]. rewrite length_firstn, length_skipn. lia.
Qed.

Lemma prodZ_erase_one d s : nth d s 0 = 1 -> prodZ (erase d s) = prodZ s.
Proof.
  revert d. induction s as [|x s IH]; intros [|d] H; cbn [nth] in H; try lia.
  - subst x. unfold erase. cbn [firstn skipn app]. rewrite prodZ_cons. lia.
  - rewrite erase_cons, !prodZ_cons, IH by assumption. reflexivity.
Qed.

Lemma wf_sizes_erase d s : wf_sizes s -> wf_sizes (erase d s).
Proof.
  unfold wf_sizes. revert s. induction d as [|d IH]; intros [|x s] H; try assumption.
  - exact (Forall_inv_tail H).
  - rewrite erase_cons. constructor; [exact (Forall_inv H)|]. apply IH. exact (Forall_inv_tail H).
Qed.

Lemma ravel_insert_one d : forall s idx,
  nth d s 0 = 1 -> (d < length s)%nat -> valid_index (erase d s) idx ->
  valid_index s (insert_at d 0 idx) /\ ravel s (insert_at d 0 idx) = ravel (erase d s) idx.
Proof.
  induction d as [|d IH]; intros s idx H1 Hd V.
  - destruct s as [|x s]; cbn [length nth] in *; [lia|]. subst x.
    unfold erase in V. cbn [firstn skipn app] in V.
    unfold insert_at, erase. cbn [firstn skipn app valid_index ravel]. split; [split; [lia|assumption]|lia].
  - destruct s as [|x s]; cbn [length nth] in *; [lia|].
    rewrite erase_cons in V. destruct idx as [|i idx]; cbn [valid_index] in V; [tauto|].
    destruct V as [V1 V2]. destruct (IH s idx H1 ltac:(lia) V2) as [IV IR].
    rewrite insert_at_cons, erase_cons. cbn [valid_index ravel].
    rewrite IR, prodZ_erase_one by assumption. split; [split; assumption|reflexivity].
Qed.

Lemma nth_erase_below {A} k d (s : list A) dflt : (k < d)%nat -> nth k (erase d s) dflt = nth k s dflt.
Proof.
  revert k s. induction d as [|d IH]; intros k s H; [lia|].
  destruct s as [|x s]; [destruct k; reflexivity|]. rewrite erase_cons.
  destruct k as [|k]; cbn [nth]; [reflexivity|]. apply IH. lia.
Qed.

Lemma erase_upd_below {A} k d (v : A) s : (k < d)%nat -> erase d (upd k v s) = upd k v (erase d s).
Proof.
  revert k s. induction d as [|d IH]; intros k s H; [lia|].
  destruct s as [|x s]; [destruct k; reflexivity|].
  destruct k as [|k]; cbn [upd]; rewrite !erase_cons; cbn [upd]; [reflexivity|].
  f_equal. apply IH. lia.
Qed.

Lemma erase_upd_same {A} k (v : A) s : erase k (upd k v s) = erase k s.
Proof.
  revert s. induction k as [|k IH]; intros [|x s]; cbn [upd]; try reflexivity.
  rewrite !erase_cons. f_equal. apply IH.
Qed.

Lemma upd_insert_at_below {A} k d (j v : A) y :
  (k < d)%nat -> (k < length y)%nat -> upd k j (insert_at d v y) = insert_at d v (upd k j y).
Proof.
  revert k y. induction d as [|d IH]; intros k y H Hk; [lia|].
  destruct y as [|x y]; cbn [length] in Hk; [lia|]. rewrite insert_at_cons.
  destruct k as [|k]; cbn [upd]; rewrite ?insert_at_cons; [reflexivity|].
  f_equal. apply IH; lia.
Qed.

Lemma upd_insert_at_same {A} k (j v : A) y :
  (k <= length y)%nat -> upd k j (insert_at k v y) = firstn k y ++ j :: skipn k y.
Proof.
  revert y. induction k as [|k IH]; intros y Hk.
  - reflexivity.
  - destruct y as [|x y]; cbn [length] in Hk; [lia|]. rewrite insert_at_cons.
    cbn [upd firstn skipn app]. f_equal. apply IH. lia.
Qed.

(** Several axes. *)
Lemma nth_erase_axes_below k ub hi s :
  ascending (S k) ub hi -> nth k (erase_axes hi s) 0 = nth k s 0.
Proof.
  revert k. induction hi as [|a hi IH]; intros k H; cbn [erase_axes fold_right]; [reflexivity|].
  destruct H as [H1 H2]. fold (erase_axes hi s). rewrite nth_erase_below by lia.
  apply IH. eapply ascending_weaken; [|exact H2]. lia.
Qed.

Lemma erase_axes_upd_below k ub v hi s :
  ascending (S k) ub hi -> erase_axes hi (upd k v s) = upd k v (erase_axes hi s).
Proof.
  revert k. induction hi as [|a hi IH]; intros k H; cbn [erase_axes fold_right]; [reflexivity|].
  destruct H as [H1 H2]. fold (erase_axes hi (upd k v s)). fold (erase_axes hi s).
  rewrite IH by (eapply ascending_weaken; [|exact H2]; lia).
  apply erase_upd_below. lia.
Qed.

Lemma length_insert_zeros axes y : length (insert_zeros axes y) = (length axes + length y)%nat.
Proof.
  revert y. induction axes as [|a axes IH]; intros y; cbn [insert_zeros fold_left length]; [reflexivity|].
  fold (insert_zeros axes (insert_at a 0 y)). rewrite IH, length_insert_at. lia.
Qed.

Lemma upd_insert_zeros_below k ub j hi y :
  ascending (S k) ub hi -> (k < length y)%nat ->
  upd k j (insert_zeros hi y) = insert_zeros hi (upd k j y).
Proof.
  revert k y. induction hi as [|a hi IH]; intros k y H Hk; cbn [insert_zeros fold_left]; [reflexivity|].
  destruct H as [H1 H2]. fold (insert_zeros hi (insert_at a 0 y)).
  fold (insert_zeros hi (insert_at a 0 (upd k j y))).
  rewrite IH; [| eapply ascending_weaken; [|exact H2]; lia | rewrite length_insert_at; lia].
  rewrite upd_insert_at_below by lia. reflexivity.
Qed.

Lemma length_erase_axes ub hi s : forall lb,
  ascending lb ub hi -> (ub <= length s)%nat ->
  length (erase_axes hi s) = (length s - length hi)%nat.
Proof.
  induction hi as [|a hi IH]; intros lb H Hub; cbn [erase_axes fold_right length]; [lia|].
  destruct H as [H1 H2]. fold (erase_axes hi s).
  assert (L : length (erase_axes hi s) = (length s - length hi)%nat) by (eapply IH; eassumption).
  assert (Hh : (length hi <= ub - S a)%nat).
  { clear - H2. revert a H2. induction hi as [|b hi IH]; intros a H; cbn [length]; [lia|].
    destruct H as [H1 H2]. specialize (IH b H2). lia. }
  rewrite length_erase; lia.
Qed.

(** The view that drops axes of extent 1. *)
Lemma ravel_insert_zeros ub E : forall lb s idx,
  ascending lb ub E -> (ub <= length s)%nat ->
  (forall a, In a E -> nth a s 0 = 1) ->
  valid_index (erase_axes E s) idx ->
  valid_index s (insert_zeros E idx) /\ ravel s (insert_zeros E idx) = ravel (erase_axes E s) idx.
Proof.
  induction E as [|a E IH]; intros lb s idx H Hub H1 V; cbn [insert_zeros fold_left erase_axes fold_right] in *.
  - split; [assumption|reflexivity].
  - destruct H as [Ha H]. fold (erase_axes E s) in *. fold (insert_zeros E (insert_at a 0 idx)).
    assert (N1 : nth a (erase_axes E s) 0 = 1).
    { rewrite (nth_erase_axes_below a ub) by assumption. apply H1. left. reflexivity. }
    assert (La : (a < length (erase_axes E s))%nat).
    { rewrite (length_erase_axes ub E s (S a)) by assumption.
      assert (Hh : (length E <= ub - S a)%nat).
      { clear - H. revert a H. induction E as [|b E IH]; intros a H; cbn [length]; [lia|].
        destruct H as [H1 H2]. specialize (IH b H2). lia. }
      lia. }
    destruct (ravel_insert_one a _ idx N1 La V) as [V1 R1].
    destruct (IH (S a) s (insert_at a 0 idx) H Hub) as [V2 R2].
    + intros b Hb. apply H1. right. assumption.
    + assumption.
    + split; [assumption|]. rewrite R2. assumption.
Qed.

Lemma prodZ_erase_axes ub E : forall lb s,
  ascending lb ub E -> (forall a, In a E -> nth a s 0 = 1) ->
  prodZ (erase_axes E s) = prodZ s.
Proof.
  induction E as [|a E IH]; intros lb s H H1; cbn [erase_axes fold_right]; [reflexivity|].
  destruct H as [Ha H]. fold (erase_axes E s).
  rewrite prodZ_erase_one.
  - eapply IH; [eassumption|]. intros b Hb. apply H1. right. assumption.
  - rewrite (nth_erase_axes_below a ub) by assumption. apply H1. left. reflexivity.
Qed.

Lemma wf_sizes_erase_axes E s : wf_sizes s -> wf_sizes (erase_axes E s).
Proof.
  intros H. induction E as [|a E IH]; cbn [erase_axes fold_right]; [assumption|].
  apply wf_sizes_erase. assumption.
Qed.

Lemma ascending_length lb ub l : ascending lb ub l -> (length l <= ub - lb)%nat.
Proof.
  revert lb. induction l as [|a l IH]; intros lb H; cbn [length]; [lia|].
  destruct H as [H1 H2]. specialize (IH (S a) H2). lia.
Qed.

(** Summing with the axes dropped is summing with the axes kept, read at
    coordinate 0 of the summed axes. *)
Lemma sum_mask_drop mask N : forall k hi tf tt,
  (k <= N)%nat -> ascending k N hi -> length (sizes tt) = N ->
  sizes tf = erase_axes hi (sizes tt) ->
  (forall idx, length idx = length (sizes tf) -> elem tf idx = elem tt (insert_zeros hi idx)) ->
  sizes (sum_mask tf mask k false) =
    erase_axes (prepend_masked mask k hi) (sizes (sum_mask tt mask k true)) /\
  (forall idx, length idx = length (sizes (sum_mask tf mask k false)) ->
     elem (sum_mask tf mask k false) idx =
     elem (sum_mask tt mask k true) (insert_zeros (prepend_masked mask k hi) idx)).
Proof.
  induction k as [|k IH]; intros hi tf tt Hk Hhi Ltt Hs He; cbn [sum_mask prepend_masked].
  - split; assumption.
  - destruct (nth k mask false).
    + assert (Lhi : (length hi <= N - S k)%nat) by (apply ascending_length; assumption).
      assert (Ltf : length (sizes tf) = (N - length hi)%nat).
      { rewrite Hs. rewrite (length_erase_axes N hi (sizes tt) (S k)); [lia|assumption|lia]. }
      assert (Hn : nth k (sizes tf) 0 = nth k (sizes tt) 0).
      { rewrite Hs. apply (nth_erase_axes_below k N). assumption. }
      assert (Stt : sizes (sum_axis tt k true) = upd k 1 (sizes tt))
        by (apply sum_axis_keep_sizes; lia).
      assert (Stf : sizes (sum_axis tf k false) = erase k (sizes tf)) by reflexivity.
      apply IH.
      * lia.
      * cbn [ascending]. split; [lia|assumption].
      * rewrite Stt, length_upd. assumption.
      * rewrite Stf, Stt. cbn [erase_axes fold_right]. fold (erase_axes hi (upd k 1 (sizes tt))).
        rewrite (erase_axes_upd_below k N) by assumption. rewrite erase_upd_same, Hs. reflexivity.
      * intros idx Lidx. rewrite Stf in Lidx. rewrite length_erase in Lidx by lia.
        cbn [insert_zeros fold_left]. fold (insert_zeros hi (insert_at k 0 idx)).
        rewrite sum_axis_keep_elem by (rewrite length_insert_zeros, length_insert_at; lia).
        unfold sum_axis at 1. cbn [elem]. rewrite Hn.
        apply sumZ_ext. intros j.
        rewrite (upd_insert_zeros_below k N) by (try assumption; rewrite length_insert_at; lia).
        rewrite upd_insert_at_same by lia.
        apply He. rewrite length_app. cbn [length]. rewrite length_firstn, length_skipn. lia.
    + apply IH; try assumption; [lia|]. eapply ascending_weaken; [|exact Hhi]. lia.
Qed.

Lemma broadcastable_wf a b : Forall2 broadcastable a b -> wf_sizes a /\ wf_sizes b.
Proof.
  induction 1 as [|x y a b H _ [IH1 IH2]]; split; constructor; try assumption;
    destruct H as [H1 [H2 _]]; lia.
Qed.

Lemma match_nonempty {T} (l : list Z) (a b : T) :
  l <> [] -> match l with [] => a | _ :: _ => b end = b.
Proof. destruct l; [congruence|reflexivity]. Qed.

Lemma wf_product_sizes a b : Forall2 broadcastable a b -> wf_sizes (product_sizes a b).
Proof.
  unfold product_sizes. induction 1 as [|x y a b H _ IH]; cbn [zipWith]; constructor; [|assumption].
  destruct H as [H1 [H2 _]]. destruct (x =? 1); lia.
Qed.

Lemma wf_sum_mask_keep mask k : forall t, wf t -> wf (sum_mask t mask k true).
Proof.
  induction k as [|k IH]; intros t W; cbn [sum_mask]; [assumption|].
  apply IH. destruct (nth k mask false); [|assumption].
  unfold wf, wf_sizes, sum_axis. cbn [sizes]. rewrite !Forall_app. repeat split.
  - clear - W. unfold wf, wf_sizes in W. revert k. induction W; intros [|k]; cbn [firstn];
      constructor; auto.
  - repeat constructor. lia.
  - clear - W. unfold wf, wf_sizes in W. revert k. induction W; intros k; cbn [skipn];
      [constructor|]. destruct k; [assumption|]. apply IHW.
Qed.

Section Pair.

Variables (left right : Tensor) (S : list Z) (mask : list bool).
Hypothesis HB : Forall2 broadcastable (sizes left) (sizes right).
Hypothesis HS : Forall (fun d => 0 <= d < dim left) S.
Hypothesis ND : NoDup S.
Hypothesis Hbit : forall i, 0 <= i -> bit mask i = true <-> In i S.

Let n := dim left.
Let ls := sizes left.
Let rs := sizes right.
Let LRO := filter (in_lro ls rs mask) (zrange n).
Let LO := filter (in_lo ls rs mask) (zrange n).
Let RO := filter (in_ro ls rs mask) (zrange n).
Let left' := presum_axes left (presum_ops ls (filter (sum_left ls rs mask) (zrange n))).
Let right' := presum_axes right (presum_ops rs (filter (sum_right ls rs mask) (zrange n))).
Let p := LRO ++ LO ++ S ++ RO.
Let rp := LRO ++ S ++ RO ++ LO.

Lemma n_nonneg : 0 <= n.
Proof. unfold n, dim. apply zlen_nonneg. Qed.

Lemma dim_right : dim right = n.
Proof. unfold n, dim, zlen. rewrite (Forall2_length HB). reflexivity. Qed.

Lemma p_perm : Permutation p (zrange n).
Proof.
  unfold p. eapply Permutation_trans; [|apply (classes_perm ls rs mask)].
  fold LRO LO RO. do 2 apply Permutation_app_head. apply Permutation_app_tail.
  apply masked_perm; assumption.
Qed.

Lemma p_is_perm : is_perm p.
Proof. eapply perm_is_perm, p_perm. Qed.

Lemma zlen_p : zlen p = n.
Proof.
  unfold zlen. rewrite (Permutation_length p_perm), length_zrange.
  pose proof n_nonneg. lia.
Qed.

Lemma rp_perm : Permutation rp p.
Proof.
  unfold rp, p. apply Permutation_app_head. rewrite (app_assoc S RO LO).
  apply Permutation_app_comm.
Qed.

Lemma rp_is_perm : is_perm rp.
Proof. eapply perm_is_perm. eapply Permutation_trans; [apply rp_perm|apply p_perm]. Qed.

Lemma zlen_rp : zlen rp = n.
Proof. unfold zlen. rewrite (Permutation_length rp_perm). apply zlen_p. Qed.

Lemma dim_left' : dim left' = n.
Proof. unfold left'. apply presum_axes_dim. apply presum_ops_range. pose proof n_nonneg. fold n. lia. Qed.

Lemma dim_right' : dim right' = n.
Proof.
  unfold right'. rewrite presum_axes_dim; [apply dim_right|].
  apply presum_ops_range. rewrite dim_right. pose proof n_nonneg. lia.
Qed.

Lemma in_range_LRO : Forall (fun d => 0 <= d < n) LRO.
Proof. apply Forall_forall. intros x Hx. apply filter_In in Hx. destruct Hx as [Hx _]. apply In_zrange in Hx. exact Hx. Qed.
Lemma in_range_LO : Forall (fun d => 0 <= d < n) LO.
Proof. apply Forall_forall. intros x Hx. apply filter_In in Hx. destruct Hx as [Hx _]. apply In_zrange in Hx. exact Hx. Qed.
Lemma in_range_RO : Forall (fun d => 0 <= d < n) RO.
Proof. apply Forall_forall. intros x Hx. apply filter_In in Hx. destruct Hx as [Hx _]. apply In_zrange in Hx. exact Hx. Qed.

Lemma wf_left : wf left.
Proof. exact (proj1 (broadcastable_wf _ _ HB)). Qed.

Lemma wf_right : wf right.
Proof. exact (proj2 (broadcastable_wf _ _ HB)). Qed.

(** Extents of the two operands on an axis. *)
Lemma extents_at i : 0 <= i < n -> broadcastable (znth i ls 0) (znth i rs 0).
Proof.
  intros Hi. unfold znth. apply Forall2_nth_broadcastable; [exact HB|].
  unfold n, dim, zlen in Hi. unfold ls. lia.
Qed.

Lemma left'_at i :
  0 <= i < n ->
  znth i (sizes left') 0 = if sum_left ls rs mask i then 1 else znth i ls 0.
Proof.
  intros Hi. unfold left'. destruct (sum_left ls rs mask i) eqn:E.
  - eapply presum_axes_at with (e := znth i ls 0).
    + apply presum_ops_range. pose proof n_nonneg. fold n. lia.
    + unfold presum_ops. rewrite map_map. cbn [fst]. rewrite map_id.
      apply NoDup_filter, NoDup_zrange.
    + unfold presum_ops. apply in_map_iff. exists i. split; [reflexivity|].
      apply filter_In. split; [apply In_zrange; assumption|assumption].
  - unfold znth. apply presum_axes_other.
    + apply presum_ops_range. pose proof n_nonneg. fold n. lia.
    + intros op Hop. unfold presum_ops in Hop. apply in_map_iff in Hop.
      destruct Hop as [j [<- Hj]]. apply filter_In in Hj. destruct Hj as [Hj Hs].
      apply In_zrange in Hj. cbn [fst]. intros E'. assert (j = i) by lia. subst j. congruence.
Qed.

Lemma right'_at i :
  0 <= i < n ->
  znth i (sizes right') 0 = if sum_right ls rs mask i then 1 else znth i rs 0.
Proof.
  intros Hi. unfold right'. destruct (sum_right ls rs mask i) eqn:E.
  - eapply presum_axes_at with (e := znth i rs 0).
    + apply presum_ops_range. rewrite dim_right. pose proof n_nonneg. lia.
    + unfold presum_ops. rewrite map_map. cbn [fst]. rewrite map_id.
      apply NoDup_filter, NoDup_zrange.
    + unfold presum_ops. apply in_map_iff. exists i. split; [reflexivity|].
      apply filter_In. split; [apply In_zrange; assumption|assumption].
  - unfold znth. apply presum_axes_other.
    + apply presum_ops_range. rewrite dim_right. pose proof n_nonneg. lia.
    + intros op Hop. unfold presum_ops in Hop. apply in_map_iff in Hop.
      destruct Hop as [j [<- Hj]]. apply filter_In in Hj. destruct Hj as [Hj Hs].
      apply In_zrange in Hj. cbn [fst]. intros E'. assert (j = i) by lia. subst j. congruence.
Qed.

(** The extents of the groups. *)
Let bs := gather LRO ls.
Let xs := gather LO ls.
Let ys := gather RO rs.
Let cs := gather S (sizes left').

Lemma gather_LRO_left' : gather LRO (sizes left') = bs.
Proof.
  unfold bs, gather. apply map_ext_in. intros i Hi. apply filter_In in Hi.
  destruct Hi as [Hi Hc]. apply In_zrange in Hi. rewrite left'_at by assumption.
  unfold in_lro in Hc. unfold sum_left. destruct (bit mask i); [discriminate|reflexivity].
Qed.

Lemma gather_LO_left' : gather LO (sizes left') = xs.
Proof.
  unfold xs, gather. apply map_ext_in. intros i Hi. apply filter_In in Hi.
  destruct Hi as [Hi Hc]. apply In_zrange in Hi. rewrite left'_at by assumption.
  unfold in_lo in Hc. unfold sum_left. destruct (bit mask i); [discriminate|reflexivity].
Qed.

Lemma gather_RO_left' : Forall (eq 1) (gather RO (sizes left')).
Proof.
  unfold gather. apply Forall_map. apply Forall_forall. intros i Hi. apply filter_In in Hi.
  destruct Hi as [Hi Hc]. apply In_zrange in Hi. rewrite left'_at by assumption.
  unfold in_ro in Hc. unfold sum_left. destruct (bit mask i); [discriminate|]. cbn [andb negb] in *.
  destruct (extents_at i Hi) as [H1 _]. unfold nontrivial in Hc.
  destruct (1 <? znth i ls 0) eqn:E; [discriminate|]. apply Z.ltb_ge in E. lia.
Qed.

Lemma gather_LRO_right' : gather LRO (sizes right') = bs.
Proof.
  unfold bs, gather. apply map_ext_in. intros i Hi. apply filter_In in Hi.
  destruct Hi as [Hi Hc]. apply In_zrange in Hi. rewrite right'_at by assumption.
  unfold in_lro in Hc. unfold sum_right. destruct (bit mask i); [discriminate|]. cbn [andb negb] in *.
  destruct (extents_at i Hi) as [H1 [H2 H3]]. unfold nontrivial in Hc.
  destruct (1 <? znth i ls 0) eqn:E1; [|discriminate].
  destruct (1 <? znth i rs 0) eqn:E2; [|discriminate].
  apply Z.ltb_lt in E1, E2. lia.
Qed.

Lemma gather_LO_right' : Forall (eq 1) (gather LO (sizes right')).
Proof.
  unfold gather. apply Forall_map. apply Forall_forall. intros i Hi. apply filter_In in Hi.
  destruct Hi as [Hi Hc]. apply In_zrange in Hi. rewrite right'_at by assumption.
  unfold in_lo in Hc. unfold sum_right. destruct (bit mask i); [discriminate|]. cbn [andb negb] in *.
  destruct (extents_at i Hi) as [H1 [H2 H3]]. unfold nontrivial in Hc.
  destruct (1 <? znth i ls 0) eqn:E1; [|discriminate].
  destruct (1 <? znth i rs 0) eqn:E2; [discriminate|].
  apply Z.ltb_ge in E2. lia.
Qed.

Lemma gather_RO_right' : gather RO (sizes right') = ys.
Proof.
  unfold ys, gather. apply map_ext_in. intros i Hi. apply filter_In in Hi.
  destruct Hi as [Hi Hc]. apply In_zrange in Hi. rewrite right'_at by assumption.
  unfold in_ro in Hc. unfold sum_right. destruct (bit mask i); [discriminate|reflexivity].
Qed.

Lemma in_S_range i : In i S -> 0 <= i < n.
Proof. intros H. rewrite Forall_forall in HS. apply HS. assumption. Qed.

Lemma kept_at i :
  In i S ->
  znth i (sizes left') 0 = (if nontrivial ls i && nontrivial rs i then znth i ls 0 else 1) /\
  znth i (sizes right') 0 = (if nontrivial ls i && nontrivial rs i then znth i ls 0 else 1).
Proof.
  intros Hi. pose proof (in_S_range i Hi) as Hr.
  assert (Hm : bit mask i = true) by (apply Hbit; [lia|assumption]).
  rewrite left'_at, right'_at by assumption. unfold sum_left, sum_right. rewrite Hm.
  destruct (extents_at i Hr) as [H1 [H2 H3]]. unfold nontrivial.
  destruct (1 <? znth i ls 0) eqn:E1; destruct (1 <? znth i rs 0) eqn:E2; cbn [andb negb];
    try apply Z.ltb_lt in E1; try apply Z.ltb_lt in E2;
    try apply Z.ltb_ge in E1; try apply Z.ltb_ge in E2; split; lia.
Qed.

Lemma gather_S_right' : gather S (sizes right') = cs.
Proof.
  unfold cs, gather. apply map_ext_in. intros i Hi.
  destruct (kept_at i Hi) as [-> ->]. reflexivity.
Qed.

Lemma prodZ_cs : prodZ (gather (filter (sum_both ls rs mask) (zrange n)) ls) = prodZ cs.
Proof.
  unfold cs. unfold gather at 2. rewrite (prodZ_perm _ _ (Permutation_map (fun a => znth a (sizes left') 0)
                                        (masked_perm S n mask HS ND Hbit))).
  symmetry. apply prodZ_sum_both. intros i Hi Hm. apply In_zrange in Hi.
  apply kept_at. apply Hbit; [lia|assumption].
Qed.

Hypothesis Hmask : dim_list_to_bitset S (dim left) = inr mask.
Hypothesis Hne : S <> [].

Lemma code_path :
  exists R,
    sizes R = bs ++ xs ++ map (fun _ => 1) S ++ ys /\
    (forall ib ix iy, valid_index bs ib -> valid_index xs ix -> valid_index ys iy ->
       elem R (ib ++ ix ++ map (fun _ => 0) S ++ iy) =
       sumZ (indices cs)
            (fun c => elem left' (unpermute p (ib ++ ix ++ c ++ map (fun _ => 0) RO)) *
                      elem right' (unpermute rp (ib ++ c ++ iy ++ map (fun _ => 0) LO)))) /\
    forall keepdim,
      sumproduct_pair left right S keepdim =
      let T := mkTensor (unpermute p (sizes R))
                        (fun idx => elem R (unpermute (inverse p) idx)) in
      if negb keepdim then view T (erase_summed mask (Z.to_nat n) (sizes T)) else ret T.
Proof.
  pose proof p_is_perm as Pp. pose proof rp_is_perm as Prp.
  pose proof zlen_p as Lp. pose proof zlen_rp as Lrp.
  set (X := mkTensor (gather p (sizes left')) (fun idx => elem left' (unpermute p idx))).
  set (Y := mkTensor (gather rp (sizes right')) (fun idx => elem right' (unpermute rp idx))).
  destruct (contract_by_bmm X Y bs xs cs ys (gather RO (sizes left')) (gather LO (sizes right'))
              (map (fun _ => 1) S)) as [R [HR [HsR HeR]]].
  { unfold X. cbn [sizes]. unfold p. rewrite !gather_app.
    rewrite gather_LRO_left', gather_LO_left'. reflexivity. }
  { unfold Y. cbn [sizes]. unfold rp. rewrite !gather_app.
    rewrite gather_LRO_right', gather_S_right', gather_RO_right'. reflexivity. }
  { apply (wf_extents left), wf_left. }
  { apply (wf_extents left), wf_left. }
  { apply (wf_extents left'). apply wf_presum_axes; [apply wf_left|].
    apply presum_ops_range. pose proof n_nonneg. fold n. lia. }
  { apply (wf_extents right), wf_right. }
  { apply gather_RO_left'. }
  { apply gather_LO_right'. }
  { apply Forall_map. apply Forall_forall. reflexivity. }
  exists R. split; [exact HsR|]. split.
  - intros ib ix iy Vb Vx Vy.
    replace (map (fun _ : Z => 0) S) with (map (fun _ : Z => 0) (map (fun _ : Z => 1) S))
      by (rewrite map_map; reflexivity).
    rewrite HeR by assumption. apply sumZ_ext. intros c. unfold X, Y. cbn [elem].
    unfold gather. rewrite !map_map. reflexivity.
  - intros keepdim. unfold sumproduct_pair.
    rewrite dim_right. fold n. rewrite Z.eqb_refl. cbn [TORCH_CHECK bind ret].
    rewrite match_nonempty by assumption.
    fold n in Hmask. rewrite Hmask. cbn [bind].
    unfold n at 1. rewrite classify_fold by assumption. cbn [bind].
    unfold classified. cbn [ps_left ps_right lro lo ro lro_size lo_size ro_size sum_size].
    fold n ls rs LRO LO RO left' right'.
    assert (Rl : forall axes, Forall (fun d => 0 <= d < n) axes ->
                 Forall (fun d => 0 <= d < dim left') axes)
      by (intros axes H; rewrite dim_left'; exact H).
    assert (Rr : forall axes, Forall (fun d => 0 <= d < n) axes ->
                 Forall (fun d => 0 <= d < dim right') axes)
      by (intros axes H; rewrite dim_right'; exact H).
    rewrite !mapM_size by (first [apply Rl|apply Rr];
                           first [apply in_range_LRO|apply in_range_LO|apply in_range_RO]).
    cbn [bind]. rewrite gather_LRO_left', gather_LO_left', gather_RO_right'.
    fold p rp.
    replace (length LRO + length LO + length S + length RO)%nat with (length p)
      by (unfold p; rewrite !length_app; lia).
    rewrite fill_opermutation_ok by assumption. cbn [bind].
    rewrite permute_ok; [|apply Rl; rewrite <- Lp; apply Pp|apply Pp|rewrite dim_left'; exact Lp].
    cbn [bind]. rewrite prodZ_cs. fold bs xs ys.
    rewrite (permute_ok right');
      [|apply Rr; rewrite <- Lrp; apply Prp|apply Prp|rewrite dim_right'; exact Lrp].
    cbn [bind]. change (extents left' p) with (gather p (sizes left')).
    change (extents right' rp) with (gather rp (sizes right')). fold X Y.
    rewrite HR.
    assert (DR : dim R = n).
    { unfold dim. rewrite HsR, <- Lp. unfold zlen, bs, xs, ys, p.
      repeat (rewrite ?length_app, ?length_gather, ?length_map). reflexivity. }
    pose proof (is_perm_inverse p Pp) as [NDi Ri]. rewrite zlen_inverse, Lp in Ri.
    rewrite permute_ok; [|rewrite DR; exact Ri|exact NDi|rewrite zlen_inverse, DR; exact Lp].
    cbn [bind]. change (extents R (inverse p)) with (gather (inverse p) (sizes R)).
    rewrite gather_inverse. reflexivity.
Qed.

(** The product of the operands, and its extents once the flagged axes
    are summed. *)
Let product : Tensor :=
  mkTensor (product_sizes ls rs)
    (fun idx => elem left (expand_index ls idx) * elem right (expand_index rs idx)).

Lemma product_sum_path keepdim :
  product_sum left right S keepdim = inr (sum_mask product mask (length ls) keepdim).
Proof.
  unfold product_sum. rewrite mul_same_rank by assumption. cbn [bind].
  assert (D : forall f, dim (mkTensor (product_sizes (sizes left) (sizes right)) f) = dim left).
  { intros f. unfold dim, zlen. cbn [sizes].
    rewrite length_product_sizes by (apply (Forall2_length HB)). reflexivity. }
  rewrite D, Hmask. cbn [bind ret sizes].
  rewrite length_product_sizes by (apply (Forall2_length HB)). reflexivity.
Qed.

Let kept_sizes : list Z := sizes (sum_mask product mask (length ls) true).

Lemma length_ls : length ls = Z.to_nat n.
Proof. unfold n, dim, zlen, ls. lia. Qed.

Lemma length_kept_sizes : length kept_sizes = length ls.
Proof.
  unfold kept_sizes. destruct (sum_mask_keep mask (length ls) product) as [H _].
  - unfold product. cbn [sizes]. rewrite length_product_sizes by (apply (Forall2_length HB)).
    unfold ls. lia.
  - rewrite H. unfold product. cbn [sizes]. apply length_product_sizes, (Forall2_length HB).
Qed.

Lemma kept_sizes_at i :
  0 <= i < n ->
  znth i kept_sizes 0 =
  if bit mask i then 1 else if znth i ls 0 =? 1 then znth i rs 0 else znth i ls 0.
Proof.
  intros Hi. unfold kept_sizes. destruct (sum_mask_keep mask (length ls) product) as [_ [H _]].
  - unfold product. cbn [sizes]. rewrite length_product_sizes by (apply (Forall2_length HB)).
    unfold ls. lia.
  - unfold znth. rewrite H. unfold product. cbn [sizes].
    rewrite nth_product_sizes by (apply (Forall2_length HB)).
    replace (Z.to_nat i <? length ls)%nat with true
      by (symmetry; apply Nat.ltb_lt; rewrite length_ls; lia).
    cbn [andb]. reflexivity.
Qed.

Lemma gather_LRO_kept : gather LRO kept_sizes = bs.
Proof.
  unfold bs, gather. apply map_ext_in. intros i Hi. apply filter_In in Hi.
  destruct Hi as [Hi Hc]. apply In_zrange in Hi. rewrite kept_sizes_at by assumption.
  unfold in_lro, nontrivial in Hc. destruct (bit mask i); [discriminate|]. cbn [andb negb] in Hc.
  destruct (1 <? znth i ls 0) eqn:E; [|discriminate]. apply Z.ltb_lt in E.
  replace (znth i ls 0 =? 1) with false by (symmetry; apply Z.eqb_neq; lia). reflexivity.
Qed.

Lemma gather_LO_kept : gather LO kept_sizes = xs.
Proof.
  unfold xs, gather. apply map_ext_in. intros i Hi. apply filter_In in Hi.
  destruct Hi as [Hi Hc]. apply In_zrange in Hi. rewrite kept_sizes_at by assumption.
  unfold in_lo, nontrivial in Hc. destruct (bit mask i); [discriminate|]. cbn [andb negb] in Hc.
  destruct (1 <? znth i ls 0) eqn:E; [|discriminate]. apply Z.ltb_lt in E.
  replace (znth i ls 0 =? 1) with false by (symmetry; apply Z.eqb_neq; lia). reflexivity.
Qed.

Lemma gather_S_kept : gather S kept_sizes = map (fun _ => 1) S.
Proof.
  unfold gather. apply map_ext_in. intros i Hi. pose proof (in_S_range i Hi) as Hr.
  rewrite kept_sizes_at by assumption.
  replace (bit mask i) with true by (symmetry; apply Hbit; [lia|assumption]). reflexivity.
Qed.

Lemma gather_RO_kept : gather RO kept_sizes = ys.
Proof.
  unfold ys, gather. apply map_ext_in. intros i Hi. apply filter_In in Hi.
  destruct Hi as [Hi Hc]. apply In_zrange in Hi. rewrite kept_sizes_at by assumption.
  unfold in_ro, nontrivial in Hc. destruct (bit mask i); [discriminate|]. cbn [andb negb] in Hc.
  destruct (1 <? znth i ls 0) eqn:E; [discriminate|]. apply Z.ltb_ge in E.
  destruct (extents_at i Hi) as [H1 _].
  replace (znth i ls 0 =? 1) with true by (symmetry; apply Z.eqb_eq; lia). reflexivity.
Qed.

Lemma gather_p_kept : gather p kept_sizes = bs ++ xs ++ map (fun _ => 1) S ++ ys.
Proof.
  unfold p. rewrite !gather_app.
  rewrite gather_LRO_kept, gather_LO_kept, gather_S_kept, gather_RO_kept. reflexivity.
Qed.

Lemma length_p : length p = length ls.
Proof. pose proof zlen_p as H. unfold zlen in H. rewrite length_ls. lia. Qed.

Lemma unpermute_p_sizes : unpermute p (bs ++ xs ++ map (fun _ => 1) S ++ ys) = kept_sizes.
Proof.
  rewrite <- gather_p_kept. apply unpermute_gather; [apply p_is_perm|].
  rewrite length_kept_sizes, length_p. reflexivity.
Qed.

Let left_reads (y : list Z) : Z := elem left (broadcast_coords ls y).
Let right_reads (y : list Z) : Z := elem right (broadcast_coords rs y).

(** The groups of coordinates of an index of the result. *)
Lemma groups_valid idx :
  valid_index kept_sizes idx ->
  valid_index bs (gather LRO idx) /\ valid_index xs (gather LO idx) /\
  gather S idx = map (fun _ => 0) S /\ valid_index ys (gather RO idx).
Proof.
  intros V.
  assert (Ln : zlen kept_sizes = n).
  { unfold zlen. rewrite length_kept_sizes, length_ls. pose proof n_nonneg. lia. }
  assert (VG : forall axes, Forall (fun d => 0 <= d < n) axes ->
               valid_index (gather axes kept_sizes) (gather axes idx)).
  { intros axes H. apply valid_gather; [assumption|]. rewrite Ln. assumption. }
  split; [|split; [|split]].
  - rewrite <- gather_LRO_kept. apply VG, in_range_LRO.
  - rewrite <- gather_LO_kept. apply VG, in_range_LO.
  - pose proof (VG S HS) as H. rewrite gather_S_kept in H.
    apply valid_index_ones in H; [|apply Forall_map, Forall_forall; reflexivity].
    rewrite H, map_map. reflexivity.
  - rewrite <- gather_RO_kept. apply VG, in_range_RO.
Qed.

Lemma length_left' : length (sizes left') = length ls.
Proof. pose proof dim_left' as H. unfold dim, zlen in H. rewrite length_ls. pose proof n_nonneg. lia. Qed.

Lemma length_right' : length (sizes right') = length ls.
Proof. pose proof dim_right' as H. unfold dim, zlen in H. rewrite length_ls. pose proof n_nonneg. lia. Qed.

Lemma sum_over_groups idx :
  valid_index kept_sizes idx ->
  sumZ (indices cs)
       (fun c => elem left' (unpermute p (gather LRO idx ++ gather LO idx ++ c ++
                                          map (fun _ => 0) RO)) *
                 elem right' (unpermute rp (gather LRO idx ++ c ++ gather RO idx ++
                                            map (fun _ => 0) LO))) =
  msum (map (fun d => (Z.to_nat d, znth d (sizes left') 0)) S)
       (fun x => elem left' (broadcast_coords (sizes left') x) *
                 elem right' (broadcast_coords (sizes right') x)) idx.
Proof.
  intros V. destruct (groups_valid idx V) as [Vb [Vx [Es Vy]]].
  pose proof p_is_perm as Pp. pose proof length_p as Lp.
  pose proof (valid_index_length _ _ V) as Lidx. rewrite length_kept_sizes in Lidx.
  pose proof (valid_index_length _ _ Vb) as Lb. pose proof (valid_index_length _ _ Vx) as Lx.
  pose proof (valid_index_length _ _ Vy) as Ly.
  unfold bs in Lb. unfold xs in Lx. unfold ys in Ly. rewrite !length_gather in Lb, Lx, Ly.
  symmetry.
  transitivity
    (msum (map (fun d => (Z.to_nat d, znth d (sizes left') 0)) S)
       (fun x => elem left' (broadcast_coords (sizes left') x) *
                 elem right' (broadcast_coords (sizes right') x))
       (unpermute p ((gather LRO idx ++ gather LO idx) ++ gather S idx ++ gather RO idx))).
  { f_equal. symmetry. rewrite <- app_assoc. rewrite <- !gather_app.
    apply unpermute_gather; [assumption|]. rewrite Lidx. symmetry. exact Lp. }
  rewrite (msum_unpermute (fun d => znth d (sizes left') 0) _ p RO (gather RO idx) S (LRO ++ LO));
    try (rewrite ?length_app, ?length_gather; reflexivity).
  2:{ apply Pp. }
  2:{ apply Pp. }
  2:{ unfold p. rewrite <- app_assoc. reflexivity. }
  fold (gather S (sizes left')). fold cs.
  apply sumZ_ext_in. intros c Hc. apply In_indices in Hc.
  pose proof (valid_index_length _ _ Hc) as Lc. unfold cs in Lc. rewrite length_gather in Lc.
  assert (Lv : length ((gather LRO idx ++ gather LO idx) ++ c ++ gather RO idx) = length p).
  { unfold p. repeat (rewrite ?length_app, ?length_gather). lia. }
  f_equal.
  - f_equal. rewrite broadcast_coords_unpermute by (try assumption; rewrite length_left'; lia).
    f_equal. unfold p at 1. rewrite !gather_app.
    rewrite gather_LRO_left', gather_LO_left'. fold cs. rewrite <- app_assoc.
    rewrite !broadcast_coords_app
      by (unfold bs, xs, cs; rewrite ?length_gather; try reflexivity; symmetry; exact Lc).
    rewrite !broadcast_coords_valid by assumption.
    rewrite broadcast_coords_ones by (try apply gather_RO_left'; rewrite !length_gather; reflexivity).
    unfold gather at 3. rewrite map_map. reflexivity.
  - f_equal. rewrite broadcast_coords_unpermute by (try assumption; rewrite length_right'; lia).
    replace (gather p (sizes right')) with (bs ++ gather LO (sizes right') ++ cs ++ ys)
      by (unfold p; rewrite !gather_app, gather_LRO_right', gather_S_right', gather_RO_right';
          reflexivity).
    rewrite <- app_assoc.
    rewrite !broadcast_coords_app
      by (unfold bs, xs, cs; rewrite ?length_gather; try reflexivity; symmetry; exact Lc).
    rewrite (broadcast_coords_valid bs), (broadcast_coords_valid cs),
      (broadcast_coords_valid ys) by assumption.
    rewrite broadcast_coords_ones by (try apply gather_LO_right'; rewrite !length_gather; reflexivity).
    unfold gather at 2. rewrite map_map.
    symmetry. unfold rp, p. apply unpermute_rotate.
    + apply Pp.
    + rewrite length_gather; reflexivity.
    + rewrite length_map; reflexivity.
    + symmetry; exact Lc.
    + rewrite length_gather; reflexivity.
Qed.

Let summed_axes : list (nat * Z * Z) :=
  map (fun i => (Z.to_nat i, znth i ls 0, znth i rs 0)) (zmasked mask n).

Lemma summed_axes_NoDup : NoDup (map axis_of summed_axes).
Proof.
  unfold summed_axes. rewrite map_map. unfold axis_of. cbn [fst].
  apply NoDup_map_to_nat.
  - apply Forall_forall. intros x Hx. apply filter_In in Hx. destruct Hx as [Hx _].
    apply In_zrange in Hx. lia.
  - apply NoDup_filter, NoDup_zrange.
Qed.

Lemma summed_axes_summable : Forall (summable left_reads right_reads) summed_axes.
Proof.
  unfold summed_axes. apply Forall_map. apply Forall_forall. intros i Hi.
  apply filter_In in Hi. destruct Hi as [Hi _]. apply In_zrange in Hi.
  destruct (extents_at i Hi) as [H1 [H2 H3]]. cbn. repeat split; try assumption.
  - intros E x v. unfold left_reads. rewrite broadcast_coords_indep; [reflexivity|exact E].
  - intros E x v. unfold right_reads. rewrite broadcast_coords_indep; [reflexivity|exact E].
Qed.

Lemma kept_elements idx :
  length idx = length ls ->
  msum (map (fun d => (Z.to_nat d, znth d (sizes left') 0)) S)
       (fun x => elem left' (broadcast_coords (sizes left') x) *
                 elem right' (broadcast_coords (sizes right') x)) idx =
  elem (sum_mask product mask (length ls) true) idx.
Proof.
  intros Lidx.
  rewrite (msum_perm _ _ (Permutation_map (fun d => (Z.to_nat d, znth d (sizes left') 0))
                            (masked_perm S n mask HS ND Hbit))).
  2:{ rewrite map_map. cbn [fst]. apply NoDup_map_to_nat; [|assumption].
      eapply Forall_impl; [|exact HS]. cbv beta. intros; lia. }
  replace (map (fun d => (Z.to_nat d, znth d (sizes left') 0)) (zmasked mask n))
    with (map kept_extent summed_axes).
  2:{ unfold summed_axes. rewrite map_map. apply map_ext_in. intros i Hi.
      apply filter_In in Hi. destruct Hi as [Hi Hm]. apply In_zrange in Hi.
      cbn [kept_extent]. f_equal. symmetry. apply kept_at. apply Hbit; [lia|assumption]. }
  transitivity
    (msum (map kept_extent summed_axes)
       (fun x => msum (flat_map pre_left summed_axes) left_reads x *
                 msum (flat_map pre_right summed_axes) right_reads x) idx).
  { apply msum_ext_length. intros x Lx. f_equal.
    - unfold left'. rewrite presum_axes_clip_msum.
      + unfold summed_axes, zmasked. rewrite flat_map_pre_left.
        unfold presum_ops. rewrite map_map. reflexivity.
      + unfold presum_ops. apply Forall_map. apply Forall_forall. intros i Hi.
        apply filter_In in Hi. destruct Hi as [Hi _]. apply In_zrange in Hi.
        cbn [fst snd]. split; [exact Hi|reflexivity].
      + unfold presum_ops. rewrite map_map. cbn [fst]. rewrite map_id.
        apply NoDup_filter, NoDup_zrange.
      + rewrite Lx. exact Lidx.
    - unfold right'. rewrite presum_axes_clip_msum.
      + unfold summed_axes, zmasked. rewrite flat_map_pre_right.
        unfold presum_ops. rewrite map_map. reflexivity.
      + unfold presum_ops. apply Forall_map. apply Forall_forall. intros i Hi.
        apply filter_In in Hi. destruct Hi as [Hi _]. apply In_zrange in Hi.
        cbn [fst snd]. rewrite dim_right. split; [exact Hi|reflexivity].
      + unfold presum_ops. rewrite map_map. cbn [fst]. rewrite map_id.
        apply NoDup_filter, NoDup_zrange.
      + rewrite Lx, Lidx. apply (Forall2_length HB). }
  rewrite presum_product by (try apply summed_axes_NoDup; apply summed_axes_summable).
  destruct (sum_mask_keep mask (length ls) product) as [_ [_ HE]].
  { unfold product. cbn [sizes]. rewrite length_product_sizes by (apply (Forall2_length HB)).
    unfold ls. lia. }
  rewrite HE.
  2:{ unfold product. cbn [sizes]. rewrite length_product_sizes by (apply (Forall2_length HB)).
      exact Lidx. }
  replace (with_ext (sizes product) (zmasked mask (Z.of_nat (length ls))))
    with (map product_extent summed_axes).
  2:{ unfold summed_axes, with_ext. rewrite map_map.
      replace (Z.of_nat (length ls)) with n by (unfold n, dim, zlen; reflexivity).
      apply map_ext. intros i. cbn [product_extent]. f_equal.
      unfold product. cbn [sizes]. unfold znth.
      rewrite nth_product_sizes by (apply (Forall2_length HB)). reflexivity. }
  apply msum_ext_length. intros x Lx. unfold product, left_reads, right_reads. cbn [elem].
  rewrite !expand_index_same; [reflexivity| |].
  - rewrite Lx, Lidx. apply (Forall2_length HB).
  - rewrite Lx. exact Lidx.
Qed.

(** What the code computes before it drops the summed axes. *)
Lemma kept_result :
  exists T,
    (forall keepdim,
       sumproduct_pair left right S keepdim =
       if negb keepdim then view T (erase_summed mask (Z.to_nat n) (sizes T)) else ret T) /\
    teq T (sum_mask product mask (length ls) true).
Proof.
  destruct code_path as [R [HsR [HeR Hcode]]].
  eexists. split; [exact Hcode|].
  unfold teq. cbn [sizes elem]. rewrite HsR, unpermute_p_sizes. split; [reflexivity|].
  intros idx V. fold kept_sizes in V.
  rewrite unpermute_inverse by apply p_is_perm.
  destruct (groups_valid idx V) as [Vb [Vx [Es Vy]]].
  unfold p at 1. rewrite !gather_app, Es.
  rewrite HeR by assumption. rewrite sum_over_groups by assumption.
  apply kept_elements. rewrite <- length_kept_sizes. apply valid_index_length. assumption.
Qed.

Lemma dropped_result T :
  teq T (sum_mask product mask (length ls) true) ->
  req (view T (erase_summed mask (Z.to_nat n) (sizes T)))
      (inr (sum_mask product mask (length ls) false)).
Proof.
  intros [Hs He]. fold kept_sizes in Hs. rewrite <- length_ls.
  set (N := length ls). set (E := prepend_masked mask N []).
  assert (HE : forall s, erase_summed mask N s = erase_axes E s).
  { intros s. unfold E. rewrite erase_summed_axes. reflexivity. }
  assert (AE : ascending 0 N E).
  { unfold E. apply ascending_prepend; [lia|exact I]. }
  assert (LT : length (sizes T) = N) by (rewrite Hs; apply length_kept_sizes).
  assert (OE : forall a, In a E -> nth a (sizes T) 0 = 1).
  { intros a Ha. unfold E in Ha. apply in_prepend_masked in Ha. destruct Ha as [[]|[H1 H2]].
    rewrite Hs. pose proof (kept_sizes_at (Z.of_nat a)) as K.
    unfold znth, bit, znth in K. rewrite Nat2Z.id in K. rewrite H2 in K. apply K.
    unfold N in H1. rewrite length_ls in H1. lia. }
  assert (WT : wf_sizes (sizes T)).
  { rewrite Hs. unfold kept_sizes. apply wf_sum_mask_keep.
    unfold wf, product. cbn [sizes]. apply wf_product_sizes. exact HB. }
  destruct (sum_mask_drop mask N N [] product product) as [DS DE].
  { lia. }
  { exact I. }
  { unfold product. cbn [sizes]. apply length_product_sizes, (Forall2_length HB). }
  { reflexivity. }
  { intros idx _. reflexivity. }
  fold E in DS, DE. fold kept_sizes in DS.
  rewrite HE. unfold view. rewrite reshape_ok.
  2:{ apply wf_sizes_erase_axes. assumption. }
  2:{ unfold numel. apply (prodZ_erase_axes N E 0); assumption. }
  unfold req, teq. cbn [sizes elem].
  split; [rewrite DS; change (sizes (sum_mask product mask N true)) with kept_sizes;
          rewrite Hs; reflexivity|].
  intros idx V.
  destruct (ravel_insert_zeros N E 0 (sizes T) idx AE ltac:(lia) OE V) as [V1 R1].
  rewrite <- R1. rewrite unravel_ravel by assumption.
  rewrite He by assumption. symmetry. apply DE.
  rewrite DS. change (sizes (sum_mask product mask N true)) with kept_sizes.
  rewrite <- Hs. apply valid_index_length. assumption.
Qed.

(** [sumproduct_pair] on a non-empty list of axes. *)
Lemma sumproduct_pair_axes keepdim :
  req (sumproduct_pair left right S keepdim) (product_sum left right S keepdim).
Proof.
  destruct kept_result as [T [HT Hteq]]. rewrite HT, product_sum_path.
  destruct keepdim; cbn [negb].
  - exact Hteq.
  - apply dropped_result. exact Hteq.
Qed.

End Pair.

(** [sumproduct_pair] computes [(left * right).sum(sum_dims)] on operands
    of positive extents. *)
Theorem sumproduct_pair_positive (left right : Tensor) (sum_dims : list Z) (keepdim : bool) :
  Forall2 broadcastable (sizes left) (sizes right) ->
  Forall (fun d => 0 <= d < dim left) sum_dims -> NoDup sum_dims ->
  req (sumproduct_pair left right sum_dims keepdim) (product_sum left right sum_dims keepdim).
Proof.
  intros HB HS ND.
  destruct (dim_list_to_bitset_ok sum_dims (dim left) HS ND) as [mask [Hmask Hbit]].
  destruct sum_dims as [|d ds] eqn:E.
  - unfold sumproduct_pair, product_sum.
    replace (dim left =? dim right) with true
      by (symmetry; apply Z.eqb_eq; unfold dim, zlen; rewrite (Forall2_length HB); reflexivity).
    cbn [TORCH_CHECK bind ret]. rewrite mul_same_rank by assumption. cbn [bind].
    assert (D : forall f, dim (mkTensor (product_sizes (sizes left) (sizes right)) f) = dim left).
    { intros f. unfold dim, zlen. cbn [sizes].
      rewrite length_product_sizes by (apply (Forall2_length HB)). reflexivity. }
    rewrite D, Hmask. cbn [bind ret sizes req].
    assert (G : forall k t kd, sum_mask t mask k kd = t).
    { induction k as [|k IH]; intros t kd; cbn [sum_mask]; [reflexivity|].
      replace (nth k mask false) with false; [apply IH|].
      symmetry. destruct (nth k mask false) eqn:M; [|reflexivity].
      exfalso. apply (Hbit (Z.of_nat k) ltac:(lia)). unfold bit, znth. rewrite Nat2Z.id. exact M. }
    rewrite G. apply teq_refl.
  - rewrite <- E in *. apply (sumproduct_pair_axes left right sum_dims mask); try assumption.
    rewrite E. discriminate.
Qed.

Lemma sumproduct_pair_positive_witness :
  Forall2 broadcastable (sizes A23) (sizes A23) /\
  req (sumproduct_pair A23 A23 [1] false) (product_sum A23 A23 [1] false).
Proof.
  assert (H : Forall2 broadcastable (sizes A23) (sizes A23)).
  { repeat constructor; unfold broadcastable; lia. }
  split; [exact H|]. apply (sumproduct_pair_positive A23 A23 [1] false H).
  - repeat constructor; change (dim A23) with 2; lia.
  - repeat constructor; intros [].
Defined.

(** * What sumproduct_pair rejects *)

Lemma classify_step_any left right mask k :
  dim right = dim left -> 0 <= k < dim left ->
  sumproduct_classify mask (classified left right mask k) k =
  if clashes (sizes left) (sizes right) k then inl SumproductNonBroadcast
  else inr (classified left right mask (k + 1)).
Proof.
  intros D Hk.
  unfold sumproduct_classify, classified, clashes.
  cbn [ps_left ps_right lro lo ro lro_size lo_size ro_size sum_size].
  rewrite !size_in_range by (rewrite presum_axes_dim; [lia|apply presum_ops_range; lia]).
  cbn [bind]. rewrite !presum_ops_below by lia.
  rewrite zrange_succ by lia. rewrite !filter_app. cbn [filter].
  unfold in_lro, in_lo, in_ro, sum_left, sum_right, sum_both, nontrivial.
  destruct (bit mask k); destruct (1 <? znth k (sizes left) 0) eqn:El;
    destruct (1 <? znth k (sizes right) 0) eqn:Er; cbn [andb negb];
    rewrite ?app_nil_r; unfold presum_ops; rewrite ?map_app; cbn [map];
    rewrite ?presum_axes_snoc, ?gather_app; cbn [gather map]; rewrite ?prodZ_snoc;
    try reflexivity.
  - destruct (znth k (sizes left) 0 =? znth k (sizes right) 0); reflexivity.
  - rewrite sum_keep by (rewrite presum_axes_dim; [lia|apply (presum_ops_range _ _ _ k); lia]).
    reflexivity.
  - rewrite sum_keep by (rewrite presum_axes_dim; [lia|apply (presum_ops_range _ _ _ k); lia]).
    reflexivity.
  - destruct (znth k (sizes left) 0 =? znth k (sizes right) 0); reflexivity.
Qed.

Lemma classify_fold_any left right mask :
  dim right = dim left ->
  forall k : nat, Z.of_nat k <= dim left ->
  foldM (sumproduct_classify mask) (zrange (Z.of_nat k))
        (mkPairState left right [] [] [] 1 1 1 1) =
  if existsb (clashes (sizes left) (sizes right)) (zrange (Z.of_nat k))
  then inl SumproductNonBroadcast
  else inr (classified left right mask (Z.of_nat k)).
Proof.
  intros D. induction k as [|k IH]; intros Hk.
  - reflexivity.
  - rewrite Nat2Z.inj_succ, <- Z.add_1_r. rewrite zrange_succ by lia.
    rewrite foldM_app, IH by lia. rewrite existsb_app. cbn [existsb].
    destruct (existsb (clashes (sizes left) (sizes right)) (zrange (Z.of_nat k))).
    + reflexivity.
    + cbn [bind foldM orb]. rewrite classify_step_any by (try assumption; lia).
      rewrite orb_false_r. destruct (clashes (sizes left) (sizes right) (Z.of_nat k)); reflexivity.
Qed.

(** Operands of different rank are rejected; so are, when there is an
    axis to sum, operands whose extents differ on an axis where both are
    above 1. *)
Theorem sumproduct_pair_rejects (left right : Tensor) (sum_dims : list Z) (keepdim : bool) :
  (dim left <> dim right ->
   sumproduct_pair left right sum_dims keepdim = inl SumproductRank) /\
  (dim left = dim right -> sum_dims <> [] ->
   Forall (fun d => 0 <= d < dim left) sum_dims -> NoDup sum_dims ->
   (exists k, 0 <= k < dim left /\ 1 < znth k (sizes left) 0 /\ 1 < znth k (sizes right) 0 /\
              znth k (sizes left) 0 <> znth k (sizes right) 0) ->
   sumproduct_pair left right sum_dims keepdim = inl SumproductNonBroadcast).
Proof.
  split.
  - intros H. unfold sumproduct_pair. apply Z.eqb_neq in H. rewrite H. reflexivity.
  - intros D Hne HS ND [k [Hk [Hl [Hr Hd]]]].
    unfold sumproduct_pair. rewrite D, Z.eqb_refl. cbn [TORCH_CHECK bind ret].
    rewrite match_nonempty by assumption.
    rewrite <- D.
    destruct (dim_list_to_bitset_ok sum_dims (dim left) HS ND) as [mask [-> _]].
    cbn [bind].
    pose proof (classify_fold_any left right mask (eq_sym D) (length (sizes left))) as F.
    change (Z.of_nat (length (sizes left))) with (dim left) in F.
    rewrite F by lia.
    replace (existsb (clashes (sizes left) (sizes right)) (zrange (dim left))) with true.
    + reflexivity.
    + symmetry. apply existsb_exists. exists k. split; [apply In_zrange; assumption|].
      unfold clashes. apply andb_true_iff. split; [apply andb_true_iff; split|].
      * apply Z.ltb_lt; assumption.
      * apply Z.ltb_lt; assumption.
      * apply negb_true_iff. apply Z.eqb_neq. assumption.
Qed.

Lemma sumproduct_pair_rejects_witness :
  sumproduct_pair v2 A22 [0] true = inl SumproductRank /\
  sumproduct_pair A22 A23 [0] true = inl SumproductNonBroadcast.
Proof.
  destruct (sumproduct_pair_rejects v2 A22 [0] true) as [H1 _].
  destruct (sumproduct_pair_rejects A22 A23 [0] true) as [_ H2].
  split.
  - apply H1. vm_compute. discriminate.
  - apply H2.
    + reflexivity.
    + discriminate.
    + repeat constructor; change (dim A22) with 2; lia.
    + repeat constructor; intros [].
    + exists 1. vm_compute. repeat split; discriminate.
Defined.

(** * Consequences for sumproduct_pair *)

Lemma teq_sym a b : teq a b -> teq b a.
Proof.
  intros [Hs He]. split; [symmetry; assumption|].
  intros idx V. symmetry. apply He. rewrite Hs. assumption.
Qed.

Lemma sum_mask_all_false mask : (forall k, nth k mask false = false) ->
  forall k t kd, sum_mask t mask k kd = t.
Proof.
  intros H. induction k as [|k IH]; intros t kd; cbn [sum_mask]; [reflexivity|].
  rewrite H. apply IH.
Qed.

(** The result of [sumproduct_pair] and the reduced product. *)
Lemma sumproduct_pair_result (left right : Tensor) (sum_dims : list Z) (keepdim : bool) :
  Forall2 broadcastable (sizes left) (sizes right) ->
  Forall (fun d => 0 <= d < dim left) sum_dims -> NoDup sum_dims ->
  exists mask T,
    dim_list_to_bitset sum_dims (dim left) = inr mask /\
    (forall i, 0 <= i -> bit mask i = true <-> In i sum_dims) /\
    sumproduct_pair left right sum_dims keepdim = inr T /\
    product_sum left right sum_dims keepdim =
      inr (sum_mask (product_of left right) mask (length (sizes left)) keepdim) /\
    teq T (sum_mask (product_of left right) mask (length (sizes left)) keepdim).
Proof.
  intros HB HS ND.
  destruct (dim_list_to_bitset_ok sum_dims (dim left) HS ND) as [mask [Hmask Hbit]].
  pose proof (product_sum_path left right sum_dims mask HB Hmask keepdim) as HP.
  change (product_sum left right sum_dims keepdim =
          inr (sum_mask (product_of left right) mask (length (sizes left)) keepdim)) in HP.
  destruct (list_eq_dec Z.eq_dec sum_dims []) as [E|Hne].
  - exists mask. subst sum_dims.
    assert (G : forall k t kd, sum_mask t mask k kd = t).
    { apply sum_mask_all_false. intros k.
      destruct (nth k mask false) eqn:M; [|reflexivity].
      exfalso. apply (Hbit (Z.of_nat k) ltac:(lia)). unfold bit, znth. rewrite Nat2Z.id. exact M. }
    exists (product_of left right). rewrite G in *.
    split; [assumption|]. split; [exact Hbit|]. split; [|split; [assumption|apply teq_refl]].
    unfold sumproduct_pair.
    replace (dim left =? dim right) with true
      by (symmetry; apply Z.eqb_eq; unfold dim, zlen; rewrite (Forall2_length HB); reflexivity).
    cbn [TORCH_CHECK bind ret]. apply mul_same_rank. assumption.
  - pose proof (sumproduct_pair_axes left right sum_dims mask HB HS ND Hbit Hmask Hne keepdim) as R.
    rewrite HP in R. destruct (sumproduct_pair left right sum_dims keepdim) as [e|T]; [destruct R|].
    exists mask, T. split; [assumption|]. split; [exact Hbit|]. split; [reflexivity|].
    split; [assumption|exact R].
Qed.

Lemma product_sizes_comm a b : Forall2 broadcastable a b -> product_sizes a b = product_sizes b a.
Proof.
  unfold product_sizes. induction 1 as [|x y a b H _ IH]; cbn [zipWith]; [reflexivity|].
  rewrite IH. f_equal. destruct H as [H1 [H2 H3]].
  destruct (x =? 1) eqn:Ex; destruct (y =? 1) eqn:Ey;
    rewrite ?Z.eqb_eq, ?Z.eqb_neq in *; lia.
Qed.

Lemma broadcastable_sym a b : Forall2 broadcastable a b -> Forall2 broadcastable b a.
Proof.
  induction 1 as [|x y a b H _ IH]; constructor; [|assumption].
  destruct H as [H1 [H2 H3]]. unfold broadcastable. repeat split; try assumption. lia.
Qed.

(** Reductions of arrays that agree everywhere agree everywhere. *)
Lemma sum_mask_ext mask kd k : forall t t',
  sizes t = sizes t' -> (forall idx, elem t idx = elem t' idx) ->
  sizes (sum_mask t mask k kd) = sizes (sum_mask t' mask k kd) /\
  forall idx, elem (sum_mask t mask k kd) idx = elem (sum_mask t' mask k kd) idx.
Proof.
  induction k as [|k IH]; intros t t' Hs He; cbn [sum_mask]; [split; assumption|].
  destruct (nth k mask false); [|apply IH; assumption].
  apply IH.
  - unfold sum_axis. cbn [sizes]. rewrite Hs. reflexivity.
  - intros idx. unfold sum_axis. cbn [elem]. rewrite Hs. apply sumZ_ext. intros j. apply He.
Qed.

(** The two operands can be exchanged. *)
Theorem sumproduct_pair_symmetric (left right : Tensor) (sum_dims : list Z) (keepdim : bool) :
  Forall2 broadcastable (sizes left) (sizes right) ->
  Forall (fun d => 0 <= d < dim left) sum_dims -> NoDup sum_dims ->
  exists a b,
    sumproduct_pair left right sum_dims keepdim = inr a /\
    sumproduct_pair right left sum_dims keepdim = inr b /\
    teq a b.
Proof.
  intros HB HS ND.
  assert (D : dim right = dim left) by (unfold dim, zlen; rewrite (Forall2_length HB); reflexivity).
  destruct (sumproduct_pair_result left right sum_dims keepdim HB HS ND)
    as [mask [a [Hm [_ [Ha [_ Ta]]]]]].
  destruct (sumproduct_pair_result right left sum_dims keepdim (broadcastable_sym _ _ HB))
    as [mask' [b [Hm' [_ [Hb [_ Tb]]]]]]; [rewrite D; assumption|assumption|].
  rewrite D, Hm in Hm'. apply inr_inj in Hm'. subst mask'.
  exists a, b. split; [assumption|]. split; [assumption|].
  eapply teq_trans; [exact Ta|]. apply teq_sym. eapply teq_trans; [exact Tb|].
  rewrite <- (Forall2_length HB).
  destruct (sum_mask_ext mask keepdim (length (sizes left)) (product_of right left)
              (product_of left right)) as [Hs He].
  - unfold product_of. cbn [sizes]. symmetry. apply product_sizes_comm. assumption.
  - intros idx. unfold product_of. cbn [elem]. apply Z.mul_comm.
  - split; [assumption|]. intros idx _. apply He.
Qed.

Lemma sumproduct_pair_symmetric_witness :
  exists a b,
    sumproduct_pair A23 R13 [1] false = inr a /\
    sumproduct_pair R13 A23 [1] false = inr b /\
    teq a b.
Proof.
  apply (sumproduct_pair_symmetric A23 R13 [1] false).
  - repeat constructor; unfold broadcastable; lia.
  - repeat constructor; change (dim A23) with 2; lia.
  - repeat constructor; intros [].
Defined.

(** ** Summing one operand beforehand *)

Lemma broadcastable_upd a b i :
  Forall2 broadcastable a b -> Forall2 broadcastable (upd i 1 a) b.
Proof.
  intros H. revert i. induction H as [|x y a b H H' IH]; intros i.
  - destruct i; constructor.
  - destruct i as [|i]; cbn [upd]; constructor; try assumption; [|apply IH].
    destruct H as [H1 [H2 H3]]. unfold broadcastable. lia.
Qed.

Lemma product_sizes_upd a b i :
  length a = length b -> nth i b 0 = 1 ->
  product_sizes (upd i 1 a) b = upd i 1 (product_sizes a b).
Proof.
  unfold product_sizes. revert b i. induction a as [|x a IH]; intros [|y b] [|i] L H;
    cbn [length nth upd zipWith] in *; try reflexivity; try discriminate.
  - subst y. reflexivity.
  - f_equal. apply IH; [lia|assumption].
Qed.

(** When [right] has extent 1 on the summed axis, [sumproduct_pair] gives
    what summing [left] along that axis and multiplying gives. *)
Theorem sumproduct_pair_presum (left right : Tensor) (i : Z) :
  Forall2 broadcastable (sizes left) (sizes right) ->
  0 <= i < dim left -> znth i (sizes right) 0 = 1 ->
  req (sumproduct_pair left right [i] true) (presum_mul left right i).
Proof.
  intros HB Hi Hr.
  pose proof (Forall2_length HB) as L.
  assert (Hk : (Z.to_nat i < length (sizes left))%nat) by (unfold dim, zlen in Hi; lia).
  destruct (sumproduct_pair_result left right [i] true HB) as [mask [T [Hm [_ [HT [_ Teq]]]]]].
  { repeat constructor; lia. }
  { repeat constructor; intros []. }
  rewrite HT. rewrite dim_list_to_bitset_single in Hm by assumption. apply inr_inj in Hm.
  subst mask. rewrite sum_mask_single in Teq by (unfold dim, zlen; lia).
  replace (Z.to_nat i <? length (sizes left))%nat with true in Teq
    by (symmetry; apply Nat.ltb_lt; assumption).
  unfold presum_mul. rewrite sum_keep by assumption. cbn [bind].
  assert (Hs : sizes (sum_axis left (Z.to_nat i) true) = upd (Z.to_nat i) 1 (sizes left))
    by (apply sum_axis_keep_sizes; assumption).
  rewrite mul_same_rank by (rewrite Hs; apply broadcastable_upd; assumption).
  unfold req. eapply teq_trans; [exact Teq|].
  unfold teq, product_of. rewrite Hs.
  rewrite sum_axis_keep_sizes by (cbn [sizes]; rewrite length_product_sizes; assumption).
  cbn [sizes elem]. split.
  - symmetry. apply product_sizes_upd; assumption.
  - intros idx V. apply valid_index_length in V.
    rewrite length_upd, length_product_sizes in V by assumption.
    rewrite sum_axis_keep_elem by lia. cbn [sizes elem].
    rewrite sum_axis_keep_elem
      by (rewrite expand_index_same, length_broadcast_coords; rewrite ?length_upd; lia).
    rewrite nth_product_sizes by assumption. fold (znth i (sizes right) 0). rewrite Hr.
    replace (if nth (Z.to_nat i) (sizes left) 0 =? 1 then 1 else nth (Z.to_nat i) (sizes left) 0)
      with (nth (Z.to_nat i) (sizes left) 0)
      by (destruct (nth (Z.to_nat i) (sizes left) 0 =? 1) eqn:E;
          [apply Z.eqb_eq in E; lia|reflexivity]).
    rewrite sumZ_mul_r. apply sumZ_ext_in. intros j Hj. apply In_zrange in Hj.
    rewrite !expand_index_same by (rewrite ?length_upd; lia).
    rewrite broadcast_coords_upd by assumption.
    rewrite (broadcast_coords_indep (sizes right)) by exact Hr. reflexivity.
Qed.

Lemma sumproduct_pair_presum_witness :
  req (sumproduct_pair A23 R13 [0] true) (presum_mul A23 R13 0).
Proof.
  apply (sumproduct_pair_presum A23 R13 0).
  - repeat constructor; unfold broadcastable; cbn; lia.
  - change (dim A23) with 2. lia.
  - reflexivity.
Defined.

(** ** The shape of the result *)

Lemma skipn_nth_cons {A} k (s : list A) d :
  (k < length s)%nat -> skipn k s = nth k s d :: skipn (S k) s.
Proof.
  revert s. induction k as [|k IH]; intros [|x s] H; cbn [length] in H; try lia.
  - reflexivity.
  - cbn [skipn nth]. apply IH. lia.
Qed.

Lemma erase_summed_filter mask k : forall s,
  (k <= length s)%nat ->
  erase_summed mask k s =
  map (fun i => nth i s 0) (filter (fun i => negb (nth i mask false)) (seq 0 k)) ++ skipn k s.
Proof.
  induction k as [|k IH]; intros s Hk; cbn [erase_summed].
  - reflexivity.
  - rewrite seq_S, filter_app, map_app. cbn [filter Nat.add].
    destruct (nth k mask false) eqn:M; cbn [negb map app].
    + rewrite IH by (rewrite length_erase; lia). rewrite app_nil_r. f_equal.
      * apply map_ext_in. intros i Hi. apply filter_In in Hi. destruct Hi as [Hi _].
        apply in_seq in Hi. apply nth_erase_below. lia.
      * unfold erase. rewrite skipn_app, length_firstn.
        replace (k - Nat.min k (length s))%nat with 0%nat by lia.
        rewrite skipn_firstn_comm. replace (k - k)%nat with 0%nat by lia. reflexivity.
    + rewrite IH by lia. rewrite <- app_assoc. f_equal. cbn [app].
      apply skipn_nth_cons. lia.
Qed.

Lemma max_broadcast a b : broadcastable a b -> (if a =? 1 then b else a) = Z.max a b.
Proof.
  intros [H1 [H2 H3]]. destruct (a =? 1) eqn:E; [apply Z.eqb_eq in E|apply Z.eqb_neq in E]; lia.
Qed.

(** With [keepdim] the result has the rank of the operands, extent 1 on
    the summed axes and the larger of the two extents on the others;
    without, only the other axes are left, in their order. *)
Theorem sumproduct_pair_shape (left right : Tensor) (sum_dims : list Z) :
  Forall2 broadcastable (sizes left) (sizes right) ->
  Forall (fun d => 0 <= d < dim left) sum_dims -> NoDup sum_dims ->
  exists kept dropped,
    sumproduct_pair left right sum_dims true = inr kept /\
    sumproduct_pair left right sum_dims false = inr dropped /\
    sizes kept =
      map (fun i => if existsb (Z.eqb i) sum_dims then 1
                    else Z.max (znth i (sizes left) 0) (znth i (sizes right) 0))
          (zrange (dim left)) /\
    sizes dropped =
      map (fun i => Z.max (znth i (sizes left) 0) (znth i (sizes right) 0))
          (free_of sum_dims (dim left)).
Proof.
  intros HB HS ND. pose proof (Forall2_length HB) as L.
  destruct (sumproduct_pair_result left right sum_dims true HB HS ND)
    as [mask [kept [Hm [Hbit [Hk [_ Tk]]]]]].
  destruct (sumproduct_pair_result left right sum_dims false HB HS ND)
    as [mask' [dropped [Hm' [_ [Hd [_ Td]]]]]].
  rewrite Hm in Hm'. apply inr_inj in Hm'. subst mask'.
  exists kept, dropped. split; [assumption|]. split; [assumption|].
  set (N := length (sizes left)) in *. set (P := product_of left right) in *.
  assert (LP : length (sizes P) = N)
    by (unfold P, product_of; cbn [sizes]; apply length_product_sizes; assumption).
  destruct (sum_mask_keep mask N P) as [KL [KS _]]; [lia|].
  assert (Hin : forall a : nat, nth a mask false = existsb (Z.eqb (Z.of_nat a)) sum_dims).
  { intros a. specialize (Hbit (Z.of_nat a) ltac:(lia)). unfold bit, znth in Hbit.
    rewrite Nat2Z.id in Hbit.
    destruct (nth a mask false); destruct (existsb (Z.eqb (Z.of_nat a)) sum_dims) eqn:E;
      try reflexivity.
    - exfalso. assert (I : In (Z.of_nat a) sum_dims) by (apply (proj1 Hbit); reflexivity).
      assert (existsb (Z.eqb (Z.of_nat a)) sum_dims = true)
        by (apply existsb_exists; exists (Z.of_nat a); split; [assumption|apply Z.eqb_refl]).
      congruence.
    - apply existsb_exists in E. destruct E as [x [Hx Ex]]. apply Z.eqb_eq in Ex. subst x.
      pose proof (proj2 Hbit Hx). discriminate. }
  assert (Hp : forall a : nat, (a < N)%nat ->
               nth a (sizes P) 0 = Z.max (znth (Z.of_nat a) (sizes left) 0)
                                         (znth (Z.of_nat a) (sizes right) 0)).
  { intros a Ha. unfold P, product_of. cbn [sizes]. rewrite nth_product_sizes by assumption.
    unfold znth. rewrite Nat2Z.id. apply max_broadcast.
    apply Forall2_nth_broadcastable; assumption. }
  split.
  - destruct Tk as [-> _]. apply nth_ext with (d := 0) (d' := 0).
    + rewrite KL, LP. rewrite length_map, length_zrange. unfold dim, zlen. fold N. lia.
    + intros a Ha. rewrite KL, LP in Ha. rewrite KS.
      match goal with |- _ = nth a (map ?f ?l) 0 =>
        rewrite (nth_indep (map f l) 0 (f 0))
          by (rewrite length_map, length_zrange; unfold dim, zlen; fold N; lia);
        rewrite (map_nth f)
      end. rewrite nth_zrange by (unfold dim, zlen; fold N; lia).
      replace (a <? N)%nat with true by (symmetry; apply Nat.ltb_lt; assumption).
      cbn [andb]. rewrite Hin. rewrite Hp by assumption. reflexivity.
  - destruct Td as [-> _].
    destruct (sum_mask_drop mask N N [] P P) as [DS _];
      [lia|exact I|assumption|reflexivity|reflexivity|].
    rewrite DS, erase_summed_axes. cbn [erase_axes fold_right].
    rewrite erase_summed_filter by lia.
    rewrite skipn_all2 by lia. rewrite app_nil_r.
    unfold free_of, zrange. unfold dim, zlen. fold N. rewrite Nat2Z.id.
    rewrite filter_map_swap, map_map.
    rewrite (filter_ext (fun a => negb (existsb (Z.eqb (Z.of_nat a)) sum_dims))
                        (fun i => negb (nth i mask false)))
      by (intros a; rewrite Hin; reflexivity).
    apply map_ext_in. intros a Ha. apply filter_In in Ha. destruct Ha as [Ha Hmk].
    apply in_seq in Ha. rewrite KS. apply negb_true_iff in Hmk. rewrite Hmk, andb_false_r.
    apply Hp. lia.
Qed.

Lemma sumproduct_pair_shape_witness :
  exists kept dropped,
    sumproduct_pair A23 R13 [1] true = inr kept /\
    sumproduct_pair A23 R13 [1] false = inr dropped /\
    sizes kept = [2; 1] /\ sizes dropped = [2].
Proof.
  apply (sumproduct_pair_shape A23 R13 [1]).
  - repeat constructor; unfold broadcastable; cbn; lia.
  - repeat constructor; change (dim A23) with 2; lia.
  - repeat constructor; intros [].
Defined.

(** * More on tensordot *)

(** ** What tensordot rejects *)

(** Two lists of different lengths are rejected; so is a pair of axes
    whose extents differ and are both not 1, once the pairs before it
    passed. *)
Theorem tensordot_rejects (A B : Tensor) :
  (forall dims1 dims2, length dims1 <> length dims2 ->
     tensordot A B dims1 dims2 = inl TensordotLength) /\
  (forall pre1 pre2 d1 d2 post1 post2,
     length pre1 = length pre2 -> length post1 = length post2 ->
     Forall (good_pair A B) (combine pre1 pre2) ->
     0 <= d1 < dim A -> 0 <= d2 < dim B ->
     0 <= znth d1 (sizes A) 0 < 2147483648 -> 0 <= znth d2 (sizes B) 0 < 2147483648 ->
     znth d1 (sizes A) 0 <> 1 -> znth d2 (sizes B) 0 <> 1 ->
     znth d1 (sizes A) 0 <> znth d2 (sizes B) 0 ->
     tensordot A B (pre1 ++ d1 :: post1) (pre2 ++ d2 :: post2) =
     inl (TensordotContracted (znth d1 (sizes A) 0) d1 (znth d2 (sizes B) 0) d2)).
Proof.
  split.
  - intros dims1 dims2 H. unfold tensordot. apply Nat.eqb_neq in H. rewrite H. reflexivity.
  - intros pre1 pre2 d1 d2 post1 post2 Lpre Lpost G R1 R2 I1 I2 N1 N2 Nd.
    unfold tensordot.
    replace (length (pre1 ++ d1 :: post1) =? length (pre2 ++ d2 :: post2))%nat with true
      by (symmetry; apply Nat.eqb_eq; rewrite !length_app; cbn [length]; lia).
    cbn [TORCH_CHECK bind ret].
    rewrite combine_app by assumption. cbn [combine].
    rewrite foldM_app. rewrite tensordot_fold by (try assumption; reflexivity).
    cbn [bind foldM]. unfold tensordot_pair at 1.
    rewrite !size_in_range by assumption. cbn [bind].
    rewrite !to_int_small by lia.
    apply Z.eqb_neq in N1, N2, Nd. rewrite N1, N2, Nd. reflexivity.
Qed.

Lemma tensordot_rejects_witness :
  tensordot A22 B22 [0] [] = inl TensordotLength /\
  tensordot A22 A23 [0] [1] = inl (TensordotContracted 2 0 3 1).
Proof.
  destruct (tensordot_rejects A22 B22) as [H1 _].
  destruct (tensordot_rejects A22 A23) as [_ H2].
  split.
  - apply H1. discriminate.
  - apply (H2 [] [] 0 1 [] []).
    + reflexivity.
    + reflexivity.
    + constructor.
    + change (dim A22) with 2. lia.
    + change (dim A23) with 2. lia.
    + change (znth 0 (sizes A22) 0) with 2. lia.
    + change (znth 1 (sizes A23) 0) with 3. lia.
    + change (znth 0 (sizes A22) 0) with 2. lia.
    + change (znth 1 (sizes A23) 0) with 3. lia.
    + change (znth 0 (sizes A22) 0) with 2. change (znth 1 (sizes A23) 0) with 3. lia.
Defined.

(** ** The outer product *)

Lemma index_of_zrange n k : (k < Z.to_nat n)%nat -> index_of (Z.of_nat k) (zrange n) = k.
Proof.
  intros H. rewrite <- (nth_zrange n k H) at 1. apply index_of_nth.
  - apply NoDup_zrange.
  - rewrite length_zrange. assumption.
Qed.

Lemma unpermute_zrange x : unpermute (zrange (zlen x)) x = x.
Proof.
  apply nth_ext with (d := 0) (d' := 0).
  - rewrite length_unpermute, length_zrange. unfold zlen. lia.
  - intros k Hk. rewrite length_unpermute, length_zrange in Hk.
    rewrite nth_unpermute by (rewrite length_zrange; assumption).
    rewrite index_of_zrange by assumption. reflexivity.
Qed.

Lemma free_of_nil n : free_of [] n = zrange n.
Proof.
  unfold free_of. cbn [existsb negb]. induction (zrange n) as [|x l IH]; cbn [filter];
    [reflexivity|]. rewrite IH. reflexivity.
Qed.

Lemma gather_zrange s : map (fun d => znth d s 0) (zrange (zlen s)) = s.
Proof.
  apply nth_ext with (d := 0) (d' := 0).
  - rewrite length_map, length_zrange. unfold zlen. lia.
  - intros k Hk. rewrite length_map, length_zrange in Hk.
    rewrite (nth_indep _ 0 ((fun d => znth d s 0) 0)) by (rewrite length_map, length_zrange; lia).
    rewrite (map_nth (fun d => znth d s 0)). rewrite nth_zrange by assumption.
    unfold znth. rewrite Nat2Z.id. reflexivity.
Qed.

(** With no axis to contract, [tensordot] is the outer product. *)
Theorem tensordot_outer_product (A B : Tensor) :
  wf A -> wf B ->
  exists R,
    tensordot A B [] [] = inr R /\
    sizes R = sizes A ++ sizes B /\
    forall ia ib, valid_index (sizes A) ia -> valid_index (sizes B) ib ->
      elem R (ia ++ ib) = elem A ia * elem B ib.
Proof.
  intros WA WB.
  pose proof (tensordot_contraction A B [] [] WA WB eq_refl (NoDup_nil Z) (NoDup_nil Z)
                (Forall_nil _)) as H.
  destruct (tensordot A B [] []) as [e|R]; [destruct H|].
  destruct H as [Hs He]. exists R. split; [reflexivity|].
  unfold tensordot_ref in Hs, He. cbn [sizes elem] in Hs, He.
  rewrite !free_of_nil in Hs, He. unfold extents in Hs. unfold dim in Hs.
  rewrite !gather_zrange in Hs. split; [assumption|].
  intros ia ib Va Vb.
  pose proof (valid_index_length _ _ Va) as La. pose proof (valid_index_length _ _ Vb) as Lb.
  rewrite He by (rewrite Hs; apply valid_index_app; [assumption|split; assumption]).
  rewrite length_zrange. unfold dim, zlen. rewrite Nat2Z.id.
  rewrite <- La. rewrite firstn_app_exact, skipn_app_exact.
  cbn [contracted_extents extents map zipWith indices sumZ fold_right broadcast_coords app].
  rewrite !app_nil_r, Z.add_0_r.
  replace (Z.of_nat (length ia)) with (zlen ia) by reflexivity.
  rewrite unpermute_zrange.
  replace (Z.of_nat (length (sizes B))) with (zlen ib) by (unfold zlen; rewrite Lb; reflexivity).
  rewrite unpermute_zrange. reflexivity.
Qed.

Lemma tensordot_outer_product_witness :
  exists R,
    tensordot v2 A22 [] [] = inr R /\
    sizes R = sizes v2 ++ sizes A22 /\
    forall ia ib, valid_index (sizes v2) ia -> valid_index (sizes A22) ib ->
      elem R (ia ++ ib) = elem v2 ia * elem A22 ib.
Proof.
  apply (tensordot_outer_product v2 A22); repeat constructor; lia.
Defined.

(** ** Exchanging the operands *)

Lemma combine_swap {X Y} (l1 : list X) (l2 : list Y) :
  combine l2 l1 = map (fun d => (snd d, fst d)) (combine l1 l2).
Proof.
  revert l2. induction l1 as [|x l1 IH]; intros [|y l2]; cbn [combine map]; try reflexivity.
  rewrite IH. reflexivity.
Qed.

Lemma good_pair_swap A B d : good_pair A B d -> good_pair B A (snd d, fst d).
Proof.
  unfold good_pair, compatible. cbn [fst snd]. intros H. repeat split; try apply H.
  destruct H as [_ [_ [_ [_ [_ [_ H]]]]]]. lia.
Qed.

Lemma contracted_extents_swap A B dims1 dims2 :
  Forall (good_pair A B) (combine dims1 dims2) ->
  contracted_extents B A dims2 dims1 = contracted_extents A B dims1 dims2.
Proof.
  intros G. unfold contracted_extents, extents. rewrite !zipWith_map_combine.
  rewrite combine_swap, map_map. apply map_ext_in. intros d Hd. cbn [fst snd].
  rewrite Forall_forall in G. destruct (G d Hd) as [_ [_ [_ [_ [H1 [H2 H3]]]]]].
  cbn [fst snd] in *.
  destruct (znth (snd d) (sizes B) 0 =? 1) eqn:Eb; destruct (znth (fst d) (sizes A) 0 =? 1) eqn:Ea;
    rewrite ?Z.eqb_eq, ?Z.eqb_neq in *; lia.
Qed.

Lemma unpermute_app_comm p q x y :
  NoDup (p ++ q) -> length p = length x -> length q = length y ->
  unpermute (p ++ q) (x ++ y) = unpermute (q ++ p) (y ++ x).
Proof.
  intros ND Lp Lq. apply unpermute_assign.
  - assumption.
  - eapply Permutation_NoDup; [apply Permutation_app_comm|exact ND].
  - rewrite !length_app. lia.
  - rewrite !length_app. lia.
  - rewrite !combine_app by assumption. apply Permutation_app_comm.
Qed.

(** Exchanging the operands, with their lists of axes, exchanges the two
    groups of axes of the result. *)
Theorem tensordot_exchange (A B : Tensor) (dims1 dims2 : list Z) :
  wf A -> wf B ->
  length dims1 = length dims2 -> NoDup dims1 -> NoDup dims2 ->
  Forall (good_pair A B) (combine dims1 dims2) ->
  exists R R',
    tensordot A B dims1 dims2 = inr R /\
    tensordot B A dims2 dims1 = inr R' /\
    forall ia ib,
      valid_index (extents A (free_of dims1 (dim A))) ia ->
      valid_index (extents B (free_of dims2 (dim B))) ib ->
      elem R' (ib ++ ia) = elem R (ia ++ ib).
Proof.
  intros WA WB Hlen N1 N2 G.
  assert (G' : Forall (good_pair B A) (combine dims2 dims1)).
  { rewrite combine_swap. apply Forall_map. eapply Forall_impl; [|exact G].
    intros d. apply good_pair_swap. }
  pose proof (tensordot_contraction A B dims1 dims2 WA WB Hlen N1 N2 G) as H.
  pose proof (tensordot_contraction B A dims2 dims1 WB WA (eq_sym Hlen) N2 N1 G') as H'.
  destruct (tensordot A B dims1 dims2) as [e|R]; [destruct H|].
  destruct (tensordot B A dims2 dims1) as [e|R']; [destruct H'|].
  exists R, R'. split; [reflexivity|]. split; [reflexivity|].
  intros ia ib Va Vb. destruct H as [Hs He]. destruct H' as [Hs' He'].
  set (f1 := free_of dims1 (dim A)) in *. set (f2 := free_of dims2 (dim B)) in *.
  pose proof (valid_index_length _ _ Va) as La. pose proof (valid_index_length _ _ Vb) as Lb.
  rewrite length_extents in La, Lb.
  assert (R1 : Forall (fun d => 0 <= d < dim A) dims1).
  { rewrite <- (map_fst_combine dims1 dims2 Hlen). apply Forall_map.
    eapply Forall_impl; [|exact G]. intros d Hd. apply Hd. }
  assert (R2 : Forall (fun d => 0 <= d < dim B) dims2).
  { rewrite <- (map_snd_combine dims1 dims2 Hlen). apply Forall_map.
    eapply Forall_impl; [|exact G]. intros d Hd. apply Hd. }
  assert (Np1 : NoDup (f1 ++ dims1)).
  { eapply Permutation_NoDup; [apply Permutation_sym, free_of_perm; assumption|apply NoDup_zrange]. }
  assert (Np2 : NoDup (f2 ++ dims2)).
  { eapply Permutation_NoDup; [apply Permutation_sym, free_of_perm; assumption|apply NoDup_zrange]. }
  rewrite He.
  2:{ rewrite Hs. unfold tensordot_ref. cbn [sizes]. fold f1 f2.
      apply valid_index_app; [rewrite length_extents; exact La|split; assumption]. }
  rewrite He'.
  2:{ rewrite Hs'. unfold tensordot_ref. cbn [sizes]. fold f1 f2.
      apply valid_index_app; [rewrite length_extents; exact Lb|split; assumption]. }
  unfold tensordot_ref. cbn [elem]. fold f1 f2.
  rewrite <- La, <- Lb. rewrite !firstn_app_exact, !skipn_app_exact.
  rewrite contracted_extents_swap by assumption.
  apply sumZ_ext_in. intros c Hc. apply In_indices in Hc. apply valid_index_length in Hc.
  assert (Lc : length c = length dims1).
  { rewrite Hc. unfold contracted_extents, extents. rewrite zipWith_map_combine.
    rewrite length_map, length_combine. lia. }
  rewrite Z.mul_comm. f_equal.
  - f_equal. symmetry. apply unpermute_app_comm; [exact Np1|lia|].
    rewrite length_broadcast_coords; rewrite length_extents; lia.
  - f_equal. apply unpermute_app_comm; [exact Np2|lia|].
    rewrite length_broadcast_coords; rewrite length_extents; lia.
Qed.

Lemma tensordot_exchange_witness :
  exists R R',
    tensordot A23 A22 [0] [1] = inr R /\
    tensordot A22 A23 [1] [0] = inr R' /\
    forall ia ib,
      valid_index (extents A23 (free_of [0] (dim A23))) ia ->
      valid_index (extents A22 (free_of [1] (dim A22))) ib ->
      elem R' (ib ++ ia) = elem R (ia ++ ib).
Proof.
  apply (tensordot_exchange A23 A22 [0] [1]).
  - repeat constructor; lia.
  - repeat constructor; lia.
  - reflexivity.
  - repeat constructor; intros [].
  - repeat constructor; intros [].
  - constructor; [|constructor]. unfold good_pair, compatible. cbn [fst snd].
    change (dim A23) with 2. change (dim A22) with 2.
    change (znth 0 (sizes A23) 0) with 2. change (znth 1 (sizes A22) 0) with 2. lia.
Defined.

(** * The checks of einsum *)

(** ** The number of operands *)

(** [einsum] rejects an empty list of operands, and a list whose length
    is not the number of comma-separated groups before the arrow. *)
Theorem einsum_arity (equation : string) :
  einsum equation [] = inl EinsumNoOperand /\
  forall operands,
    operands <> [] ->
    length (split_operand_labels equation) <> length operands ->
    einsum equation operands =
    inl (EinsumOperandCount (length (split_operand_labels equation)) (length operands)).
Proof.
  split; [reflexivity|]. intros operands Hne Hl. apply einsum_operand_count; assumption.
Qed.

Lemma einsum_arity_witness :
  einsum "ij,jk->ik" [] = inl EinsumNoOperand /\
  einsum "ij,jk->ik" [A22; B22; A22] = inl (EinsumOperandCount 2 3).
Proof.
  destruct (einsum_arity "ij,jk->ik") as [H1 H2]. split; [exact H1|].
  apply (H2 [A22; B22; A22]); [discriminate|]. vm_compute. discriminate.
Defined.

(** ** The subscripts of the operands *)

Lemma parse_labels_ok operand i cs : forall st count,
  Forall (fun c => is_label c = true) (nonspace cs) ->
  0 <= count -> count + zlen (nonspace cs) <= dim operand ->
  exists st', foldM (parse_label operand i) cs (st, count) =
              inr (st', count + zlen (nonspace cs)).
Proof.
  induction cs as [|c cs IH]; intros st count HF H0 Hc; cbn [foldM nonspace filter].
  - exists st. unfold ret. f_equal. f_equal. change (zlen []) with 0. lia.
  - unfold parse_label at 1. unfold nonspace in HF, Hc. cbn [filter] in HF, Hc.
    destruct (negb (is_space c)) eqn:E.
    + pose proof (Forall_inv HF) as Hl. cbv beta in Hl. rewrite Hl.
      rewrite zlen_cons in Hc. pose proof (zlen_nonneg (filter (fun c => negb (is_space c)) cs)).
      cbn [TORCH_CHECK bind ret]. rewrite size_in_range by lia. cbn [bind ret].
      match goal with |- exists st', foldM _ _ (?s, _) = _ =>
        destruct (IH s (count + 1) (Forall_inv_tail HF)) as [st' Hst']; [lia|unfold nonspace; lia|]
      end.
      exists st'. rewrite Hst'. rewrite zlen_cons. f_equal. f_equal. unfold nonspace. lia.
    + cbn [bind ret]. apply IH; assumption.
Qed.

Lemma parse_labels_bad operand i cs1 c cs2 st count :
  Forall (fun c => is_label c = true) (nonspace cs1) ->
  0 <= count -> count + zlen (nonspace cs1) <= dim operand ->
  is_space c = false -> is_label c = false ->
  foldM (parse_label operand i) (cs1 ++ c :: cs2) (st, count) = inl (EinsumSubscriptRange c).
Proof.
  intros HF H0 Hc Hs Hl. rewrite foldM_app.
  destruct (parse_labels_ok operand i cs1 st count HF H0 Hc) as [st' ->].
  cbn [bind foldM]. unfold parse_label at 1. rewrite Hs, Hl. reflexivity.
Qed.

(** The operands before the one that fails pass. *)
Lemma parse_operands_prefix pre wpre : forall rest wrest i st,
  Forall2 well_labelled pre wpre ->
  exists st', parse_operands (pre ++ rest) (wpre ++ wrest) i st =
              parse_operands rest wrest (i + length pre) st'.
Proof.
  intros rest wrest i st H. revert i st.
  induction H as [|A w pre wpre [HF HL] H IH]; intros i st.
  - exists st. cbn [app length]. rewrite Nat.add_0_r. reflexivity.
  - cbn [app parse_operands length].
    destruct (parse_labels_ok A i (list_ascii_of_string w) st 0 HF ltac:(lia) ltac:(lia))
      as [st1 ->].
    cbn [bind]. rewrite Z.add_0_l, HL, Z.eqb_refl. cbn [TORCH_CHECK bind ret].
    destruct (IH (S i) st1) as [st' ->]. exists st'. f_equal. lia.
Qed.

(** An operand with more axes than subscripts is rejected with the
    rank-mismatch error, and a subscript that is not a lower-case letter
    with the subscript error, when the operands before it have one
    letter per axis. *)
Theorem einsum_subscripts_checked (equation : string) (pre post : list Tensor) (A : Tensor)
  (wpre wpost : list string) (w : string) :
  split_operand_labels equation = wpre ++ w :: wpost ->
  length wpost = length post ->
  Forall2 well_labelled pre wpre ->
  (Forall (fun c => is_label c = true) (nonspace (list_ascii_of_string w)) ->
   zlen (nonspace (list_ascii_of_string w)) < dim A ->
   einsum equation (pre ++ A :: post) =
   inl (EinsumRankMismatch (zlen (nonspace (list_ascii_of_string w))) (dim A) (length pre))) /\
  (forall cs1 c cs2,
     list_ascii_of_string w = cs1 ++ c :: cs2 ->
     Forall (fun c => is_label c = true) (nonspace cs1) ->
     zlen (nonspace cs1) <= dim A ->
     is_space c = false -> is_label c = false ->
     einsum equation (pre ++ A :: post) = inl (EinsumSubscriptRange c)).
Proof.
  intros Hsplit Hpost Hpre.
  assert (Hlen : length (split_operand_labels equation) = length (pre ++ A :: post)).
  { rewrite Hsplit, !length_app. cbn [length]. rewrite (Forall2_length Hpre). lia. }
  assert (Hstart : forall X, einsum equation (pre ++ A :: post) =
            ('(operand_labels, pl, out_size) <-
               (st <- parse_operands (pre ++ A :: post) (wpre ++ w :: wpost) 0
                        (mkParseState (repeat 0 (Z.to_nat total_labels))
                                      (repeat size_t_max (Z.to_nat total_labels))) ;;
                '(pl, out_size) <- build_plan equation (label_count st) ;;
                ret (wpre ++ w :: wpost, pl, out_size)) ;;
             permuted_operands <-
               align_operands (label_out_index pl) (out_index pl) 0 (pre ++ A :: post)
                              operand_labels ;;
             einsum_compute permuted_operands out_size (out_index pl)) \/ X).
  { intros X. left. unfold einsum, einsum_plan.
    replace (negb match pre ++ A :: post with [] => true | _ :: _ => false end) with true
      by (destruct pre; reflexivity).
    cbn [TORCH_CHECK bind ret]. rewrite Hlen, Nat.eqb_refl. cbn [TORCH_CHECK bind ret].
    rewrite Hsplit. reflexivity. }
  split.
  - intros HF Hlt. destruct (Hstart False) as [->|[]].
    destruct (parse_operands_prefix pre wpre (A :: post) (w :: wpost) 0%nat
                (mkParseState (repeat 0 (Z.to_nat total_labels))
                              (repeat size_t_max (Z.to_nat total_labels))) Hpre) as [st' ->].
    cbn [parse_operands Nat.add].
    destruct (parse_labels_ok A (length pre) (list_ascii_of_string w) st' 0 HF ltac:(lia) ltac:(lia))
      as [st1 ->].
    cbn [bind]. rewrite Z.add_0_l.
    replace (zlen (nonspace (list_ascii_of_string w)) =? dim A) with false
      by (symmetry; apply Z.eqb_neq; lia).
    reflexivity.
  - intros cs1 c cs2 Hw HF Hle Hs Hl. destruct (Hstart False) as [->|[]].
    destruct (parse_operands_prefix pre wpre (A :: post) (w :: wpost) 0%nat
                (mkParseState (repeat 0 (Z.to_nat total_labels))
                              (repeat size_t_max (Z.to_nat total_labels))) Hpre) as [st' ->].
    cbn [parse_operands Nat.add]. rewrite Hw.
    rewrite parse_labels_bad by (try assumption; lia). reflexivity.
Qed.

Lemma einsum_subscripts_checked_witness :
  einsum "ij,j->i" [A22; A22] = inl (EinsumRankMismatch 1 2 1) /\
  einsum "ij,J->i" [A22; v2] = inl (EinsumSubscriptRange "J").
Proof.
  assert (W : Forall2 well_labelled [A22] ["ij"%string]).
  { constructor; [|constructor]. split; [repeat constructor|reflexivity]. }
  destruct (einsum_subscripts_checked "ij,j->i" [A22] [] A22 ["ij"%string] [] "j" eq_refl eq_refl W)
    as [H1 _].
  destruct (einsum_subscripts_checked "ij,J->i" [A22] [] v2 ["ij"%string] [] "J" eq_refl eq_refl W)
    as [_ H2].
  split.
  - apply H1; [repeat constructor|reflexivity].
  - apply (H2 [] "J"%char []);
      [reflexivity|constructor|vm_compute; discriminate|reflexivity|reflexivity].
Defined.

(** ** The subscripts of the output *)

Lemma label_of_inj c c' : label_of c = label_of c' -> c = c'.
Proof.
  unfold label_of, code. intros H.
  rewrite <- (ascii_nat_embedding c), <- (ascii_nat_embedding c'). f_equal. lia.
Qed.

Lemma explicit_output_fold_index cs : forall pl pl',
  foldM explicit_output cs pl = inr pl' ->
  out_index pl' = out_index pl + zlen (nonspace cs).
Proof.
  induction cs as [|c cs IH]; intros pl pl' H; cbn [foldM] in H.
  - apply inr_inj in H. subst. change (zlen (nonspace [])) with 0. lia.
  - apply bind_inr in H. destruct H as [pl1 [H1 H2]]. apply IH in H2. rewrite H2.
    unfold nonspace. cbn [filter]. unfold explicit_output in H1.
    destruct (negb (is_space c)).
    + apply bind_inr in H1. destruct H1 as [u [_ H1]].
      apply bind_inr in H1. destruct H1 as [u' [_ H1]].
      apply inr_inj in H1. subst pl1. cbn [out_index]. rewrite zlen_cons.
      unfold nonspace. lia.
    + apply inr_inj in H1. subst pl1. unfold nonspace. lia.
Qed.

Lemma explicit_output_fold_ok cs : forall pl,
  zlen (plan_label_count pl) = total_labels ->
  Forall (fun c => is_label c = true /\ 0 < znth (label_of c) (plan_label_count pl) 0)
         (nonspace cs) ->
  NoDup (nonspace cs) ->
  exists pl',
    foldM explicit_output cs pl = inr pl' /\
    zlen (plan_label_count pl') = total_labels /\
    (forall x, is_label x = true ->
       znth (label_of x) (plan_label_count pl') 0 =
       if in_dec ascii_dec x (nonspace cs) then -1
       else znth (label_of x) (plan_label_count pl) 0).
Proof.
  induction cs as [|c cs IH]; intros pl L HF ND; cbn [foldM].
  - exists pl. split; [reflexivity|]. split; [assumption|]. intros x Hx. reflexivity.
  - unfold explicit_output at 1. unfold nonspace in HF, ND |- *. cbn [filter] in HF, ND |- *.
    destruct (negb (is_space c)) eqn:E.
    + pose proof (Forall_inv HF) as [Hl Hpos]. rewrite Hl.
      replace (0 <? znth (label_of c) (plan_label_count pl) 0) with true
        by (symmetry; apply Z.ltb_lt; exact Hpos).
      cbn [TORCH_CHECK bind ret].
      pose proof (is_label_range c Hl) as Rc.
      match goal with |- exists pl', foldM _ _ ?q = _ /\ _ => destruct (IH q) as [pl' [H1 [H2 H3]]] end.
      * cbn [plan_label_count]. rewrite zlen_zupd. exact L.
      * cbn [plan_label_count]. apply Forall_forall. intros x Hx.
        pose proof (proj1 (Forall_forall _ _) (Forall_inv_tail HF) x Hx) as [Hxl Hxp].
        split; [assumption|].
        rewrite znth_zupd_other; [assumption|lia|pose proof (is_label_range x Hxl); lia|].
        intros Heq. apply label_of_inj in Heq. subst x.
        apply NoDup_cons_iff in ND. apply (proj1 ND). exact Hx.
      * apply NoDup_cons_iff in ND. apply ND.
      * exists pl'. split; [exact H1|]. split; [exact H2|].
        intros x Hx. rewrite (H3 x Hx). cbn [plan_label_count]. unfold nonspace.
        pose proof (is_label_range x Hx) as Rx.
        destruct (in_dec ascii_dec x (filter (fun c0 => negb (is_space c0)) cs)) as [i|ni];
          destruct (in_dec ascii_dec x (c :: filter (fun c0 => negb (is_space c0)) cs))
            as [i'|ni']; try reflexivity.
        -- exfalso. apply ni'. right. exact i.
        -- destruct i' as [<-|i']; [|contradiction].
           apply znth_zupd_same. lia.
        -- rewrite znth_zupd_other; [reflexivity|lia|lia|].
           intros Heq. apply label_of_inj in Heq. subst x. apply ni'. left. reflexivity.
    + cbn [bind ret]. apply IH; assumption.
Qed.

Lemma occurrences_nonneg ws label : 0 <= occurrences ws label.
Proof.
  unfold occurrences, sumZ. induction ws as [|w ws IH]; cbn [fold_right]; [lia|].
  unfold count_of at 1. lia.
Qed.

Lemma znth_map_zrange (f : Z -> Z) n i : 0 <= i < n -> znth i (map f (zrange n)) 0 = f i.
Proof.
  intros H. unfold znth.
  rewrite (nth_indep (map f (zrange n)) 0 (f 0)) by (rewrite length_map, length_zrange; lia).
  rewrite (map_nth f). rewrite nth_zrange by lia. f_equal. lia.
Qed.

(** After the arrow, [einsum] rejects a character that is neither a
    space nor a lower-case letter, a letter written twice, and a letter
    that no operand carries. *)
Theorem einsum_output_checked (equation : string) (operands : list Tensor) (p : nat)
  (cs1 cs2 : list ascii) (c : ascii) :
  operands <> [] ->
  Forall2 well_labelled operands (split_operand_labels equation) ->
  arrow_pos equation = Some p ->
  output_chars equation p = cs1 ++ c :: cs2 ->
  Forall (fun x => is_label x = true /\
                   0 < occurrences (split_operand_labels equation) (label_of x))
         (nonspace cs1) ->
  NoDup (nonspace cs1) ->
  is_space c = false ->
  (is_label c = false -> einsum equation operands = inl (EinsumSubscriptRange c)) /\
  (is_label c = true -> In c (nonspace cs1) ->
   einsum equation operands = inl (EinsumOutputSubscript c true)) /\
  (is_label c = true -> occurrences (split_operand_labels equation) (label_of c) = 0 ->
   einsum equation operands = inl (EinsumOutputSubscript c false)).
Proof.
  intros Hne HW Harrow Hout HF ND Hs.
  set (st0 := mkParseState (repeat 0 (Z.to_nat total_labels))
                           (repeat size_t_max (Z.to_nat total_labels))).
  destruct (parse_operands_prefix operands (split_operand_labels equation) [] [] 0%nat st0 HW)
    as [st Hst].
  rewrite !app_nil_r in Hst.
  assert (Hst' : parse_operands operands (split_operand_labels equation) 0 st0 = inr st).
  { rewrite Hst. destruct (0 + length operands)%nat; reflexivity. }
  clear Hst.
  pose proof (Forall2_length HW) as Hlen.
  pose proof (parse_operands_label_count _ _ _ Hst' (eq_sym Hlen)) as Hlc.
  assert (Hstart : einsum equation operands =
            ('(operand_labels, pl, out_size) <-
               ('(pl, out_size) <-
                  (pl <- (pl1 <- foldM explicit_output cs1
                                   (mkPlan (label_count st)
                                      (repeat (-1) (Z.to_nat total_labels)) [] 0) ;;
                          foldM explicit_output (c :: cs2) pl1) ;;
                   ret (fold_left contraction_label (zrange total_labels) pl, out_index pl)) ;;
                ret (split_operand_labels equation, pl, out_size)) ;;
             permuted_operands <-
               align_operands (label_out_index pl) (out_index pl) 0 operands operand_labels ;;
             einsum_compute permuted_operands out_size (out_index pl))).
  { unfold einsum, einsum_plan.
    replace (negb match operands with [] => true | _ :: _ => false end) with true
      by (destruct operands; [contradiction|reflexivity]).
    cbn [TORCH_CHECK bind ret]. rewrite <- Hlen, Nat.eqb_refl. cbn [TORCH_CHECK bind ret].
    fold st0. rewrite Hst'. cbn [bind]. unfold build_plan. rewrite Harrow.
    fold (output_chars equation p). rewrite Hout, foldM_app. reflexivity. }
  rewrite Hstart. clear Hstart.
  destruct (explicit_output_fold_ok cs1
              (mkPlan (label_count st) (repeat (-1) (Z.to_nat total_labels)) [] 0))
    as [pl1 [H1 [H2 H3]]].
  - cbn [plan_label_count]. rewrite Hlc. unfold zlen. rewrite length_map, length_zrange.
    unfold total_labels. lia.
  - cbn [plan_label_count]. apply Forall_forall. intros x Hx.
    pose proof (proj1 (Forall_forall _ _) HF x Hx) as [Hxl Hxp]. split; [assumption|].
    rewrite Hlc, znth_map_zrange by (apply is_label_range; assumption). exact Hxp.
  - exact ND.
  - rewrite H1. cbn [bind foldM].
    split; [|split]; unfold explicit_output at 1; rewrite Hs; cbn [negb].
    + intros Hl. rewrite Hl. reflexivity.
    + intros Hl Hin. rewrite Hl. cbn [TORCH_CHECK bind ret]. rewrite (H3 c Hl).
      destruct (in_dec ascii_dec c (nonspace cs1)); [|contradiction]. reflexivity.
    + intros Hl Hz. rewrite Hl. cbn [TORCH_CHECK bind ret]. rewrite (H3 c Hl).
      destruct (in_dec ascii_dec c (nonspace cs1)) as [i|ni].
      * pose proof (proj1 (Forall_forall _ _) HF c i) as [_ Hp]. lia.
      * cbn [plan_label_count]. rewrite Hlc, znth_map_zrange by (apply is_label_range; assumption).
        rewrite Hz. reflexivity.
Qed.

Lemma einsum_output_checked_witness :
  einsum "ij->ii" [A22] = inl (EinsumOutputSubscript "i" true) /\
  einsum "ij->ik" [A22] = inl (EinsumOutputSubscript "k" false) /\
  einsum "ij->iJ" [A22] = inl (EinsumSubscriptRange "J").
Proof.
  assert (W : Forall2 well_labelled [A22] ["ij"%string]).
  { constructor; [|constructor]. split; [repeat constructor|reflexivity]. }
  assert (F : Forall (fun x => is_label x = true /\ 0 < occurrences ["ij"%string] (label_of x))
                (nonspace ["i"%char])).
  { constructor; [|constructor]. split; [reflexivity|]. vm_compute. reflexivity. }
  assert (N : NoDup (nonspace ["i"%char])).
  { constructor; [intros []|constructor]. }
  split; [|split].
  - refine (proj1 (proj2 (einsum_output_checked "ij->ii" [A22] 2 ["i"%char] [] "i"
                            _ W eq_refl eq_refl F N eq_refl)) eq_refl _).
    + discriminate.
    + left. reflexivity.
  - refine (proj2 (proj2 (einsum_output_checked "ij->ik" [A22] 2 ["i"%char] [] "k"
                            _ W eq_refl eq_refl F N eq_refl)) eq_refl eq_refl).
    discriminate.
  - refine (proj1 (einsum_output_checked "ij->iJ" [A22] 2 ["i"%char] [] "J"
                            _ W eq_refl eq_refl F N eq_refl) eq_refl).
    discriminate.
Defined.

(** With an arrow, a result of [einsum] has one axis per subscript
    written after the arrow. *)
Theorem einsum_explicit_rank (equation : string) (operands : list Tensor) (p : nat) (r : Tensor) :
  arrow_pos equation = Some p ->
  einsum equation operands = inr r ->
  dim r = zlen (nonspace (output_chars equation p)).
Proof.
  intros Harrow H. pose proof H as H'. unfold einsum in H'.
  apply bind_inr in H'. destruct H' as [[[ol pl] out_size] [Hplan _]].
  pose proof Hplan as Hp. unfold einsum_plan in Hp. inv_bind Hp.
  destruct a2 as [pl1 out1]. apply inr_inj in Hp.
  apply pair_equal_spec in Hp. destruct Hp as [Hp ->].
  apply pair_equal_spec in Hp. destruct Hp as [_ ->].
  match goal with Hb : build_plan _ _ = inr _ |- _ =>
    unfold build_plan in Hb; rewrite Harrow in Hb; apply bind_inr in Hb;
    destruct Hb as [q [Hq Hb]]; apply inr_inj in Hb;
    apply pair_equal_spec in Hb; destruct Hb as [Hpl Ho]
  end.
  fold (output_chars equation p) in Hq. apply explicit_output_fold_index in Hq.
  cbn [out_index] in Hq.
  destruct (contraction_label_fold (zrange total_labels) q) as [extra [_ C2]].
  rewrite Hpl in C2.
  rewrite (einsum_rank equation operands ol pl out_size r Hplan); [lia| |exact H].
  pose proof (zlen_nonneg extra). pose proof (zlen_nonneg (nonspace (output_chars equation p))).
  lia.
Qed.

Lemma einsum_explicit_rank_witness :
  exists r, einsum "ij,jk->ik" [A22; B22] = inr r /\ dim r = 2.
Proof.
  destruct (einsum "ij,jk->ik" [A22; B22]) as [e|r] eqn:E.
  - exfalso. revert E. vm_compute. discriminate.
  - exists r. split; [reflexivity|].
    exact (einsum_explicit_rank "ij,jk->ik" [A22; B22] 5 r eq_refl E).
Defined.

(** * The checks of bilinear *)

Lemma batch_check_ok input1 input2 : forall k,
  (forall j, 0 <= j < Z.of_nat k -> j < dim input1 -> j < dim input2 ->
             znth j (sizes input1) 0 = znth j (sizes input2) 0) ->
  Z.of_nat k <= dim input1 -> Z.of_nat k <= dim input2 ->
  foldM (fun (_ : unit) i =>
           s1 <- size input1 i ;;
           s2 <- size input2 i ;;
           TORCH_CHECK (s1 =? s2) (BilinearBatch i s1 s2))
        (zrange (Z.of_nat k)) tt = inr tt.
Proof.
  induction k as [|k IH]; intros H L1 L2; [reflexivity|].
  rewrite Nat2Z.inj_succ, <- Z.add_1_r, zrange_succ by lia.
  rewrite foldM_app, IH by (try lia; intros; apply H; lia).
  cbn [bind foldM]. rewrite !size_in_range by lia. cbn [bind].
  rewrite H by lia. rewrite Z.eqb_refl. reflexivity.
Qed.

Lemma batch_check_fails input1 input2 i n :
  0 <= i < n -> n <= dim input1 -> n <= dim input2 ->
  (forall j, 0 <= j < i -> znth j (sizes input1) 0 = znth j (sizes input2) 0) ->
  znth i (sizes input1) 0 <> znth i (sizes input2) 0 ->
  foldM (fun (_ : unit) i =>
           s1 <- size input1 i ;;
           s2 <- size input2 i ;;
           TORCH_CHECK (s1 =? s2) (BilinearBatch i s1 s2))
        (zrange n) tt =
  inl (BilinearBatch i (znth i (sizes input1) 0) (znth i (sizes input2) 0)).
Proof.
  intros Hi L1 L2 Heq Hne.
  replace n with (i + (1 + (n - i - 1))) by lia.
  rewrite zrange_add by lia. rewrite foldM_app.
  replace i with (Z.of_nat (Z.to_nat i)) at 1 by lia.
  rewrite batch_check_ok by (try lia; intros; apply Heq; lia).
  cbn [bind]. rewrite zrange_add by lia. rewrite map_app, foldM_app.
  rewrite zrange_1. cbn [map foldM bind]. rewrite Z.add_0_r.
  rewrite !size_in_range by lia. cbn [bind].
  replace (znth i (sizes input1) 0 =? znth i (sizes input2) 0) with false
    by (symmetry; apply Z.eqb_neq; assumption).
  reflexivity.
Qed.

(** [bilinear] checks, in this order: the ranks of the two inputs, their
    extents on the batch axes from the first on, the last extent of
    [input1] against axis 1 of the weight, the last extent of [input2]
    against axis 2 of the weight, and the bias against axis 0 of the
    weight; the first check that fails gives the error. *)
Theorem bilinear_rejects (input1 input2 weight : Tensor) (bias : option Tensor) :
  (dim input1 <> dim input2 ->
   bilinear input1 input2 weight bias = inl (BilinearInputDims (dim input1) (dim input2))) /\
  (dim input1 = dim input2 ->
   (forall i, 0 <= i < dim input1 - 1 ->
      (forall j, 0 <= j < i -> znth j (sizes input1) 0 = znth j (sizes input2) 0) ->
      znth i (sizes input1) 0 <> znth i (sizes input2) 0 ->
      bilinear input1 input2 weight bias =
      inl (BilinearBatch i (znth i (sizes input1) 0) (znth i (sizes input2) 0))) /\
   (1 <= dim input1 -> 3 <= dim weight ->
    (forall j, 0 <= j < dim input1 - 1 ->
               znth j (sizes input1) 0 = znth j (sizes input2) 0) ->
    let l1 := znth (dim input1 - 1) (sizes input1) 0 in
    let l2 := znth (dim input2 - 1) (sizes input2) 0 in
    (l1 <> znth 1 (sizes weight) 0 ->
     bilinear input1 input2 weight bias = inl (BilinearInput1 l1 (znth 1 (sizes weight) 0))) /\
    (l1 = znth 1 (sizes weight) 0 -> l2 <> znth 2 (sizes weight) 0 ->
     bilinear input1 input2 weight bias = inl (BilinearInput2 l2 (znth 2 (sizes weight) 0))) /\
    (l1 = znth 1 (sizes weight) 0 -> l2 = znth 2 (sizes weight) 0 ->
     forall b, bias = Some b -> 1 <= dim b ->
       znth 0 (sizes b) 0 <> znth 0 (sizes weight) 0 ->
       bilinear input1 input2 weight bias =
       inl (BilinearBias (znth 0 (sizes b) 0) (znth 0 (sizes weight) 0))))).
Proof.
  split.
  - intros H. unfold bilinear.
    replace (dim input1 =? dim input2) with false by (symmetry; apply Z.eqb_neq; assumption).
    reflexivity.
  - intros Hd. split.
    + intros i Hi Heq Hne. unfold bilinear. rewrite Hd, Z.eqb_refl. cbn [TORCH_CHECK bind ret].
      rewrite <- Hd. rewrite (batch_check_fails input1 input2 i) by (try assumption; lia).
      reflexivity.
    + intros H1 H3 Hb l1 l2.
      assert (Hbatch : foldM (fun (_ : unit) i =>
                           s1 <- size input1 i ;;
                           s2 <- size input2 i ;;
                           TORCH_CHECK (s1 =? s2) (BilinearBatch i s1 s2))
                         (zrange (dim input1 - 1)) tt = inr tt).
      { replace (dim input1 - 1) with (Z.of_nat (Z.to_nat (dim input1 - 1))) by lia.
        apply batch_check_ok; try lia. intros j Hj _ _. apply Hb. lia. }
      split; [|split]; intros; unfold bilinear; rewrite Hd at 1; rewrite Z.eqb_refl;
        cbn [TORCH_CHECK bind ret]; rewrite Hbatch; cbn [bind];
        rewrite (size_in_range input1 (dim input1 - 1)) by lia;
        rewrite (size_in_range weight 1) by lia; cbn [bind]; fold l1.
      * replace (l1 =? znth 1 (sizes weight) 0) with false by (symmetry; apply Z.eqb_neq; assumption).
        reflexivity.
      * match goal with He : l1 = _ |- _ => rewrite He, Z.eqb_refl end. cbn [TORCH_CHECK bind ret].
        rewrite (size_in_range input2 (dim input2 - 1)) by lia.
        rewrite (size_in_range weight 2) by lia. cbn [bind]. fold l2.
        replace (l2 =? znth 2 (sizes weight) 0) with false by (symmetry; apply Z.eqb_neq; assumption).
        reflexivity.
      * subst bias.
        match goal with He : l1 = _ |- _ => rewrite He, Z.eqb_refl end.
        cbn [TORCH_CHECK bind ret].
        rewrite (size_in_range input2 (dim input2 - 1)) by lia.
        rewrite (size_in_range weight 2) by lia. cbn [bind]. fold l2.
        match goal with He : l2 = _ |- _ => rewrite He, Z.eqb_refl end.
        cbn [TORCH_CHECK bind ret].
        rewrite (size_in_range b 0) by lia. rewrite (size_in_range weight 0) by lia.
        cbn [bind].
        replace (znth 0 (sizes b) 0 =? znth 0 (sizes weight) 0) with false
          by (symmetry; apply Z.eqb_neq; assumption).
        reflexivity.
Qed.

Lemma bilinear_rejects_witness :
  bilinear v2 A22 W223 None = inl (BilinearInputDims 1 2) /\
  bilinear A23 A22 W223 None = inl (BilinearInput1 3 2) /\
  bilinear A22 A22 W223 None = inl (BilinearInput2 2 3) /\
  bilinear A22 A23 W223 (Some (of_list [3] [1; 2; 3])) = inl (BilinearBias 3 2).
Proof.
  split; [|split; [|split]].
  - apply (proj1 (bilinear_rejects v2 A22 W223 None)). vm_compute. discriminate.
  - refine (proj1 (proj2 (proj2 (bilinear_rejects A23 A22 W223 None) eq_refl) _ _ _) _).
    + vm_compute. discriminate.
    + vm_compute. discriminate.
    + intros j Hj. change (dim A23) with 2 in Hj. replace j with 0 by lia. reflexivity.
    + vm_compute. discriminate.
  - refine (proj1 (proj2 (proj2 (proj2 (bilinear_rejects A22 A22 W223 None) eq_refl) _ _ _)) _ _).
    + vm_compute. discriminate.
    + vm_compute. discriminate.
    + intros j Hj. reflexivity.
    + reflexivity.
    + vm_compute. discriminate.
  - refine (proj2 (proj2 (proj2 (proj2 (bilinear_rejects A22 A23 W223
                                          (Some (of_list [3] [1; 2; 3]))) eq_refl) _ _ _))
                  _ _ _ eq_refl _ _).
    + vm_compute. discriminate.
    + vm_compute. discriminate.
    + intros j Hj. change (dim A22) with 2 in Hj. replace j with 0 by lia. reflexivity.
    + reflexivity.
    + reflexivity.
    + vm_compute. discriminate.
    + vm_compute. discriminate.
Defined.

(** * bilinear on inputs of positive extents *)

(** ** The primitives on the arguments that bilinear passes *)

Lemma narrow_ok t d start n :
  dim t = n -> 0 <= d < n -> 0 <= start < znth d (sizes t) 0 ->
  narrow t d start 1 =
  inr (mkTensor (zupd d 1 (sizes t)) (fun idx => elem t (zupd d (znth d idx 0 + start) idx))).
Proof.
  intros Hn Hd Hs. unfold narrow. rewrite Hn.
  replace (0 <? n) with true by (symmetry; apply Z.ltb_lt; lia).
  cbn [TORCH_CHECK bind ret]. rewrite size_in_range by lia. cbn [bind].
  rewrite maybe_wrap_dim_id by lia. cbn [bind].
  replace (start =? znth d (sizes t) 0) with false by (symmetry; apply Z.eqb_neq; lia).
  rewrite maybe_wrap_dim_id by lia. cbn [bind].
  replace ((0 <=? 1) && (start <=? znth d (sizes t) 0 - 1)) with true
    by (symmetry; apply andb_true_iff; split; apply Z.leb_le; lia).
  reflexivity.
Qed.

Lemma broadcast_dims_refl s : broadcast_dims s s = inr s.
Proof.
  induction s as [|x s IH]; cbn [broadcast_dims]; [reflexivity|].
  unfold broadcast_dim. rewrite Z.eqb_refl. cbn [orb TORCH_CHECK bind ret]. rewrite IH.
  cbn [bind ret]. destruct (x =? 1); reflexivity.
Qed.

Lemma infer_size_refl s : infer_size s s = inr s.
Proof.
  unfold infer_size, pad_left. rewrite Nat.max_id, Nat.sub_diag. cbn [repeat app].
  apply broadcast_dims_refl.
Qed.

Lemma add__same_shape self other :
  sizes other = sizes self ->
  add_ self other =
  inr (mkTensor (sizes self)
         (fun idx => elem self idx + elem other (expand_index (sizes other) idx))).
Proof.
  intros H. unfold add_. rewrite H, infer_size_refl. cbn [bind].
  destruct (list_eq_dec Z.eq_dec (sizes self) (sizes self)) as [_|C]; [reflexivity|].
  exfalso. apply C. reflexivity.
Qed.

Lemma sumproduct_pair_axis (a b : Tensor) (d : nat) :
  Forall2 broadcastable (sizes a) (sizes b) -> (d < length (sizes a))%nat ->
  exists T, sumproduct_pair a b [Z.of_nat d] true = inr T /\
    sizes T = upd d 1 (product_sizes (sizes a) (sizes b)) /\
    forall idx, valid_index (sizes T) idx ->
      elem T idx =
      sumZ (zrange (nth d (product_sizes (sizes a) (sizes b)) 0))
           (fun j => elem a (broadcast_coords (sizes a) (upd d j idx)) *
                     elem b (broadcast_coords (sizes b) (upd d j idx))).
Proof.
  intros HB Hd. pose proof (Forall2_length HB) as L.
  destruct (sumproduct_pair_result a b [Z.of_nat d] true HB) as (mask & T & Hm & _ & HT & _ & Hteq).
  - constructor; [unfold dim, zlen; lia|constructor].
  - constructor; [intros []|constructor].
  - exists T. split; [exact HT|].
    rewrite dim_list_to_bitset_single in Hm by (unfold dim, zlen; lia).
    apply inr_inj in Hm. subst mask. rewrite Nat2Z.id in Hteq.
    rewrite sum_mask_single in Hteq by (unfold dim, zlen; lia).
    replace (d <? length (sizes a))%nat with true in Hteq by (symmetry; apply Nat.ltb_lt; lia).
    destruct Hteq as [Hs He]. unfold sum_axis in Hs, He. cbn [sizes elem product_of] in Hs, He.
    assert (Hs' : sizes T = upd d 1 (product_sizes (sizes a) (sizes b))).
    { rewrite Hs. apply firstn_skipn_upd. rewrite length_product_sizes; lia. }
    split; [exact Hs'|].
    intros idx Hv. rewrite (He idx Hv). apply sumZ_ext. intros j.
    pose proof (valid_index_length _ _ Hv) as Li. rewrite Hs', length_upd in Li.
    rewrite length_product_sizes in Li by assumption.
    rewrite firstn_skipn_upd by lia.
    rewrite !expand_index_same by (rewrite length_upd; lia).
    reflexivity.
Qed.

Lemma pick_same (n : Z) : (if n =? 1 then 1 else n) = n.
Proof. destruct (Z.eqb_spec n 1); congruence. Qed.

Lemma pick_self (n : Z) : (if n =? 1 then n else n) = n.
Proof. destruct (n =? 1); reflexivity. Qed.

Ltac lists :=
  simpl;
  cbv [zupd znth Z.to_nat Pos.to_nat Pos.iter_op Nat.add upd nth erase insert_at firstn skipn app
       broadcast_coords expand_index zipWith length Nat.sub].

Ltac concrete :=
  cbv [znth zupd Z.to_nat Pos.to_nat Pos.iter_op Nat.add nth upd erase insert_at firstn skipn
       app sizes elem dim zlen length].

Ltac concrete_in H :=
  cbv [znth zupd Z.to_nat Pos.to_nat Pos.iter_op Nat.add nth upd erase insert_at firstn skipn
       app sizes elem dim zlen length] in H.

Section Tri.
Variables (e1 eW e2 : list Z -> Z) (N I J O : Z).
Hypothesis HN : 1 <= N.
Hypothesis HI : 1 <= I.
Hypothesis HJ : 1 <= J.
Let x1 := mkTensor [N; I] e1.
Let W := mkTensor [O; I; J] eW.
Let x2 := mkTensor [N; J] e2.

Let bilinear_axes : tri_state :=
  mkTriState (mkTensor [N; 1; I; 1] (fun idx => e1 (erase 1 (erase 3 idx))))
             (mkTensor [1; O; I; J] (fun idx => eW (erase 0 idx)))
             (mkTensor [N; 1; 1; J] (fun idx => e2 (erase 1 (erase 2 idx))))
             [N; O; 1; 1] [2] [3] O.

Let term (n o : Z) : Z :=
  sumZ (zrange J) (fun j => sumZ (zrange I) (fun i => e1 [n; i] * eW [o; i; j]) * e2 [n; j]).

Lemma trilinear_step_bilinear eo k :
  0 <= k < O ->
  exists eo',
    trilinear_step bilinear_axes [false; false; true; true] 1 0 1 0
      (mkTensor [N; O; 1; 1] eo) k = inr (mkTensor [N; O; 1; 1] eo') /\
    forall n o, 0 <= n < N -> 0 <= o < O ->
      eo' [n; o; 0; 0] = if o =? k then eo [n; k; 0; 0] + term n k else eo [n; o; 0; 0].
Proof.
  intros Hk. unfold trilinear_step. cbn [tri_i1 tri_i2 tri_i3 bilinear_axes sum_dims_12 sum_dims_23].
  rewrite Z.mul_0_r, Z.mul_1_r.
  rewrite (narrow_ok _ 1 0 4) by (try reflexivity; concrete; lia).
  rewrite (narrow_ok _ 1 k 4) by (try reflexivity; concrete; lia).
  cbn [bind sizes elem].
  match goal with |- context [sumproduct_pair ?a ?b [2] true] =>
    destruct (sumproduct_pair_axis a b 2) as [[sT eT] [HT [Hs He]]]
  end.
  { repeat constructor; lia. }
  { vm_compute. lia. }
  change (Z.of_nat 2) with 2 in HT. rewrite HT. cbn [bind].
  simpl in Hs. rewrite !pick_same in Hs. subst sT.
  assert (E1 : forall n j, 0 <= n < N -> 0 <= j < J ->
             eT [n; 0; 0; j] = sumZ (zrange I) (fun i => e1 [n; i] * eW [k; i; j])).
  { intros n j Hn Hj. cbn [sizes elem] in He.
    rewrite (He [n; 0; 0; j]) by (simpl; lia). clear He HT.
    lists. rewrite pick_self. apply sumZ_ext_in. intros i Hi. apply In_zrange in Hi.
    rewrite !clip_valid by lia. reflexivity. }
  clear He HT.
  rewrite (narrow_ok _ 1 0 4) by (try reflexivity; concrete; lia).
  cbn [bind sizes elem].
  match goal with |- context [sumproduct_pair ?a ?b [3] true] =>
    destruct (sumproduct_pair_axis a b 3) as [[sT2 eT2] [HT [Hs He]]]
  end.
  { repeat constructor; lia. }
  { vm_compute. lia. }
  change (Z.of_nat 3) with 3 in HT. rewrite HT. cbn [bind].
  simpl in Hs. rewrite ?pick_same, ?pick_self in Hs. subst sT2.
  assert (E2 : forall n, 0 <= n < N -> eT2 [n; 0; 0; 0] = term n k).
  { intros n Hn. cbn [sizes elem] in He.
    rewrite (He [n; 0; 0; 0]) by (simpl; lia). clear He HT.
    lists. rewrite pick_self. unfold term. apply sumZ_ext_in. intros j Hj.
    apply In_zrange in Hj. rewrite !clip_valid by lia. rewrite E1 by lia. reflexivity. }
  clear He HT E1.
  cbn [bit znth Z.to_nat Pos.to_nat Pos.iter_op Nat.add nth negb]. unfold narrow_add_.
  rewrite (narrow_ok _ 1 k 4) by (try reflexivity; concrete; lia).
  cbn [bind sizes elem].
  rewrite add__same_shape by reflexivity. cbn [bind ret sizes elem].
  eexists. split; [reflexivity|].
  intros n o Hn Ho. lists. rewrite !clip_valid by lia. rewrite E2 by lia. reflexivity.
Qed.

Lemma trilinear_loop_bilinear (m : nat) :
  Z.of_nat m <= O ->
  exists eo,
    foldM (trilinear_step bilinear_axes [false; false; true; true] 1 0 1 0)
          (zrange (Z.of_nat m)) (zeros [N; O; 1; 1]) = inr (mkTensor [N; O; 1; 1] eo) /\
    forall n o, 0 <= n < N -> 0 <= o < O ->
      eo [n; o; 0; 0] = if o <? Z.of_nat m then term n o else 0.
Proof.
  induction m as [|m IH]; intros Hm.
  - exists (fun _ => 0). split; [reflexivity|]. intros n o Hn Ho.
    replace (o <? Z.of_nat 0) with false by (symmetry; apply Z.ltb_ge; lia). reflexivity.
  - destruct IH as [eo [Hf He]]; [lia|].
    destruct (trilinear_step_bilinear eo (Z.of_nat m)) as [eo' [Hs He']]; [lia|].
    exists eo'. split.
    + rewrite Nat2Z.inj_succ, <- Z.add_1_r, zrange_succ by lia.
      rewrite foldM_app, Hf. cbn [bind foldM]. rewrite Hs. reflexivity.
    + intros n o Hn Ho. rewrite He' by assumption.
      destruct (Z.eqb_spec o (Z.of_nat m)) as [->|Hne].
      * rewrite He by lia.
        replace (Z.of_nat m <? Z.of_nat m) with false by (symmetry; apply Z.ltb_ge; lia).
        replace (Z.of_nat m <? Z.of_nat (S m)) with true by (symmetry; apply Z.ltb_lt; lia).
        lia.
      * rewrite He by assumption.
        destruct (Z.ltb_spec o (Z.of_nat m)), (Z.ltb_spec o (Z.of_nat (S m))); try reflexivity; lia.
Qed.

Lemma trilinear_bilinear :
  0 <= O ->
  exists R,
    _trilinear x1 W x2 [1; 3] [0] [1; 2] [2; 3] 1 = inr R /\
    sizes R = [N; O] /\
    forall n o, 0 <= n < N -> 0 <= o < O -> elem R [n; o] = term n o.
Proof.
  intros HO.
  destruct (trilinear_loop_bilinear (Z.to_nat O)) as [eo [Hf He]]; [lia|].
  rewrite Z2Nat.id in Hf, He by assumption.
  exists (mkTensor [N; O] (fun idx => eo (insert_at 3 0 (insert_at 2 0 idx)))).
  split; [|split].
  - change (_trilinear x1 W x2 [1; 3] [0] [1; 2] [2; 3] 1) with
      (output <- foldM (trilinear_step bilinear_axes [false; false; true; true] 1 0 1 0)
                       (zrange O) (zeros [N; O; 1; 1]) ;;
       squeeze_summed [false; false; true; true] (length (sizes output)) output).
    rewrite Hf. reflexivity.
  - reflexivity.
  - intros n o Hn Ho. cbn [elem]. lists. rewrite He by assumption.
    replace (o <? O) with true by (symmetry; apply Z.ltb_lt; lia). reflexivity.
Qed.

End Tri.

(** ** Flattening the batch axes *)

Lemma prodZ_positive s : Forall (fun n => 1 <= n) s -> 1 <= prodZ s.
Proof.
  induction 1 as [|x s Hx H IH]; [unfold prodZ; simpl; lia|]. rewrite prodZ_cons. nia.
Qed.

Lemma size_last s x f : size (mkTensor (s ++ [x]) f) (-1) = inr x.
Proof.
  unfold size, dim. cbn [sizes]. rewrite zlen_app. change (zlen [x]) with 1.
  pose proof (zlen_nonneg s) as Hs. unfold maybe_wrap_dim.
  replace (zlen s + 1 <=? 0) with false by (symmetry; apply Z.leb_gt; lia).
  cbn [andb negb].
  replace (-1 <? - (zlen s + 1)) with false by (symmetry; apply Z.ltb_ge; lia).
  replace (zlen s + 1 - 1 <? -1) with false by (symmetry; apply Z.ltb_ge; lia).
  cbn [orb bind ret]. change (-1 <? 0) with true. cbv iota.
  unfold znth. replace (Z.to_nat (-1 + (zlen s + 1))) with (length s) by (unfold zlen; lia).
  rewrite nth_app_mid. reflexivity.
Qed.

Lemma view_rows s x f :
  wf_sizes s -> 1 <= x ->
  view (mkTensor (s ++ [x]) f) [-1; x] =
  inr (mkTensor [prodZ s; x]
         (fun idx => f (unravel (s ++ [x]) (ravel [prodZ s; x] idx)))).
Proof.
  intros Hs Hx. unfold view, reshape, infer_shape, numel. cbn [sizes length seq combine foldM].
  change (-1 =? -1) with true. cbv iota. cbn [bind ret].
  replace (x =? -1) with false by (symmetry; apply Z.eqb_neq; lia).
  replace (0 <=? x) with true by (symmetry; apply Z.leb_le; lia).
  cbn [bind ret]. rewrite Z.mul_1_l, prodZ_app.
  replace (prodZ [x]) with x by (unfold prodZ; simpl; lia).
  replace (0 <? x) with true by (symmetry; apply Z.ltb_lt; lia).
  rewrite Z.mod_mul by lia. rewrite Z.eqb_refl, orb_true_r.
  replace (x =? 0) with false by (symmetry; apply Z.eqb_neq; lia).
  cbn [negb TORCH_CHECK bind ret upd]. rewrite Z.div_mul by lia. reflexivity.
Qed.

Lemma infer_size_bias s x : infer_size (s ++ [x]) [x] = inr (s ++ [x]).
Proof.
  unfold infer_size, pad_left. rewrite length_app. cbn [length].
  replace (Nat.max (length s + 1) 1) with (length s + 1)%nat by lia.
  rewrite Nat.sub_diag. replace (length s + 1 - 1)%nat with (length s) by lia.
  cbn [repeat app]. induction s as [|y s IH]; cbn [length repeat app broadcast_dims].
  - unfold broadcast_dim. rewrite Z.eqb_refl. cbn [orb TORCH_CHECK bind ret].
    rewrite pick_self. reflexivity.
  - unfold broadcast_dim at 1. change (1 =? 1) with true. rewrite orb_true_r.
    cbn [orb TORCH_CHECK bind ret]. rewrite IH. cbn [bind ret].
    rewrite pick_same. reflexivity.
Qed.

Lemma valid_index_snoc s x idx :
  valid_index (s ++ [x]) idx ->
  exists nb o, idx = nb ++ [o] /\ valid_index s nb /\ 0 <= o < x.
Proof.
  intros H. destruct (valid_index_split _ _ _ H) as [H1 H2].
  exists (firstn (length s) idx).
  destruct (skipn (length s) idx) as [|o [|? ?]] eqn:E; cbn [valid_index] in H2; try tauto.
  exists o. split; [|split; [assumption|lia]].
  rewrite <- E. symmetry. apply firstn_skipn.
Qed.

Lemma ravel_rows s x nb o :
  valid_index s nb -> ravel (s ++ [x]) (nb ++ [o]) = ravel [prodZ s; x] [ravel s nb; o].
Proof.
  intros H. rewrite ravel_app by (apply valid_index_length; assumption).
  cbn [ravel]. reflexivity.
Qed.

Lemma unravel_rows s x nb o :
  valid_index s nb -> 0 <= o < x ->
  unravel (s ++ [x]) (ravel [prodZ s; x] [ravel s nb; o]) = nb ++ [o].
Proof.
  intros H Ho. rewrite <- ravel_rows by assumption. apply unravel_ravel.
  apply valid_index_app; [apply valid_index_length; assumption|].
  split; [assumption|]. cbn [valid_index]. tauto.
Qed.

Lemma znth_snoc {A} (s : list A) x d : znth (Z.of_nat (length s)) (s ++ [x]) d = x.
Proof. unfold znth. rewrite Nat2Z.id. apply nth_app_mid. Qed.

(** ** The result of bilinear *)

(** On inputs that pass the checks and have no axis of extent 0 (a weight
    without output rows is allowed), [bilinear] returns
    [y[n, o] = bias[o] + sum_{i,j} x1[n, i] * weight[o, i, j] * x2[n, j]]. *)
Theorem bilinear_computes (input1 input2 weight : Tensor) (bias : option Tensor)
  (batch : list Z) (I J O : Z) :
  sizes input1 = batch ++ [I] -> sizes input2 = batch ++ [J] -> sizes weight = [O; I; J] ->
  Forall (fun n => 1 <= n) batch -> 1 <= I -> 1 <= J -> 0 <= O ->
  (forall b, bias = Some b -> sizes b = [O]) ->
  req (bilinear input1 input2 weight bias) (inr (bilinear_ref input1 input2 weight bias)).
Proof.
  destruct input1 as [s1 f1], input2 as [s2 f2], weight as [sw fw]. cbn [sizes].
  intros -> -> -> Hbatch HI HJ HO Hbias.
  assert (Hwf : wf_sizes batch).
  { unfold wf_sizes. eapply Forall_impl; [|exact Hbatch]. cbv beta. intros; lia. }
  pose proof (prodZ_positive batch Hbatch) as HN.
  set (N := prodZ batch) in *.
  set (e1 := fun idx => f1 (unravel (batch ++ [I]) (ravel [N; I] idx))).
  set (e2 := fun idx => f2 (unravel (batch ++ [J]) (ravel [N; J] idx))).
  destruct (trilinear_bilinear e1 fw e2 N I J O HN HI HJ HO) as [[sR eR] [HR [HsR HeR]]].
  cbn [sizes elem] in HsR, HeR. subst sR.
  assert (Hrun : bilinear (mkTensor (batch ++ [I]) f1) (mkTensor (batch ++ [J]) f2)
                   (mkTensor [O; I; J] fw) bias =
                 (output <- reshape (mkTensor [N; O] eR) (batch ++ [O]) ;;
                  match bias with
                  | Some b => add output b
                  | None => ret output
                  end)).
  { unfold bilinear.
    assert (D1 : dim (mkTensor (batch ++ [I]) f1) = zlen batch + 1).
    { unfold dim. cbn [sizes]. rewrite zlen_app. reflexivity. }
    assert (D2 : dim (mkTensor (batch ++ [J]) f2) = zlen batch + 1).
    { unfold dim. cbn [sizes]. rewrite zlen_app. reflexivity. }
    rewrite D1, D2, Z.eqb_refl. cbn [TORCH_CHECK bind ret].
    replace (zlen batch + 1 - 1) with (Z.of_nat (length batch)) by (unfold zlen; lia).
    rewrite batch_check_ok.
    2:{ intros j Hj _ _. unfold znth. cbn [sizes]. rewrite !app_nth1 by lia. reflexivity. }
    2:{ rewrite D1. unfold zlen. lia. }
    2:{ rewrite D2. unfold zlen. lia. }
    cbn [bind].
    rewrite (size_in_range (mkTensor (batch ++ [I]) f1)) by (rewrite D1; unfold zlen; lia).
    rewrite (size_in_range (mkTensor (batch ++ [J]) f2)) by (rewrite D2; unfold zlen; lia).
    change (size (mkTensor [O; I; J] fw) 0) with (@inr Error Z O).
    change (size (mkTensor [O; I; J] fw) 1) with (@inr Error Z I).
    change (size (mkTensor [O; I; J] fw) 2) with (@inr Error Z J).
    cbn [bind sizes]. rewrite !znth_snoc. rewrite !Z.eqb_refl. cbn [TORCH_CHECK bind ret].
    assert (Hb : match bias with
                 | Some b => b0 <- size b 0 ;; TORCH_CHECK (b0 =? O) (BilinearBias b0 O)
                 | None => ret tt
                 end = inr tt).
    { destruct bias as [b|]; [|reflexivity]. pose proof (Hbias b eq_refl) as Sb.
      unfold size, dim. rewrite Sb. cbn. rewrite Z.eqb_refl. reflexivity. }
    rewrite Hb. cbn [bind]. rewrite !size_last. cbn [bind].
    rewrite !view_rows by assumption. cbn [bind]. fold N. fold e1. fold e2.
    unfold default_unroll_dim. rewrite HR. cbn [bind]. rewrite removelast_snoc.
    reflexivity. }
  rewrite Hrun. clear Hrun HR.
  rewrite reshape_ok.
  2:{ apply Forall_app. split; [exact Hwf|]. constructor; [assumption|constructor]. }
  2:{ unfold numel. cbn [sizes]. rewrite prodZ_snoc. unfold prodZ. cbn [fold_right]. fold (prodZ batch).
      fold N. lia. }
  cbn [bind sizes elem].
  assert (Core : forall nb o, valid_index batch nb -> 0 <= o < O ->
            eR (unravel [N; O] (ravel (batch ++ [O]) (nb ++ [o]))) =
            sumZ (zrange I) (fun i =>
              sumZ (zrange J) (fun j => f1 (nb ++ [i]) * fw [o; i; j] * f2 (nb ++ [j])))).
  { intros nb o Hv Ho. pose proof (ravel_bound _ _ Hv) as Hr. fold N in Hr.
    rewrite ravel_rows by assumption. fold N.
    rewrite unravel_ravel by (cbn [valid_index]; tauto).
    rewrite HeR by assumption.
    rewrite (sumZ_ext (zrange J) _
               (fun j => sumZ (zrange I)
                           (fun i => e1 [ravel batch nb; i] * fw [o; i; j] * e2 [ravel batch nb; j])))
      by (intros j; apply sumZ_mul_r).
    rewrite sumZ_swap. apply sumZ_ext_in. intros i Hi. apply In_zrange in Hi.
    apply sumZ_ext_in. intros j Hj. apply In_zrange in Hj.
    unfold e1, e2, N. rewrite !unravel_rows by assumption. reflexivity. }
  clear HeR.
  destruct bias as [b|].
  - pose proof (Hbias b eq_refl) as Sb. unfold add, broadcast_op. cbn [sizes elem].
    rewrite Sb, infer_size_bias. cbn [bind ret req]. split.
    + unfold bilinear_ref. cbn [sizes]. rewrite removelast_snoc. reflexivity.
    + cbn [sizes elem]. intros idx Hv.
      rewrite (expand_index_same (batch ++ [O])) by (apply valid_index_length; assumption).
      rewrite broadcast_coords_valid by assumption.
      destruct (valid_index_snoc _ _ _ Hv) as (nb & o & -> & Hnb & Ho).
      rewrite Core by assumption. unfold bilinear_ref. cbn [sizes elem].
      rewrite removelast_snoc, last_snoc. change (znth 1 [O; I; J] 0) with I.
      change (znth 2 [O; I; J] 0) with J.
      unfold expand_index. rewrite length_app. cbn [length].
      rewrite skipn_app_exact' by lia. cbn [broadcast_coords zipWith].
      rewrite clip_valid by assumption. lia.
  - cbn [ret req]. split.
    + unfold bilinear_ref. cbn [sizes]. rewrite removelast_snoc. reflexivity.
    + cbn [sizes elem]. intros idx Hv.
      destruct (valid_index_snoc _ _ _ Hv) as (nb & o & -> & Hnb & Ho).
      rewrite Core by assumption. unfold bilinear_ref. cbn [sizes elem].
      rewrite removelast_snoc, last_snoc. reflexivity.
Qed.

Lemma bilinear_computes_witness :
  req (bilinear A22 A23 W223 (Some bias2)) (inr (bilinear_ref A22 A23 W223 (Some bias2))).
Proof.
  apply (bilinear_computes A22 A23 W223 (Some bias2) [2] 2 3 2); try reflexivity; try lia.
  - repeat constructor; lia.
  - intros b Hb. apply (f_equal (fun o => match o with Some t => sizes t | None => [] end)) in Hb.
    symmetry. exact Hb.
Defined.

(** * The plan of einsum *)

(** ** Slots *)

Lemma znth_app_l {A} (l1 l2 : list A) t d : 0 <= t < zlen l1 -> znth t (l1 ++ l2) d = znth t l1 d.
Proof. intros H. unfold znth, zlen in *. apply app_nth1. lia. Qed.

Lemma znth_app_end {A} (l : list A) x d : znth (zlen l) (l ++ [x]) d = x.
Proof. unfold zlen. apply znth_snoc. Qed.

Lemma assign_inv lc0 pl l cnt' :
  plan_inv lc0 pl -> 0 <= l < total_labels ->
  znth l (label_out_index pl) 0 = -1 -> 0 < znth l lc0 0 ->
  cnt' = plan_label_count pl \/ cnt' = zupd l (-1) (plan_label_count pl) ->
  plan_inv lc0 (mkPlan cnt' (zupd l (out_index pl) (label_out_index pl))
                       (permuted_labels pl ++ [l]) (out_index pl + 1)).
Proof.
  intros (I1 & I2 & I3 & I4 & I5 & I6) Hl Hfree Hpos Hcnt.
  pose proof (zlen_nonneg (permuted_labels pl)) as Hoi. rewrite I3 in Hoi.
  unfold plan_inv. cbn [label_out_index plan_label_count permuted_labels out_index].
  split; [rewrite zlen_zupd; assumption|].
  split; [destruct Hcnt as [-> | ->]; rewrite ?zlen_zupd; assumption|].
  split; [rewrite zlen_app, I3; reflexivity|].
  split; [|split].
  - intros t Ht. destruct (Z.eq_dec t (out_index pl)) as [->|Hne].
    + replace (znth (out_index pl) (permuted_labels pl ++ [l]) 0) with l
        by (rewrite <- I3; symmetry; apply znth_app_end).
      split; [assumption|]. split; [assumption|]. apply znth_zupd_same. lia.
    + rewrite znth_app_l by lia. destruct (I4 t) as (A1 & A2 & A3); [lia|].
      split; [assumption|]. split; [assumption|].
      rewrite znth_zupd_other; [assumption|lia|lia|]. intros E. rewrite <- E in A3. lia.
  - intros m Hm. destruct (Z.eq_dec m l) as [->|Hne].
    + right. rewrite znth_zupd_same by lia. split; [lia|]. rewrite <- I3. apply znth_app_end.
    + rewrite znth_zupd_other by lia.
      destruct (I5 m Hm) as [E|[E1 E2]]; [left; assumption|right].
      split; [lia|]. rewrite znth_app_l by lia. assumption.
  - intros m Hm. destruct (Z.eq_dec m l) as [->|Hne].
    + rewrite znth_zupd_same by lia.
      destruct Hcnt as [-> | ->].
      * destruct (I6 l Hl) as [E|[E1 E2]]; [left; assumption|contradiction].
      * right. rewrite znth_zupd_same by lia. split; [reflexivity|lia].
    + rewrite (znth_zupd_other l m (out_index pl)) by lia.
      destruct Hcnt as [-> | ->]; [apply I6; assumption|].
      rewrite znth_zupd_other by lia. apply I6; assumption.
Qed.

Lemma implicit_fold_inv lc0 ls : forall pl,
  NoDup ls ->
  (forall l, In l ls -> 0 <= l < total_labels /\ znth l (label_out_index pl) 0 = -1) ->
  plan_label_count pl = lc0 ->
  plan_inv lc0 pl ->
  plan_inv lc0 (fold_left implicit_output ls pl).
Proof.
  induction ls as [|l ls IH]; intros pl ND Hls Hc Hinv; cbn [fold_left]; [assumption|].
  inversion ND as [|? ? Hnotin ND']; subst.
  destruct (Hls l (or_introl eq_refl)) as [Hl Hfree].
  unfold implicit_output at 2.
  destruct (znth l (plan_label_count pl) 0 =? 1) eqn:E.
  - apply Z.eqb_eq in E. apply IH.
    + assumption.
    + intros m Hm. cbn [label_out_index]. destruct (Hls m (or_intror Hm)) as [Hm1 Hm2].
      split; [assumption|]. rewrite znth_zupd_other; [assumption|lia|lia|].
      intros ->. contradiction.
    + reflexivity.
    + apply assign_inv; try assumption; [lia|left; reflexivity].
  - apply IH; try assumption; [|reflexivity]. intros m Hm. apply Hls. right. assumption.
Qed.

(** In the explicit phase a label has a slot exactly when its count has
    been set to -1. *)
Lemma explicit_fold_inv lc0 cs : forall pl pl',
  (forall l, 0 <= znth l lc0 0) ->
  plan_inv lc0 pl ->
  (forall l, 0 <= l < total_labels ->
     znth l (label_out_index pl) 0 <> -1 -> znth l (plan_label_count pl) 0 = -1) ->
  foldM explicit_output cs pl = inr pl' ->
  plan_inv lc0 pl' /\
  permuted_labels pl' = permuted_labels pl ++ map label_of (nonspace cs).
Proof.
  induction cs as [|c cs IH]; intros pl pl' Hlc Hinv Hset H; cbn [foldM] in H.
  - apply inr_inj in H. subst. split; [assumption|]. cbn [nonspace filter map].
    rewrite app_nil_r. reflexivity.
  - apply bind_inr in H. destruct H as [pl1 [H1 H2]]. unfold explicit_output in H1.
    unfold nonspace. cbn [filter].
    destruct (negb (is_space c)) eqn:Es.
    + apply bind_inr in H1. destruct H1 as [u [Hl H1]]. apply TORCH_CHECK_inr in Hl.
      apply bind_inr in H1. destruct H1 as [u' [Hpos H1]]. apply TORCH_CHECK_inr in Hpos.
      apply Z.ltb_lt in Hpos. apply inr_inj in H1. subst pl1.
      pose proof (is_label_range c Hl) as Rc.
      pose proof Hinv as (I1 & I2 & I3 & I4 & I5 & I6).
      assert (Hfree : znth (label_of c) (label_out_index pl) 0 = -1).
      { destruct (Z.eq_dec (znth (label_of c) (label_out_index pl) 0) (-1)) as [E|E];
          [assumption|]. apply Hset in E; [lia|assumption]. }
      assert (Hocc : 0 < znth (label_of c) lc0 0).
      { destruct (I6 (label_of c) Rc) as [E|[E _]]; lia. }
      pose proof (assign_inv lc0 pl (label_of c) _ Hinv Rc Hfree Hocc (or_intror eq_refl))
        as Hinv'.
      match type of H2 with foldM _ _ ?q = _ =>
        assert (Hset' : forall l, 0 <= l < total_labels ->
                  znth l (label_out_index q) 0 <> -1 -> znth l (plan_label_count q) 0 = -1)
      end.
      { cbn [label_out_index plan_label_count]. intros l Hl' Hne.
        destruct (Z.eq_dec l (label_of c)) as [->|Hd].
        - apply znth_zupd_same. lia.
        - rewrite znth_zupd_other in Hne by lia. rewrite znth_zupd_other by lia.
          apply Hset; assumption. }
      destruct (IH _ _ Hlc Hinv' Hset' H2) as [J1 J2].
      split; [assumption|]. rewrite J2. cbn [permuted_labels map].
      rewrite <- app_assoc. reflexivity.
    + apply inr_inj in H1. subst pl1. eapply IH; eassumption.
Qed.

Lemma contraction_step_inv lc0 pl l :
  plan_inv lc0 pl -> 0 <= l < total_labels ->
  plan_inv lc0 (contraction_label pl l) /\
  (forall m, znth m (label_out_index pl) 0 <> -1 ->
             znth m (label_out_index (contraction_label pl l)) 0 = znth m (label_out_index pl) 0) /\
  (0 < znth l lc0 0 -> znth l (label_out_index (contraction_label pl l)) 0 <> -1) /\
  out_index pl <= out_index (contraction_label pl l) /\
  firstn (length (permuted_labels pl)) (permuted_labels (contraction_label pl l)) =
    permuted_labels pl.
Proof.
  intros Hinv Hl. pose proof Hinv as (I1 & I2 & I3 & I4 & I5 & I6).
  pose proof (zlen_nonneg (permuted_labels pl)) as Hoi. rewrite I3 in Hoi.
  unfold contraction_label.
  destruct ((0 <? znth l (plan_label_count pl) 0) && (znth l (label_out_index pl) 0 =? -1)) eqn:E.
  - apply andb_true_iff in E. destruct E as [E1 E2]. apply Z.ltb_lt in E1. apply Z.eqb_eq in E2.
    assert (Hocc : 0 < znth l lc0 0) by (destruct (I6 l Hl) as [E|[E _]]; lia).
    split; [apply assign_inv; try assumption; left; reflexivity|].
    cbn [label_out_index out_index permuted_labels].
    split; [|split; [|split]].
    + intros m Hm. unfold znth, zupd. apply nth_upd_other. intros Heq.
      apply Hm. rewrite <- E2. unfold znth. rewrite Heq. reflexivity.
    + intros _. rewrite znth_zupd_same by lia. lia.
    + lia.
    + apply firstn_app_exact.
  - split; [assumption|]. split; [reflexivity|]. split; [|split; [lia|]].
    + intros Hocc. apply andb_false_iff in E. destruct E as [E|E].
      * apply Z.ltb_ge in E. destruct (I6 l Hl) as [E'|[_ E']]; [lia|assumption].
      * apply Z.eqb_neq in E. assumption.
    + apply firstn_all.
Qed.

Lemma contraction_fold_inv lc0 ls : forall pl,
  plan_inv lc0 pl -> (forall l, In l ls -> 0 <= l < total_labels) ->
  plan_inv lc0 (fold_left contraction_label ls pl) /\
  (forall m, znth m (label_out_index pl) 0 <> -1 ->
     znth m (label_out_index (fold_left contraction_label ls pl)) 0 =
     znth m (label_out_index pl) 0) /\
  (forall l, In l ls -> 0 < znth l lc0 0 ->
     znth l (label_out_index (fold_left contraction_label ls pl)) 0 <> -1) /\
  out_index pl <= out_index (fold_left contraction_label ls pl) /\
  firstn (length (permuted_labels pl)) (permuted_labels (fold_left contraction_label ls pl)) =
    permuted_labels pl.
Proof.
  induction ls as [|l ls IH]; intros pl Hinv Hls; cbn [fold_left].
  - split; [assumption|]. split; [reflexivity|]. split; [intros ? []|]. split; [lia|].
    apply firstn_all.
  - destruct (contraction_step_inv lc0 pl l Hinv (Hls l (or_introl eq_refl)))
      as (S1 & S2 & S3 & S4 & S5).
    destruct (IH (contraction_label pl l) S1 (fun m Hm => Hls m (or_intror Hm)))
      as (F1 & F2 & F3 & F4 & F5).
    split; [assumption|]. split; [|split; [|split]].
    + intros m Hm. rewrite F2 by (rewrite S2; assumption). apply S2. assumption.
    + intros m [<-|Hm] Hocc.
      * rewrite F2 by (apply S3; assumption). apply S3. assumption.
      * apply F3; assumption.
    + lia.
    + assert (L : (length (permuted_labels pl) <=
                   length (permuted_labels (contraction_label pl l)))%nat).
      { rewrite <- S5 at 1. rewrite length_firstn. lia. }
      transitivity (firstn (length (permuted_labels pl))
                      (firstn (length (permuted_labels (contraction_label pl l)))
                              (permuted_labels
                                 (fold_left contraction_label ls (contraction_label pl l))))).
      * rewrite firstn_firstn. f_equal. lia.
      * rewrite F5. exact S5.
Qed.

Lemma plan_inv_init lc0 :
  zlen lc0 = total_labels ->
  plan_inv lc0 (mkPlan lc0 (repeat (-1) (Z.to_nat total_labels)) [] 0).
Proof.
  intros L. unfold plan_inv. cbn [label_out_index plan_label_count permuted_labels out_index].
  split; [apply zlen_repeat|]. split; [assumption|]. split; [reflexivity|].
  split; [intros t Ht; lia|]. split.
  - intros l Hl. left. apply znth_repeat. unfold total_labels in *. lia.
  - intros l Hl. left. reflexivity.
Qed.

Lemma build_plan_inv equation lc0 pl out_size :
  zlen lc0 = total_labels -> (forall l, 0 <= znth l lc0 0) ->
  build_plan equation lc0 = inr (pl, out_size) ->
  plan_inv lc0 pl /\
  0 <= out_size <= out_index pl /\
  (forall l, 0 <= l < total_labels -> 0 < znth l lc0 0 ->
             znth l (label_out_index pl) 0 <> -1) /\
  (forall p, arrow_pos equation = Some p ->
     firstn (Z.to_nat out_size) (permuted_labels pl) =
     map label_of (nonspace (output_chars equation p))).
Proof.
  intros L Hlc H. unfold build_plan in H. apply bind_inr in H. destruct H as [q [Hq H]].
  apply inr_inj in H. apply pair_equal_spec in H. destruct H as [<- <-].
  assert (Hrange : forall l, In l (zrange total_labels) -> 0 <= l < total_labels)
    by (intros l Hl; apply In_zrange; assumption).
  assert (Q : plan_inv lc0 q /\
              forall p, arrow_pos equation = Some p ->
                permuted_labels q = map label_of (nonspace (output_chars equation p))).
  { destruct (arrow_pos equation) as [p|].
    - assert (Hset : forall l, 0 <= l < total_labels ->
                znth l (repeat (-1) (Z.to_nat total_labels)) 0 <> -1 -> znth l lc0 0 = -1).
      { intros l Hl Hne. exfalso. apply Hne. apply znth_repeat.
        unfold total_labels in *. lia. }
      destruct (explicit_fold_inv lc0 _ _ _ Hlc (plan_inv_init lc0 L) Hset Hq) as [J1 J2].
      split; [assumption|]. intros p' Hp'. inversion Hp'; subst p'. exact J2.
    - apply inr_inj in Hq. subst q. split; [|intros p Hp; discriminate].
      apply implicit_fold_inv.
      + apply NoDup_zrange.
      + intros l Hl. split; [apply Hrange; assumption|]. cbn [label_out_index].
        apply znth_repeat. apply Hrange in Hl. unfold total_labels in *. lia.
      + reflexivity.
      + apply plan_inv_init. assumption. }
  destruct Q as [Q1 Q2].
  destruct (contraction_fold_inv lc0 (zrange total_labels) q Q1 Hrange)
    as (F1 & F2 & F3 & F4 & F5).
  pose proof Q1 as (_ & _ & I3 & _).
  pose proof (zlen_nonneg (permuted_labels q)) as Hq0.
  split; [assumption|]. split; [lia|]. split.
  - intros l Hl Hocc. apply F3; [apply In_zrange; assumption|assumption].
  - intros p Hp. rewrite <- (Q2 p Hp).
    replace (Z.to_nat (out_index q)) with (length (permuted_labels q))
      by (unfold zlen in I3; lia).
    exact F5.
Qed.

(** ** The subscripts that the parsing loop accepts *)

Lemma parse_labels_inv A i cs : forall st count st' count',
  foldM (parse_label A i) cs (st, count) = inr (st', count') ->
  Forall (fun c => is_label c = true) (nonspace cs) /\ count' = count + zlen (nonspace cs).
Proof.
  induction cs as [|c cs IH]; intros st count st' count' H; cbn [foldM] in H.
  - apply inr_inj in H. apply pair_equal_spec in H. destruct H as [_ <-].
    split; [constructor|]. change (zlen (nonspace [])) with 0. lia.
  - apply bind_inr in H. destruct H as [[st1 count1] [H1 H2]]. apply IH in H2.
    destruct H2 as [F E]. unfold parse_label in H1. unfold nonspace. cbn [filter].
    destruct (negb (is_space c)).
    + apply bind_inr in H1. destruct H1 as [u [Hl H1]]. apply TORCH_CHECK_inr in Hl.
      apply bind_inr in H1. destruct H1 as [sz [_ H1]]. apply inr_inj in H1.
      apply pair_equal_spec in H1. destruct H1 as [_ <-].
      split; [constructor; assumption|]. rewrite zlen_cons. unfold nonspace in E. lia.
    + apply inr_inj in H1. apply pair_equal_spec in H1. destruct H1 as [_ <-].
      split; assumption.
Qed.

Lemma parse_operands_inv operands : forall ws i st st',
  parse_operands operands ws i st = inr st' -> length ws = length operands ->
  Forall2 well_labelled operands ws.
Proof.
  induction operands as [|A operands IH]; intros [|w ws] i st st' H L; cbn [length] in L;
    try discriminate; [constructor|].
  cbn [parse_operands] in H. apply bind_inr in H. destruct H as [[st1 count] [H1 H]].
  apply bind_inr in H. destruct H as [u [Hc H]]. apply TORCH_CHECK_inr in Hc.
  apply Z.eqb_eq in Hc. apply parse_labels_inv in H1. destruct H1 as [F E].
  constructor.
  - split; [assumption|]. lia.
  - eapply IH; [eassumption|lia].
Qed.

Lemma einsum_plan_ok equation operands ws pl out_size :
  einsum_plan equation operands = inr (ws, pl, out_size) ->
  ws = split_operand_labels equation /\
  operands <> [] /\
  Forall2 well_labelled operands ws /\
  plan_inv (map (occurrences ws) (zrange total_labels)) pl /\
  0 <= out_size <= out_index pl /\
  (forall l, 0 <= l < total_labels -> 0 < occurrences ws l ->
             znth l (label_out_index pl) 0 <> -1) /\
  (forall p, arrow_pos equation = Some p ->
     firstn (Z.to_nat out_size) (permuted_labels pl) =
     map label_of (nonspace (output_chars equation p))).
Proof.
  intros H. unfold einsum_plan in H.
  apply bind_inr in H. destruct H as [u [Hne H]]. apply TORCH_CHECK_inr in Hne.
  apply bind_inr in H. destruct H as [u' [Hlen H]]. apply TORCH_CHECK_inr in Hlen.
  apply Nat.eqb_eq in Hlen.
  apply bind_inr in H. destruct H as [st [Hparse H]].
  apply bind_inr in H. destruct H as [[pl1 out1] [Hplan H]].
  apply inr_inj in H. apply pair_equal_spec in H. destruct H as [H ->].
  apply pair_equal_spec in H. destruct H as [<- ->].
  split; [reflexivity|]. split; [intros ->; discriminate|].
  split; [eapply parse_operands_inv; eassumption|].
  rewrite (parse_operands_label_count _ _ _ Hparse Hlen) in Hplan.
  assert (L0 : zlen (map (occurrences (split_operand_labels equation)) (zrange total_labels)) =
               total_labels).
  { unfold zlen. rewrite length_map, length_zrange. unfold total_labels. lia. }
  assert (N0 : forall l, 0 <= znth l (map (occurrences (split_operand_labels equation))
                                         (zrange total_labels)) 0).
  { intros l. unfold znth.
    destruct (Nat.lt_ge_cases (Z.to_nat l) (length (zrange total_labels))).
    - rewrite (nth_indep _ 0 (occurrences (split_operand_labels equation) 0))
        by (rewrite length_map; assumption).
      rewrite map_nth. apply occurrences_nonneg.
    - rewrite nth_overflow by (rewrite length_map; assumption). lia. }
  destruct (build_plan_inv _ _ _ _ L0 N0 Hplan) as (B1 & B2 & B3 & B4).
  split; [assumption|]. split; [assumption|]. split; [|assumption].
  intros l Hl Hocc. apply B3; [assumption|]. rewrite znth_map_zrange by assumption. assumption.
Qed.

Lemma count_of_pos l x : In x l -> 0 < count_of l x.
Proof.
  intros H. unfold count_of. apply (count_occ_In Z.eq_dec) in H. lia.
Qed.

Lemma count_of_nonneg l x : 0 <= count_of l x.
Proof. unfold count_of. lia. Qed.

Lemma occurrences_pos ws w c :
  In w ws -> In c (operand_chars w) -> 0 < occurrences ws (label_of c).
Proof.
  intros Hw Hc. unfold occurrences, sumZ.
  induction ws as [|w' ws IH]; [destruct Hw|]. cbn [fold_right].
  pose proof (occurrences_nonneg ws (label_of c)) as N1. unfold occurrences, sumZ in N1.
  pose proof (count_of_nonneg (subscripts w') (label_of c)) as N2.
  destruct Hw as [->|Hw].
  - assert (0 < count_of (subscripts w) (label_of c)); [|lia].
    apply count_of_pos. unfold subscripts. apply in_map. exact Hc.
  - specialize (IH Hw). lia.
Qed.

Lemma occurrences_pos_inv ws l :
  0 < occurrences ws l -> exists w c, In w ws /\ In c (operand_chars w) /\ label_of c = l.
Proof.
  unfold occurrences, sumZ. induction ws as [|w ws IH]; cbn [fold_right]; [lia|].
  intros H. destruct (Z.eq_dec (count_of (subscripts w) l) 0) as [E|E].
  - destruct IH as (w' & c & H1 & H2 & H3); [lia|]. exists w', c. split; [right; assumption|].
    split; assumption.
  - assert (Hin : In l (subscripts w)).
    { apply (count_occ_In Z.eq_dec). unfold count_of in E. lia. }
    unfold subscripts in Hin. apply in_map_iff in Hin. destruct Hin as (c & Hc1 & Hc2).
    exists w, c. split; [left; reflexivity|]. split; assumption.
Qed.

Lemma Forall2_In_r {A B} (P : A -> B -> Prop) l1 l2 y :
  Forall2 P l1 l2 -> In y l2 -> exists x, In x l1 /\ P x y.
Proof.
  induction 1 as [|a b l1 l2 Hab H IH]; intros Hy; [destruct Hy|].
  destruct Hy as [<-|Hy].
  - exists a. split; [left; reflexivity|assumption].
  - destruct (IH Hy) as (x & Hx & Hp). exists x. split; [right; assumption|assumption].
Qed.

(** Every subscript of an operand has a slot of its own, and every slot
    carries a subscript of some operand. *)
Lemma plan_slots equation operands ws pl out_size :
  einsum_plan equation operands = inr (ws, pl, out_size) ->
  (forall w c, In w ws -> In c (operand_chars w) ->
     is_label c = true /\ 0 <= slot pl c < out_index pl /\
     znth (slot pl c) (permuted_labels pl) 0 = label_of c) /\
  (forall t, 0 <= t < out_index pl ->
     exists w c, In w ws /\ In c (operand_chars w) /\ slot pl c = t).
Proof.
  intros H. destruct (einsum_plan_ok _ _ _ _ _ H) as (_ & _ & HW & Hinv & _ & Hcov & _).
  destruct Hinv as (I1 & I2 & I3 & I4 & I5 & I6).
  split.
  - intros w c Hw Hc.
    assert (Hl : is_label c = true).
    { destruct (Forall2_In_r _ _ _ _ HW Hw) as (A & _ & F & _).
      rewrite Forall_forall in F. apply F. exact Hc. }
    split; [assumption|]. pose proof (is_label_range c Hl) as Rc.
    pose proof (Hcov _ Rc (occurrences_pos ws w c Hw Hc)) as Hne.
    unfold slot. destruct (I5 _ Rc) as [E|[E1 E2]]; [contradiction|]. split; assumption.
  - intros t Ht. destruct (I4 t Ht) as (A1 & A2 & A3).
    rewrite znth_map_zrange in A2 by assumption.
    destruct (occurrences_pos_inv _ _ A2) as (w & c & Hw & Hc & El).
    exists w, c. split; [assumption|]. split; [assumption|]. unfold slot. rewrite El. exact A3.
Qed.

(** * The alignment of an operand *)

(** ** Placing the subscripts *)

Lemma length_place slots : forall j ps, length (place slots j ps) = length ps.
Proof.
  induction slots as [|s slots IH]; intros j ps; cbn [place]; [reflexivity|].
  rewrite IH. unfold zupd. apply length_upd.
Qed.

Lemma index_of_cons_other a x p : x <> a -> index_of a (x :: p) = S (index_of a p).
Proof. intros H. cbn [index_of]. destruct (Z.eqb_spec x a); [contradiction|reflexivity]. Qed.

Lemma existsb_eqb_In t l : existsb (Z.eqb t) l = true <-> In t l.
Proof.
  rewrite existsb_exists. split.
  - intros (x & Hx & E). apply Z.eqb_eq in E. subst. assumption.
  - intros H. exists t. split; [assumption|apply Z.eqb_refl].
Qed.

Lemma place_spec slots : forall j ps t,
  NoDup slots -> Forall (fun s => 0 <= s < zlen ps) slots -> 0 <= t ->
  znth t (place slots j ps) 0 =
  if existsb (Z.eqb t) slots then j + Z.of_nat (index_of t slots) else znth t ps 0.
Proof.
  induction slots as [|s slots IH]; intros j ps t ND F Ht; cbn [place existsb]; [reflexivity|].
  inversion ND as [|? ? Hnotin ND']; subst. inversion F as [|? ? Hs F']; subst.
  rewrite IH; [|assumption|rewrite zlen_zupd; assumption|assumption].
  destruct (Z.eqb_spec t s) as [->|Hne]; cbn [orb].
  - replace (existsb (Z.eqb s) slots) with false.
    + rewrite znth_zupd_same by assumption. cbn [index_of]. rewrite Z.eqb_refl. simpl. lia.
    + symmetry. apply not_true_is_false. rewrite existsb_eqb_In. assumption.
  - destruct (existsb (Z.eqb t) slots).
    + rewrite index_of_cons_other by congruence. lia.
    + apply znth_zupd_other; lia.
Qed.

Lemma count_free_cons x ps :
  count_free (x :: ps) = (if x =? -1 then 1 else 0) + count_free ps.
Proof.
  unfold count_free. cbn [filter]. rewrite (Z.eqb_sym (-1) x).
  destruct (x =? -1); [rewrite zlen_cons; lia|lia].
Qed.

Lemma count_free_nonneg ps : 0 <= count_free ps.
Proof. unfold count_free. apply zlen_nonneg. Qed.

Lemma count_free_app a b : count_free (a ++ b) = count_free a + count_free b.
Proof. unfold count_free. rewrite filter_app, zlen_app. reflexivity. Qed.

Lemma count_free_repeat n : count_free (repeat (-1) n) = Z.of_nat n.
Proof.
  induction n as [|n IH]; [reflexivity|]. cbn [repeat]. rewrite count_free_cons, IH.
  change (-1 =? -1) with true. lia.
Qed.

Lemma count_free_upd k v ps :
  (k < length ps)%nat -> nth k ps 0 = -1 -> v <> -1 ->
  count_free (upd k v ps) = count_free ps - 1.
Proof.
  revert k. induction ps as [|x ps IH]; intros [|k] L E V; cbn [length] in L; try lia;
    cbn [upd nth] in *; rewrite !count_free_cons.
  - subst x. change (-1 =? -1) with true.
    replace (v =? -1) with false by (symmetry; apply Z.eqb_neq; assumption). lia.
  - rewrite IH by (try assumption; lia). lia.
Qed.

Lemma count_free_place slots : forall j ps,
  NoDup slots -> Forall (fun s => 0 <= s < zlen ps /\ znth s ps 0 = -1) slots -> 0 <= j ->
  count_free (place slots j ps) = count_free ps - zlen slots.
Proof.
  induction slots as [|s slots IH]; intros j ps ND F Hj; cbn [place].
  - change (zlen []) with 0. lia.
  - inversion ND as [|? ? Hnotin ND']; subst. inversion F as [|? ? [Hs Hfree] F']; subst.
    rewrite IH; [|assumption| |lia].
    + unfold zupd. rewrite count_free_upd; [rewrite zlen_cons; lia| |exact Hfree|lia].
      unfold zlen in Hs. lia.
    + rewrite Forall_forall in F' |- *. intros s' Hs'. destruct (F' s' Hs') as [R E].
      rewrite zlen_zupd. split; [assumption|].
      rewrite znth_zupd_other; [assumption|lia|lia|]. intros ->. contradiction.
Qed.

(** ** Filling the other slots *)

Lemma length_fill ps : forall j, length (fill ps j) = length ps.
Proof.
  induction ps as [|x ps IH]; intros j; cbn [fill]; [reflexivity|].
  destruct (x =? -1); cbn [length]; rewrite IH; reflexivity.
Qed.

Lemma fill_app a b : forall j, fill (a ++ b) j = fill a j ++ fill b (j + count_free a).
Proof.
  induction a as [|x a IH]; intros j; cbn [app fill].
  - change (count_free []) with 0. rewrite Z.add_0_r. reflexivity.
  - rewrite count_free_cons. destruct (x =? -1); cbn [app]; rewrite IH;
      rewrite ?Z.add_assoc, ?Z.add_0_l, ?Z.add_0_r; reflexivity.
Qed.

Lemma nth_fill ps : forall j t,
  (t < length ps)%nat ->
  nth t (fill ps j) 0 =
  if nth t ps 0 =? -1 then j + count_free (firstn t ps) else nth t ps 0.
Proof.
  induction ps as [|x ps IH]; intros j t L; cbn [length] in L; [lia|].
  destruct t as [|t]; cbn [fill nth firstn].
  - change (count_free []) with 0. destruct (x =? -1); cbn [nth]; [lia|reflexivity].
  - rewrite count_free_cons. destruct (x =? -1); cbn [nth]; rewrite IH by lia;
      destruct (nth t ps 0 =? -1); try reflexivity; lia.
Qed.

Lemma count_free_firstn_le t ps : count_free (firstn t ps) <= count_free ps.
Proof.
  rewrite <- (firstn_skipn t ps) at 2. rewrite count_free_app.
  pose proof (count_free_nonneg (skipn t ps)). lia.
Qed.

Lemma count_free_firstn_lt t ps :
  (t < length ps)%nat -> nth t ps 0 = -1 -> count_free (firstn t ps) < count_free ps.
Proof.
  intros L E. rewrite <- (firstn_skipn t ps) at 2. rewrite count_free_app.
  destruct (skipn t ps) as [|x r] eqn:Hsk.
  - apply (f_equal (@length Z)) in Hsk. rewrite length_skipn in Hsk. cbn [length] in Hsk. exfalso. clear E. lia.
  - assert (x = -1).
    { rewrite <- E. rewrite <- (firstn_skipn t ps) at 1. rewrite Hsk.
      rewrite app_nth2 by (rewrite length_firstn; lia).
      rewrite length_firstn. replace (t - Nat.min t (length ps))%nat with 0%nat by lia.
      reflexivity. }
    subst x. rewrite count_free_cons. change (-1 =? -1) with true. cbv iota.
    pose proof (count_free_nonneg r). lia.
Qed.

Lemma count_free_firstn_mono t1 t2 ps :
  (t1 < t2)%nat -> (t1 < length ps)%nat -> nth t1 ps 0 = -1 ->
  count_free (firstn t1 ps) < count_free (firstn t2 ps).
Proof.
  intros Hlt L E.
  replace (firstn t1 ps) with (firstn t1 (firstn t2 ps))
    by (rewrite firstn_firstn; f_equal; lia).
  apply count_free_firstn_lt.
  - rewrite length_firstn. lia.
  - rewrite nth_firstn. replace (t1 <? t2)%nat with true by (symmetry; apply Nat.ltb_lt; lia).
    assumption.
Qed.

(** ** The two loops of the alignment *)

Lemma unsqueeze_last t :
  unsqueeze t (-1) =
  inr (mkTensor (sizes t ++ [1]) (fun idx => elem t (erase (length (sizes t)) idx))).
Proof.
  unfold unsqueeze. pose proof (zlen_nonneg (sizes t)) as Hd.
  rewrite maybe_wrap_dim_last by (unfold dim; lia). cbn [bind ret].
  replace (Z.to_nat (dim t + 1 - 1)) with (length (sizes t)) by (unfold dim, zlen; lia).
  unfold insert_at. rewrite firstn_all, skipn_all. reflexivity.
Qed.

Lemma align_fill_ok (A : Tensor) (ps ld : list Z) (T : Tensor) (j : Z) (m : nat) :
  sizes T = sizes A ++ repeat 1 m ->
  (forall x, length x = (length (sizes A) + m)%nat ->
             elem T x = elem A (firstn (length (sizes A)) x)) ->
  forall k, (k <= length ps)%nat ->
  exists T',
    foldM align_fill (seq 0 k) (mkAlignState T ps ld j) =
    inr (mkAlignState T' (fill (firstn k ps) j ++ skipn k ps) ld
           (j + count_free (firstn k ps))) /\
    sizes T' = sizes A ++ repeat 1 (m + Z.to_nat (count_free (firstn k ps))) /\
    (forall x, length x = (length (sizes A) + m + Z.to_nat (count_free (firstn k ps)))%nat ->
               elem T' x = elem A (firstn (length (sizes A)) x)).
Proof.
  intros HsT HeT. induction k as [|k IH]; intros Hk.
  - exists T. cbn [seq foldM firstn fill app skipn]. change (count_free []) with 0.
    rewrite Z.add_0_r. change (Z.to_nat 0) with 0%nat. rewrite !Nat.add_0_r.
    split; [reflexivity|]. split; assumption.
  - destruct IH as (T1 & H1 & Hs1 & He1); [lia|].
    pose proof (count_free_nonneg (firstn k ps)) as Hc.
    assert (Hsplit : firstn (S k) ps = firstn k ps ++ [nth k ps 0]).
    { rewrite <- (firstn_skipn k ps) at 1.
      rewrite firstn_app, length_firstn, firstn_firstn.
      replace (Nat.min (S k) k) with k by lia.
      replace (S k - Nat.min k (length ps))%nat with 1%nat by lia.
      f_equal. destruct (skipn k ps) as [|y r] eqn:Hsk.
      - apply (f_equal (@length Z)) in Hsk. rewrite length_skipn in Hsk. cbn [length] in Hsk. lia.
      - cbn [firstn]. f_equal. rewrite <- (firstn_skipn k ps) at 1. rewrite Hsk.
        rewrite app_nth2 by (rewrite length_firstn; lia).
        rewrite length_firstn. replace (k - Nat.min k (length ps))%nat with 0%nat by lia.
        reflexivity. }
    assert (Hskip : skipn k ps = nth k ps 0 :: skipn (S k) ps).
    { rewrite <- (firstn_skipn k ps) at 2. 
      destruct (skipn k ps) as [|y r] eqn:Hsk.
      - apply (f_equal (@length Z)) in Hsk. rewrite length_skipn in Hsk. cbn [length] in Hsk. lia.
      - rewrite app_nth2 by (rewrite length_firstn; lia).
        rewrite length_firstn. replace (k - Nat.min k (length ps))%nat with 0%nat by lia.
        cbn [nth]. f_equal.
        replace (S k) with (1 + k)%nat by lia. rewrite <- skipn_skipn, Hsk. reflexivity. }
    rewrite seq_S, foldM_app, H1. cbn [bind foldM Nat.add]. unfold align_fill.
    cbn [perm_shape as_operand as_j label_dim].
    rewrite app_nth2 by (rewrite length_fill, length_firstn; lia).
    rewrite length_fill, length_firstn.
    replace (k - Nat.min k (length ps))%nat with 0%nat by lia.
    replace (nth 0 (skipn k ps) 0) with (nth k ps 0) by (rewrite Hskip; reflexivity).
    rewrite Hsplit, fill_app, count_free_app, count_free_cons. change (count_free []) with 0.
    cbn [fill].
    assert (Hupd : forall v, upd k v (fill (firstn k ps) j ++ skipn k ps) =
                             (fill (firstn k ps) j ++ [v]) ++ skipn (S k) ps).
    { intros v. rewrite <- app_assoc. cbn [app].
      replace (upd k v) with (@upd Z (length (fill (firstn k ps) j)) v)
        by (rewrite length_fill, length_firstn; f_equal; lia).
      rewrite Hskip. apply upd_app. }
    destruct (nth k ps 0 =? -1) eqn:E.
    + rewrite unsqueeze_last. cbn [bind ret]. eexists. split; [|split].
      * rewrite Hupd.
        replace (j + (count_free (firstn k ps) + (1 + 0))) with (j + count_free (firstn k ps) + 1)
          by lia.
        reflexivity.
      * cbn [sizes]. rewrite Hs1, <- app_assoc. f_equal.
        replace (m + Z.to_nat (count_free (firstn k ps) + (1 + 0)))%nat
          with (S (m + Z.to_nat (count_free (firstn k ps)))) by lia.
        rewrite <- repeat_cons. reflexivity.
      * cbn [elem]. intros x Hx. rewrite He1.
        -- unfold erase. rewrite firstn_app. rewrite firstn_firstn.
           rewrite Hs1, length_app, repeat_length.
           replace (Nat.min (length (sizes A))
                      (length (sizes A) + (m + Z.to_nat (count_free (firstn k ps)))))
             with (length (sizes A)) by lia.
           rewrite length_firstn.
           replace (length (sizes A) -
                    Nat.min (length (sizes A) + (m + Z.to_nat (count_free (firstn k ps))))
                      (length x))%nat with 0%nat by lia.
           cbn [firstn]. rewrite app_nil_r. reflexivity.
        -- unfold erase. rewrite length_app, length_firstn, length_skipn.
           rewrite Hs1, length_app, repeat_length. lia.
    + cbn [ret]. exists T1. split; [|split].
      * replace (j + (count_free (firstn k ps) + (0 + 0))) with (j + count_free (firstn k ps))
          by lia.
        rewrite <- app_assoc. cbn [app]. rewrite <- Hskip. reflexivity.
      * rewrite Hs1. f_equal. f_equal. lia.
      * intros x Hx. apply He1. lia.
Qed.

(** ** The permutation that the alignment builds *)

Section Perm.
Variables (slots : list Z) (n : nat).
Hypothesis slots_NoDup : NoDup slots.
Hypothesis slots_range : Forall (fun s => 0 <= s < Z.of_nat n) slots.
Let d := zlen slots.
Let ps0 := place slots 0 (repeat (-1) n).
Let p := fill ps0 d.

Lemma length_ps0 : length ps0 = n.
Proof. unfold ps0. rewrite length_place. apply repeat_length. Qed.

Lemma length_aligned : length p = n.
Proof. unfold p. rewrite length_fill. apply length_ps0. Qed.

Lemma ps0_nth t :
  (t < n)%nat ->
  nth t ps0 0 = if existsb (Z.eqb (Z.of_nat t)) slots
                then Z.of_nat (index_of (Z.of_nat t) slots) else -1.
Proof.
  intros Ht. pose proof (place_spec slots 0 (repeat (-1) n) (Z.of_nat t) slots_NoDup) as H.
  unfold znth in H. rewrite Nat2Z.id in H. unfold ps0. rewrite H.
  - destruct (existsb (Z.eqb (Z.of_nat t)) slots); [lia|].
    apply nth_repeat_lt. assumption.
  - rewrite zlen_repeat. exact slots_range.
  - lia.
Qed.

Lemma count_free_ps0 : count_free ps0 = Z.of_nat n - d.
Proof.
  unfold ps0. rewrite count_free_place.
  - rewrite count_free_repeat. reflexivity.
  - exact slots_NoDup.
  - rewrite Forall_forall in slots_range |- *. intros s Hs. specialize (slots_range s Hs).
    rewrite zlen_repeat. split; [assumption|]. apply znth_repeat. assumption.
  - lia.
Qed.

Lemma index_of_slots t : In t slots -> 0 <= Z.of_nat (index_of t slots) < d.
Proof. intros H. destruct (index_of_In t slots H) as [L _]. unfold d, zlen. lia. Qed.

Lemma aligned_nth t :
  (t < n)%nat ->
  nth t p 0 = if existsb (Z.eqb (Z.of_nat t)) slots
              then Z.of_nat (index_of (Z.of_nat t) slots)
              else d + count_free (firstn t ps0).
Proof.
  intros Ht. unfold p. rewrite nth_fill by (rewrite length_ps0; assumption).
  rewrite ps0_nth by assumption.
  destruct (existsb (Z.eqb (Z.of_nat t)) slots) eqn:E.
  - apply existsb_eqb_In in E. pose proof (index_of_slots _ E).
    replace (Z.of_nat (index_of (Z.of_nat t) slots) =? -1) with false
      by (symmetry; apply Z.eqb_neq; lia).
    reflexivity.
  - reflexivity.
Qed.

Lemma aligned_range : Forall (fun x => 0 <= x < Z.of_nat n) p.
Proof.
  apply Forall_forall. intros x Hx. apply (In_nth _ _ 0) in Hx. destruct Hx as (t & Lt & <-).
  rewrite length_aligned in Lt. rewrite aligned_nth by assumption.
  pose proof (zlen_nonneg slots) as Hd. fold d in Hd.
  pose proof (count_free_nonneg ps0) as Hu. rewrite count_free_ps0 in Hu.
  destruct (existsb (Z.eqb (Z.of_nat t)) slots) eqn:E.
  - apply existsb_eqb_In in E. pose proof (index_of_slots _ E). lia.
  - pose proof (count_free_nonneg (firstn t ps0)).
    assert (count_free (firstn t ps0) < count_free ps0).
    { apply count_free_firstn_lt; [rewrite length_ps0; assumption|].
      rewrite ps0_nth by assumption. rewrite E. reflexivity. }
    rewrite count_free_ps0 in *. lia.
Qed.

Lemma aligned_NoDup : NoDup p.
Proof.
  apply (NoDup_nth p 0). intros t1 t2 L1 L2 E. rewrite length_aligned in L1, L2.
  rewrite !aligned_nth in E by assumption.
  destruct (existsb (Z.eqb (Z.of_nat t1)) slots) eqn:E1,
           (existsb (Z.eqb (Z.of_nat t2)) slots) eqn:E2.
  - apply existsb_eqb_In in E1, E2.
    destruct (index_of_In _ _ E1) as [_ N1]. destruct (index_of_In _ _ E2) as [_ N2].
    apply Nat2Z.inj in E. rewrite E in N1. rewrite N1 in N2. lia.
  - apply existsb_eqb_In in E1. pose proof (index_of_slots _ E1).
    pose proof (count_free_nonneg (firstn t2 ps0)). lia.
  - apply existsb_eqb_In in E2. pose proof (index_of_slots _ E2).
    pose proof (count_free_nonneg (firstn t1 ps0)). lia.
  - assert (F1 : nth t1 ps0 0 = -1) by (rewrite ps0_nth by assumption; rewrite E1; reflexivity).
    assert (F2 : nth t2 ps0 0 = -1) by (rewrite ps0_nth by assumption; rewrite E2; reflexivity).
    destruct (Nat.lt_trichotomy t1 t2) as [Hlt|[Heq|Hgt]]; [|assumption|].
    + pose proof (count_free_firstn_mono t1 t2 ps0 Hlt ltac:(rewrite length_ps0; assumption) F1).
      lia.
    + pose proof (count_free_firstn_mono t2 t1 ps0 Hgt ltac:(rewrite length_ps0; assumption) F2).
      lia.
Qed.

Lemma aligned_at_slot (k : nat) :
  (k < length slots)%nat -> index_of (Z.of_nat k) p = Z.to_nat (nth k slots 0).
Proof.
  intros Hk.
  assert (Hin : In (nth k slots 0) slots) by (apply nth_In; assumption).
  pose proof (proj1 (Forall_forall _ _) slots_range _ Hin) as R. cbv beta in R.
  assert (E : nth (Z.to_nat (nth k slots 0)) p 0 = Z.of_nat k).
  { rewrite aligned_nth by lia. rewrite Z2Nat.id by lia.
    replace (existsb (Z.eqb (nth k slots 0)) slots) with true
      by (symmetry; apply existsb_eqb_In; assumption).
    rewrite index_of_nth by assumption. reflexivity. }
  rewrite <- E. apply index_of_nth; [exact aligned_NoDup|]. rewrite length_aligned. lia.
Qed.

End Perm.

(** ** From the placed subscripts to the aligned operand *)

Lemma align_finish (T0 : Tensor) (slots ld : list Z) (oi : Z) :
  0 <= oi -> NoDup slots -> Forall (fun s => 0 <= s < oi) slots ->
  length slots = length (sizes T0) ->
  exists B,
    (st <- foldM align_fill
             (seq 0 (length (place slots 0 (repeat (-1) (Z.to_nat oi)))))
             (mkAlignState T0 (place slots 0 (repeat (-1) (Z.to_nat oi))) ld (zlen slots)) ;;
     permute (as_operand st) (perm_shape st)) = inr B /\
    length (sizes B) = Z.to_nat oi /\
    (forall t, (t < Z.to_nat oi)%nat ->
       nth t (sizes B) 0 =
       if existsb (Z.eqb (Z.of_nat t)) slots
       then nth (index_of (Z.of_nat t) slots) (sizes T0) 0 else 1) /\
    (forall idx, length idx = Z.to_nat oi ->
       elem B idx = elem T0 (map (fun s => znth s idx 0) slots)).
Proof.
  intros Hoi SND SR0 Ld.
  set (n := Z.to_nat oi).
  assert (SR : Forall (fun s => 0 <= s < Z.of_nat n) slots).
  { eapply Forall_impl; [|exact SR0]. cbv beta. intros s Hs. unfold n. lia. }
  set (ps0 := place slots 0 (repeat (-1) n)).
  assert (Lps : length ps0 = n) by (apply length_ps0).
  destruct (align_fill_ok T0 ps0 ld T0 (zlen slots) 0) with (k := length ps0)
    as (T & HT & HsT & HeT).
  { cbn [repeat]. rewrite app_nil_r. reflexivity. }
  { intros x Hx. rewrite firstn_all2 by lia. reflexivity. }
  { lia. }
  rewrite HT. cbn [bind as_operand perm_shape].
  rewrite firstn_all, skipn_all, app_nil_r in *.
  pose proof (count_free_ps0 slots n SND SR) as Hu. fold ps0 in Hu.
  pose proof (zlen_nonneg slots) as Hd0.
  pose proof (count_free_nonneg ps0) as Hu0.
  cbn [Nat.add] in HsT, HeT.
  set (p := fill ps0 (zlen slots)) in *.
  assert (DT : dim T = Z.of_nat n).
  { unfold dim, zlen. rewrite HsT, length_app, repeat_length. unfold zlen in *. lia. }
  rewrite permute_ok.
  2:{ rewrite DT. apply aligned_range; assumption. }
  2:{ apply aligned_NoDup; assumption. }
  2:{ rewrite DT. unfold zlen. unfold p. rewrite length_fill, Lps. reflexivity. }
  eexists. split; [reflexivity|]. cbn [sizes elem]. split; [|split].
  - unfold extents. rewrite length_map. apply length_aligned.
  - intros t Ht. unfold extents.
    rewrite (nth_indep _ 0 (znth 0 (sizes T) 0))
      by (rewrite length_map; unfold p; rewrite length_fill, Lps; assumption).
    rewrite (map_nth (fun d => znth d (sizes T) 0)).
    unfold p, ps0. rewrite aligned_nth by assumption.
    destruct (existsb (Z.eqb (Z.of_nat t)) slots) eqn:E.
    + apply existsb_eqb_In in E. destruct (index_of_In _ _ E) as [Li _].
      unfold znth. rewrite Nat2Z.id, HsT. apply app_nth1. lia.
    + fold ps0.
      assert (count_free (firstn t ps0) < count_free ps0).
      { apply count_free_firstn_lt; [lia|]. unfold ps0.
        rewrite ps0_nth by assumption. rewrite E. reflexivity. }
      pose proof (count_free_nonneg (firstn t ps0)).
      unfold znth. rewrite HsT. rewrite app_nth2 by (unfold zlen in *; lia).
      apply nth_repeat_lt. unfold zlen in *. lia.
  - intros idx Hidx. rewrite HeT.
    2:{ rewrite length_unpermute. unfold p. rewrite length_fill, Lps. unfold zlen in *. lia. }
    f_equal. apply (nth_ext _ _ 0 ((fun s => znth s idx 0) 0)).
    + rewrite length_firstn, length_unpermute, length_map. unfold p.
      rewrite length_fill, Lps. unfold zlen in *. lia.
    + intros k Hk. rewrite length_firstn, length_unpermute in Hk.
      unfold p in Hk. rewrite length_fill, Lps in Hk.
      rewrite nth_firstn. replace (k <? length (sizes T0))%nat with true
        by (symmetry; apply Nat.ltb_lt; lia).
      rewrite nth_unpermute by (unfold p; rewrite length_fill, Lps; lia).
      unfold p, ps0. rewrite aligned_at_slot by (try assumption; lia).
      rewrite (map_nth (fun s => znth s idx 0)). reflexivity.
Qed.

(** ** The loop over the subscripts *)

Lemma place_snoc slots s : forall j ps,
  place (slots ++ [s]) j ps = zupd s (j + zlen slots) (place slots j ps).
Proof.
  induction slots as [|a slots IH]; intros j ps; cbn [app place].
  - change (zlen []) with 0. rewrite Z.add_0_r. reflexivity.
  - rewrite IH, zlen_cons. f_equal. lia.
Qed.

Lemma index_of_app_l l D x : In l D -> index_of l (D ++ x) = index_of l D.
Proof.
  induction D as [|a D IH]; intros H; [destruct H|]. cbn [app index_of].
  destruct (Z.eqb_spec a l) as [|Hne]; [reflexivity|].
  destruct H as [H|H]; [contradiction|]. rewrite IH by assumption. reflexivity.
Qed.

Lemma index_of_app_new l D : ~ In l D -> index_of l (D ++ [l]) = length D.
Proof.
  induction D as [|a D IH]; intros H; cbn [app index_of length].
  - rewrite Z.eqb_refl. reflexivity.
  - destruct (Z.eqb_spec a l) as [->|Hne]; [exfalso; apply H; left; reflexivity|].
    rewrite IH; [reflexivity|]. intros Hin. apply H. right. assumption.
Qed.

Lemma existsb_app_new l' l D :
  existsb (Z.eqb l') (D ++ [l]) = existsb (Z.eqb l') D || (l' =? l).
Proof. rewrite existsb_app. cbn [existsb]. rewrite orb_false_r. reflexivity. Qed.

Section Labels.
Variables (loi : list Z) (i : nat) (oi : Z) (A : Tensor) (ext : Z -> Z).
Hypothesis ext_nonneg : forall l, 0 <= ext l.

Lemma label_step (c : ascii) (st : align_state) (D pre rs : list Z) :
  is_space c = false -> is_label c = true ->
  0 <= znth (label_of c) loi 0 < oi ->
  labels_placed loi oi A ext st D pre (ext (label_of c) :: rs) ->
  exists st',
    align_label loi i st c = inr st' /\
    labels_placed loi oi A ext st'
      (if existsb (Z.eqb (label_of c)) D then D else D ++ [label_of c])
      (pre ++ [label_of c]) rs.
Proof.
  intros Hs Hl Hr (ND & Hin & Hj & Lld & Hld & Hps & Hsz & Hel).
  pose proof (is_label_range c Hl) as Rc. set (l := label_of c) in *.
  unfold align_label. rewrite Hs. cbn [negb]. fold l. rewrite (Hld l Rc).
  destruct (existsb (Z.eqb l) D) eqn:Ex.
  - (* the label has an axis already: the diagonal *)
    apply existsb_eqb_In in Ex. destruct (index_of_In l D Ex) as [Lk Nk].
    set (k := index_of l D) in *.
    replace (negb (Z.of_nat k =? -1)) with true
      by (symmetry; apply negb_true_iff; apply Z.eqb_neq; lia).
    cbv iota.
    set (s1 := firstn k (map ext D)). set (s2 := skipn (S k) (map ext D)).
    assert (HD : map ext D = s1 ++ ext l :: s2).
    { unfold s1, s2. rewrite <- (firstn_skipn k (map ext D)) at 1. f_equal.
      rewrite (skipn_nth_cons k (map ext D) (ext 0)) by (rewrite length_map; assumption).
      rewrite (map_nth ext D 0 k), Nk. reflexivity. }
    assert (L1 : length s1 = k) by (unfold s1; rewrite length_firstn, length_map; lia).
    assert (L2 : length s2 = (length D - S k)%nat)
      by (unfold s2; rewrite length_skipn, length_map; reflexivity).
    destruct (take_diagonal_spec c i (as_operand st) s1 s2 rs (ext l))
      as (r & Hr1 & Hr2 & Hr3).
    { rewrite Hsz. rewrite HD, <- app_assoc. reflexivity. }
    { apply ext_nonneg. }
    assert (Ej : as_j st = zlen s1 + 1 + zlen s2) by (rewrite Hj; unfold zlen; lia).
    assert (Ek : Z.of_nat k = zlen s1) by (unfold zlen; lia).
    rewrite Ej, Ek.
    rewrite Hr1. cbn [bind ret]. eexists. split; [reflexivity|].
    unfold labels_placed. cbn [as_operand perm_shape label_dim as_j].
    split; [assumption|]. split.
    { intros l'. rewrite in_app_iff. cbn [In]. rewrite <- Hin. split; [tauto|].
      intros [H|[<-|[]]]; assumption. }
    split; [unfold zlen; lia|]. split; [assumption|]. split; [assumption|].
    split; [assumption|]. split.
    { rewrite Hr2, HD, <- app_assoc. reflexivity. }
    intros x y Lx Ly.
    assert (Hx : x = firstn k x ++ nth k x 0 :: skipn (S k) x).
    { rewrite <- (firstn_skipn k x) at 1. f_equal. apply skipn_nth_cons. lia. }
    rewrite Hx at 1. rewrite <- app_assoc. cbn [app].
    rewrite Hr3.
    2:{ rewrite length_firstn. lia. }
    2:{ rewrite length_skipn. lia. }
    2:{ assumption. }
    replace (firstn k x ++ nth k x 0 :: skipn (S k) x ++ nth k x 0 :: y)
      with (x ++ nth k x 0 :: y)
      by (rewrite Hx at 1; rewrite <- app_assoc; reflexivity).
    rewrite Hel by (cbn [length]; lia).
    rewrite map_app. cbn [map]. rewrite <- app_assoc. reflexivity.
  - (* a new label: the next axis *)
    assert (Hnot : ~ In l D).
    { intros H. apply existsb_eqb_In in H. congruence. }
    change (negb (-1 =? -1)) with false. cbv iota.
    unfold vset.
    assert (Lps : zlen (perm_shape st) = oi).
    { rewrite Hps. unfold zlen. rewrite length_place, repeat_length. lia. }
    rewrite Lps.
    replace ((0 <=? znth l loi 0) && (znth l loi 0 <? oi)) with true
      by (symmetry; apply andb_true_iff; split; [apply Z.leb_le|apply Z.ltb_lt]; lia).
    cbn [bind ret]. eexists. split; [reflexivity|].
    unfold labels_placed. cbn [as_operand perm_shape label_dim as_j].
    split.
    { apply NoDup_app; [assumption|constructor; [intros []|constructor]|].
      intros x Hx [<-|[]]. contradiction. }
    split.
    { intros l'. rewrite !in_app_iff. rewrite Hin. reflexivity. }
    split; [rewrite Hj, zlen_app; reflexivity|].
    split; [rewrite zlen_zupd; assumption|].
    split.
    { intros l' Rl'. rewrite existsb_app_new.
      destruct (Z.eqb_spec l' l) as [->|Hne].
      - rewrite orb_true_r. rewrite znth_zupd_same by lia.
        rewrite index_of_app_new by assumption. rewrite Hj. reflexivity.
      - rewrite orb_false_r. rewrite znth_zupd_other by lia. rewrite (Hld l' Rl').
        destruct (existsb (Z.eqb l') D) eqn:Ex'; [|reflexivity].
        apply existsb_eqb_In in Ex'. rewrite index_of_app_l by assumption. reflexivity. }
    split.
    { rewrite map_app. cbn [map]. rewrite place_snoc, Z.add_0_l, Hps, Hj.
      unfold zlen. rewrite length_map. reflexivity. }
    split.
    { rewrite Hsz, map_app. cbn [map]. rewrite <- app_assoc. reflexivity. }
    intros x y Lx Ly. rewrite length_app in Lx. cbn [length] in Lx.
    assert (Hx : x = firstn (length D) x ++ [nth (length D) x 0]).
    { rewrite <- (firstn_skipn (length D) x) at 1. f_equal.
      rewrite (skipn_nth_cons (length D) x 0) by lia. f_equal.
      apply length_zero_iff_nil. rewrite length_skipn. lia. }
    rewrite Hx at 1. rewrite <- app_assoc. cbn [app].
    rewrite Hel.
    2:{ rewrite length_firstn. lia. }
    2:{ cbn [length]. lia. }
    rewrite map_app. cbn [map]. rewrite <- app_assoc. cbn [app]. f_equal. f_equal.
    + apply map_ext_in. intros l' Hl'. apply Hin in Hl'.
      rewrite index_of_app_l by assumption.
      destruct (index_of_In l' D Hl') as [Lk _].
      rewrite nth_firstn. replace (index_of l' D <? length D)%nat with true
        by (symmetry; apply Nat.ltb_lt; assumption).
      reflexivity.
    + rewrite index_of_app_new by assumption. reflexivity.
Qed.

Lemma label_loop (cs : list ascii) (rs : list Z) : forall st D pre,
  Forall (fun c => is_label c = true) (nonspace cs) ->
  (forall c, In c (nonspace cs) -> 0 <= znth (label_of c) loi 0 < oi) ->
  labels_placed loi oi A ext st D pre (map ext (map label_of (nonspace cs)) ++ rs) ->
  exists st',
    foldM (align_label loi i) cs st = inr st' /\
    labels_placed loi oi A ext st' (firsts D (map label_of (nonspace cs)))
      (pre ++ map label_of (nonspace cs)) rs.
Proof.
  induction cs as [|c cs IH]; intros st D pre HF HR Hinv.
  - exists st. split; [reflexivity|]. cbn [nonspace filter map firsts app] in *.
    rewrite app_nil_r. assumption.
  - unfold nonspace in *. cbn [filter] in *. cbn [foldM].
    destruct (is_space c) eqn:Es; cbn [negb] in *.
    + unfold align_label at 1. rewrite Es. cbn [negb bind ret]. apply IH; assumption.
    + cbn [map firsts app] in *.
      destruct (label_step c st D pre _ Es (Forall_inv HF) (HR c (or_introl eq_refl)) Hinv)
        as (st1 & H1 & Hinv1).
      rewrite H1. cbn [bind].
      destruct (IH st1 _ _ (Forall_inv_tail HF) (fun c' Hc' => HR c' (or_intror Hc')) Hinv1)
        as (st' & H' & Hinv').
      exists st'. split; [assumption|]. rewrite <- app_assoc in Hinv'. exact Hinv'.
Qed.

Lemma label_step_mismatch (c : ascii) (st : align_state) (D pre rs : list Z) (a : Z) :
  is_space c = false -> is_label c = true ->
  labels_placed loi oi A ext st D pre (a :: rs) ->
  In (label_of c) D -> a <> ext (label_of c) ->
  align_label loi i st c = inl (EinsumRepeatedSize c i a (ext (label_of c))).
Proof.
  intros Hs Hl (ND & Hin & Hj & Lld & Hld & Hps & Hsz & Hel) HD Hne.
  pose proof (is_label_range c Hl) as Rc. set (l := label_of c) in *.
  unfold align_label. rewrite Hs. cbn [negb]. fold l. rewrite (Hld l Rc).
  replace (existsb (Z.eqb l) D) with true by (symmetry; apply existsb_eqb_In; assumption).
  destruct (index_of_In l D HD) as [Lk Nk]. set (k := index_of l D) in *.
  replace (negb (Z.of_nat k =? -1)) with true
    by (symmetry; apply negb_true_iff; apply Z.eqb_neq; lia).
  cbv iota. unfold take_diagonal.
  assert (Hdim : dim (as_operand st) = zlen D + 1 + zlen rs).
  { unfold dim. rewrite Hsz, zlen_app, zlen_cons. unfold zlen. rewrite length_map. lia. }
  pose proof (zlen_nonneg D). pose proof (zlen_nonneg rs).
  rewrite (size_in_range (as_operand st) (as_j st)) by (rewrite Hj; lia).
  cbn [bind]. rewrite (size_in_range (as_operand st) (Z.of_nat k)) by (unfold zlen in *; lia).
  cbn [bind].
  replace (znth (as_j st) (sizes (as_operand st)) 0) with a.
  2:{ rewrite Hsz, Hj. unfold znth, zlen. rewrite Nat2Z.id.
      replace (length D) with (length (map ext D)) by apply length_map.
      rewrite nth_app_mid. reflexivity. }
  replace (znth (Z.of_nat k) (sizes (as_operand st)) 0) with (ext l).
  2:{ rewrite Hsz. unfold znth. rewrite Nat2Z.id.
      rewrite app_nth1 by (rewrite length_map; assumption).
      rewrite (nth_indep _ 0 (ext 0)) by (rewrite length_map; assumption).
      rewrite map_nth, Nk. reflexivity. }
  replace (a =? ext l) with false by (symmetry; apply Z.eqb_neq; assumption).
  reflexivity.
Qed.

End Labels.

(** ** The aligned operand *)

Lemma align_operand_ok (loi : list Z) (oi : Z) (i : nat) (A : Tensor) (w : string)
  (ext : Z -> Z) :
  let ls := map label_of (operand_chars w) in
  let sl := fun l => znth l loi 0 in
  0 <= oi -> (forall l, 0 <= ext l) ->
  Forall (fun c => is_label c = true) (operand_chars w) ->
  sizes A = map ext ls ->
  (forall l, In l ls -> 0 <= sl l < oi) ->
  (forall l l', In l ls -> In l' ls -> sl l = sl l' -> l = l') ->
  exists B,
    align_operand loi oi i A w = inr B /\
    length (sizes B) = Z.to_nat oi /\
    (forall l, In l ls -> nth (Z.to_nat (sl l)) (sizes B) 0 = ext l) /\
    (forall t, (t < Z.to_nat oi)%nat -> ~ In (Z.of_nat t) (map sl ls) ->
               nth t (sizes B) 0 = 1) /\
    (forall idx, length idx = Z.to_nat oi ->
       elem B idx = elem A (map (fun l => znth (sl l) idx 0) ls)).
Proof.
  intros ls sl Hoi Hext Hlab HA Hrange Hinj.
  unfold align_operand.
  destruct (label_loop loi i oi A ext Hext (list_ascii_of_string w) []
              (mkAlignState A (repeat (-1) (Z.to_nat oi)) (repeat (-1) (Z.to_nat total_labels)) 0)
              [] []) as ([T0 ps ld j] & Hloop & Hinv).
  - exact Hlab.
  - intros c Hc. apply Hrange. unfold ls. apply in_map. exact Hc.
  - unfold labels_placed. cbn [as_operand perm_shape label_dim as_j map place app length].
    split; [constructor|]. split; [reflexivity|]. split; [reflexivity|].
    split; [apply zlen_repeat|]. split.
    { intros l Hl. cbn [existsb]. apply znth_repeat. unfold total_labels in *. lia. }
    split; [reflexivity|]. split; [rewrite app_nil_r; exact HA|].
    intros x y Lx _. apply length_zero_iff_nil in Lx. subst x. reflexivity.
  - rewrite Hloop. cbn [bind].
    fold (operand_chars w) in Hinv. fold ls in Hinv. cbn [app] in Hinv.
    set (D := firsts [] ls) in *.
    destruct Hinv as (ND & Hin & Hj & _ & _ & Hps & Hsz & Hel).
    cbn [as_operand perm_shape label_dim as_j] in *. rewrite app_nil_r in Hsz.
    assert (SND : NoDup (map sl D)).
    { apply NoDup_map_NoDup_ForallPairs; [|assumption]. intros a b Ha Hb.
      apply Hinj; apply Hin; assumption. }
    assert (SR : Forall (fun s => 0 <= s < oi) (map sl D)).
    { apply Forall_forall. intros s Hs. apply in_map_iff in Hs. destruct Hs as (l & <- & Hl).
      apply Hrange. apply Hin. assumption. }
    destruct (align_finish T0 (map sl D) ld oi Hoi SND SR) as (B & HB & LB & SB & EB).
    { rewrite Hsz, !length_map. reflexivity. }
    subst ps. subst j.
    replace (zlen D) with (zlen (map sl D)) by (unfold zlen; rewrite length_map; reflexivity).
    cbn [as_operand perm_shape].
    change (map (fun l => znth l loi 0) D) with (map sl D). rewrite HB.
    exists B. split; [reflexivity|]. split; [assumption|]. split; [|split].
    + intros l Hl. pose proof (Hrange l Hl) as Rl.
      rewrite SB by lia. rewrite Z2Nat.id by lia.
      assert (Hin' : In (sl l) (map sl D)) by (apply in_map; apply Hin; assumption).
      replace (existsb (Z.eqb (sl l)) (map sl D)) with true
        by (symmetry; apply existsb_eqb_In; assumption).
      destruct (index_of_In _ _ Hin') as [Lk Nk]. rewrite length_map in Lk.
      set (k := index_of (sl l) (map sl D)) in *.
      rewrite (nth_indep _ 0 (sl 0)) in Nk by (rewrite length_map; assumption).
      rewrite map_nth in Nk.
      assert (El : nth k D 0 = l).
      { apply Hinj; [apply Hin; apply nth_In; assumption|assumption|assumption]. }
      rewrite Hsz. rewrite (nth_indep _ 0 (ext 0)) by (rewrite length_map; assumption).
      rewrite map_nth, El. reflexivity.
    + intros t Ht Hnot. rewrite SB by assumption.
      replace (existsb (Z.eqb (Z.of_nat t)) (map sl D)) with false; [reflexivity|].
      symmetry. apply not_true_is_false. rewrite existsb_eqb_In. intros H. apply Hnot.
      apply in_map_iff in H. destruct H as (l & E & Hl). apply in_map_iff.
      exists l. split; [assumption|]. apply Hin. assumption.
    + intros idx Hidx. rewrite (EB idx Hidx).
      rewrite <- (app_nil_r (map (fun s => znth s idx 0) (map sl D))).
      rewrite Hel by (rewrite ?length_map; reflexivity).
      rewrite app_nil_r. f_equal. apply map_ext_in. intros l Hl.
      apply Hin in Hl. destruct (index_of_In l D Hl) as [Lk Nk].
      rewrite map_map.
      rewrite (nth_indep _ 0 ((fun x => znth (sl x) idx 0) 0)) by (rewrite length_map; assumption).
      rewrite (map_nth (fun x => znth (sl x) idx 0)), Nk. reflexivity.
Qed.

Lemma nonspace_app a b : nonspace (a ++ b) = nonspace a ++ nonspace b.
Proof. unfold nonspace. apply filter_app. Qed.

(** A subscript met again on an axis of another extent stops the
    alignment. *)
Lemma align_operand_mismatch (loi : list Z) (oi : Z) (i : nat) (A : Tensor) (w : string)
  (ext : Z -> Z) (cs1 cs2 : list ascii) (c : ascii) (a : Z) (rs : list Z) :
  (forall l, 0 <= ext l) ->
  list_ascii_of_string w = cs1 ++ c :: cs2 ->
  is_space c = false -> is_label c = true ->
  Forall (fun c => is_label c = true) (nonspace cs1) ->
  (forall c, In c (nonspace cs1) -> 0 <= znth (label_of c) loi 0 < oi) ->
  In c (nonspace cs1) ->
  sizes A = map ext (map label_of (nonspace cs1)) ++ a :: rs ->
  a <> ext (label_of c) ->
  align_operand loi oi i A w = inl (EinsumRepeatedSize c i a (ext (label_of c))).
Proof.
  intros Hext Hw Hs Hl HF HR Hin HA Hne.
  unfold align_operand. rewrite Hw, foldM_app.
  destruct (label_loop loi i oi A ext Hext cs1 (a :: rs)
              (mkAlignState A (repeat (-1) (Z.to_nat oi)) (repeat (-1) (Z.to_nat total_labels)) 0)
              [] [] HF HR) as (st & Hloop & Hinv).
  - unfold labels_placed. cbn [as_operand perm_shape label_dim as_j map place app length].
    split; [constructor|]. split; [reflexivity|]. split; [reflexivity|].
    split; [apply zlen_repeat|]. split.
    { intros l Rl. cbn [existsb]. apply znth_repeat. unfold total_labels in *. lia. }
    split; [reflexivity|]. split; [exact HA|].
    intros x y Lx _. apply length_zero_iff_nil in Lx. subst x. reflexivity.
  - rewrite Hloop. cbn [bind foldM].
    rewrite (label_step_mismatch loi i oi A ext c st _ _ rs a Hs Hl Hinv); [reflexivity| |assumption].
    destruct Hinv as (_ & Hiff & _). apply Hiff. cbn [app]. apply in_map. assumption.
Qed.

(** * The result of einsum *)

(** ** The sum over the trailing slots *)

Lemma sumZ_indices_snoc T : forall x f,
  sumZ (indices (T ++ [x])) f =
  sumZ (indices T) (fun c => sumZ (zrange x) (fun j => f (c ++ [j]))).
Proof.
  induction T as [|n T IH]; intros x f.
  - cbn [app]. rewrite sumZ_indices_cons. cbn [indices sumZ fold_right app].
    rewrite Z.add_0_r. apply sumZ_ext. intros v. lia.
  - cbn [app]. rewrite !sumZ_indices_cons. apply sumZ_ext. intros v.
    rewrite IH. reflexivity.
Qed.

Lemma sum_mask_trailing mask S : forall T P,
  sizes P = S ++ T ->
  (forall i, (length S <= i < length S + length T)%nat -> nth i mask false = true) ->
  (forall i, (i < length S)%nat -> nth i mask false = false) ->
  sizes (sum_mask P mask (length S + length T) false) = S /\
  forall o, length o = length S ->
    elem (sum_mask P mask (length S + length T) false) o =
    sumZ (indices T) (fun c => elem P (o ++ c)).
Proof.
  induction T as [|x T IH] using rev_ind; intros P HP Ht Hf.
  - cbn [length]. rewrite Nat.add_0_r. rewrite sum_mask_none by assumption.
    rewrite app_nil_r in HP. split; [assumption|]. intros o Ho.
    cbn [indices sumZ fold_right]. rewrite app_nil_r. lia.
  - rewrite length_app. cbn [length].
    replace (length S + (length T + 1))%nat with (Datatypes.S (length S + length T)) by lia.
    cbn [sum_mask]. rewrite Ht by (rewrite length_app; cbn [length]; lia).
    set (d := (length S + length T)%nat).
    destruct (IH (sum_axis P d false)) as [I1 I2].
    + unfold sum_axis. cbn [sizes]. rewrite HP. cbn [app].
      rewrite app_assoc. 
      replace d with (length (S ++ T)) by (rewrite length_app; reflexivity).
      rewrite firstn_app_exact.
      replace (Datatypes.S (length (S ++ T))) with (length ((S ++ T) ++ [x]))
        by (rewrite length_app; cbn [length]; lia).
      rewrite skipn_all. apply app_nil_r.
    + intros i Hi. apply Ht. rewrite length_app. cbn [length]. lia.
    + assumption.
    + split; [assumption|]. intros o Ho. rewrite I2 by assumption.
      rewrite sumZ_indices_snoc. apply sumZ_ext_in. intros c Hc.
      apply In_indices in Hc. apply valid_index_length in Hc.
      unfold sum_axis. cbn [elem].
      replace (nth d (sizes P) 0) with x.
      2:{ rewrite HP, app_assoc. unfold d.
          replace (length S + length T)%nat with (length (S ++ T)) by (rewrite length_app; reflexivity).
          rewrite nth_app_mid. reflexivity. }
      apply sumZ_ext. intros j.
      replace d with (length (o ++ c)) by (rewrite length_app; unfold d; lia).
      rewrite firstn_all, skipn_all. rewrite <- app_assoc. reflexivity.
Qed.

Lemma NoDup_iota k s : NoDup (iota k s).
Proof.
  unfold iota. apply Injective_map_NoDup; [|apply NoDup_zrange]. intros x y H. lia.
Qed.

Lemma sum_trailing (P : Tensor) (S T : list Z) :
  sizes P = S ++ T -> T <> [] ->
  exists R,
    sum P (iota (zlen T) (zlen S)) false = inr R /\
    sizes R = S /\
    forall o, length o = length S -> elem R o = sumZ (indices T) (fun c => elem P (o ++ c)).
Proof.
  intros HP HT.
  assert (Hd : dim P = zlen S + zlen T) by (unfold dim; rewrite HP; apply zlen_app).
  pose proof (zlen_nonneg S) as HS0. pose proof (zlen_nonneg T) as HT0.
  assert (HT1 : 0 < zlen T) by (destruct T; [contradiction|rewrite zlen_cons; pose proof (zlen_nonneg T); lia]).
  destruct (dim_list_to_bitset_ok (iota (zlen T) (zlen S)) (dim P)) as [mask [Hm Hbit]].
  { apply Forall_forall. intros x Hx. apply In_iota in Hx. lia. }
  { apply NoDup_iota. }
  unfold sum. destruct (iota (zlen T) (zlen S)) as [|d0 ds] eqn:Ei.
  { exfalso. apply (f_equal (@length Z)) in Ei. unfold iota in Ei.
    rewrite length_map, length_zrange in Ei. cbn [length] in Ei. lia. }
  rewrite <- Ei in *. clear Ei. rewrite Hm. cbn [bind ret].
  rewrite HP, length_app.
  destruct (sum_mask_trailing mask S T P HP) as [I1 I2].
  - intros i Hi.
    assert (Hi' : bit mask (Z.of_nat i) = true).
    { apply Hbit; [lia|]. apply In_iota. unfold zlen. lia. }
    unfold bit, znth in Hi'. rewrite Nat2Z.id in Hi'. exact Hi'.
  - intros i Hi. destruct (nth i mask false) eqn:E; [|reflexivity]. exfalso.
    assert (Hb : bit mask (Z.of_nat i) = true) by (unfold bit, znth; rewrite Nat2Z.id; exact E).
    apply Hbit in Hb; [|lia]. apply In_iota in Hb. unfold zlen in Hb. lia.
  - eexists. split; [reflexivity|]. split; assumption.
Qed.

(** ** The product of the aligned operands *)

Lemma broadcast_dims_compat a b :
  Forall2 (fun x y => x = y \/ x = 1 \/ y = 1) a b ->
  broadcast_dims a b = inr (product_sizes a b).
Proof.
  induction 1 as [|x y a b Hxy H IH]; cbn [broadcast_dims product_sizes zipWith].
  - reflexivity.
  - unfold broadcast_dim.
    replace ((x =? y) || (x =? 1) || (y =? 1)) with true.
    + cbn [TORCH_CHECK bind ret]. rewrite IH. reflexivity.
    + symmetry. destruct Hxy as [-> | [-> | ->]]; rewrite ?Z.eqb_refl, ?orb_true_r; reflexivity.
Qed.

Lemma mul_compat a b :
  Forall2 (fun x y => x = y \/ x = 1 \/ y = 1) (sizes a) (sizes b) ->
  mul a b = inr (product_of a b).
Proof.
  intros H. unfold mul, broadcast_op, infer_size.
  pose proof (Forall2_length H) as L. rewrite <- L, Nat.max_id.
  unfold pad_left. rewrite Nat.sub_diag. rewrite L at 1. rewrite Nat.sub_diag. cbn [repeat app].
  rewrite broadcast_dims_compat by assumption. reflexivity.
Qed.

Lemma zipWith_map {A B C D} (h : B -> C -> D) (f : A -> B) (g : A -> C) l :
  zipWith h (map f l) (map g l) = map (fun x => h (f x) (g x)) l.
Proof. induction l as [|x l IH]; cbn [map zipWith]; [reflexivity|]. rewrite IH. reflexivity. Qed.

Lemma Forall2_map_same {A B C} (R : B -> C -> Prop) (f : A -> B) (g : A -> C) l :
  (forall x, In x l -> R (f x) (g x)) -> Forall2 R (map f l) (map g l).
Proof.
  induction l as [|x l IH]; intros H; cbn [map]; constructor.
  - apply H. left. reflexivity.
  - apply IH. intros y Hy. apply H. right. assumption.
Qed.

Section Slots.
Variable E : list Z.

Lemma length_masked M : length (masked M E) = length E.
Proof. unfold masked. rewrite length_map, length_zrange. unfold zlen. lia. Qed.

Lemma nth_masked M t :
  (t < length E)%nat ->
  nth t (masked M E) 0 = if M (Z.of_nat t) then nth t E 0 else 1.
Proof.
  intros Ht. unfold masked.
  rewrite (nth_indep _ 0 ((fun t => if M t then znth t E 0 else 1) 0))
    by (rewrite length_map, length_zrange; unfold zlen; lia).
  rewrite (map_nth (fun t => if M t then znth t E 0 else 1)).
  rewrite nth_zrange by (unfold zlen; lia). unfold znth. rewrite Nat2Z.id. reflexivity.
Qed.

Lemma masked_compat M M' :
  Forall2 (fun x y => x = y \/ x = 1 \/ y = 1) (masked M E) (masked M' E).
Proof.
  unfold masked. apply Forall2_map_same. intros t _.
  destruct (M t), (M' t); auto.
Qed.

Lemma masked_product M M' :
  product_sizes (masked M E) (masked M' E) = masked (fun t => M t || M' t) E.
Proof.
  unfold product_sizes, masked. rewrite zipWith_map. apply map_ext. intros t.
  destruct (M t), (M' t); cbn [orb]; try reflexivity;
    destruct (Z.eqb_spec (znth t E 0) 1); congruence.
Qed.

Lemma masked_ext M M' :
  (forall t, 0 <= t < zlen E -> M t = M' t) -> masked M E = masked M' E.
Proof.
  intros H. unfold masked. apply map_ext_in. intros t Ht. apply In_zrange in Ht.
  rewrite H by assumption. reflexivity.
Qed.

Lemma masked_all M : (forall t, 0 <= t < zlen E -> M t = true) -> masked M E = E.
Proof.
  intros H. apply (nth_ext _ _ 0 0); [apply length_masked|].
  intros t Ht. rewrite length_masked in Ht. rewrite nth_masked by assumption.
  rewrite H by (unfold zlen; lia). reflexivity.
Qed.

Lemma broadcast_coords_masked M M2 idx :
  length idx = length E ->
  (forall t, M t = true -> M2 t = true) ->
  broadcast_coords (masked M E) (broadcast_coords (masked M2 E) idx) =
  broadcast_coords (masked M E) idx.
Proof.
  intros L H.
  assert (L2 : length (broadcast_coords (masked M2 E) idx) = length E).
  { rewrite length_broadcast_coords; rewrite length_masked; lia. }
  assert (L3 : length (broadcast_coords (masked M E) (broadcast_coords (masked M2 E) idx)) =
               length E).
  { rewrite length_broadcast_coords; rewrite length_masked; lia. }
  assert (L4 : length (broadcast_coords (masked M E) idx) = length E).
  { rewrite length_broadcast_coords; rewrite length_masked; lia. }
  apply (nth_ext _ _ 0 0); [lia|].
  intros k Hk. rewrite L3 in Hk.
  rewrite (nth_broadcast_coords (masked M E)) by (rewrite length_masked; lia).
  rewrite (nth_broadcast_coords (masked M2 E)) by (rewrite length_masked; lia).
  rewrite (nth_broadcast_coords (masked M E)) by (rewrite length_masked; lia).
  rewrite !nth_masked by assumption.
  destruct (M (Z.of_nat k)) eqn:E1.
  - rewrite (H _ E1). destruct (nth k E 0 =? 1); reflexivity.
  - reflexivity.
Qed.

Lemma mul_aligned P B M M' f g :
  aligned E P M f -> aligned E B M' g ->
  exists P', mul P B = inr P' /\
             aligned E P' (fun t => M t || M' t) (fun idx => f idx * g idx).
Proof.
  intros [SP EP] [SB EB]. exists (product_of P B). split.
  - apply mul_compat. rewrite SP, SB. apply masked_compat.
  - split.
    + cbn [sizes product_of]. rewrite SP, SB. apply masked_product.
    + intros idx Hv. pose proof (valid_index_length _ _ Hv) as L.
      cbn [sizes elem product_of].
      rewrite !expand_index_same.
      2,3: rewrite length_broadcast_coords; rewrite SP, SB, masked_product, ?length_masked;
           try reflexivity; lia.
      rewrite SP, SB, masked_product.
      rewrite !broadcast_coords_masked; try assumption.
      * rewrite <- SP at 1. rewrite <- SB at 1. rewrite EP, EB by assumption. reflexivity.
      * intros t Ht. rewrite Ht. apply orb_true_r.
      * intros t Ht. rewrite Ht. reflexivity.
Qed.

End Slots.

Lemma valid_index_nth s idx t :
  valid_index s idx -> (t < length s)%nat -> 0 <= nth t idx 0 < nth t s 0.
Proof.
  revert idx t. induction s as [|n s IH]; intros [|i idx] t H L; cbn [valid_index length] in *;
    try tauto; try lia.
  destruct H as [H1 H2]. destruct t as [|t]; cbn [nth]; [assumption|]. apply IH; [assumption|lia].
Qed.

(** ** One operand on the slots *)

Section Plan.
Variables (pl : plan) (E : list Z).
Hypothesis E_length : zlen E = out_index pl.
Hypothesis E_wf : wf_sizes E.

(** What the theorem asks of an operand and its subscripts. *)
Let fits (A : Tensor) (w : string) : Prop :=
  sizes A = map (fun c => znth (slot pl c) E 0) (operand_chars w) /\
  (forall c, In c (operand_chars w) ->
     is_label c = true /\ 0 <= slot pl c < out_index pl /\
     znth (slot pl c) (permuted_labels pl) 0 = label_of c).

Lemma znth_wf t : 0 <= znth t E 0.
Proof.
  unfold znth. destruct (Nat.lt_ge_cases (Z.to_nat t) (length E)) as [H|H].
  - apply (proj1 (Forall_forall _ _) E_wf). apply nth_In. assumption.
  - rewrite nth_overflow by assumption. lia.
Qed.

Lemma align_one (A : Tensor) (w : string) (i : nat) :
  fits A w ->
  exists B,
    align_operand (label_out_index pl) (out_index pl) i A w = inr B /\
    aligned E B (carried pl w) (factor pl (A, w)).
Proof.
  intros (HA & Hsl).
  pose proof (zlen_nonneg E) as Hoi. rewrite E_length in Hoi.
  assert (Ln : Z.to_nat (out_index pl) = length E) by (unfold zlen in E_length; lia).
  set (ls := map label_of (operand_chars w)).
  set (sl := fun l => znth l (label_out_index pl) 0).
  assert (Hls : forall l, In l ls -> exists c, In c (operand_chars w) /\ label_of c = l).
  { intros l Hl. apply in_map_iff in Hl. destruct Hl as (c & <- & Hc). exists c. tauto. }
  destruct (align_operand_ok (label_out_index pl) (out_index pl) i A w
              (fun l => znth (sl l) E 0) Hoi)
    as (B & HB & LB & SB1 & SB2 & EB).
  - intros l. apply znth_wf.
  - apply Forall_forall. intros c Hc. apply Hsl. assumption.
  - rewrite HA. fold ls. unfold ls. rewrite map_map. reflexivity.
  - intros l Hl. destruct (Hls l Hl) as (c & Hc & <-). apply (Hsl c Hc).
  - intros l l' Hl Hl' Heq.
    destruct (Hls l Hl) as (c & Hc & <-). destruct (Hls l' Hl') as (c' & Hc' & <-).
    destruct (Hsl c Hc) as (_ & _ & E1). destruct (Hsl c' Hc') as (_ & _ & E2).
    change (slot pl c = slot pl c') in Heq. rewrite <- E1, <- E2, Heq. reflexivity.
  - exists B. split; [assumption|]. fold ls in SB1, SB2, EB. fold sl in SB1, SB2, EB.
    assert (Hcar : forall t, carried pl w t = existsb (Z.eqb t) (map sl ls)).
    { intros t. unfold carried, ls. rewrite map_map. reflexivity. }
    assert (HsB : sizes B = masked (carried pl w) E).
    { apply (nth_ext _ _ 0 0); [rewrite length_masked; lia|].
      intros t Ht. rewrite LB in Ht. rewrite nth_masked by lia. rewrite Hcar.
      destruct (existsb (Z.eqb (Z.of_nat t)) (map sl ls)) eqn:Ec.
      - apply existsb_eqb_In in Ec. apply in_map_iff in Ec. destruct Ec as (l & El & Hl).
        pose proof (SB1 l Hl) as H1.
        change (nth (Z.to_nat (sl l)) (sizes B) 0 = znth (sl l) E 0) in H1.
        rewrite El, Nat2Z.id in H1. rewrite H1.
        unfold znth. rewrite Nat2Z.id. reflexivity.
      - apply SB2; [assumption|]. intros H. apply existsb_eqb_In in H. congruence. }
    split; [assumption|].
    intros idx Hv. pose proof (valid_index_length _ _ Hv) as Li.
    rewrite EB.
    2:{ rewrite length_broadcast_coords; rewrite HsB, length_masked; lia. }
    unfold factor, coords. cbn [fst snd]. f_equal. unfold ls. rewrite map_map.
    apply map_ext_in. intros c Hc.
    destruct (Hsl c Hc) as (_ & Rc & _).
    cbv beta. unfold sl.
    change (znth (label_of c) (label_out_index pl) 0) with (slot pl c).
    set (t := slot pl c) in *.
    unfold znth.
    rewrite nth_broadcast_coords; rewrite HsB, ?length_masked; try lia.
    rewrite nth_masked by lia. rewrite Z2Nat.id by lia.
    replace (carried pl w t) with true.
    + destruct (Z.eqb_spec (nth (Z.to_nat t) E 0) 1) as [e|]; [|reflexivity].
      pose proof (valid_index_nth E idx (Z.to_nat t) Hv ltac:(lia)). lia.
    + symmetry. unfold carried. apply existsb_eqb_In. unfold t. apply in_map. assumption.
Qed.

Lemma align_all (operands : list Tensor) (ws : list string) : forall i,
  Forall2 fits operands ws ->
  exists Bs,
    align_operands (label_out_index pl) (out_index pl) i operands ws = inr Bs /\
    Forall2 (fun B aw => aligned E B (carried pl (snd aw)) (factor pl aw))
            Bs (combine operands ws).
Proof.
  intros i H. revert i. induction H as [|A w operands ws HA H IH]; intros i.
  - exists []. split; [reflexivity|constructor].
  - cbn [align_operands combine].
    destruct (align_one A w i HA) as (B & HB & AB). rewrite HB. cbn [bind].
    destruct (IH (S i)) as (Bs & HBs & ABs). rewrite HBs. cbn [bind ret].
    exists (B :: Bs). split; [reflexivity|]. constructor; assumption.
Qed.

Lemma mul_chain (Bs : list Tensor) (aws : list (Tensor * string)) : forall P M f,
  aligned E P M f ->
  Forall2 (fun B aw => aligned E B (carried pl (snd aw)) (factor pl aw)) Bs aws ->
  exists P',
    foldM mul Bs P = inr P' /\
    aligned E P' (fun t => M t || existsb (fun aw => carried pl (snd aw) t) aws)
            (fun idx => f idx * prodZ (map (fun aw => factor pl aw idx) aws)).
Proof.
  intros P M f HP H. revert P M f HP.
  induction H as [|B aw Bs aws HB H IH]; intros P M f HP.
  - exists P. split; [reflexivity|]. destruct HP as [SP EP]. split.
    + rewrite SP. apply masked_ext. intros t _. cbn [existsb]. rewrite orb_false_r. reflexivity.
    + intros idx Hv. rewrite EP by assumption. cbn [map]. unfold prodZ. cbn [fold_right]. lia.
  - cbn [foldM]. destruct (mul_aligned E P B _ _ _ _ HP HB) as (P1 & H1 & A1).
    rewrite H1. cbn [bind].
    destruct (IH _ _ _ A1) as (P' & H' & [SP' EP']). exists P'. split; [assumption|]. split.
    + rewrite SP'. apply masked_ext. intros t _. cbn [existsb]. rewrite orb_assoc. reflexivity.
    + intros idx Hv. rewrite EP' by assumption. cbn [map]. rewrite prodZ_cons. lia.
Qed.

End Plan.

(** ** The theorem *)

Lemma Forall2_strengthen {A B} (P Q : A -> B -> Prop) l1 l2 :
  Forall2 P l1 l2 -> (forall x y, In y l2 -> P x y -> Q x y) -> Forall2 Q l1 l2.
Proof.
  induction 1 as [|a b l1 l2 Hab H IH]; intros HQ; constructor.
  - apply HQ; [left; reflexivity|assumption].
  - apply IH. intros x y Hy. apply HQ. right. assumption.
Qed.

Lemma in_combine_r_exists {A B} (l1 : list A) (l2 : list B) y :
  length l1 = length l2 -> In y l2 -> exists x, In (x, y) (combine l1 l2).
Proof.
  revert l2. induction l1 as [|a l1 IH]; intros [|b l2] L Hy; cbn [length] in L;
    try discriminate; [destruct Hy|].
  destruct Hy as [<-|Hy].
  - exists a. left. reflexivity.
  - destruct (IH l2 ltac:(lia) Hy) as [x Hx]. exists x. right. assumption.
Qed.

Lemma einsum_result (equation : string) (operands : list Tensor) (ws : list string)
  (pl : plan) (out_size : Z) (E : list Z) :
  einsum_plan equation operands = inr (ws, pl, out_size) ->
  zlen E = out_index pl -> wf_sizes E ->
  Forall2 (fun A w => sizes A = map (fun c => znth (slot pl c) E 0) (operand_chars w))
          operands ws ->
  exists R,
    einsum equation operands = inr R /\
    sizes R = firstn (Z.to_nat out_size) E /\
    forall o, valid_index (sizes R) o ->
      elem R o =
      sumZ (indices (skipn (Z.to_nat out_size) E))
           (fun c => prodZ (map (fun aw => factor pl aw (o ++ c)) (combine operands ws))).
Proof.
  intros Hplan HE HwfE Hops.
  destruct (plan_slots _ _ _ _ _ Hplan) as [Hslot Hcover].
  destruct (einsum_plan_ok _ _ _ _ _ Hplan) as (_ & Hne & _ & _ & Hos & _).
  pose proof (Forall2_length Hops) as Hlen.
  destruct (align_all pl E HE HwfE operands ws 0%nat) as (Bs & HBs & HA).
  { eapply Forall2_strengthen; [exact Hops|]. intros A w Hw HsA.
    split; [assumption|]. intros c Hc. exact (Hslot w c Hw Hc). }
  unfold einsum. rewrite Hplan. cbn [bind]. rewrite HBs. cbn [bind].
  destruct operands as [|A0 operands]; [contradiction|].
  destruct ws as [|w0 ws]; [discriminate|].
  cbn [combine] in HA |- *. inversion HA as [|B0 aw0 rest aws HB0 Hrest]; subst.
  unfold einsum_compute.
  destruct (mul_chain pl E rest (combine operands ws) B0 _ _ HB0 Hrest) as (P & HP & [SP EP]).
  rewrite HP. cbn [bind].
  assert (SP' : sizes P = E).
  { rewrite SP. apply masked_all. intros t Ht. rewrite HE in Ht.
    destruct (Hcover t Ht) as (w & c & Hw & Hc & Hs).
    assert (Hcar : carried pl w t = true).
    { unfold carried. apply existsb_eqb_In. rewrite <- Hs. apply in_map. assumption. }
    destruct Hw as [<-|Hw]; [cbn [snd]; rewrite Hcar; reflexivity|].
    destruct (in_combine_r_exists operands ws w) as [A HAw]; [cbn [length] in Hlen; lia|assumption|].
    apply orb_true_iff. right. apply existsb_exists. exists (A, w). split; assumption. }
  assert (EP' : forall idx, valid_index E idx ->
            elem P idx = prodZ (map (fun aw => factor pl aw idx) ((A0, w0) :: combine operands ws))).
  { intros idx Hv. rewrite <- (broadcast_coords_valid E idx Hv) at 1.
    rewrite <- SP' at 1. rewrite EP by assumption. cbn [map]. rewrite prodZ_cons. reflexivity. }
  clear SP EP.
  pose proof (zlen_nonneg E) as HE0.
  assert (LS : length (firstn (Z.to_nat out_size) E) = Z.to_nat out_size).
  { rewrite length_firstn. unfold zlen in *. lia. }
  destruct (out_size <? out_index pl) eqn:Elt.
  - apply Z.ltb_lt in Elt.
    destruct (sum_trailing P (firstn (Z.to_nat out_size) E) (skipn (Z.to_nat out_size) E))
      as (R & HR & SR & ER).
    + rewrite firstn_skipn. assumption.
    + intros Hnil. apply (f_equal (@length Z)) in Hnil. rewrite length_skipn in Hnil.
      cbn [length] in Hnil. unfold zlen in *. lia.
    + replace (zlen (skipn (Z.to_nat out_size) E)) with (out_index pl - out_size) in HR
        by (unfold zlen in *; rewrite length_skipn; lia).
      replace (zlen (firstn (Z.to_nat out_size) E)) with out_size in HR
        by (unfold zlen in *; rewrite LS; lia).
      exists R. split; [assumption|]. split; [assumption|].
      intros o Ho. rewrite SR in Ho. rewrite ER by (apply valid_index_length; assumption).
      apply sumZ_ext_in. intros c Hc. apply In_indices in Hc.
      apply EP'. rewrite <- (firstn_skipn (Z.to_nat out_size) E).
      apply valid_index_app; [apply valid_index_length; assumption|]. split; assumption.
  - apply Z.ltb_ge in Elt. assert (out_size = out_index pl) by lia. subst out_size.
    exists P. split; [reflexivity|].
    assert (Hall : Z.to_nat (out_index pl) = length E) by (unfold zlen in *; lia).
    rewrite Hall, firstn_all, skipn_all. split; [assumption|].
    intros o Ho. rewrite SP' in Ho. cbn [indices sumZ fold_right]. rewrite app_nil_r.
    rewrite EP' by assumption. lia.
Qed.

(** [einsum] gives every subscript of the operands one slot: the output
    subscripts first, in the order written after the arrow, then the
    contracted ones; different subscripts have different slots, and every
    slot carries a subscript of some operand. *)
Theorem einsum_slots (equation : string) (operands : list Tensor) (ws : list string)
  (pl : plan) (out_size : Z) :
  einsum_plan equation operands = inr (ws, pl, out_size) ->
  0 <= out_size <= out_index pl /\
  zlen (permuted_labels pl) = out_index pl /\
  (forall w c, In w ws -> In c (operand_chars w) ->
     0 <= slot pl c < out_index pl /\
     znth (slot pl c) (permuted_labels pl) 0 = label_of c) /\
  (forall t, 0 <= t < out_index pl ->
     exists w c, In w ws /\ In c (operand_chars w) /\ slot pl c = t) /\
  (forall p, arrow_pos equation = Some p ->
     firstn (Z.to_nat out_size) (permuted_labels pl) =
     map label_of (nonspace (output_chars equation p))).
Proof.
  intros H. destruct (plan_slots _ _ _ _ _ H) as [Hslot Hcover].
  destruct (einsum_plan_ok _ _ _ _ _ H) as (_ & _ & _ & Hinv & Hos & _ & Hout).
  destruct Hinv as (_ & _ & I3 & _).
  split; [assumption|]. split; [assumption|]. split; [|split; assumption].
  intros w c Hw Hc. destruct (Hslot w c Hw Hc) as (_ & H1 & H2). split; assumption.
Qed.

Lemma einsum_slots_witness :
  0 <= 2 <= out_index plan_ij_jk /\
  zlen (permuted_labels plan_ij_jk) = out_index plan_ij_jk /\
  (forall w c, In w ["ij"; "jk"]%string -> In c (operand_chars w) ->
     0 <= slot plan_ij_jk c < out_index plan_ij_jk /\
     znth (slot plan_ij_jk c) (permuted_labels plan_ij_jk) 0 = label_of c) /\
  (forall t, 0 <= t < out_index plan_ij_jk ->
     exists w c, In w ["ij"; "jk"]%string /\ In c (operand_chars w) /\ slot plan_ij_jk c = t) /\
  (forall p, arrow_pos "ij,jk" = Some p ->
     firstn (Z.to_nat 2) (permuted_labels plan_ij_jk) =
     map label_of (nonspace (output_chars "ij,jk" p))).
Proof.
  apply (einsum_slots "ij,jk" [A22; B22] ["ij"; "jk"]%string plan_ij_jk 2). reflexivity.
Defined.

(** When the extents of the operands are those of their subscripts'
    slots, [einsum] returns the array over the output slots whose
    element is the sum, over the coordinates of the contracted slots, of
    the product of the operands' elements; an operand that repeats a
    subscript is read on its diagonal. *)
Theorem einsum_computes (equation : string) (operands : list Tensor) (ws : list string)
  (pl : plan) (out_size : Z) (E : list Z) :
  einsum_plan equation operands = inr (ws, pl, out_size) ->
  zlen E = out_index pl -> wf_sizes E ->
  Forall2 (fun A w => sizes A = map (fun c => znth (slot pl c) E 0) (operand_chars w))
          operands ws ->
  exists R,
    einsum equation operands = inr R /\
    sizes R = firstn (Z.to_nat out_size) E /\
    forall o, valid_index (sizes R) o ->
      elem R o =
      sumZ (indices (skipn (Z.to_nat out_size) E))
           (fun c => prodZ (map (fun aw => elem (fst aw) (coords pl (snd aw) (o ++ c)))
                                (combine operands ws))).
Proof. exact (einsum_result equation operands ws pl out_size E). Qed.

Lemma einsum_computes_witness :
  exists R,
    einsum "ij,jk" [A22; B22] = inr R /\
    sizes R = firstn (Z.to_nat 2) [2; 2; 2] /\
    forall o, valid_index (sizes R) o ->
      elem R o =
      sumZ (indices (skipn (Z.to_nat 2) [2; 2; 2]))
           (fun c => prodZ (map (fun aw => elem (fst aw) (coords plan_ij_jk (snd aw) (o ++ c)))
                                (combine [A22; B22] ["ij"; "jk"]%string))).
Proof.
  apply (einsum_computes "ij,jk" [A22; B22] ["ij"; "jk"]%string plan_ij_jk 2 [2; 2; 2]).
  - reflexivity.
  - reflexivity.
  - repeat constructor; lia.
  - constructor; [|constructor; [|constructor]]; reflexivity.
Defined.

(** * einsum in terms of the labels *)

Lemma einsum_plan_exists (equation : string) (operands : list Tensor) :
  operands <> [] ->
  Forall2 well_labelled operands (split_operand_labels equation) ->
  (forall p, arrow_pos equation = Some p ->
     NoDup (nonspace (output_chars equation p)) /\
     Forall (fun c => is_label c = true /\
                      0 < occurrences (split_operand_labels equation) (label_of c))
            (nonspace (output_chars equation p))) ->
  exists pl out_size,
    einsum_plan equation operands = inr (split_operand_labels equation, pl, out_size).
Proof.
  intros Hne HW Hout.
  set (st0 := mkParseState (repeat 0 (Z.to_nat total_labels))
                           (repeat size_t_max (Z.to_nat total_labels))).
  destruct (parse_operands_prefix operands (split_operand_labels equation) [] [] 0%nat st0 HW)
    as [st Hst].
  rewrite !app_nil_r in Hst.
  assert (Hst' : parse_operands operands (split_operand_labels equation) 0 st0 = inr st).
  { rewrite Hst. destruct (0 + length operands)%nat; reflexivity. }
  clear Hst.
  pose proof (Forall2_length HW) as Hlen.
  pose proof (parse_operands_label_count _ _ _ Hst' (eq_sym Hlen)) as Hlc.
  unfold einsum_plan.
  replace (negb match operands with [] => true | _ :: _ => false end) with true
    by (destruct operands; [contradiction|reflexivity]).
  cbn [TORCH_CHECK bind ret]. rewrite <- Hlen, Nat.eqb_refl. cbn [TORCH_CHECK bind ret].
  fold st0. rewrite Hst'. cbn [bind]. unfold build_plan.
  destruct (arrow_pos equation) as [p|] eqn:Harrow.
  - destruct (Hout p eq_refl) as [ND HF]. fold (output_chars equation p).
    destruct (explicit_output_fold_ok (output_chars equation p)
                (mkPlan (label_count st) (repeat (-1) (Z.to_nat total_labels)) [] 0))
      as (pl1 & H1 & _).
    + cbn [plan_label_count]. rewrite Hlc. unfold zlen. rewrite length_map, length_zrange.
      unfold total_labels. lia.
    + cbn [plan_label_count]. apply Forall_forall. intros x Hx.
      pose proof (proj1 (Forall_forall _ _) HF x Hx) as [Hxl Hxp]. split; [assumption|].
      rewrite Hlc, znth_map_zrange by (apply is_label_range; assumption). exact Hxp.
    + exact ND.
    + rewrite H1. cbn [bind ret]. eexists. eexists. reflexivity.
  - cbn [bind ret]. eexists. eexists. reflexivity.
Qed.

Lemma plan_labels_NoDup lc0 pl : plan_inv lc0 pl -> NoDup (permuted_labels pl).
Proof.
  intros (_ & _ & I3 & I4 & _). apply (NoDup_nth _ 0). intros i j Hi Hj E.
  unfold zlen in I3.
  destruct (I4 (Z.of_nat i) ltac:(lia)) as (_ & _ & A3).
  destruct (I4 (Z.of_nat j) ltac:(lia)) as (_ & _ & B3).
  unfold znth in A3, B3. rewrite !Nat2Z.id in *. rewrite E in A3. rewrite A3 in B3. lia.
Qed.

Lemma NoDup_app_apart {A} (l1 l2 : list A) x :
  NoDup (l1 ++ l2) -> In x l1 -> In x l2 -> False.
Proof.
  induction l1 as [|a l1 IH]; intros ND H1 H2; [destruct H1|].
  cbn [app] in ND. inversion ND as [|? ? Hn ND']; subst.
  destruct H1 as [->|H1].
  - apply Hn. apply in_or_app. right. assumption.
  - apply IH; assumption.
Qed.

Lemma znth_map_in {A} (f : A -> Z) (l : list A) (d : A) t :
  0 <= t < zlen l -> znth t (map f l) 0 = f (znth t l d).
Proof.
  intros H. unfold znth. rewrite (nth_indep _ 0 (f d)) by (rewrite length_map; unfold zlen in H; lia).
  apply map_nth.
Qed.

(** When every operand has one lower-case letter per axis, the
    operands' extents depend only on the letter, and the letters after
    the arrow are distinct letters of the operands, [einsum] returns the
    array over the output labels whose element is the sum, over the
    coordinates of the other labels of the operands, of the product of
    the operands' elements at the coordinates of their labels. *)
Theorem einsum_semantics (equation : string) (operands : list Tensor) (ext : Z -> Z) :
  operands <> [] ->
  (forall l, 0 <= ext l) ->
  Forall2 (fun A w =>
             Forall (fun c => is_label c = true) (operand_chars w) /\
             sizes A = map (fun c => ext (label_of c)) (operand_chars w))
          operands (split_operand_labels equation) ->
  (forall p, arrow_pos equation = Some p ->
     NoDup (nonspace (output_chars equation p)) /\
     Forall (fun c => is_label c = true /\
                      0 < occurrences (split_operand_labels equation) (label_of c))
            (nonspace (output_chars equation p))) ->
  exists R contracted,
    einsum equation operands = inr R /\
    sizes R = map ext (output_labels equation) /\
    NoDup (output_labels equation ++ contracted) /\
    (forall l, In l contracted <->
               0 <= l < total_labels /\
               0 < occurrences (split_operand_labels equation) l /\
               ~ In l (output_labels equation)) /\
    forall o, valid_index (sizes R) o ->
      elem R o =
      sumZ (indices (map ext contracted))
           (fun c => prodZ (map (fun aw =>
                                   elem (fst aw)
                                     (map (fun ch => coord_of (output_labels equation ++ contracted)
                                                              (o ++ c) (label_of ch))
                                          (operand_chars (snd aw))))
                                (combine operands (split_operand_labels equation)))).
Proof.
  intros Hne Hext Hops Hout.
  set (ws := split_operand_labels equation) in *.
  assert (HW : Forall2 well_labelled operands ws).
  { eapply Forall2_strengthen; [exact Hops|]. intros A w _ (F & S). split; [exact F|].
    unfold dim. rewrite S. unfold zlen. rewrite length_map. reflexivity. }
  destruct (einsum_plan_exists equation operands Hne HW Hout) as (pl & out_size & Hplan).
  fold ws in Hplan.
  destruct (plan_slots _ _ _ _ _ Hplan) as [Hslot Hcover].
  destruct (einsum_plan_ok _ _ _ _ _ Hplan) as (_ & _ & _ & Hinv & Hos & Hocc & Hexp).
  pose proof Hinv as (I1 & I2 & I3 & I4 & I5 & I6).
  pose proof (plan_labels_NoDup _ _ Hinv) as HND.
  set (E := map ext (permuted_labels pl)).
  assert (HE : zlen E = out_index pl) by (unfold E, zlen; rewrite length_map; exact I3).
  assert (Hfirst : firstn (Z.to_nat out_size) (permuted_labels pl) = output_labels equation).
  { unfold output_labels. destruct (arrow_pos equation) as [p|] eqn:Harrow.
    - apply Hexp. reflexivity.
    - destruct (implicit_output_plan _ _ _ _ _ Harrow Hplan) as (_ & _ & F). exact F. }
  set (contracted := skipn (Z.to_nat out_size) (permuted_labels pl)).
  assert (Hsplit : output_labels equation ++ contracted = permuted_labels pl).
  { rewrite <- Hfirst. apply firstn_skipn. }
  destruct (einsum_result equation operands ws pl out_size E Hplan HE) as (R & HR & SR & ER).
  { unfold E, wf_sizes. apply Forall_forall. intros x Hx. apply in_map_iff in Hx.
    destruct Hx as (l & <- & _). apply Hext. }
  { eapply Forall2_strengthen; [exact Hops|]. intros A w Hw (_ & S).
    rewrite S. apply map_ext_in. intros c Hc. destruct (Hslot w c Hw Hc) as (_ & Rc & Ec).
    unfold E. rewrite (znth_map_in ext _ 0) by lia. rewrite Ec. reflexivity. }
  exists R, contracted. split; [exact HR|]. split; [|split; [|split]].
  - rewrite SR. unfold E. rewrite firstn_map, Hfirst. reflexivity.
  - rewrite Hsplit. exact HND.
  - intros l. split.
    + intros Hl.
      assert (Hin : In l (permuted_labels pl)) by (rewrite <- Hsplit; apply in_or_app; right; exact Hl).
      apply (In_nth _ _ 0) in Hin. destruct Hin as (t & Ht & <-).
      unfold zlen in I3. destruct (I4 (Z.of_nat t) ltac:(lia)) as (A1 & A2 & _).
      unfold znth in A1, A2. rewrite Nat2Z.id in A1, A2.
      split; [exact A1|]. split.
      * change (nth (Z.to_nat (nth t (permuted_labels pl) 0)) (map (occurrences ws) (zrange total_labels)) 0)
          with (znth (nth t (permuted_labels pl) 0) (map (occurrences ws) (zrange total_labels)) 0) in A2.
        rewrite znth_map_zrange in A2 by assumption. exact A2.
      * intros Hin. rewrite <- Hsplit in HND.
        exact (NoDup_app_apart _ _ _ HND Hin Hl).
    + intros (Rl & Ol & Nl). pose proof (Hocc l Rl Ol) as Hne1.
      destruct (I5 l Rl) as [Em|[Rs Es]]; [contradiction|].
      assert (Hin : In l (permuted_labels pl)).
      { rewrite <- Es. set (t := znth l (label_out_index pl) 0) in *.
        unfold znth. apply nth_In. unfold zlen in I3. lia. }
      rewrite <- Hsplit in Hin. apply in_app_or in Hin. destruct Hin; [contradiction|assumption].
  - intros o Ho. rewrite (ER o Ho). unfold E. rewrite skipn_map. fold contracted.
    apply sumZ_ext. intros c. f_equal. apply map_ext_in. intros [A w] Haw.
    unfold factor, coords. cbn [fst snd]. f_equal. apply map_ext_in. intros ch Hch.
    apply in_combine_r in Haw. destruct (Hslot w ch Haw Hch) as (_ & Rc & Ec).
    unfold coord_of. rewrite Hsplit. set (t := slot pl ch) in *.
    rewrite <- Ec. unfold znth. rewrite index_of_nth; [reflexivity|exact HND|].
    unfold zlen in I3. lia.
Qed.

Lemma einsum_semantics_witness :
  exists R contracted,
    einsum "ii,ij->j" [A22; A23] = inr R /\
    sizes R = map (fun l => if l =? 9 then 3 else 2) (output_labels "ii,ij->j") /\
    NoDup (output_labels "ii,ij->j" ++ contracted) /\
    (forall l, In l contracted <->
               0 <= l < total_labels /\
               0 < occurrences (split_operand_labels "ii,ij->j") l /\
               ~ In l (output_labels "ii,ij->j")) /\
    forall o, valid_index (sizes R) o ->
      elem R o =
      sumZ (indices (map (fun l => if l =? 9 then 3 else 2) contracted))
           (fun c => prodZ (map (fun aw =>
                                   elem (fst aw)
                                     (map (fun ch => coord_of (output_labels "ii,ij->j" ++ contracted)
                                                              (o ++ c) (label_of ch))
                                          (operand_chars (snd aw))))
                                (combine [A22; A23] (split_operand_labels "ii,ij->j")))).
Proof.
  apply (einsum_semantics "ii,ij->j" [A22; A23] (fun l => if l =? 9 then 3 else 2)).
  - discriminate.
  - intros l. destruct (l =? 9); lia.
  - change (split_operand_labels "ii,ij->j") with ["ii"; "ij"]%string.
    constructor; [|constructor; [|constructor]].
    + split; [repeat constructor|reflexivity].
    + split; [repeat constructor|reflexivity].
  - intros p Hp. change (arrow_pos "ii,ij->j") with (Some 5%nat) in Hp.
    injection Hp as <-. split.
    + vm_compute. constructor; [intros []|constructor].
    + change (nonspace (output_chars "ii,ij->j" 5)) with ["j"]%char.
      constructor; [|constructor]. split; [reflexivity|vm_compute; reflexivity].
Defined.

(** * A repeated subscript on axes of different extents *)

Lemma align_operands_stop loi oi e (A : Tensor) (w : string) (opost : list Tensor)
  (wpost : list string) :
  forall (opre : list Tensor) (wpre : list string) (i : nat),
  Forall2 (fun B v => forall k, exists T, align_operand loi oi k B v = inr T) opre wpre ->
  align_operand loi oi (i + length opre) A w = inl e ->
  align_operands loi oi i (opre ++ A :: opost) (wpre ++ w :: wpost) = inl e.
Proof.
  intros opre wpre i H. revert i. induction H as [|B v opre wpre HB H IH]; intros i HA.
  - cbn [app align_operands length] in *. rewrite Nat.add_0_r in HA. rewrite HA. reflexivity.
  - cbn [app align_operands]. destruct (HB i) as [T ->]. cbn [bind].
    rewrite IH; [reflexivity|]. cbn [length] in HA.
    replace (S i + length opre)%nat with (i + S (length opre))%nat by lia. exact HA.
Qed.

(** When an operand repeats a subscript on an axis whose extent differs
    from the extent of the subscript's first axis, [einsum] stops with
    the error that names the subscript, the operand and the two extents;
    the operands before it are aligned, and the subscripts before the
    repeated one are consistent. *)
Theorem einsum_repeated_size_checked (equation : string) (pl : plan) (out_size : Z)
  (ext : Z -> Z) (opre opost : list Tensor) (A : Tensor) (wpre wpost : list string)
  (w : string) (cs1 cs2 : list ascii) (c : ascii) (a : Z) (rs : list Z) :
  einsum_plan equation (opre ++ A :: opost) = inr (wpre ++ w :: wpost, pl, out_size) ->
  (forall l, 0 <= ext l) ->
  Forall2 (fun B v => sizes B = map (fun ch => ext (label_of ch)) (operand_chars v)) opre wpre ->
  list_ascii_of_string w = cs1 ++ c :: cs2 ->
  is_space c = false -> In c (nonspace cs1) ->
  sizes A = map (fun ch => ext (label_of ch)) (nonspace cs1) ++ a :: rs ->
  a <> ext (label_of c) ->
  einsum equation (opre ++ A :: opost) =
  inl (EinsumRepeatedSize c (length opre) a (ext (label_of c))).
Proof.
  intros Hplan Hext Hpre Hw Hs Hin HA Hne.
  destruct (plan_slots _ _ _ _ _ Hplan) as [Hslot _].
  destruct (einsum_plan_ok _ _ _ _ _ Hplan) as (_ & _ & _ & _ & Hos & _).
  assert (Hoi : 0 <= out_index pl) by lia.
  assert (Hchars : operand_chars w = nonspace cs1 ++ c :: nonspace cs2).
  { unfold operand_chars. rewrite Hw, nonspace_app. unfold nonspace at 2. cbn [filter].
    rewrite Hs. reflexivity. }
  assert (Hw_in : In w (wpre ++ w :: wpost)) by (apply in_or_app; right; left; reflexivity).
  unfold einsum. rewrite Hplan. cbn [bind].
  rewrite (align_operands_stop (label_out_index pl) (out_index pl)
             (EinsumRepeatedSize c (length opre) a (ext (label_of c)))); [reflexivity| |].
  - eapply Forall2_strengthen; [exact Hpre|]. intros B v Hv HB k.
    assert (Hv_in : In v (wpre ++ w :: wpost)) by (apply in_or_app; left; assumption).
    destruct (align_operand_ok (label_out_index pl) (out_index pl) k B v ext Hoi Hext)
      as (T & HT & _).
    + apply Forall_forall. intros ch Hch. apply (Hslot v ch Hv_in Hch).
    + rewrite HB, map_map. reflexivity.
    + intros l Hl. apply in_map_iff in Hl. destruct Hl as (ch & <- & Hch).
      apply (Hslot v ch Hv_in Hch).
    + intros l l' Hl Hl' Heq.
      apply in_map_iff in Hl. destruct Hl as (ch & <- & Hch).
      apply in_map_iff in Hl'. destruct Hl' as (ch' & <- & Hch').
      destruct (Hslot v ch Hv_in Hch) as (_ & _ & E1).
      destruct (Hslot v ch' Hv_in Hch') as (_ & _ & E2).
      change (slot pl ch = slot pl ch') in Heq. rewrite <- E1, <- E2, Heq. reflexivity.
    + exists T. exact HT.
  - cbn [Nat.add].
    apply (align_operand_mismatch (label_out_index pl) (out_index pl) (length opre) A w ext
             cs1 cs2 c a rs Hext Hw Hs).
    + apply (Hslot w c Hw_in). rewrite Hchars. apply in_or_app. right. left. reflexivity.
    + apply Forall_forall. intros ch Hch. apply (Hslot w ch Hw_in).
      rewrite Hchars. apply in_or_app. left. assumption.
    + intros ch Hch. apply (Hslot w ch Hw_in). rewrite Hchars. apply in_or_app. left. assumption.
    + assumption.
    + rewrite HA, map_map. reflexivity.
    + assumption.
Qed.

Lemma einsum_repeated_size_checked_witness :
  einsum "ij,kk" [A22; A23] = inl (EinsumRepeatedSize "k" 1 3 2).
Proof.
  destruct (einsum_plan "ij,kk" [A22; A23]) as [e|[[ws pl] out_size]] eqn:Hplan;
    [revert Hplan; vm_compute; discriminate|].
  assert (Hws : ws = ["ij"; "kk"]%string).
  { revert Hplan. vm_compute. intros H. injection H as H _ _. symmetry. exact H. }
  subst ws.
  apply (einsum_repeated_size_checked "ij,kk" pl out_size (fun _ => 2) [A22] [] A23
           ["ij"%string] [] "kk" ["k"%char] [] "k" 3 [] Hplan).
  - intros l. lia.
  - constructor; [reflexivity|constructor].
  - reflexivity.
  - reflexivity.
  - left. reflexivity.
  - reflexivity.
  - lia.
Defined.

(** * The unrolled contraction of three operands *)

(** ** Sums over several axes *)

Lemma valid_index_of_nth s : forall idx,
  length idx = length s ->
  (forall t, (t < length s)%nat -> 0 <= nth t idx 0 < nth t s 0) ->
  valid_index s idx.
Proof.
  induction s as [|n s IH]; intros [|i idx] L H; simpl in *; try lia; auto.
  split.
  - apply (H O). lia.
  - apply IH; [lia|]. intros t Ht. apply (H (S t)). lia.
Qed.

Lemma valid_index_upd s idx d j :
  valid_index s idx -> 0 <= j < nth d s 0 -> valid_index s (upd d j idx).
Proof.
  intros V Hj. pose proof (valid_index_length _ _ V) as L.
  apply valid_index_of_nth.
  - rewrite length_upd. exact L.
  - intros t Ht. destruct (Nat.eq_dec d t) as [->|N].
    + rewrite nth_upd_same by lia. exact Hj.
    + rewrite nth_upd_other by exact N. apply valid_index_nth; assumption.
Qed.

Lemma msum_app ax1 : forall ax2 F idx,
  msum (ax1 ++ ax2) F idx = msum ax1 (fun x => msum ax2 F x) idx.
Proof.
  induction ax1 as [|[d e] ax1 IH]; intros ax2 F idx; simpl; [reflexivity|].
  apply sumZ_ext. intros j. apply IH.
Qed.

Lemma msum_mul_indep ax G : forall F idx,
  (forall d, In d (map fst ax) -> independent d G) ->
  msum ax F idx * G idx = msum ax (fun x => F x * G x) idx.
Proof.
  induction ax as [|[d e] ax IH]; intros F idx H; simpl; [reflexivity|].
  rewrite sumZ_mul_r. apply sumZ_ext. intros j.
  rewrite <- IH by (intros d' Hd'; apply H; simpl; auto).
  rewrite (H d (or_introl eq_refl)). reflexivity.
Qed.

Lemma msum_at ax a v H : forall idx,
  ~ In a (map fst ax) ->
  msum ax (fun x => H (upd a v x)) idx = msum ax H (upd a v idx).
Proof.
  induction ax as [|[d e] ax IH]; intros idx N; simpl; [reflexivity|].
  simpl in N. apply sumZ_ext. intros j.
  rewrite IH by tauto. rewrite upd_comm by (intros ->; tauto). reflexivity.
Qed.

Lemma upd_nth_same {A} d (l : list A) dflt : upd d (nth d l dflt) l = l.
Proof.
  revert d; induction l as [|x l IH]; intros [|d]; simpl; try reflexivity.
  rewrite IH. reflexivity.
Qed.

Lemma list_eq_nth (a b : list Z) :
  length a = length b -> (forall i, nth i a 0 = nth i b 0) -> a = b.
Proof.
  revert b; induction a as [|x a IH]; intros [|y b] L H; simpl in *; try lia; auto.
  f_equal.
  - apply (H O).
  - apply IH; [lia|]. intros i. apply (H (S i)).
Qed.

(** Reading at broadcast coordinates commutes with a sum over axes that
    the summed array keeps with extent 1. *)
Lemma msum_broadcast ax G s : forall s' idx,
  NoDup (map fst ax) ->
  length s' = length s ->
  (forall i, nth i s' 0 = if in_dec Nat.eq_dec i (map fst ax) then 1 else nth i s 0) ->
  (forall d e, In (d, e) ax -> e = nth d s 0) ->
  msum ax G (broadcast_coords s' idx) = msum ax (fun x => G (broadcast_coords s x)) idx.
Proof.
  induction ax as [|[d e] ax IH]; intros s' idx ND L Hs He.
  - simpl. replace s' with s; [reflexivity|].
    symmetry. apply list_eq_nth; [exact L|]. intros i. apply Hs.
  - simpl. inversion ND as [|? ? Nd ND']; subst.
    assert (Ee : e = nth d s 0) by (apply He; left; reflexivity).
    apply sumZ_ext_in. intros j Hj. apply In_zrange in Hj.
    set (s'' := upd d (nth d s 0) s').
    assert (E1 : s' = upd d 1 s'').
    { unfold s''. rewrite upd_upd.
      replace 1 with (nth d s' 0) at 1; [symmetry; apply upd_nth_same|].
      rewrite Hs. simpl. destruct (Nat.eq_dec d d); [|congruence]. reflexivity. }
    destruct (Nat.lt_ge_cases d (length s')) as [Hd|Hd].
    + rewrite E1. rewrite broadcast_coords_upd.
      2:{ unfold s''. rewrite nth_upd_same by exact Hd. lia. }
      apply IH; [exact ND'| unfold s''; rewrite length_upd; exact L | |].
      * intros i. unfold s''. destruct (Nat.eq_dec d i) as [->|N].
        -- rewrite nth_upd_same by exact Hd.
           destruct (in_dec Nat.eq_dec i (map fst ax)); [contradiction|reflexivity].
        -- rewrite nth_upd_other by exact N. rewrite Hs. simpl.
           destruct (Nat.eq_dec d i); [contradiction|].
           destruct (in_dec Nat.eq_dec i (map fst ax)); reflexivity.
      * intros d' e' H'. apply He. right. exact H'.
    + exfalso. rewrite nth_overflow in Ee by lia. lia.
Qed.

(** ** Arrays laid out on common axes *)

Lemma masked_broadcastable E M M' :
  Forall (fun n => 1 <= n) E -> Forall2 broadcastable (masked M E) (masked M' E).
Proof.
  intros HE. unfold masked. apply Forall2_map_same. intros t Ht.
  apply In_zrange in Ht.
  assert (1 <= znth t E 0).
  { rewrite Forall_forall in HE. apply HE. unfold znth. apply nth_In. unfold zlen in Ht. lia. }
  unfold broadcastable. destruct (M t), (M' t); lia.
Qed.

Lemma valid_masked E M idx :
  Forall (fun n => 1 <= n) E -> valid_index E idx ->
  valid_index (masked M E) (broadcast_coords (masked M E) idx).
Proof.
  intros HE V. pose proof (valid_index_length _ _ V) as L.
  apply valid_index_of_nth.
  - rewrite length_broadcast_coords; rewrite length_masked; auto.
  - rewrite length_masked. intros t Ht.
    rewrite nth_broadcast_coords by (rewrite ?length_masked; auto).
    rewrite nth_masked by exact Ht.
    pose proof (valid_index_nth _ _ _ V Ht) as B.
    destruct (M (Z.of_nat t)); simpl.
    + destruct (Z.eqb_spec (nth t E 0) 1); lia.
    + lia.
Qed.

Lemma aligned_at E B M f idx :
  Forall (fun n => 1 <= n) E -> aligned E B M f ->
  valid_index (sizes B) idx -> elem B idx = f idx.
Proof.
  intros HE [Hs Hf] V.
  assert (V' : valid_index E idx).
  { rewrite Hs in V. pose proof (valid_index_length _ _ V) as L. rewrite length_masked in L.
    apply valid_index_of_nth; [exact L|]. intros t Ht.
    assert (Ht' : (t < length (masked M E))%nat) by (rewrite length_masked; exact Ht).
    pose proof (valid_index_nth _ _ _ V Ht') as B'.
    rewrite nth_masked in B' by exact Ht.
    assert (1 <= nth t E 0) by (rewrite Forall_forall in HE; apply HE, nth_In; exact Ht).
    destruct (M (Z.of_nat t)); lia. }
  rewrite <- (Hf idx V'). rewrite broadcast_coords_valid by exact V. reflexivity.
Qed.

(** [sumproduct_pair] with [keepdim] on two arrays laid out on the axes
    [E]: the product, summed over the listed axes. *)
Lemma sumproduct_aligned E P B M M' f g S :
  Forall (fun n => 1 <= n) E ->
  aligned E P M f -> aligned E B M' g ->
  Forall (fun d => 0 <= d < zlen E) S -> NoDup S ->
  (forall d, In d S -> M d || M' d = true) ->
  exists T,
    sumproduct_pair P B S true = inr T /\
    aligned E T (fun t => (M t || M' t) && negb (existsb (Z.eqb t) S))
            (fun idx => msum (with_ext E S) (fun x => f x * g x) idx).
Proof.
  intros HE HP HB HS ND Hc.
  pose proof HP as [sP fP]. pose proof HB as [sB fB].
  assert (BR : Forall2 broadcastable (sizes P) (sizes B)).
  { rewrite sP, sB. apply masked_broadcastable. exact HE. }
  assert (DP : dim P = zlen E).
  { unfold dim, zlen. rewrite sP, length_masked. reflexivity. }
  destruct (sumproduct_pair_result P B S true BR) as [mask [T [Hm [Hbit [HT [_ Hteq]]]]]].
  { rewrite DP. exact HS. }
  { exact ND. }
  exists T. split; [exact HT|].
  destruct (mul_aligned E P B M M' f g HP HB) as [P' [HP' AP']].
  rewrite mul_compat in HP'.
  2:{ rewrite sP, sB. apply masked_compat. }
  injection HP' as HP'. subst P'.
  destruct AP' as [sP' fP'].
  set (Q := product_of P B) in *.
  assert (LP : length (sizes P) = length E) by (rewrite sP; apply length_masked).
  assert (LQ : length (sizes Q) = length E) by (rewrite sP'; apply length_masked).
  destruct (sum_mask_keep mask (length (sizes P)) Q) as [K1 [K2 K3]]; [lia|].
  destruct Hteq as [Hsz Hel].
  assert (Hbit' : forall i, (i < length E)%nat ->
            nth i mask false = existsb (Z.eqb (Z.of_nat i)) S).
  { intros i Hi. specialize (Hbit (Z.of_nat i) ltac:(lia)).
    unfold bit, znth in Hbit. rewrite Nat2Z.id in Hbit.
    destruct (existsb (Z.eqb (Z.of_nat i)) S) eqn:Ex.
    - apply Hbit. apply existsb_eqb_In. exact Ex.
    - destruct (nth i mask false) eqn:Nm; [|reflexivity].
      exfalso. assert (In (Z.of_nat i) S) by (apply Hbit; reflexivity).
      apply existsb_eqb_In in H. congruence. }
  assert (ST : sizes T =
               masked (fun t => (M t || M' t) && negb (existsb (Z.eqb t) S)) E).
  { rewrite Hsz. apply list_eq_nth.
    - rewrite K1, LQ, length_masked. reflexivity.
    - intros i. destruct (Nat.lt_ge_cases i (length E)) as [Hi|Hi].
      + rewrite K2, nth_masked by exact Hi. rewrite sP', nth_masked by exact Hi.
        rewrite Hbit' by exact Hi.
        replace (i <? length (sizes P))%nat with true
          by (symmetry; apply Nat.ltb_lt; lia).
        simpl. destruct (existsb (Z.eqb (Z.of_nat i)) S); simpl.
        * rewrite andb_false_r. reflexivity.
        * rewrite andb_true_r. reflexivity.
      + rewrite !nth_overflow; auto.
        * rewrite length_masked. exact Hi.
        * rewrite K1, LQ. exact Hi. }
  split; [exact ST|].
  intros idx V. pose proof (valid_index_length _ _ V) as Lidx.
  rewrite Hel.
  2:{ rewrite ST. apply valid_masked; assumption. }
  rewrite K3.
  2:{ rewrite length_broadcast_coords; rewrite ST, length_masked; lia. }
  assert (NDn : NoDup (map fst (with_ext (sizes Q) S))).
  { unfold with_ext. rewrite map_map. simpl. apply NoDup_map_to_nat; [|exact ND].
    eapply Forall_impl; [|exact HS]. simpl. intros; lia. }
  rewrite <- (msum_perm (with_ext (sizes Q) S)).
  2:{ unfold with_ext. apply Permutation_map. rewrite LP. apply masked_perm.
      - exact HS.
      - exact ND.
      - exact Hbit. }
  2:{ exact NDn. }
  assert (EX : with_ext (sizes Q) S = with_ext E S).
  { unfold with_ext. apply map_ext_in. intros d Hd. f_equal.
    rewrite Forall_forall in HS. specialize (HS d Hd).
    unfold znth. rewrite sP', nth_masked by (unfold zlen in HS; lia).
    rewrite Z2Nat.id by lia. rewrite (Hc d Hd). reflexivity. }
  rewrite (msum_broadcast _ _ (sizes Q)).
  - rewrite EX. apply msum_ext_on with (P := valid_index E).
    + intros x d e j Vx Hin Hj. apply valid_index_upd; [exact Vx|].
      unfold with_ext in Hin. apply in_map_iff in Hin. destruct Hin as [d' [Eq Hd']].
      injection Eq as <- <-. unfold znth in Hj. exact Hj.
    + intros x Vx. apply fP'. exact Vx.
    + exact V.
  - exact NDn.
  - rewrite ST, LQ, length_masked. reflexivity.
  - intros i. rewrite ST. destruct (Nat.lt_ge_cases i (length E)) as [Hi|Hi].
    + rewrite nth_masked by exact Hi. rewrite sP', nth_masked by exact Hi.
      unfold with_ext. rewrite map_map. simpl.
      destruct (in_dec Nat.eq_dec i (map Z.to_nat S)) as [I|I].
      * apply in_map_iff in I. destruct I as [d [Ed Hd]].
        rewrite Forall_forall in HS. specialize (HS d Hd).
        replace (Z.of_nat i) with d by lia.
        replace (existsb (Z.eqb d) S) with true
          by (symmetry; apply existsb_eqb_In; exact Hd).
        rewrite andb_false_r. reflexivity.
      * replace (existsb (Z.eqb (Z.of_nat i)) S) with false.
        -- rewrite andb_true_r. reflexivity.
        -- symmetry. apply not_true_is_false. intros Ex. apply existsb_eqb_In in Ex.
           apply I. apply in_map_iff. exists (Z.of_nat i). split; [lia|exact Ex].
    + rewrite !nth_overflow; auto.
      * destruct (in_dec Nat.eq_dec i (map fst (with_ext (sizes Q) S))) as [I|I]; [|reflexivity].
        exfalso. unfold with_ext in I. rewrite map_map in I. simpl in I.
        apply in_map_iff in I. destruct I as [d [Ed Hd]].
        rewrite Forall_forall in HS. specialize (HS d Hd). unfold zlen in HS. lia.
      * rewrite LQ. exact Hi.
      * rewrite length_masked. exact Hi.
  - intros d e Hin. unfold with_ext in Hin. apply in_map_iff in Hin.
    destruct Hin as [d' [Eq Hd']]. injection Eq as <- <-. reflexivity.
Qed.

(** ** The loop over the axes (lines 334-358) *)

Lemma iota_cons n i : 1 <= n -> iota n i = i :: iota (n - 1) (i + 1).
Proof.
  intros H. unfold iota. replace n with (1 + (n - 1)) at 1 by lia.
  rewrite zrange_add by lia. rewrite zrange_1. rewrite map_app. cbn [map app].
  rewrite Z.add_0_r. f_equal.
  rewrite map_map. apply map_ext. intros; lia.
Qed.

Lemma skipn_erase {A} n (x : list A) : skipn n (erase n x) = skipn (S n) x.
Proof.
  unfold erase. destruct (Nat.le_gt_cases n (length x)) as [H|H].
  - rewrite skipn_app. rewrite length_firstn, Nat.min_l by exact H.
    rewrite Nat.sub_diag. simpl.
    rewrite skipn_all2 by (rewrite length_firstn; lia). reflexivity.
  - rewrite (skipn_all2 (n := S n)) by lia.
    apply skipn_all2. rewrite length_app, length_firstn. simpl. lia.
Qed.

Lemma gather_below axes n (x : list Z) :
  Forall (fun j => 0 <= j < Z.of_nat n) axes -> gather axes (erase n x) = gather axes x.
Proof.
  intros H. unfold gather. apply map_ext_in. intros j Hj.
  rewrite Forall_forall in H. specialize (H j Hj).
  unfold znth. apply nth_erase_below. lia.
Qed.

Lemma filter_zrange_below (f : Z -> bool) i :
  Forall (fun j => 0 <= j < i) (filter f (zrange i)).
Proof.
  apply Forall_forall. intros j Hj. apply filter_In in Hj. destruct Hj as [Hj _].
  apply In_zrange in Hj. exact Hj.
Qed.

Lemma unsqueezed_rank E e t0 t i :
  0 <= i -> unsqueezed E e t0 t i ->
  length (sizes t) =
  (Z.to_nat i + length (filter (fun j => negb (existsb (Z.eqb j) e)) (iota (zlen E - i) i)))%nat.
Proof.
  intros Hi [Hs _]. rewrite Hs. rewrite length_app, length_map, length_zrange.
  unfold gather. rewrite length_map. reflexivity.
Qed.

Lemma unsqueeze_step E e t0 t i :
  0 <= i < zlen E -> existsb (Z.eqb i) e = true ->
  unsqueezed E e t0 t i ->
  exists t', unsqueeze t i = inr t' /\ unsqueezed E e t0 t' (i + 1).
Proof.
  intros Hi He U. pose proof (unsqueezed_rank _ _ _ _ _ (proj1 Hi) U) as R.
  destruct U as [Hs Hx].
  unfold unsqueeze. rewrite maybe_wrap_dim_id by (unfold dim, zlen; lia).
  cbn [bind ret]. eexists. split; [reflexivity|].
  assert (L : length (map (fun j => if existsb (Z.eqb j) e then 1 else znth j E 0) (zrange i))
              = Z.to_nat i) by (rewrite length_map, length_zrange; reflexivity).
  split; cbn [sizes elem].
  - rewrite Hs. unfold insert_at.
    rewrite firstn_app_exact', skipn_app_exact' by (symmetry; exact L).
    rewrite zrange_succ by lia. rewrite map_app. simpl. rewrite He.
    rewrite <- app_assoc. simpl. f_equal. f_equal.
    rewrite (iota_cons (zlen E - i)) by lia. simpl. rewrite He. simpl.
    replace (zlen E - (i + 1)) with (zlen E - i - 1) by lia. reflexivity.
  - intros x Lx. rewrite length_insert_at in Lx.
    rewrite Hx.
    2:{ rewrite length_erase by lia. lia. }
    rewrite zrange_succ by lia. rewrite filter_app. simpl. rewrite He. simpl.
    rewrite app_nil_r. f_equal. f_equal.
    + apply gather_below. rewrite Z2Nat.id by lia. apply filter_zrange_below.
    + rewrite skipn_erase. f_equal. lia.
Qed.

Lemma size_step E e t0 t i :
  0 <= i < zlen E -> existsb (Z.eqb i) e = false ->
  unsqueezed E e t0 t i ->
  size t i = inr (znth i E 0) /\ unsqueezed E e t0 t (i + 1).
Proof.
  intros Hi He U. pose proof (unsqueezed_rank _ _ _ _ _ (proj1 Hi) U) as R.
  destruct U as [Hs Hx].
  assert (L : length (map (fun j => if existsb (Z.eqb j) e then 1 else znth j E 0) (zrange i))
              = Z.to_nat i) by (rewrite length_map, length_zrange; reflexivity).
  rewrite (iota_cons (zlen E - i)) in Hs, R by lia. simpl in Hs, R. rewrite He in Hs, R.
  simpl in Hs, R.
  split.
  - rewrite size_in_range by (unfold dim, zlen; lia). f_equal.
    unfold znth at 1. rewrite Hs. rewrite <- L. apply nth_app_mid.
  - split.
    + rewrite Hs. rewrite zrange_succ by lia. rewrite map_app. simpl. rewrite He.
      rewrite <- app_assoc. simpl.
      replace (zlen E - (i + 1)) with (zlen E - i - 1) by lia. reflexivity.
    + intros x Lx. rewrite Hx by exact Lx.
      rewrite zrange_succ by lia. rewrite filter_app. simpl. rewrite He. simpl.
      rewrite gather_app. rewrite <- app_assoc. f_equal. f_equal. simpl.
      replace (Z.to_nat (i + 1)) with (S (Z.to_nat i)) by lia.
      unfold znth. apply skipn_nth_cons. lia.
Qed.

Lemma expand_step E e ex t0 t i (s : Z) :
  0 <= i < zlen E -> bit ex i = existsb (Z.eqb i) e ->
  unsqueezed E e t0 t i ->
  exists t',
    (if bit ex i then i1 <- unsqueeze t i ;; ret (i1, s)
     else s' <- size t i ;; ret (t, s')) =
    inr (t', if existsb (Z.eqb i) e then s else znth i E 0) /\
    unsqueezed E e t0 t' (i + 1).
Proof.
  intros Hi Hb U. rewrite Hb. destruct (existsb (Z.eqb i) e) eqn:He.
  - destruct (unsqueeze_step _ _ _ _ _ Hi He U) as [t' [H1 H2]].
    exists t'. rewrite H1. split; [reflexivity|exact H2].
  - destruct (size_step _ _ _ _ _ Hi He U) as [H1 H2].
    exists t. rewrite H1. split; [reflexivity|exact H2].
Qed.

Section Axes.

Variables (E e1 e2 e3 sd : list Z) (u : Z) (i1 i2 i3 : Tensor).
Variables (ex1 ex2 ex3 sdm : list bool).
Hypothesis bit1 : forall i, 0 <= i -> bit ex1 i = existsb (Z.eqb i) e1.
Hypothesis bit2 : forall i, 0 <= i -> bit ex2 i = existsb (Z.eqb i) e2.
Hypothesis bit3 : forall i, 0 <= i -> bit ex3 i = existsb (Z.eqb i) e3.
Hypothesis bits : forall i, 0 <= i -> bit sdm i = existsb (Z.eqb i) sd.

Lemma axis_step st i :
  0 <= i < zlen E ->
  axes_done E e1 e2 e3 sd u i1 i2 i3 i st ->
  exists st',
    trilinear_axis ex1 ex2 ex3 sdm u st i = inr st' /\
    axes_done E e1 e2 e3 sd u i1 i2 i3 (i + 1) st'.
Proof.
  intros Hi [U1 [U2 [U3 [Ho [H12 [H23 Hu]]]]]].
  unfold trilinear_axis.
  destruct (expand_step E e1 ex1 i1 (tri_i1 st) i 0 Hi (bit1 i (proj1 Hi)) U1)
    as [t1 [R1 U1']].
  rewrite R1. cbn [bind].
  destruct (expand_step E e2 ex2 i2 (tri_i2 st) i
              (if existsb (Z.eqb i) e1 then 0 else znth i E 0) Hi (bit2 i (proj1 Hi)) U2)
    as [t2 [R2 U2']].
  rewrite R2. cbn [bind].
  rewrite (bit3 i (proj1 Hi)), (bits i (proj1 Hi)).
  assert (Z1 : zrange (i + 1) = zrange i ++ [i]) by (apply zrange_succ; lia).
  destruct (existsb (Z.eqb i) e3) eqn:E3.
  - destruct (unsqueeze_step _ _ _ _ _ Hi E3 U3) as [t3 [R3 U3']].
    rewrite R3. cbn [bind ret]. eexists. split; [reflexivity|].
    unfold axes_done. cbn [tri_i1 tri_i2 tri_i3 output_size sum_dims_12 sum_dims_23 unroll_size].
    split; [exact U1'|]. split; [exact U2'|]. split; [exact U3'|].
    split; [|split; [|split]].
    + rewrite Z1, map_app, Ho. simpl. f_equal.
      destruct (existsb (Z.eqb i) sd); [reflexivity|].
      unfold carried_extent. rewrite E3.
      destruct (existsb (Z.eqb i) e1), (existsb (Z.eqb i) e2); reflexivity.
    + rewrite Z1, filter_app, H12. simpl. rewrite E3. simpl.
      destruct (existsb (Z.eqb i) sd && negb (i =? u)); rewrite ?app_nil_r; reflexivity.
    + rewrite Z1, filter_app, H23. simpl. rewrite E3. simpl. rewrite app_nil_r. reflexivity.
    + rewrite Hu. destruct (Z.eqb_spec i u) as [->|N].
      * replace (u <? u + 1) with true by (symmetry; apply Z.ltb_lt; lia).
        unfold carried_extent. rewrite E3.
        destruct (existsb (Z.eqb u) e1), (existsb (Z.eqb u) e2); reflexivity.
      * destruct (Z.ltb_spec u i), (Z.ltb_spec u (i + 1)); try reflexivity; lia.
  - destruct (size_step _ _ _ _ _ Hi E3 U3) as [R3 U3'].
    rewrite R3. cbn [bind ret]. eexists. split; [reflexivity|].
    unfold axes_done. cbn [tri_i1 tri_i2 tri_i3 output_size sum_dims_12 sum_dims_23 unroll_size].
    split; [exact U1'|]. split; [exact U2'|]. split; [exact U3'|].
    split; [|split; [|split]].
    + rewrite Z1, map_app, Ho. simpl. f_equal.
      unfold carried_extent. rewrite E3, andb_false_r. reflexivity.
    + rewrite Z1, filter_app, H12. simpl. rewrite E3. simpl. rewrite app_nil_r. reflexivity.
    + rewrite Z1, filter_app, H23. simpl. rewrite E3. simpl.
      destruct (existsb (Z.eqb i) sd && negb (i =? u)); rewrite ?app_nil_r; reflexivity.
    + rewrite Hu. destruct (Z.eqb_spec i u) as [->|N].
      * replace (u <? u + 1) with true by (symmetry; apply Z.ltb_lt; lia).
        unfold carried_extent. rewrite E3, andb_false_r. reflexivity.
      * destruct (Z.ltb_spec u i), (Z.ltb_spec u (i + 1)); try reflexivity; lia.
Qed.

Lemma axes_loop st0 :
  axes_done E e1 e2 e3 sd u i1 i2 i3 0 st0 ->
  forall k : nat, Z.of_nat k <= zlen E ->
  exists st,
    foldM (trilinear_axis ex1 ex2 ex3 sdm u) (zrange (Z.of_nat k)) st0 = inr st /\
    axes_done E e1 e2 e3 sd u i1 i2 i3 (Z.of_nat k) st.
Proof.
  intros H0. induction k as [|k IH]; intros Hk.
  - exists st0. split; [reflexivity|exact H0].
  - destruct IH as [st [F A]]; [lia|].
    destruct (axis_step st (Z.of_nat k)) as [st' [S' A']]; [lia|exact A|].
    exists st'. replace (Z.of_nat (S k)) with (Z.of_nat k + 1) by lia.
    rewrite zrange_succ by lia. rewrite foldM_app, F. cbn [bind foldM]. rewrite S'.
    split; [reflexivity|exact A'].
Qed.

End Axes.

(** ** The operands after the loop *)

Lemma axis_factor_independent E e t0 d :
  In (Z.of_nat d) e -> independent d (axis_factor E e t0).
Proof.
  intros Hd x v. unfold axis_factor. f_equal. unfold gather. apply map_ext_in.
  intros j Hj. apply in_free_of in Hj. destruct Hj as [Hj Nj].
  unfold znth. apply nth_upd_other. intros ->. apply Nj.
  rewrite Z2Nat.id in Hd by lia. exact Hd.
Qed.

Lemma unsqueezed_aligned E e t0 U :
  unsqueezed E e t0 U (zlen E) ->
  aligned E U (fun t => negb (existsb (Z.eqb t) e)) (axis_factor E e t0).
Proof.
  intros [Hs Hx].
  assert (Hs' : sizes U = masked (fun t => negb (existsb (Z.eqb t) e)) E).
  { rewrite Hs. rewrite Z.sub_diag. unfold iota. rewrite (zrange_nonpos 0) by lia. simpl.
    rewrite app_nil_r. unfold masked. apply map_ext. intros j.
    destruct (existsb (Z.eqb j) e); reflexivity. }
  split; [exact Hs'|].
  intros idx V. pose proof (valid_index_length _ _ V) as L.
  assert (Lb : length (broadcast_coords (sizes U) idx) = length E).
  { rewrite length_broadcast_coords; rewrite Hs', length_masked; auto. }
  rewrite Hx by (rewrite Lb, Hs', length_masked; reflexivity).
  unfold axis_factor. f_equal.
  rewrite skipn_all2 by (rewrite Lb; unfold zlen; lia).
  rewrite app_nil_r. unfold free_of, gather. apply map_ext_in. intros j Hj.
  apply filter_In in Hj. destruct Hj as [Hj Nj]. apply In_zrange in Hj.
  unfold znth. rewrite nth_broadcast_coords.
  - rewrite Hs', nth_masked by (unfold zlen in Hj; lia).
    rewrite Z2Nat.id by lia. rewrite Nj. apply clip_valid.
    apply valid_index_nth; [exact V|unfold zlen in Hj; lia].
  - rewrite Hs', length_masked. auto.
  - rewrite Hs', length_masked. unfold zlen in Hj. lia.
Qed.

Lemma masked_upd E M u :
  0 <= u < zlen E -> masked M (zupd u 1 E) = zupd u 1 (masked M E).
Proof.
  intros Hu. apply list_eq_nth.
  - unfold zupd. rewrite length_upd, !length_masked, length_upd. reflexivity.
  - intros i. unfold zupd.
    destruct (Nat.lt_ge_cases i (length E)) as [Hi|Hi].
    + rewrite nth_masked by (rewrite length_upd; exact Hi).
      destruct (Nat.eq_dec (Z.to_nat u) i) as [<-|N].
      * rewrite !nth_upd_same by (rewrite ?length_masked; exact Hi).
        destruct (M _); reflexivity.
      * rewrite !nth_upd_other by exact N. rewrite nth_masked by exact Hi. reflexivity.
    + rewrite !nth_overflow; auto.
      * rewrite length_upd, length_masked. exact Hi.
      * rewrite length_masked, length_upd. exact Hi.
Qed.

Lemma ones_upd E u : Forall (fun n => 1 <= n) E -> Forall (fun n => 1 <= n) (zupd u 1 E).
Proof.
  intros H. unfold zupd. generalize (Z.to_nat u) as d. induction H; intros [|d]; simpl.
  - constructor.
  - constructor.
  - constructor; [lia|assumption].
  - constructor; [assumption|apply IHForall].
Qed.

Lemma nth_ones E t : Forall (fun n => 1 <= n) E -> (t < length E)%nat -> 1 <= nth t E 0.
Proof. intros H Ht. rewrite Forall_forall in H. apply H, nth_In, Ht. Qed.

(** The slice [k] of the unrolled axis (lines 366-369 and 375-377). *)
Lemma narrow_aligned E U M F u k :
  Forall (fun n => 1 <= n) E -> aligned E U M F ->
  0 <= u < zlen E -> 0 <= k < znth u E 0 ->
  exists a,
    narrow U u (k * (if M u then 1 else 0)) 1 = inr a /\
    aligned (zupd u 1 E) a M (fun idx => F (zupd u k idx)).
Proof.
  intros HE [Hs Hf] Hu Hk.
  assert (Lu : (Z.to_nat u < length E)%nat) by (unfold zlen in Hu; lia).
  assert (Su : znth u (sizes U) 0 = if M u then znth u E 0 else 1).
  { unfold znth. rewrite Hs, nth_masked by exact Lu. rewrite Z2Nat.id by lia. reflexivity. }
  rewrite (narrow_ok U u _ (zlen E)).
  2:{ unfold dim, zlen. rewrite Hs, length_masked. reflexivity. }
  2:{ exact Hu. }
  2:{ rewrite Su. destruct (M u); lia. }
  eexists. split; [reflexivity|].
  split; cbn [sizes elem].
  - rewrite Hs. symmetry. apply masked_upd. exact Hu.
  - intros idx V. pose proof (valid_index_length _ _ V) as L.
    unfold zupd in L. rewrite length_upd in L.
    assert (Z0 : znth u (broadcast_coords (zupd u 1 (sizes U)) idx) 0 = 0).
    { unfold znth, zupd. rewrite nth_broadcast_coords.
      - rewrite nth_upd_same by (rewrite Hs, length_masked; exact Lu). reflexivity.
      - rewrite length_upd, Hs, length_masked. auto.
      - rewrite length_upd, Hs, length_masked. exact Lu. }
    rewrite Z0, Z.add_0_l.
    assert (V' : valid_index E (zupd u k idx)).
    { apply valid_index_of_nth.
      - unfold zupd. rewrite length_upd. exact L.
      - intros t Ht. unfold zupd. destruct (Nat.eq_dec (Z.to_nat u) t) as [<-|N].
        + rewrite nth_upd_same by lia. exact Hk.
        + rewrite nth_upd_other by exact N.
          pose proof (valid_index_nth _ _ t V) as B.
          unfold zupd in B. rewrite length_upd in B. specialize (B Ht).
          rewrite nth_upd_other in B by exact N. exact B. }
    rewrite <- (Hf _ V'). f_equal. unfold zupd.
    destruct (M u) eqn:Mu.
    + rewrite Z.mul_1_r. apply broadcast_coords_upd.
      unfold znth in Su. rewrite Su. exact Hk.
    + rewrite Z.mul_0_r. rewrite broadcast_coords_upd.
      * unfold znth in Su. rewrite !broadcast_coords_indep by exact Su. reflexivity.
      * unfold znth in Su. rewrite Su. lia.
Qed.

Lemma existsb_filter_zrange (f : Z -> bool) n t :
  existsb (Z.eqb t) (filter f (zrange n)) = f t && ((0 <=? t) && (t <? n)).
Proof.
  apply eq_true_iff_eq. rewrite existsb_eqb_In, filter_In, In_zrange.
  rewrite !andb_true_iff, Z.leb_le, Z.ltb_lt. tauto.
Qed.

(** ** The unrolled loop (lines 364-380) *)

Section Unrolled.

Variables (E e1 e2 e3 sd : list Z) (u : Z) (i1 i2 i3 : Tensor).
Variable sdm : list bool.
Hypothesis E_pos : Forall (fun n => 1 <= n) E.
Hypothesis u_range : 0 <= u < zlen E.
Hypothesis carried_axes : forall i, 0 <= i < zlen E ->
  existsb (Z.eqb i) e1 && existsb (Z.eqb i) e2 && existsb (Z.eqb i) e3 = false.
Hypothesis sd_range : Forall (fun d => 0 <= d < zlen E) sd.
Hypothesis sd_NoDup : NoDup sd.
Hypothesis bits : bit sdm u = existsb (Z.eqb u) sd.

Let sd12 : list Z :=
  filter (fun j => existsb (Z.eqb j) e3 && (existsb (Z.eqb j) sd && negb (j =? u)))
         (zrange (zlen E)).
Let sd23 : list Z :=
  filter (fun j => negb (existsb (Z.eqb j) e3) && (existsb (Z.eqb j) sd && negb (j =? u)))
         (zrange (zlen E)).
Let OS : list Z :=
  map (fun j => if existsb (Z.eqb j) sd then 1 else znth j E 0) (zrange (zlen E)).
Let H (x : list Z) : Z :=
  axis_factor E e1 i1 x * axis_factor E e2 i2 x * axis_factor E e3 i3 x.
Let G (k : Z) (y : list Z) : Z := msum (with_ext E (sd23 ++ sd12)) H (zupd u k y).
Let sm (e : list Z) : Z := if existsb (Z.eqb u) e then 0 else 1.

Variable st : tri_state.
Hypothesis st_done : axes_done E e1 e2 e3 sd u i1 i2 i3 (zlen E) st.

Lemma in_sd12 j :
  In j sd12 <-> 0 <= j < zlen E /\ In j e3 /\ In j sd /\ j <> u.
Proof.
  unfold sd12. rewrite filter_In, In_zrange, !andb_true_iff, !existsb_eqb_In, negb_true_iff.
  rewrite Z.eqb_neq. tauto.
Qed.

Lemma in_sd23 j :
  In j sd23 <-> 0 <= j < zlen E /\ ~ In j e3 /\ In j sd /\ j <> u.
Proof.
  unfold sd23. rewrite filter_In, In_zrange, !andb_true_iff, !existsb_eqb_In, negb_true_iff.
  rewrite negb_true_iff, Z.eqb_neq. rewrite <- not_true_iff_false, existsb_eqb_In. tauto.
Qed.

Lemma sd12_range : Forall (fun d => 0 <= d < zlen E) sd12.
Proof. apply Forall_forall. intros d Hd. apply in_sd12 in Hd. tauto. Qed.

Lemma sd23_range : Forall (fun d => 0 <= d < zlen E) sd23.
Proof. apply Forall_forall. intros d Hd. apply in_sd23 in Hd. tauto. Qed.

Lemma sd12_NoDup : NoDup sd12.
Proof. apply NoDup_filter, NoDup_zrange. Qed.

Lemma sd23_NoDup : NoDup sd23.
Proof. apply NoDup_filter, NoDup_zrange. Qed.

Lemma length_Eu : length (zupd u 1 E) = length E.
Proof. unfold zupd. apply length_upd. Qed.

Lemma with_ext_Eu S :
  Forall (fun d => 0 <= d < zlen E) S -> ~ In u S ->
  with_ext (zupd u 1 E) S = with_ext E S.
Proof.
  intros HS Hu. unfold zupd. apply with_ext_upd. apply Forall_forall. intros d Hd.
  rewrite Forall_forall in HS. specialize (HS d Hd). split; [lia|].
  intros Eq. apply Hu. replace u with d by lia. exact Hd.
Qed.

Lemma shifted_independent (F : list Z -> Z) d k :
  d <> Z.to_nat u -> independent d F -> independent d (fun x => F (zupd u k x)).
Proof.
  intros N I x v. unfold zupd. rewrite upd_comm by congruence. apply I.
Qed.

Lemma OS_length : length OS = length E.
Proof. unfold OS. rewrite length_map, length_zrange. unfold zlen. lia. Qed.

Lemma OS_nth t :
  (t < length E)%nat ->
  nth t OS 0 = if existsb (Z.eqb (Z.of_nat t)) sd then 1 else nth t E 0.
Proof.
  intros Ht. unfold OS.
  pose proof (znth_map_zrange
                (fun j => if existsb (Z.eqb j) sd then 1 else znth j E 0)
                (zlen E) (Z.of_nat t)) as K.
  unfold znth in K. rewrite Nat2Z.id in K. apply K. unfold zlen. lia.
Qed.

Lemma valid_OS_E x : valid_index OS x -> valid_index E x.
Proof.
  intros V. pose proof (valid_index_length _ _ V) as L. rewrite OS_length in L.
  apply valid_index_of_nth; [exact L|]. intros t Ht.
  pose proof (valid_index_nth _ _ t V) as B. rewrite OS_length in B. specialize (B Ht).
  rewrite OS_nth in B by exact Ht. pose proof (nth_ones E t E_pos Ht).
  destruct (existsb (Z.eqb (Z.of_nat t)) sd); lia.
Qed.

(** The two calls of [sumproduct_pair] on the slices [k]. *)
Lemma buffer k :
  0 <= k < znth u E 0 ->
  exists buf,
    (forall K : Tensor -> Result Tensor,
       (a <- narrow (tri_i1 st) u (k * sm e1) 1 ;;
        b <- narrow (tri_i2 st) u (k * sm e2) 1 ;;
        buf <- sumproduct_pair a b (sum_dims_12 st) true ;;
        c <- narrow (tri_i3 st) u (k * sm e3) 1 ;;
        buf <- sumproduct_pair buf c (sum_dims_23 st) true ;;
        K buf) = K buf) /\
    sizes buf = zupd u 1 OS /\
    forall y, valid_index (sizes buf) y -> elem buf y = G k y.
Proof.
  intros Hk. destruct st_done as [U1 [U2 [U3 [Ho [H12 [H23 _]]]]]].
  apply unsqueezed_aligned in U1, U2, U3.
  assert (SM : forall e, sm e = if negb (existsb (Z.eqb u) e) then 1 else 0).
  { intros e. unfold sm. destruct (existsb (Z.eqb u) e); reflexivity. }
  destruct (narrow_aligned E _ _ _ u k E_pos U1 u_range Hk) as [a [Na Aa]].
  destruct (narrow_aligned E _ _ _ u k E_pos U2 u_range Hk) as [b [Nb Ab]].
  destruct (narrow_aligned E _ _ _ u k E_pos U3 u_range Hk) as [c [Nc Ac]].
  rewrite <- SM in Na, Nb, Nc.
  rewrite H12, H23. fold sd12 sd23.
  pose proof (ones_upd E u E_pos) as Eu_pos.
  assert (ZEu : zlen (zupd u 1 E) = zlen E) by (unfold zlen; rewrite length_Eu; reflexivity).
  assert (N12 : ~ In u sd12) by (rewrite in_sd12; tauto).
  assert (N23 : ~ In u sd23) by (rewrite in_sd23; tauto).
  destruct (sumproduct_aligned _ a b _ _ _ _ sd12 Eu_pos Aa Ab) as [b1 [S1 A1]].
  { rewrite ZEu. exact sd12_range. }
  { exact sd12_NoDup. }
  { intros d Hd. apply in_sd12 in Hd. destruct Hd as [Hd [H3 _]].
    apply existsb_eqb_In in H3. pose proof (carried_axes d Hd) as C. rewrite H3 in C.
    destruct (existsb (Z.eqb d) e1), (existsb (Z.eqb d) e2); try reflexivity; discriminate. }
  destruct (sumproduct_aligned _ b1 c _ _ _ _ sd23 Eu_pos A1 Ac) as [b2 [S2 A2]].
  { rewrite ZEu. exact sd23_range. }
  { exact sd23_NoDup. }
  { intros d Hd. apply in_sd23 in Hd. destruct Hd as [Hd [H3 _]].
    rewrite <- existsb_eqb_In in H3. apply not_true_is_false in H3. rewrite H3.
    simpl. apply orb_true_r. }
  exists b2. split.
  { intros K. rewrite Na, Nb. cbn [bind]. rewrite S1. cbn [bind]. rewrite Nc. cbn [bind].
    rewrite S2. reflexivity. }
  assert (Sb : sizes b2 = zupd u 1 OS).
  { destruct A2 as [Sb _]. rewrite Sb. rewrite masked_upd by exact u_range.
    unfold zupd. apply list_eq_nth.
    - rewrite !length_upd, length_masked, OS_length. reflexivity.
    - intros t. destruct (Nat.eq_dec (Z.to_nat u) t) as [<-|Ne].
      { rewrite !nth_upd_same; [reflexivity| |].
        - rewrite OS_length. unfold zlen in u_range. lia.
        - rewrite length_masked. unfold zlen in u_range. lia. }
      rewrite !nth_upd_other by exact Ne.
      destruct (Nat.lt_ge_cases t (length E)) as [Ht|Ht].
      + rewrite nth_masked, OS_nth by exact Ht.
        unfold sd12, sd23. rewrite !existsb_filter_zrange.
        replace ((0 <=? Z.of_nat t) && (Z.of_nat t <? zlen E)) with true.
        2:{ symmetry. apply andb_true_iff. rewrite Z.leb_le, Z.ltb_lt. unfold zlen. lia. }
        rewrite !andb_true_r.
        pose proof (carried_axes (Z.of_nat t) ltac:(unfold zlen; lia)) as C.
        replace (Z.of_nat t =? u) with false by (symmetry; apply Z.eqb_neq; lia).
        simpl. rewrite !andb_true_r.
        destruct (existsb (Z.eqb (Z.of_nat t)) e1), (existsb (Z.eqb (Z.of_nat t)) e2),
                 (existsb (Z.eqb (Z.of_nat t)) e3), (existsb (Z.eqb (Z.of_nat t)) sd);
          try reflexivity; discriminate.
      + rewrite !nth_overflow; auto; [rewrite OS_length|rewrite length_masked]; exact Ht. }
  split; [exact Sb|].
  intros y Vy. rewrite (aligned_at _ _ _ _ y Eu_pos A2 Vy).
  rewrite with_ext_Eu by (auto using sd23_range).
  rewrite with_ext_Eu by (auto using sd12_range).
  unfold G, zupd. unfold with_ext at 3. rewrite map_app. fold (with_ext E sd23) (with_ext E sd12).
  rewrite msum_app. rewrite <- msum_at.
  2:{ unfold with_ext. rewrite map_map. simpl. intros I. apply in_map_iff in I.
      destruct I as [d [Ed Hd]]. apply N23. apply in_sd23 in Hd as Hd'.
      replace u with d by lia. exact Hd. }
  apply msum_ext. intros x.
  rewrite (msum_mul_indep _ (fun x => axis_factor E e3 i3 (upd (Z.to_nat u) k x))).
  2:{ intros d Hd. unfold with_ext in Hd. rewrite map_map in Hd. simpl in Hd.
      apply in_map_iff in Hd. destruct Hd as [d' [<- Hd']].
      apply in_sd12 in Hd' as Hd''. apply shifted_independent.
      - intros Eq. apply N12. replace u with d' by lia. exact Hd'.
      - apply axis_factor_independent. rewrite Z2Nat.id by lia. tauto. }
  rewrite <- msum_at.
  2:{ unfold with_ext. rewrite map_map. simpl. intros I. apply in_map_iff in I.
      destruct I as [d [Ed Hd]]. apply N12. apply in_sd12 in Hd as Hd'.
      replace u with d by lia. exact Hd. }
  reflexivity.
Qed.

Lemma valid_zero_slice x :
  valid_index OS x -> valid_index (zupd u 1 OS) (zupd u 0 x).
Proof.
  intros V. pose proof (valid_index_length _ _ V) as L.
  apply valid_index_of_nth.
  - unfold zupd. rewrite !length_upd. exact L.
  - unfold zupd. rewrite length_upd. intros t Ht.
    destruct (Nat.eq_dec (Z.to_nat u) t) as [<-|N].
    + rewrite !nth_upd_same by lia. lia.
    + rewrite !nth_upd_other by exact N. apply valid_index_nth; assumption.
Qed.

Lemma OS_summed : existsb (Z.eqb u) sd = true -> zupd u 1 OS = OS.
Proof.
  intros Hs. unfold zupd.
  replace 1 with (nth (Z.to_nat u) OS 0) at 1; [apply upd_nth_same|].
  rewrite OS_nth by (unfold zlen in u_range; lia).
  rewrite Z2Nat.id by lia. rewrite Hs. reflexivity.
Qed.

Lemma G_zero_slice k x : G k (zupd u 0 x) = G k x.
Proof. unfold G, zupd. rewrite upd_upd. reflexivity. Qed.

(** One turn of the unrolled loop. *)
Lemma unrolled_step out k :
  0 <= k < znth u E 0 -> sizes out = OS ->
  exists out',
    trilinear_step st sdm u (sm e1) (sm e2) (sm e3) out k = inr out' /\
    sizes out' = OS /\
    forall x, valid_index OS x ->
      elem out' x =
      if existsb (Z.eqb u) sd then elem out x + G k x
      else if znth u x 0 =? k then elem out x + G k x else elem out x.
Proof.
  intros Hk So. unfold trilinear_step.
  destruct (buffer k Hk) as [buf [Hb [Sb Eb]]].
  rewrite (Hb (fun buf => if negb (bit sdm u) then narrow_add_ out u k buf
                          else add_ out buf)).
  rewrite bits. destruct (existsb (Z.eqb u) sd) eqn:Hs; cbn [negb].
  - rewrite OS_summed in Sb by exact Hs.
    rewrite add__same_shape by congruence.
    eexists. split; [reflexivity|]. cbn [sizes elem]. split; [exact So|].
    intros x V. rewrite expand_index_same by (rewrite Sb; apply valid_index_length; exact V).
    rewrite broadcast_coords_valid by (rewrite Sb; exact V).
    rewrite Eb by (rewrite Sb; exact V). reflexivity.
  - unfold narrow_add_.
    assert (Lu : (Z.to_nat u < length E)%nat) by (unfold zlen in u_range; lia).
    rewrite (narrow_ok out u k (zlen E)).
    2:{ unfold dim, zlen. rewrite So, OS_length. reflexivity. }
    2:{ exact u_range. }
    2:{ rewrite So. unfold znth. rewrite OS_nth by exact Lu.
        rewrite Z2Nat.id by lia. rewrite Hs. exact Hk. }
    cbn [bind]. rewrite add__same_shape by (cbn [sizes]; congruence).
    cbn [bind ret sizes elem]. eexists. split; [reflexivity|]. cbn [sizes elem].
    split; [exact So|].
    intros x V. pose proof (valid_index_length _ _ V) as L. rewrite OS_length in L.
    destruct (Z.eqb_spec (znth u x 0) k) as [Ek|Nk]; [|reflexivity].
    pose proof (valid_zero_slice x V) as V0.
    rewrite expand_index_same by (rewrite Sb; apply valid_index_length; exact V0).
    rewrite broadcast_coords_valid by (rewrite Sb; exact V0).
    rewrite Eb by (rewrite Sb; exact V0). rewrite G_zero_slice.
    rewrite znth_zupd_same by (unfold zlen; lia). rewrite Z.add_0_l.
    unfold zupd. rewrite upd_upd. rewrite <- Ek. unfold znth. rewrite upd_nth_same.
    reflexivity.
Qed.

(** The loop, after [K] turns. *)
Lemma unrolled_loop (K : nat) :
  Z.of_nat K <= znth u E 0 ->
  exists out,
    foldM (trilinear_step st sdm u (sm e1) (sm e2) (sm e3)) (zrange (Z.of_nat K)) (zeros OS)
      = inr out /\
    sizes out = OS /\
    forall x, valid_index OS x ->
      elem out x =
      if existsb (Z.eqb u) sd then sumZ (zrange (Z.of_nat K)) (fun k => G k x)
      else if znth u x 0 <? Z.of_nat K then G (znth u x 0) x else 0.
Proof.
  induction K as [|K IH]; intros HK.
  - exists (zeros OS). split; [reflexivity|]. split; [reflexivity|].
    intros x V. simpl. destruct (existsb (Z.eqb u) sd); [reflexivity|].
    assert (0 <= znth u x 0).
    { unfold znth. apply (valid_index_nth OS x (Z.to_nat u) V).
      rewrite OS_length. unfold zlen in u_range. lia. }
    destruct (Z.ltb_spec (znth u x 0) 0); [lia|reflexivity].
  - destruct IH as [out [F [So Eo]]]; [lia|].
    destruct (unrolled_step out (Z.of_nat K)) as [out' [S' [So' Eo']]]; [lia|exact So|].
    exists out'. replace (Z.of_nat (S K)) with (Z.of_nat K + 1) by lia.
    rewrite zrange_succ by lia. rewrite foldM_app, F. cbn [bind foldM]. rewrite S'.
    split; [reflexivity|]. split; [exact So'|].
    intros x V. rewrite Eo' by exact V. rewrite Eo by exact V.
    destruct (existsb (Z.eqb u) sd).
    + rewrite sumZ_app. simpl. lia.
    + destruct (Z.eqb_spec (znth u x 0) (Z.of_nat K)) as [Ek|Nk].
      * rewrite Ek. replace (Z.of_nat K <? Z.of_nat K) with false
          by (symmetry; apply Z.ltb_ge; lia).
        replace (Z.of_nat K <? Z.of_nat K + 1) with true
          by (symmetry; apply Z.ltb_lt; lia).
        lia.
      * destruct (Z.ltb_spec (znth u x 0) (Z.of_nat K)),
                 (Z.ltb_spec (znth u x 0) (Z.of_nat K + 1)); try reflexivity; lia.
Qed.

(** The summed axes in the order in which the loop handles them. *)
Let summed : list Z := (if existsb (Z.eqb u) sd then [u] else []) ++ sd23 ++ sd12.

Lemma summed_perm : Permutation summed sd.
Proof.
  apply NoDup_Permutation.
  - unfold summed. destruct (existsb (Z.eqb u) sd).
    + simpl. constructor.
      * rewrite in_app_iff, in_sd23, in_sd12. tauto.
      * apply NoDup_app; [exact sd23_NoDup|exact sd12_NoDup|].
        intros a. rewrite in_sd23, in_sd12. tauto.
    + simpl. apply NoDup_app; [exact sd23_NoDup|exact sd12_NoDup|].
      intros a. rewrite in_sd23, in_sd12. tauto.
  - exact sd_NoDup.
  - intros j. unfold summed. rewrite !in_app_iff, in_sd23, in_sd12.
    rewrite Forall_forall in sd_range.
    destruct (existsb (Z.eqb u) sd) eqn:Hs.
    + apply existsb_eqb_In in Hs. simpl. split.
      * intros [[<-|[]]|[?|?]]; tauto.
      * intros Hj. destruct (Z.eq_dec u j) as [->|N]; [tauto|].
        destruct (in_dec Z.eq_dec j e3); specialize (sd_range j Hj); intuition auto.
    + simpl. split.
      * intros [[]|[?|?]]; tauto.
      * intros Hj. assert (j <> u).
        { intros ->. apply existsb_eqb_In in Hj. congruence. }
        destruct (in_dec Z.eq_dec j e3); specialize (sd_range j Hj); intuition auto.
Qed.

(** The output after the loop: every entry is the sum of the products
    over the summed axes. *)
Lemma unrolled_result :
  exists out,
    foldM (trilinear_step st sdm u (sm e1) (sm e2) (sm e3)) (zrange (znth u E 0)) (zeros OS)
      = inr out /\
    sizes out = OS /\
    forall x, valid_index OS x -> elem out x = msum (with_ext E sd) H x.
Proof.
  assert (Lu : (Z.to_nat u < length E)%nat) by (unfold zlen in u_range; lia).
  assert (Eu : 1 <= znth u E 0) by (apply nth_ones; assumption).
  destruct (unrolled_loop (Z.to_nat (znth u E 0))) as [out [F [So Eo]]]; [lia|].
  rewrite Z2Nat.id in F, Eo by lia.
  exists out. split; [exact F|]. split; [exact So|].
  intros x V. rewrite Eo by exact V.
  assert (ND : NoDup summed).
  { apply (Permutation_NoDup (Permutation_sym summed_perm)). exact sd_NoDup. }
  assert (R : Forall (fun d => 0 <= d) summed).
  { apply Forall_forall. intros d Hd. apply (Permutation_in _ summed_perm) in Hd.
    rewrite Forall_forall in sd_range. specialize (sd_range d Hd). lia. }
  rewrite <- (msum_perm (with_ext E summed) (with_ext E sd)).
  2:{ unfold with_ext. apply Permutation_map. exact summed_perm. }
  2:{ unfold with_ext. rewrite map_map. simpl. apply NoDup_map_to_nat; assumption. }
  unfold summed. destruct (existsb (Z.eqb u) sd) eqn:Hs.
  - reflexivity.
  - simpl.
    assert (B : 0 <= znth u x 0 < znth u E 0).
    { unfold znth. pose proof (valid_index_nth OS x (Z.to_nat u) V) as B.
      rewrite OS_length in B. specialize (B Lu). rewrite OS_nth in B by exact Lu.
      rewrite Z2Nat.id in B by lia. rewrite Hs in B. exact B. }
    replace (znth u x 0 <? znth u E 0) with true by (symmetry; apply Z.ltb_lt; lia).
    unfold G, zupd, znth. rewrite upd_nth_same. reflexivity.
Qed.

End Unrolled.

(** ** Dropping the summed axes (lines 381-383) *)

Lemma squeeze_summed_drop mask N (t0 : Tensor) :
  length (sizes t0) = N ->
  (forall i, (i < N)%nat -> nth i mask false = true -> nth i (sizes t0) 0 = 1) ->
  forall k hi t,
  (k <= N)%nat -> ascending k N hi ->
  sizes t = erase_axes hi (sizes t0) ->
  (forall idx, elem t idx = elem t0 (insert_zeros hi idx)) ->
  exists R,
    squeeze_summed mask k t = inr R /\
    sizes R = erase_axes (prepend_masked mask k hi) (sizes t0) /\
    forall idx, elem R idx = elem t0 (insert_zeros (prepend_masked mask k hi) idx).
Proof.
  intros L0 Hone. induction k as [|k IH]; intros hi t Hk Ha Hs He.
  - exists t. split; [reflexivity|]. split; assumption.
  - cbn [squeeze_summed prepend_masked].
    destruct (nth k mask false) eqn:Mk.
    + pose proof (ascending_length _ _ _ Ha) as Lh.
      pose proof (length_erase_axes N hi (sizes t0) (S k) Ha ltac:(lia)) as Le.
      assert (Dk : 0 <= Z.of_nat k < dim t).
      { unfold dim, zlen. rewrite Hs, Le. lia. }
      unfold squeeze. rewrite maybe_wrap_dim_id by exact Dk. cbn [bind ret].
      replace (0 <? dim t) with true by (symmetry; apply Z.ltb_lt; lia).
      unfold znth. rewrite Nat2Z.id.
      assert (N1 : nth k (sizes t) 0 = 1).
      { rewrite Hs, (nth_erase_axes_below k N hi) by exact Ha. apply Hone; [lia|exact Mk]. }
      rewrite N1. cbn [andb Z.eqb Pos.eqb].
      apply IH.
      * lia.
      * simpl. split; [lia|exact Ha].
      * cbn [sizes]. rewrite Hs. reflexivity.
      * intros idx. cbn [elem]. rewrite He. reflexivity.
    + cbn [bind ret]. apply IH; try assumption; [lia|].
      apply ascending_weaken with (lb := S k); [lia|exact Ha].
Qed.

Lemma erase_insert_at {A} a (v : A) o : (a <= length o)%nat -> erase a (insert_at a v o) = o.
Proof.
  intros H. unfold erase, insert_at.
  assert (L : length (firstn a o) = a) by (rewrite length_firstn; lia).
  rewrite firstn_app_exact' by (symmetry; exact L).
  replace (firstn a o ++ v :: skipn a o) with ((firstn a o ++ [v]) ++ skipn a o)
    by (rewrite <- app_assoc; reflexivity).
  rewrite skipn_app_exact' by (rewrite length_app, L; simpl; lia).
  apply firstn_skipn.
Qed.

Lemma erase_insert_zeros ub A : forall lb o,
  ascending lb ub A -> (length o + length A = ub)%nat ->
  erase_axes A (insert_zeros A o) = o.
Proof.
  induction A as [|a A IH]; intros lb o Ha L; [reflexivity|].
  simpl in Ha. destruct Ha as [Ba Ha]. pose proof (ascending_length _ _ _ Ha) as La.
  simpl in L. cbn [erase_axes insert_zeros fold_right fold_left].
  change (fold_right (fun d s' => erase d s') (fold_left (fun y d => insert_at d 0 y) A
            (insert_at a 0 o)) A)
    with (erase_axes A (insert_zeros A (insert_at a 0 o))).
  rewrite (IH (S a)); [|exact Ha|rewrite length_insert_at; lia].
  apply erase_insert_at. lia.
Qed.

Lemma unflagged_axes mask sd (s : list Z) (n : nat) :
  (forall i, 0 <= i -> bit mask i = existsb (Z.eqb i) sd) ->
  map (fun i => nth i s 0) (filter (fun i => negb (nth i mask false)) (seq 0 n)) =
  gather (free_of sd (Z.of_nat n)) s.
Proof.
  intros Hb. unfold free_of, zrange, gather. rewrite Nat2Z.id.
  induction (seq 0 n) as [|a l IH]; [reflexivity|].
  simpl. specialize (Hb (Z.of_nat a) ltac:(lia)). unfold bit, znth in Hb.
  rewrite Nat2Z.id in Hb. rewrite <- Hb.
  destruct (nth a mask false); simpl; [exact IH|].
  unfold znth. rewrite Nat2Z.id. f_equal. exact IH.
Qed.

(** ** The contracted array *)

Lemma bitset_flags dims n :
  Forall (fun d => 0 <= d < n) dims -> NoDup dims ->
  exists mask, dim_list_to_bitset dims n = inr mask /\
               forall i, 0 <= i -> bit mask i = existsb (Z.eqb i) dims.
Proof.
  intros R ND. destruct (dim_list_to_bitset_ok dims n R ND) as [mask [Hm Hb]].
  exists mask. split; [exact Hm|]. intros i Hi.
  apply eq_true_iff_eq. rewrite existsb_eqb_In. apply Hb. exact Hi.
Qed.

Lemma free_of_rank dims (E : list Z) :
  Forall (fun d => 0 <= d < zlen E) dims -> NoDup dims ->
  zlen (gather (free_of dims (zlen E)) E) + zlen dims = zlen E.
Proof.
  intros R ND. pose proof (free_of_length dims (zlen E) (zlen_nonneg E) R ND) as L.
  rewrite zlen_app in L. unfold zlen, gather in *. rewrite length_map. exact L.
Qed.

Lemma unsqueezed_start E e t0 :
  sizes t0 = gather (free_of e (zlen E)) E -> unsqueezed E e t0 t0 0.
Proof.
  intros Hs. split.
  - rewrite Hs. rewrite (zrange_nonpos 0) by lia. simpl. rewrite Z.sub_0_r.
    unfold free_of, iota. f_equal. f_equal. rewrite map_id. reflexivity.
  - intros x _. rewrite (zrange_nonpos 0) by lia. reflexivity.
Qed.

Lemma iota_zrange n : iota n 0 = zrange n.
Proof. unfold iota. rewrite <- (map_id (zrange n)) at 2. apply map_ext. intros; lia. Qed.

(** The axes inserted one after the other, as in the expression that
    documents [_trilinear]. *)
Lemma unsqueeze_all_loop E e ex t0 :
  (forall i, 0 <= i -> bit ex i = existsb (Z.eqb i) e) ->
  forall (k : nat) i t,
  0 <= i -> i + Z.of_nat k <= zlen E ->
  unsqueezed E e t0 t i ->
  exists t',
    unsqueeze_all t ex (iota (Z.of_nat k) i) = inr t' /\
    unsqueezed E e t0 t' (i + Z.of_nat k).
Proof.
  intros Hb. induction k as [|k IH]; intros i t Hi Hk U.
  - exists t. rewrite Z.add_0_r. split; [reflexivity|exact U].
  - rewrite iota_cons by lia. replace (Z.of_nat (S k) - 1) with (Z.of_nat k) by lia.
    cbn [unsqueeze_all]. rewrite Hb by exact Hi.
    destruct (existsb (Z.eqb i) e) eqn:He.
    + destruct (unsqueeze_step E e t0 t i ltac:(lia) He U) as [t1 [H1 U1]].
      rewrite H1. cbn [bind].
      destruct (IH (i + 1) t1 ltac:(lia) ltac:(lia) U1) as [t' [H' U']].
      exists t'. split; [exact H'|].
      replace (i + Z.of_nat (S k)) with (i + 1 + Z.of_nat k) by lia. exact U'.
    + destruct (size_step E e t0 t i ltac:(lia) He U) as [_ U1].
      cbn [bind ret].
      destruct (IH (i + 1) t ltac:(lia) ltac:(lia) U1) as [t' [H' U']].
      exists t'. split; [exact H'|].
      replace (i + Z.of_nat (S k)) with (i + 1 + Z.of_nat k) by lia. exact U'.
Qed.

Lemma unsqueeze_all_aligned E e ex t0 :
  (forall i, 0 <= i -> bit ex i = existsb (Z.eqb i) e) ->
  sizes t0 = gather (free_of e (zlen E)) E ->
  exists t,
    unsqueeze_all t0 ex (zrange (zlen E)) = inr t /\
    aligned E t (fun i => negb (existsb (Z.eqb i) e)) (axis_factor E e t0).
Proof.
  intros Hb Hs.
  destruct (unsqueeze_all_loop E e ex t0 Hb (Z.to_nat (zlen E)) 0 t0) as [t [Ht U]].
  - lia.
  - pose proof (zlen_nonneg E). lia.
  - apply unsqueezed_start. exact Hs.
  - rewrite Z2Nat.id in Ht, U by apply zlen_nonneg. rewrite iota_zrange in Ht.
    exists t. split; [exact Ht|]. apply unsqueezed_aligned. exact U.
Qed.

Section Contracted.

Variables (E sd : list Z) (sdm : list bool).
Hypothesis E_pos : Forall (fun n => 1 <= n) E.
Hypothesis sd_range : Forall (fun d => 0 <= d < zlen E) sd.
Hypothesis sd_NoDup : NoDup sd.
Hypothesis flags : forall i, 0 <= i -> bit sdm i = existsb (Z.eqb i) sd.

Let OS := kept_shape E sd.
Let A := prepend_masked sdm (length E) [].

Lemma kept_shape_length : length OS = length E.
Proof. unfold OS, kept_shape. rewrite length_map, length_zrange. unfold zlen. lia. Qed.

Lemma kept_shape_nth t :
  (t < length E)%nat ->
  nth t OS 0 = if existsb (Z.eqb (Z.of_nat t)) sd then 1 else nth t E 0.
Proof.
  intros Ht. unfold OS, kept_shape.
  pose proof (znth_map_zrange
                (fun j => if existsb (Z.eqb j) sd then 1 else znth j E 0)
                (zlen E) (Z.of_nat t)) as K.
  unfold znth in K. rewrite Nat2Z.id in K. apply K. unfold zlen. lia.
Qed.

Lemma flags_nth i : nth i sdm false = existsb (Z.eqb (Z.of_nat i)) sd.
Proof. rewrite <- flags by lia. unfold bit, znth. rewrite Nat2Z.id. reflexivity. Qed.

Lemma flagged_ascending : ascending 0 (length E) A.
Proof. apply ascending_prepend; [lia|exact I]. Qed.

Lemma flagged_ones a : In a A -> nth a OS 0 = 1.
Proof.
  intros Ha. apply in_prepend_masked in Ha. destruct Ha as [[]|[Ha Ma]].
  rewrite kept_shape_nth by exact Ha. rewrite <- flags_nth, Ma. reflexivity.
Qed.

Lemma dropped_shape : erase_axes A OS = gather (free_of sd (zlen E)) E.
Proof.
  unfold A. rewrite erase_summed_axes. cbn [erase_axes fold_right].
  rewrite erase_summed_filter by (rewrite kept_shape_length; lia).
  rewrite skipn_all2 by (rewrite kept_shape_length; lia). rewrite app_nil_r.
  rewrite (unflagged_axes sdm sd) by exact flags.
  unfold gather, zlen. apply map_ext_in. intros j Hj. apply in_free_of in Hj.
  destruct Hj as [Hj Nj]. unfold znth. rewrite kept_shape_nth by lia.
  rewrite Z2Nat.id by lia.
  rewrite <- existsb_eqb_In in Nj. apply not_true_is_false in Nj. rewrite Nj. reflexivity.
Qed.

Lemma valid_restored o :
  valid_index (erase_axes A OS) o -> valid_index OS (insert_zeros A o).
Proof.
  intros Vo. apply (ravel_insert_zeros (length E) A 0%nat).
  - exact flagged_ascending.
  - rewrite kept_shape_length. lia.
  - exact flagged_ones.
  - exact Vo.
Qed.

Lemma kept_valid x : valid_index OS x -> valid_index E x.
Proof.
  intros V. pose proof (valid_index_length _ _ V) as L. rewrite kept_shape_length in L.
  apply valid_index_of_nth; [exact L|]. intros t Ht.
  pose proof (valid_index_nth _ _ t V) as B. rewrite kept_shape_length in B. specialize (B Ht).
  rewrite kept_shape_nth in B by exact Ht. pose proof (nth_ones E t E_pos Ht).
  destruct (existsb (Z.eqb (Z.of_nat t)) sd); lia.
Qed.

(** The coordinates restored on the dropped axes, as a permutation of
    the kept coordinates followed by zeros. *)
Lemma restored_coordinates o :
  valid_index (erase_axes A OS) o ->
  insert_zeros A o = unpermute (free_of sd (zlen E) ++ sd) (o ++ map (fun _ => 0) sd).
Proof.
  intros Vo. pose proof (valid_restored o Vo) as Vx.
  set (x := insert_zeros A o) in *.
  pose proof (valid_index_length _ _ Vx) as Lx. rewrite kept_shape_length in Lx.
  pose proof (free_of_perm sd (zlen E) sd_range sd_NoDup) as PP.
  pose proof (perm_is_perm _ _ PP) as IP.
  assert (ZP : zlen (free_of sd (zlen E) ++ sd) = zlen E).
  { apply free_of_length; [apply zlen_nonneg|exact sd_range|exact sd_NoDup]. }
  assert (Gf : gather (free_of sd (zlen E)) x = o).
  { rewrite <- (erase_insert_zeros (length E) A 0%nat o flagged_ascending).
    2:{ pose proof (valid_index_length _ _ Vo) as Lo.
        rewrite (length_erase_axes (length E) A OS 0%nat flagged_ascending) in Lo
          by (rewrite kept_shape_length; lia).
        pose proof (ascending_length _ _ _ flagged_ascending).
        rewrite kept_shape_length in Lo. lia. }
    fold x. unfold A. rewrite erase_summed_axes. cbn [erase_axes fold_right].
    rewrite erase_summed_filter by lia.
    rewrite skipn_all2 by lia. rewrite app_nil_r.
    rewrite (unflagged_axes sdm sd) by exact flags. reflexivity. }
  assert (Gs : gather sd x = map (fun _ => 0) sd).
  { unfold gather. apply map_ext_in. intros j Hj.
    pose proof sd_range as Rs. rewrite Forall_forall in Rs. specialize (Rs j Hj).
    pose proof (valid_index_nth OS x (Z.to_nat j) Vx) as B.
    rewrite kept_shape_length in B. specialize (B ltac:(unfold zlen in Rs; lia)).
    rewrite kept_shape_nth in B by (unfold zlen in Rs; lia). rewrite Z2Nat.id in B by lia.
    apply existsb_eqb_In in Hj. rewrite Hj in B. unfold znth. lia. }
  replace (o ++ map (fun _ => 0) sd) with (gather (free_of sd (zlen E) ++ sd) x)
    by (rewrite gather_app, Gf, Gs; reflexivity).
  symmetry. apply unpermute_gather.
  - exact IP.
  - rewrite Lx. apply Nat2Z.inj. symmetry. exact ZP.
Qed.

Lemma contracted_formula (H : list Z -> Z) (R : Tensor) :
  contracted E sd sdm H R ->
  sizes R = gather (free_of sd (zlen E)) E /\
  forall o, valid_index (sizes R) o ->
    elem R o =
    sumZ (indices (gather sd E))
         (fun c => H (unpermute (free_of sd (zlen E) ++ sd) (o ++ c))).
Proof.
  intros [SR ER]. fold OS A in SR, ER.
  split; [rewrite SR; exact dropped_shape|].
  intros o Vo. rewrite ER by exact Vo.
  rewrite SR in Vo. rewrite (restored_coordinates o Vo).
  pose proof (free_of_perm sd (zlen E) sd_range sd_NoDup) as PP.
  pose proof (perm_is_perm _ _ PP) as IP.
  assert (Lo : length o = length (free_of sd (zlen E))).
  { pose proof (valid_index_length _ _ Vo) as Lo. rewrite dropped_shape in Lo.
    unfold gather in Lo. rewrite length_map in Lo. exact Lo. }
  unfold with_ext.
  replace (o ++ map (fun _ => 0) sd) with (o ++ map (fun _ : Z => 0) sd ++ [])
    by (rewrite app_nil_r; reflexivity).
  rewrite (msum_unpermute (fun d => znth d E 0) H (free_of sd (zlen E) ++ sd) [] []
             sd (free_of sd (zlen E)) o (map (fun _ => 0) sd)).
  - apply sumZ_ext. intros c. rewrite app_nil_r. reflexivity.
  - apply IP.
  - apply IP.
  - rewrite app_nil_r. reflexivity.
  - exact Lo.
  - apply length_map.
  - reflexivity.
Qed.

Lemma contracted_same (H : list Z -> Z) (R R' : Tensor) :
  contracted E sd sdm H R -> contracted E sd sdm H R' -> teq R R'.
Proof.
  intros [S1 E1] [S2 E2]. split; [congruence|].
  intros o Vo. rewrite E1 by exact Vo. rewrite E2 by (rewrite S2, <- S1; exact Vo).
  reflexivity.
Qed.

End Contracted.

Section Operands.

Variables (i1 i2 i3 : Tensor) (e1 e2 e3 sd : list Z) (E : list Z).
Hypothesis E_pos : Forall (fun n => 1 <= n) E.
Hypothesis e1_range : Forall (fun d => 0 <= d < zlen E) e1.
Hypothesis e1_NoDup : NoDup e1.
Hypothesis e2_range : Forall (fun d => 0 <= d < zlen E) e2.
Hypothesis e2_NoDup : NoDup e2.
Hypothesis e3_range : Forall (fun d => 0 <= d < zlen E) e3.
Hypothesis e3_NoDup : NoDup e3.
Hypothesis sd_range : Forall (fun d => 0 <= d < zlen E) sd.
Hypothesis sd_NoDup : NoDup sd.
Hypothesis carried_axes : forall i, 0 <= i < zlen E -> ~ (In i e1 /\ In i e2 /\ In i e3).
Hypothesis sizes1 : sizes i1 = gather (free_of e1 (zlen E)) E.
Hypothesis sizes2 : sizes i2 = gather (free_of e2 (zlen E)) E.
Hypothesis sizes3 : sizes i3 = gather (free_of e3 (zlen E)) E.

Lemma total_dim_axes : dim i1 + zlen e1 = zlen E.
Proof. unfold dim. rewrite sizes1. apply free_of_rank; assumption. Qed.

Lemma carried_flags i :
  0 <= i < zlen E ->
  existsb (Z.eqb i) e1 && existsb (Z.eqb i) e2 && existsb (Z.eqb i) e3 = false.
Proof.
  intros Hi. apply not_true_is_false. rewrite !andb_true_iff, !existsb_eqb_In.
  specialize (carried_axes i Hi). tauto.
Qed.

Lemma trilinear_contracted (u : Z) (sdm : list bool) :
  0 <= u < zlen E ->
  dim_list_to_bitset sd (zlen E) = inr sdm ->
  (forall i, 0 <= i -> bit sdm i = existsb (Z.eqb i) sd) ->
  exists R,
    _trilinear i1 i2 i3 e1 e2 e3 sd u = inr R /\
    contracted E sd sdm (triple_product E e1 e2 e3 i1 i2 i3) R.
Proof.
  intros Hu Bs Fs.
  unfold _trilinear. rewrite total_dim_axes.
  replace ((0 <=? u) && (u <? zlen E)) with true.
  2:{ symmetry. apply andb_true_iff. rewrite Z.leb_le, Z.ltb_lt. exact Hu. }
  cbn [TORCH_CHECK bind ret].
  destruct (bitset_flags e1 (zlen E) e1_range e1_NoDup) as [ex1 [B1 F1]].
  destruct (bitset_flags e2 (zlen E) e2_range e2_NoDup) as [ex2 [B2 F2]].
  destruct (bitset_flags e3 (zlen E) e3_range e3_NoDup) as [ex3 [B3 F3]].
  rewrite B1, B2, B3, Bs. cbn [bind].
  destruct (axes_loop E e1 e2 e3 sd u i1 i2 i3 ex1 ex2 ex3 sdm F1 F2 F3 Fs
              (mkTriState i1 i2 i3 [] [] [] (-1))) with (k := Z.to_nat (zlen E))
    as [st [Hst A]].
  { unfold axes_done. cbn [tri_i1 tri_i2 tri_i3 output_size sum_dims_12 sum_dims_23 unroll_size].
    rewrite (zrange_nonpos 0) by lia.
    repeat (split; [apply unsqueezed_start; assumption|]).
    repeat (split; [reflexivity|]).
    replace (u <? 0) with false by (symmetry; apply Z.ltb_ge; lia). reflexivity. }
  { pose proof (zlen_nonneg E). lia. }
  rewrite Z2Nat.id in Hst, A by apply zlen_nonneg.
  rewrite Hst. cbn [bind].
  pose proof A as [_ [_ [_ [Ho [_ [_ Hus]]]]]].
  replace (u <? zlen E) with true in Hus by (symmetry; apply Z.ltb_lt; lia).
  assert (CE : forall j, 0 <= j < zlen E -> carried_extent E e1 e2 e3 j = znth j E 0).
  { intros j Hj. unfold carried_extent. rewrite carried_flags by exact Hj. reflexivity. }
  rewrite CE in Hus by exact Hu.
  assert (Ho' : output_size st = kept_shape E sd).
  { rewrite Ho. unfold kept_shape. apply map_ext_in. intros j Hj. apply In_zrange in Hj.
    rewrite CE by exact Hj. reflexivity. }
  rewrite Hus, Ho', (F1 u), (F2 u), (F3 u) by lia. unfold kept_shape.
  destruct (unrolled_result E e1 e2 e3 sd u i1 i2 i3 sdm E_pos Hu carried_flags
              sd_range sd_NoDup (Fs u ltac:(lia)) st A)
    as [out [Hout [So Eo]]].
  rewrite Hout. cbn [bind].
  fold (kept_shape E sd) in So, Eo |- *.
  destruct (squeeze_summed_drop sdm (length E) out) with (k := length E) (hi := @nil nat) (t := out)
    as [R [HR [SR ER]]].
  { rewrite So. apply kept_shape_length. }
  { intros i Hi Mi. rewrite So, kept_shape_nth by exact Hi.
    rewrite <- (flags_nth sd sdm Fs), Mi. reflexivity. }
  { lia. }
  { exact I. }
  { reflexivity. }
  { reflexivity. }
  rewrite So, kept_shape_length. rewrite HR. exists R. split; [reflexivity|].
  split.
  - rewrite SR, So. reflexivity.
  - intros o Vo. rewrite ER. apply Eo.
    apply (valid_restored E sd sdm Fs). rewrite <- So, <- SR. exact Vo.
Qed.

Lemma trilinear_result (u : Z) :
  0 <= u < zlen E ->
  exists R,
    _trilinear i1 i2 i3 e1 e2 e3 sd u = inr R /\
    sizes R = gather (free_of sd (zlen E)) E /\
    forall o, valid_index (sizes R) o ->
      elem R o =
      sumZ (indices (gather sd E))
           (fun c => triple_product E e1 e2 e3 i1 i2 i3
                       (unpermute (free_of sd (zlen E) ++ sd) (o ++ c))).
Proof.
  intros Hu.
  destruct (bitset_flags sd (zlen E) sd_range sd_NoDup) as [sdm [Bs Fs]].
  destruct (trilinear_contracted u sdm Hu Bs Fs) as [R [HR C]].
  exists R. split; [exact HR|].
  apply (contracted_formula E sd sdm sd_range sd_NoDup Fs). exact C.
Qed.

(** The expression that documents [_trilinear]. *)
Lemma trilinear_ref_contracted (sdm : list bool) :
  sd <> [] ->
  dim_list_to_bitset sd (zlen E) = inr sdm ->
  (forall i, 0 <= i -> bit sdm i = existsb (Z.eqb i) sd) ->
  exists R,
    trilinear_ref i1 i2 i3 e1 e2 e3 sd = inr R /\
    contracted E sd sdm (triple_product E e1 e2 e3 i1 i2 i3) R.
Proof.
  intros Hsd Bs Fs.
  unfold trilinear_ref. rewrite total_dim_axes.
  destruct (bitset_flags e1 (zlen E) e1_range e1_NoDup) as [ex1 [B1 F1]].
  destruct (bitset_flags e2 (zlen E) e2_range e2_NoDup) as [ex2 [B2 F2]].
  destruct (bitset_flags e3 (zlen E) e3_range e3_NoDup) as [ex3 [B3 F3]].
  rewrite B1, B2, B3. cbn [bind].
  destruct (unsqueeze_all_aligned E e1 ex1 i1 F1 sizes1) as [a [Ha Aa]].
  destruct (unsqueeze_all_aligned E e2 ex2 i2 F2 sizes2) as [b [Hb Ab]].
  destruct (unsqueeze_all_aligned E e3 ex3 i3 F3 sizes3) as [c [Hc Ac]].
  rewrite Ha, Hb, Hc. cbn [bind].
  destruct (mul_aligned E a b _ _ _ _ Aa Ab) as [ab [Hab Aab]].
  rewrite Hab. cbn [bind].
  destruct (mul_aligned E ab c _ _ _ _ Aab Ac) as [abc [Habc Aabc]].
  rewrite Habc. cbn [bind].
  assert (Sabc : sizes abc = E).
  { destruct Aabc as [Sabc _]. rewrite Sabc. apply masked_all. intros t Ht.
    pose proof (carried_flags t Ht) as C.
    destruct (existsb (Z.eqb t) e1), (existsb (Z.eqb t) e2), (existsb (Z.eqb t) e3);
      try reflexivity; discriminate. }
  unfold sum. rewrite (match_nonempty sd _ _ Hsd).
  unfold dim at 1. rewrite Sabc. fold (zlen E). rewrite Bs. cbn [bind ret].
  eexists. split; [reflexivity|].
  destruct (sum_mask_drop sdm (length E) (length E) [] abc abc) as [D1 D2];
    [lia|exact I|rewrite Sabc; reflexivity|reflexivity|reflexivity|].
  destruct (sum_mask_keep sdm (length E) abc) as [K1 [K2 K3]]; [rewrite Sabc; lia|].
  assert (SK : sizes (sum_mask abc sdm (length E) true) = kept_shape E sd).
  { apply list_eq_nth.
    - rewrite K1, Sabc. symmetry. apply kept_shape_length.
    - intros i. rewrite K2, Sabc. destruct (Nat.lt_ge_cases i (length E)) as [Hi|Hi].
      + rewrite (kept_shape_nth E sd) by exact Hi. rewrite (flags_nth sd sdm Fs).
        replace (i <? length E)%nat with true by (symmetry; apply Nat.ltb_lt; exact Hi).
        reflexivity.
      + replace (i <? length E)%nat with false by (symmetry; apply Nat.ltb_ge; exact Hi).
        simpl. rewrite !nth_overflow; auto. rewrite kept_shape_length. exact Hi. }
  split.
  - rewrite D1, SK. reflexivity.
  - intros o Vo. rewrite D2 by (apply valid_index_length; exact Vo).
    pose proof (valid_restored E sd sdm Fs o) as Vx.
    rewrite <- SK, <- D1 in Vx. specialize (Vx Vo). rewrite SK in Vx.
    set (x := insert_zeros (prepend_masked sdm (length E) []) o) in *.
    rewrite K3.
    2:{ rewrite Sabc. rewrite <- (kept_shape_length E sd). apply valid_index_length. exact Vx. }
    rewrite Sabc.
    rewrite <- (msum_perm (with_ext E sd)).
    2:{ unfold with_ext. apply Permutation_map. apply masked_perm.
        - exact sd_range.
        - exact sd_NoDup.
        - intros i Hi. rewrite Fs by exact Hi. apply existsb_eqb_In. }
    2:{ unfold with_ext. rewrite map_map. simpl. apply NoDup_map_to_nat; [|exact sd_NoDup].
        eapply Forall_impl; [|exact sd_range]. simpl. intros; lia. }
    apply msum_ext_on with (P := valid_index E).
    + intros y d e j Vy Hin Hj. apply valid_index_upd; [exact Vy|].
      unfold with_ext in Hin. apply in_map_iff in Hin. destruct Hin as [d' [Eq Hd']].
      injection Eq as <- <-. unfold znth in Hj. exact Hj.
    + intros y Vy. apply (aligned_at E abc _ _ y E_pos Aabc). rewrite Sabc. exact Vy.
    + apply (kept_valid E sd E_pos). exact Vx.
Qed.

Lemma trilinear_agrees :
  sd <> [] ->
  exists R,
    trilinear_ref i1 i2 i3 e1 e2 e3 sd = inr R /\
    forall u, 0 <= u < zlen E -> req (_trilinear i1 i2 i3 e1 e2 e3 sd u) (inr R).
Proof.
  intros Hsd.
  destruct (bitset_flags sd (zlen E) sd_range sd_NoDup) as [sdm [Bs Fs]].
  destruct (trilinear_ref_contracted sdm Hsd Bs Fs) as [R [HR C]].
  exists R. split; [exact HR|]. intros u Hu.
  destruct (trilinear_contracted u sdm Hu Bs Fs) as [R' [HR' C']].
  rewrite HR'. simpl. apply (contracted_same E sd sdm _ R' R C' C).
Qed.

End Operands.

(** ** The result of _trilinear *)

(** The three operands are laid out on common axes with extents [E], all
    at least 1: operand [k] has the axes that [expand_k] does not list,
    in ascending order, and every axis is an axis of at least one
    operand.  Then [_trilinear] returns, whichever axis is unrolled, the
    array on the axes outside [sumdim] whose entry is the sum over the
    axes of [sumdim] of the product of the three entries. *)
Theorem trilinear_computes (i1 i2 i3 : Tensor) (expand1 expand2 expand3 sumdim : list Z)
  (unroll_dim : Z) (E : list Z) :
  Forall (fun n => 1 <= n) E ->
  0 <= unroll_dim < zlen E ->
  Forall (fun d => 0 <= d < zlen E) expand1 -> NoDup expand1 ->
  Forall (fun d => 0 <= d < zlen E) expand2 -> NoDup expand2 ->
  Forall (fun d => 0 <= d < zlen E) expand3 -> NoDup expand3 ->
  Forall (fun d => 0 <= d < zlen E) sumdim -> NoDup sumdim ->
  (forall i, 0 <= i < zlen E -> ~ (In i expand1 /\ In i expand2 /\ In i expand3)) ->
  sizes i1 = gather (free_of expand1 (zlen E)) E ->
  sizes i2 = gather (free_of expand2 (zlen E)) E ->
  sizes i3 = gather (free_of expand3 (zlen E)) E ->
  exists R,
    _trilinear i1 i2 i3 expand1 expand2 expand3 sumdim unroll_dim = inr R /\
    sizes R = gather (free_of sumdim (zlen E)) E /\
    forall o, valid_index (sizes R) o ->
      elem R o =
      sumZ (indices (gather sumdim E))
           (fun c =>
              let x := unpermute (free_of sumdim (zlen E) ++ sumdim) (o ++ c) in
              elem i1 (gather (free_of expand1 (zlen E)) x) *
              elem i2 (gather (free_of expand2 (zlen E)) x) *
              elem i3 (gather (free_of expand3 (zlen E)) x)).
Proof.
  intros HE Hu R1 N1 R2 N2 R3 N3 Rs Ns Hc S1 S2 S3.
  exact (trilinear_result i1 i2 i3 expand1 expand2 expand3 sumdim E
           HE R1 N1 R2 N2 R3 N3 Rs Ns Hc S1 S2 S3 unroll_dim Hu).
Qed.

Lemma trilinear_computes_witness :
  exists R,
    _trilinear A22 W223 A23 [1; 3] [0] [1; 2] [2; 3] 1 = inr R /\
    sizes R = gather (free_of [2; 3] (zlen [2; 2; 2; 3])) [2; 2; 2; 3] /\
    forall o, valid_index (sizes R) o ->
      elem R o =
      sumZ (indices (gather [2; 3] [2; 2; 2; 3]))
           (fun c =>
              let x := unpermute (free_of [2; 3] (zlen [2; 2; 2; 3]) ++ [2; 3]) (o ++ c) in
              elem A22 (gather (free_of [1; 3] (zlen [2; 2; 2; 3])) x) *
              elem W223 (gather (free_of [0] (zlen [2; 2; 2; 3])) x) *
              elem A23 (gather (free_of [1; 2] (zlen [2; 2; 2; 3])) x)).
Proof.
  apply (trilinear_computes A22 W223 A23 [1; 3] [0] [1; 2] [2; 3] 1 [2; 2; 2; 3]).
  - repeat constructor; lia.
  - vm_compute. split; [discriminate|reflexivity].
  - repeat constructor; vm_compute; try discriminate; reflexivity.
  - repeat constructor; simpl; intuition lia.
  - repeat constructor; vm_compute; try discriminate; reflexivity.
  - repeat constructor; simpl; intuition lia.
  - repeat constructor; vm_compute; try discriminate; reflexivity.
  - repeat constructor; simpl; intuition lia.
  - repeat constructor; vm_compute; try discriminate; reflexivity.
  - repeat constructor; simpl; intuition lia.
  - intros i Hi [H1 [H2 H3]]. simpl in H1, H2. lia.
  - reflexivity.
  - reflexivity.
  - reflexivity.
Defined.

(** Under the same conditions and for a list [sumdim] that is not empty,
    the expression that documents [_trilinear],
    [(i1.unsqueeze(expand1) * i2.unsqueeze(expand2) * i3.unsqueeze(expand3)).sum(sumdim)],
    has a value, and [_trilinear] returns this array for every unrolled
    axis.  (On an empty list [Tensor::sum] reduces every axis, and
    [_trilinear] none.) *)
Theorem trilinear_documented (i1 i2 i3 : Tensor) (expand1 expand2 expand3 sumdim : list Z)
  (E : list Z) :
  Forall (fun n => 1 <= n) E ->
  Forall (fun d => 0 <= d < zlen E) expand1 -> NoDup expand1 ->
  Forall (fun d => 0 <= d < zlen E) expand2 -> NoDup expand2 ->
  Forall (fun d => 0 <= d < zlen E) expand3 -> NoDup expand3 ->
  Forall (fun d => 0 <= d < zlen E) sumdim -> NoDup sumdim -> sumdim <> [] ->
  (forall i, 0 <= i < zlen E -> ~ (In i expand1 /\ In i expand2 /\ In i expand3)) ->
  sizes i1 = gather (free_of expand1 (zlen E)) E ->
  sizes i2 = gather (free_of expand2 (zlen E)) E ->
  sizes i3 = gather (free_of expand3 (zlen E)) E ->
  exists R,
    trilinear_ref i1 i2 i3 expand1 expand2 expand3 sumdim = inr R /\
    forall unroll_dim, 0 <= unroll_dim < zlen E ->
      req (_trilinear i1 i2 i3 expand1 expand2 expand3 sumdim unroll_dim) (inr R).
Proof.
  intros HE R1 N1 R2 N2 R3 N3 Rs Ns Hsd Hc S1 S2 S3.
  exact (trilinear_agrees i1 i2 i3 expand1 expand2 expand3 sumdim E
           HE R1 N1 R2 N2 R3 N3 Rs Ns Hc S1 S2 S3 Hsd).
Qed.

Lemma trilinear_documented_witness :
  exists R,
    trilinear_ref A22 W223 A23 [1; 3] [0] [1; 2] [2; 3] = inr R /\
    forall unroll_dim, 0 <= unroll_dim < zlen [2; 2; 2; 3] ->
      req (_trilinear A22 W223 A23 [1; 3] [0] [1; 2] [2; 3] unroll_dim) (inr R).
Proof.
  apply (trilinear_documented A22 W223 A23 [1; 3] [0] [1; 2] [2; 3] [2; 2; 2; 3]).
  - repeat constructor; lia.
  - repeat constructor; vm_compute; try discriminate; reflexivity.
  - repeat constructor; simpl; intuition lia.
  - repeat constructor; vm_compute; try discriminate; reflexivity.
  - repeat constructor; simpl; intuition lia.
  - repeat constructor; vm_compute; try discriminate; reflexivity.
  - repeat constructor; simpl; intuition lia.
  - repeat constructor; vm_compute; try discriminate; reflexivity.
  - repeat constructor; simpl; intuition lia.
  - discriminate.
  - intros i Hi [H1 [H2 H3]]. simpl in H1, H2. lia.
  - reflexivity.
  - reflexivity.
  - reflexivity.
Defined.

(** * Axes given as negative numbers *)

Lemma maybe_wrap_dim_wrap d n b :
  - n <= d < n -> maybe_wrap_dim d n b = inr (wrap_axis n d).
Proof.
  intros H. unfold maybe_wrap_dim, wrap_axis.
  replace (n <=? 0) with false by (symmetry; apply Z.leb_gt; lia). cbn [andb].
  replace (d <? - n) with false by (symmetry; apply Z.ltb_ge; lia).
  replace (n - 1 <? d) with false by (symmetry; apply Z.ltb_ge; lia).
  reflexivity.
Qed.

Lemma wrap_axis_range n d : - n <= d < n -> 0 <= wrap_axis n d < n.
Proof. intros H. unfold wrap_axis. destruct (Z.ltb_spec d 0); lia. Qed.

Lemma wrap_axis_id n d : 0 <= d -> wrap_axis n d = d.
Proof. intros H. unfold wrap_axis. destruct (Z.ltb_spec d 0); lia. Qed.

Lemma maybe_wrap_dim_wrapped d n b :
  - n <= d < n -> maybe_wrap_dim (wrap_axis n d) n b = maybe_wrap_dim d n b.
Proof.
  intros H. rewrite (maybe_wrap_dim_wrap d) by exact H.
  apply maybe_wrap_dim_id. apply wrap_axis_range. exact H.
Qed.

Lemma size_wrapped t d : - dim t <= d < dim t -> size t (wrap_axis (dim t) d) = size t d.
Proof. intros H. unfold size. rewrite maybe_wrap_dim_wrapped by exact H. reflexivity. Qed.

Lemma bitset_step_wrapped n seen d :
  - n <= d < n -> bitset_step n seen (wrap_axis n d) = bitset_step n seen d.
Proof. intros H. unfold bitset_step. rewrite maybe_wrap_dim_wrapped by exact H. reflexivity. Qed.

Lemma bitset_fold_wrapped n dims : forall seen,
  Forall (fun d => - n <= d < n) dims ->
  foldM (bitset_step n) (map (wrap_axis n) dims) seen = foldM (bitset_step n) dims seen.
Proof.
  induction dims as [|d dims IH]; intros seen H; [reflexivity|].
  inversion H; subst. cbn [map foldM]. rewrite bitset_step_wrapped by assumption.
  destruct (bitset_step n seen d); [reflexivity|]. cbn [bind]. apply IH. assumption.
Qed.

Lemma dim_list_to_bitset_wrapped dims n :
  Forall (fun d => - n <= d < n) dims ->
  dim_list_to_bitset (map (wrap_axis n) dims) n = dim_list_to_bitset dims n.
Proof. intros H. unfold dim_list_to_bitset. apply bitset_fold_wrapped. exact H. Qed.

Lemma sum_wrapped t d :
  - dim t <= d < dim t -> sum t [wrap_axis (dim t) d] true = sum t [d] true.
Proof.
  intros H. unfold sum.
  rewrite <- (dim_list_to_bitset_wrapped [d]) by (constructor; [exact H|constructor]).
  reflexivity.
Qed.

Lemma wrap_permutation_wrapped n dims : forall seen,
  Forall (fun d => - n <= d < n) dims ->
  wrap_permutation (map (wrap_axis n) dims) n seen = wrap_permutation dims n seen.
Proof.
  induction dims as [|d dims IH]; intros seen H; [reflexivity|].
  inversion H; subst. cbn [map wrap_permutation].
  rewrite maybe_wrap_dim_wrapped by assumption.
  destruct (maybe_wrap_dim d n true) as [e|d']; [reflexivity|]. cbn [bind].
  destruct (TORCH_CHECK _ _); [reflexivity|]. cbn [bind].
  rewrite IH by assumption. reflexivity.
Qed.

Lemma permute_wrapped t dims :
  Forall (fun d => - dim t <= d < dim t) dims ->
  permute t (map (wrap_axis (dim t)) dims) = permute t dims.
Proof.
  intros H. unfold permute. unfold zlen. rewrite length_map.
  rewrite wrap_permutation_wrapped by exact H. reflexivity.
Qed.

(** One contracted pair: the negative axis numbers act as the axes they
    stand for. *)
Lemma tensordot_pair_wrapped A B st d :
  dim (dot_t1 st) = dim A -> dim (dot_t2 st) = dim B ->
  - dim A <= fst d < dim A -> - dim B <= snd d < dim B ->
  good_pair A B (wrap_pair (dim A) (dim B) d) ->
  tensordot_pair A B st d = tensordot_pair A B st (wrap_pair (dim A) (dim B) d).
Proof.
  destruct d as [d1 d2]. unfold wrap_pair. cbn [fst snd].
  intros D1 D2 R1 R2 [Q1 [Q2 [I1 [I2 [N1 [N2 C]]]]]]. cbn [fst snd] in *.
  unfold tensordot_pair.
  rewrite (size_wrapped A d1), (size_wrapped B d2) by assumption.
  rewrite <- (size_wrapped A d1), <- (size_wrapped B d2) by assumption.
  rewrite !size_in_range by assumption. cbn [bind].
  rewrite !to_int_small by lia.
  rewrite <- D1, <- D2. rewrite !sum_wrapped by (rewrite ?D1, ?D2; assumption).
  rewrite D1, D2.
  destruct (znth (wrap_axis (dim B) d2) (sizes B) 0 =? 1) eqn:Eb; [reflexivity|].
  destruct (znth (wrap_axis (dim A) d1) (sizes A) 0 =? 1) eqn:Ea; [reflexivity|].
  apply Z.eqb_neq in Ea, Eb.
  replace (znth (wrap_axis (dim A) d1) (sizes A) 0 =? znth (wrap_axis (dim B) d2) (sizes B) 0)
    with true by (symmetry; apply Z.eqb_eq; lia).
  reflexivity.
Qed.

Lemma tensordot_fold_wrapped A B pairs : forall st,
  Forall (fun d => - dim A <= fst d < dim A /\ - dim B <= snd d < dim B /\
                   good_pair A B (wrap_pair (dim A) (dim B) d)) pairs ->
  dim (dot_t1 st) = dim A -> dim (dot_t2 st) = dim B ->
  foldM (tensordot_pair A B) pairs st =
  foldM (tensordot_pair A B) (map (wrap_pair (dim A) (dim B)) pairs) st.
Proof.
  induction pairs as [|d pairs IH]; intros st H D1 D2; [reflexivity|].
  inversion H as [|? ? [R1 [R2 G]] H']; subst. cbn [map foldM].
  rewrite (tensordot_pair_wrapped A B st d) by assumption.
  pose proof (tensordot_fold A B [wrap_pair (dim A) (dim B) d] st
                (Forall_cons _ G (Forall_nil _)) D1 D2) as F1.
  cbn [foldM] in F1.
  destruct (tensordot_pair A B st (wrap_pair (dim A) (dim B) d)) as [e|st'];
    [reflexivity|].
  cbn [bind ret] in F1 |- *. injection F1 as ->.
  destruct G as [Q1 [Q2 _]].
  apply IH; [assumption| |]; cbn [dot_t1 dot_t2].
  - rewrite presum_axis_dim; [exact D1|]. cbn [fst]. rewrite D1. exact Q1.
  - rewrite presum_axis_dim; [exact D2|]. cbn [fst]. rewrite D2. exact Q2.
Qed.

Lemma combine_map {X Y X' Y'} (f : X -> X') (g : Y -> Y') l1 l2 :
  combine (map f l1) (map g l2) = map (fun d => (f (fst d), g (snd d))) (combine l1 l2).
Proof.
  revert l2. induction l1 as [|x l1 IH]; intros [|y l2]; simpl; try reflexivity.
  f_equal. apply IH.
Qed.

Lemma map_wrap_in_range n l : Forall (fun d => 0 <= d < n) l -> map (wrap_axis n) l = l.
Proof.
  intros H. rewrite <- (map_id l) at 2. apply map_ext_in. intros d Hd.
  rewrite Forall_forall in H. apply wrap_axis_id. specialize (H d Hd). lia.
Qed.

Lemma tensordot_run (A B : Tensor) (dims1 dims2 : list Z) :
  length dims1 = length dims2 ->
  Forall (fun d => - dim A <= d < dim A) dims1 ->
  Forall (fun d => - dim B <= d < dim B) dims2 ->
  NoDup (map (wrap_axis (dim A)) dims1) -> NoDup (map (wrap_axis (dim B)) dims2) ->
  Forall (good_pair A B)
         (combine (map (wrap_axis (dim A)) dims1) (map (wrap_axis (dim B)) dims2)) ->
  tensordot A B dims1 dims2 =
  tensordot_tail A B (map (wrap_axis (dim A)) dims1) (map (wrap_axis (dim B)) dims2).
Proof.
  intros Hlen I1 I2 N1 N2 G.
  set (w1 := map (wrap_axis (dim A)) dims1) in *.
  set (w2 := map (wrap_axis (dim B)) dims2) in *.
  assert (Hw : combine w1 w2 = map (wrap_pair (dim A) (dim B)) (combine dims1 dims2)).
  { unfold w1, w2. apply combine_map. }
  assert (Lw : length w1 = length w2) by (unfold w1, w2; rewrite !length_map; exact Hlen).
  assert (R1 : Forall (fun d => 0 <= d < dim A) w1).
  { unfold w1. apply Forall_map. eapply Forall_impl; [|exact I1].
    intros d Hd. apply wrap_axis_range. exact Hd. }
  assert (R2 : Forall (fun d => 0 <= d < dim B) w2).
  { unfold w2. apply Forall_map. eapply Forall_impl; [|exact I2].
    intros d Hd. apply wrap_axis_range. exact Hd. }
  assert (GW : Forall (fun d => - dim A <= fst d < dim A /\ - dim B <= snd d < dim B /\
                               good_pair A B (wrap_pair (dim A) (dim B) d))
                      (combine dims1 dims2)).
  { rewrite Hw in G. rewrite Forall_map in G.
    apply Forall_forall. intros d Hd. rewrite Forall_forall in G, I1, I2.
    destruct d as [d1 d2]. split; [|split].
    - apply I1. eapply in_combine_l. exact Hd.
    - apply I2. eapply in_combine_r. exact Hd.
    - apply G. exact Hd. }
  unfold tensordot. rewrite Hlen, Nat.eqb_refl. cbn [TORCH_CHECK bind ret].
  rewrite tensordot_fold_wrapped by (try exact GW; reflexivity).
  rewrite <- Hw. rewrite tensordot_fold by (try exact G; reflexivity).
  cbn [bind dot_t1 dot_t2 csize].
  set (t1 := presum_axes A (presummed1 A B (combine w1 w2))).
  set (t2 := presum_axes B (presummed2 A B (combine w1 w2))).
  assert (O1 : map fst (presummed1 A B (combine w1 w2)) = w1).
  { unfold presummed1. rewrite map_map. cbn [fst]. apply map_fst_combine. exact Lw. }
  assert (O2 : map fst (presummed2 A B (combine w1 w2)) = w2).
  { unfold presummed2. rewrite map_map. cbn [fst]. apply map_snd_combine. exact Lw. }
  assert (D1 : dim t1 = dim A).
  { apply presum_axes_dim.
    apply Forall_map with (f := fst) (P := fun d => 0 <= d < dim A). rewrite O1. exact R1. }
  assert (D2 : dim t2 = dim B).
  { apply presum_axes_dim.
    apply Forall_map with (f := fst) (P := fun d => 0 <= d < dim B). rewrite O2. exact R2. }
  rewrite <- (dim_list_to_bitset_wrapped dims1) by exact I1.
  rewrite <- (dim_list_to_bitset_wrapped dims2) by exact I2.
  fold w1 w2.
  destruct (dim_list_to_bitset_ok w1 (dim A) R1 N1) as [cdims1 [-> Hc1]].
  destruct (dim_list_to_bitset_ok w2 (dim B) R2 N2) as [cdims2 [-> Hc2]].
  cbn [bind].
  rewrite <- D1 at 1. rewrite (free_axes_ok cdims1 w1 t1 Hc1). rewrite D1.
  cbn [bind].
  rewrite <- D2 at 1. rewrite (free_axes_ok cdims2 w2 t2 Hc2). rewrite D2.
  cbn [bind].
  assert (P1 : permute t1 (free_of w1 (dim A) ++ dims1) =
               permute t1 (free_of w1 (dim A) ++ w1)).
  { rewrite <- (permute_wrapped t1 (free_of w1 (dim A) ++ dims1)).
    - rewrite D1, map_app. fold w1. rewrite map_wrap_in_range; [reflexivity|].
      apply Forall_forall. intros x Hx. apply in_free_of in Hx. tauto.
    - rewrite D1. apply Forall_app. split; [|exact I1].
      apply Forall_forall. intros x Hx. apply in_free_of in Hx. lia. }
  assert (P2 : permute t2 (dims2 ++ free_of w2 (dim B)) =
               permute t2 (w2 ++ free_of w2 (dim B))).
  { rewrite <- (permute_wrapped t2 (dims2 ++ free_of w2 (dim B))).
    - rewrite D2, map_app. fold w2. rewrite map_wrap_in_range; [reflexivity|].
      apply Forall_forall. intros x Hx. apply in_free_of in Hx. tauto.
    - rewrite D2. apply Forall_app. split; [exact I2|].
      apply Forall_forall. intros x Hx. apply in_free_of in Hx. lia. }
  rewrite P1, P2. reflexivity.
Qed.

(** ** tensordot with axes counted from the end *)

(** Axis numbers in [-n, -1] stand for the axes [n + d] of a rank-[n]
    operand: [tensordot] gives the same outcome as for the axes written
    out, the contraction over those axes. *)
Theorem tensordot_negative_axes (A B : Tensor) (dims1 dims2 : list Z) :
  wf A -> wf B ->
  length dims1 = length dims2 ->
  Forall (fun d => - dim A <= d < dim A) dims1 ->
  Forall (fun d => - dim B <= d < dim B) dims2 ->
  NoDup (map (wrap_axis (dim A)) dims1) -> NoDup (map (wrap_axis (dim B)) dims2) ->
  Forall (good_pair A B)
         (combine (map (wrap_axis (dim A)) dims1) (map (wrap_axis (dim B)) dims2)) ->
  tensordot A B dims1 dims2 =
    tensordot A B (map (wrap_axis (dim A)) dims1) (map (wrap_axis (dim B)) dims2) /\
  req (tensordot A B dims1 dims2)
      (inr (tensordot_ref A B (map (wrap_axis (dim A)) dims1)
                              (map (wrap_axis (dim B)) dims2))).
Proof.
  intros WA WB Hlen I1 I2 N1 N2 G.
  set (w1 := map (wrap_axis (dim A)) dims1) in *.
  set (w2 := map (wrap_axis (dim B)) dims2) in *.
  assert (R1 : Forall (fun d => 0 <= d < dim A) w1).
  { unfold w1. apply Forall_map. eapply Forall_impl; [|exact I1].
    intros d Hd. apply wrap_axis_range. exact Hd. }
  assert (R2 : Forall (fun d => 0 <= d < dim B) w2).
  { unfold w2. apply Forall_map. eapply Forall_impl; [|exact I2].
    intros d Hd. apply wrap_axis_range. exact Hd. }
  assert (Lw : length w1 = length w2) by (unfold w1, w2; rewrite !length_map; exact Hlen).
  assert (E : tensordot A B dims1 dims2 = tensordot A B w1 w2).
  { rewrite (tensordot_run A B dims1 dims2) by assumption. fold w1 w2.
    rewrite (tensordot_run A B w1 w2).
    - rewrite !map_wrap_in_range by assumption. reflexivity.
    - exact Lw.
    - eapply Forall_impl; [|exact R1]. simpl. intros; lia.
    - eapply Forall_impl; [|exact R2]. simpl. intros; lia.
    - rewrite map_wrap_in_range by assumption. exact N1.
    - rewrite map_wrap_in_range by assumption. exact N2.
    - rewrite !map_wrap_in_range by assumption. exact G. }
  split; [exact E|].
  rewrite E. apply tensordot_contraction; assumption.
Qed.

Lemma tensordot_negative_axes_witness :
  tensordot A22 B22 [-1] [-2] = tensordot A22 B22 [1] [0] /\
  req (tensordot A22 B22 [-1] [-2]) (inr (tensordot_ref A22 B22 [1] [0])).
Proof.
  apply (tensordot_negative_axes A22 B22 [-1] [-2]).
  - repeat constructor; lia.
  - repeat constructor; lia.
  - reflexivity.
  - repeat constructor; vm_compute; try discriminate; reflexivity.
  - repeat constructor; vm_compute; try discriminate; reflexivity.
  - repeat constructor; simpl; intuition lia.
  - repeat constructor; simpl; intuition lia.
  - repeat constructor; vm_compute; try discriminate; try reflexivity; auto.
Defined.

(** ** sumproduct_pair with a summed axis counted from the end *)

Lemma fill_opermutation_stops d rest : forall good i operm,
  Forall (fun x => 0 <= x < zlen operm) good -> d < 0 ->
  fill_opermutation (good ++ d :: rest) i operm = inl (VectorOutOfBounds d).
Proof.
  induction good as [|x good IH]; intros i operm Hg Hd.
  - cbn [app fill_opermutation]. unfold vset.
    replace (0 <=? d) with false by (symmetry; apply Z.leb_gt; lia). reflexivity.
  - cbn [app fill_opermutation]. unfold vset.
    pose proof (Forall_inv Hg) as Hx. cbv beta in Hx.
    replace ((0 <=? x) && (x <? zlen operm)) with true.
    2:{ symmetry. apply andb_true_iff. rewrite Z.leb_le, Z.ltb_lt. exact Hx. }
    cbn [bind ret]. apply IH; [|exact Hd].
    replace (zlen (zupd x i operm)) with (zlen operm)
      by (unfold zlen, zupd; rewrite length_upd; reflexivity).
    exact (Forall_inv_tail Hg).
Qed.

Lemma sumproduct_pair_stops (left right : Tensor) (pre post : list Z) (d : Z)
  (keepdim : bool) :
  Forall2 broadcastable (sizes left) (sizes right) ->
  Forall (fun x => 0 <= x < dim left) pre ->
  - dim left <= d < 0 ->
  Forall (fun x => - dim left <= x < dim left) post ->
  NoDup (map (wrap_axis (dim left)) (pre ++ d :: post)) ->
  sumproduct_pair left right (pre ++ d :: post) keepdim = inl (VectorOutOfBounds d).
Proof.
  intros HB Hpre Hd Hpost ND.
  set (n := dim left) in *.
  set (S := pre ++ d :: post) in *.
  set (W := map (wrap_axis n) S) in *.
  assert (HS : Forall (fun x => - n <= x < n) S).
  { unfold S. apply Forall_app. split.
    - eapply Forall_impl; [|exact Hpre]. cbv beta. intros; lia.
    - constructor; [lia|exact Hpost]. }
  assert (HW : Forall (fun x => 0 <= x < n) W).
  { unfold W. apply Forall_map. eapply Forall_impl; [|exact HS].
    intros x Hx. apply wrap_axis_range. exact Hx. }
  destruct (dim_list_to_bitset_ok W n HW ND) as [mask [Hm Hbit]].
  unfold W in Hm. rewrite dim_list_to_bitset_wrapped in Hm by exact HS.
  assert (Dr : dim right = n) by (unfold n, dim, zlen; rewrite (Forall2_length HB); reflexivity).
  unfold sumproduct_pair. rewrite Dr. fold n. rewrite Z.eqb_refl. cbn [TORCH_CHECK bind ret].
  rewrite match_nonempty by (unfold S; destruct pre; discriminate).
  rewrite Hm. cbn [bind]. unfold n at 1. rewrite classify_fold by exact HB. cbn [bind].
  unfold classified. cbn [ps_left ps_right lro lo ro lro_size lo_size ro_size sum_size].
  rewrite !mapM_size.
  2:{ rewrite dim_right' by exact HB. apply in_range_RO. }
  2:{ rewrite dim_left'. apply in_range_LO. }
  2:{ rewrite dim_left'. apply in_range_LRO. }
  cbn [bind]. fold n.
  set (LRO := filter (in_lro (sizes left) (sizes right) mask) (zrange n)).
  set (LO := filter (in_lo (sizes left) (sizes right) mask) (zrange n)).
  set (RO := filter (in_ro (sizes left) (sizes right) mask) (zrange n)).
  pose proof (p_perm left right W mask HW ND Hbit) as Pp. fold n LRO LO RO in Pp.
  assert (LN : (length LRO + length LO + length S + length RO)%nat = Z.to_nat n).
  { apply Permutation_length in Pp. rewrite !length_app, length_zrange in Pp.
    unfold W in Pp. rewrite length_map in Pp. lia. }
  rewrite LN.
  replace (LRO ++ LO ++ S ++ RO) with ((LRO ++ LO ++ pre) ++ d :: (post ++ RO))
    by (unfold S; rewrite <- !app_assoc; reflexivity).
  rewrite fill_opermutation_stops; [reflexivity| |lia].
  assert (Hn : 0 <= n) by (unfold n, dim; apply zlen_nonneg).
  replace (zlen (repeat (-1) (Z.to_nat n))) with n
    by (unfold zlen; rewrite repeat_length; lia).
  rewrite !Forall_app. split; [|split].
  - apply (in_range_LRO left right mask).
  - apply (in_range_LO left right mask).
  - exact Hpre.
Qed.

(** A summed axis written as a negative number passes the conversion to
    a bit set (line 46), which counts it from the end, but lines 112-114
    use the numbers of [sum_dims_] as they are for the positions in
    [opermutation]: on operands that fit together, the first negative
    number [d] of the list makes the write [opermutation[d] = i] fall
    outside the vector. *)
Theorem sumproduct_pair_negative_axis (left right : Tensor) (pre post : list Z) (d : Z)
  (keepdim : bool) :
  Forall2 broadcastable (sizes left) (sizes right) ->
  Forall (fun x => 0 <= x < dim left) pre ->
  - dim left <= d < 0 ->
  Forall (fun x => - dim left <= x < dim left) post ->
  NoDup (map (wrap_axis (dim left)) (pre ++ d :: post)) ->
  writes_outside (sumproduct_pair left right (pre ++ d :: post) keepdim) d.
Proof.
  intros HB Hpre Hd Hpost ND.
  exact (sumproduct_pair_stops left right pre post d keepdim HB Hpre Hd Hpost ND).
Qed.

Lemma sumproduct_pair_negative_axis_witness :
  writes_outside (sumproduct_pair A23 A23 [0; -1] false) (-1).
Proof.
  apply (sumproduct_pair_negative_axis A23 A23 [0] [] (-1) false).
  - repeat constructor; lia.
  - repeat constructor; vm_compute; try discriminate; reflexivity.
  - vm_compute. split; [discriminate|reflexivity].
  - constructor.
  - vm_compute. constructor; [intros [H|[]]; discriminate|].
    constructor; [intros []|constructor].
Defined.

(** * einsum with broadcast operands *)

Lemma in_combine_map {X Y} (f : X -> Y) (l : list X) a c :
  In (a, c) (combine (map f l) l) <-> In c l /\ a = f c.
Proof.
  induction l as [|x l IH]; simpl; [tauto|].
  rewrite IH. split.
  - intros [H|H]; [injection H as <- <-; auto|tauto].
  - intros [[->|H] ->]; [left; reflexivity|right; tauto].
Qed.

Lemma masked_covering E M :
  (forall t, 0 <= t < zlen E -> M t = true \/ znth t E 0 = 1) -> masked M E = E.
Proof.
  intros H. apply (nth_ext _ _ 0 0); [apply length_masked|].
  intros t Ht. rewrite length_masked in Ht. rewrite nth_masked by assumption.
  destruct (H (Z.of_nat t)) as [-> | E1]; [unfold zlen; lia|reflexivity|].
  unfold znth in E1. rewrite Nat2Z.id in E1. rewrite E1. destruct (M _); reflexivity.
Qed.

Section Broadcast.
Variables (pl : plan) (E : list Z).
Hypothesis E_length : zlen E = out_index pl.
Hypothesis E_wf : wf_sizes E.

(** What is asked of an operand and its subscripts: on every subscript
    the extent of the slot, or 1. *)
Let fits (A : Tensor) (w : string) : Prop :=
  (exists own : Z -> Z,
     sizes A = map (fun c => own (label_of c)) (operand_chars w) /\
     forall c, In c (operand_chars w) ->
       own (label_of c) = znth (slot pl c) E 0 \/ own (label_of c) = 1) /\
  (forall c, In c (operand_chars w) ->
     is_label c = true /\ 0 <= slot pl c < out_index pl /\
     znth (slot pl c) (permuted_labels pl) 0 = label_of c).

Lemma align_broadcast (A : Tensor) (w : string) (i : nat) :
  fits A w ->
  exists B,
    align_operand (label_out_index pl) (out_index pl) i A w = inr B /\
    aligned E B (spans pl (A, w)) (broadcast_factor pl (A, w)).
Proof.
  intros ((own & HA & Hown) & Hsl).
  pose proof (zlen_nonneg E) as Hoi. rewrite E_length in Hoi.
  assert (Ln : Z.to_nat (out_index pl) = length E) by (unfold zlen in E_length; lia).
  set (ls := map label_of (operand_chars w)).
  set (sl := fun l => znth l (label_out_index pl) 0).
  set (ext := fun l => if existsb (Z.eqb l) ls then own l else 0).
  assert (Hls : forall l, In l ls -> exists c, In c (operand_chars w) /\ label_of c = l).
  { intros l Hl. apply in_map_iff in Hl. destruct Hl as (c & <- & Hc). exists c. tauto. }
  assert (Hext : forall l, In l ls -> ext l = own l).
  { intros l Hl. unfold ext. apply existsb_eqb_In in Hl. rewrite Hl. reflexivity. }
  assert (Hinj : forall c c', In c (operand_chars w) -> In c' (operand_chars w) ->
            slot pl c = slot pl c' -> label_of c = label_of c').
  { intros c c' Hc Hc' Heq.
    destruct (Hsl c Hc) as (_ & _ & E1). destruct (Hsl c' Hc') as (_ & _ & E2).
    rewrite <- E1, <- E2, Heq. reflexivity. }
  destruct (align_operand_ok (label_out_index pl) (out_index pl) i A w ext Hoi)
    as (B & HB & LB & SB1 & SB2 & EB).
  - intros l. unfold ext. destruct (existsb (Z.eqb l) ls) eqn:El; [|lia].
    apply existsb_eqb_In in El. destruct (Hls l El) as (c & Hc & <-).
    destruct (Hown c Hc) as [-> | ->]; [apply (znth_wf E E_wf)|lia].
  - apply Forall_forall. intros c Hc. apply Hsl. assumption.
  - rewrite HA. fold ls. unfold ls. rewrite map_map. apply map_ext_in. intros c Hc.
    symmetry. apply Hext. unfold ls. apply in_map. exact Hc.
  - intros l Hl. destruct (Hls l Hl) as (c & Hc & <-). apply (Hsl c Hc).
  - intros l l' Hl Hl' Heq.
    destruct (Hls l Hl) as (c & Hc & <-). destruct (Hls l' Hl') as (c' & Hc' & <-).
    apply Hinj; assumption.
  - exists B. split; [assumption|]. fold ls in SB1, SB2, EB. fold sl in SB1, SB2, EB.
    assert (Hspan : forall c, In c (operand_chars w) ->
              spans pl (A, w) (slot pl c) = negb (own (label_of c) =? 1)).
    { intros c Hc. unfold spans. cbn [fst snd]. rewrite HA.
      apply eq_true_iff_eq. rewrite existsb_exists. split.
      - intros ([a c'] & Hin & Hb). cbn [fst snd] in Hb.
        apply (in_combine_map (fun c => own (label_of c))) in Hin. destruct Hin as [Hc' ->].
        apply andb_true_iff in Hb. destruct Hb as [Hs Hn]. apply Z.eqb_eq in Hs.
        rewrite <- (Hinj c' c Hc' Hc Hs). exact Hn.
      - intros Hn. exists (own (label_of c), c). split.
        + apply (in_combine_map (fun c => own (label_of c))). split; [exact Hc|reflexivity].
        + cbn [fst snd]. rewrite Z.eqb_refl. exact Hn. }
    assert (HsB : sizes B = masked (spans pl (A, w)) E).
    { apply (nth_ext _ _ 0 0); [rewrite length_masked; lia|].
      intros t Ht. rewrite LB in Ht. rewrite nth_masked by lia.
      destruct (existsb (Z.eqb (Z.of_nat t)) (map sl ls)) eqn:Ec.
      - apply existsb_eqb_In in Ec. apply in_map_iff in Ec. destruct Ec as (l & El & Hl).
        destruct (Hls l Hl) as (c & Hc & Elc).
        pose proof (SB1 l Hl) as H1.
        change (nth (Z.to_nat (sl l)) (sizes B) 0 = ext l) in H1.
        rewrite El, Nat2Z.id in H1. rewrite H1.
        rewrite (Hext l Hl).
        assert (Et : slot pl c = Z.of_nat t).
        { rewrite <- El, <- Elc. reflexivity. }
        rewrite <- Et, (Hspan c Hc), Elc.
        destruct (Z.eqb_spec (own l) 1) as [e1|n1]; cbn [negb]; [exact e1|].
        destruct (Hown c Hc) as [Ho|Ho]; rewrite Elc in Ho; [|contradiction].
        rewrite Ho. unfold znth. rewrite Et, Nat2Z.id. reflexivity.
      - rewrite SB2.
        + replace (spans pl (A, w) (Z.of_nat t)) with false; [reflexivity|].
          symmetry. apply not_true_is_false. intros Hs. unfold spans in Hs.
          apply existsb_exists in Hs. destruct Hs as ([a c] & Hin & Hb).
          cbn [fst snd] in Hin, Hb. apply in_combine_r in Hin.
          apply andb_true_iff in Hb. destruct Hb as [Hs _]. apply Z.eqb_eq in Hs.
          assert (In (Z.of_nat t) (map sl ls)).
          { rewrite <- Hs. unfold ls. rewrite map_map. apply in_map_iff. exists c.
            split; [reflexivity|exact Hin]. }
          apply existsb_eqb_In in H. congruence.
        + assumption.
        + intros H. apply existsb_eqb_In in H. congruence. }
    split; [assumption|].
    intros idx Hv. pose proof (valid_index_length _ _ Hv) as Li.
    rewrite EB.
    2:{ rewrite length_broadcast_coords; rewrite HsB, length_masked; lia. }
    unfold broadcast_factor, coords. cbn [fst snd]. f_equal.
    rewrite HA. unfold broadcast_coords at 2. rewrite zipWith_map.
    unfold ls. rewrite map_map. apply map_ext_in. intros c Hc.
    destruct (Hsl c Hc) as (_ & Rc & _).
    cbv beta. unfold sl.
    change (znth (label_of c) (label_out_index pl) 0) with (slot pl c).
    assert (Hl : In (label_of c) ls) by (unfold ls; apply in_map; exact Hc).
    pose proof (SB1 (label_of c) Hl) as H1. unfold sl in H1.
    change (znth (label_of c) (label_out_index pl) 0) with (slot pl c) in H1.
    rewrite (Hext _ Hl) in H1.
    set (t := slot pl c) in *.
    unfold znth at 1.
    rewrite nth_broadcast_coords; rewrite ?HsB, ?length_masked; try lia.
    rewrite <- HsB, H1. reflexivity.
Qed.

Lemma align_all_broadcast (operands : list Tensor) (ws : list string) : forall i,
  Forall2 fits operands ws ->
  exists Bs,
    align_operands (label_out_index pl) (out_index pl) i operands ws = inr Bs /\
    Forall2 (fun B aw => aligned E B (spans pl aw) (broadcast_factor pl aw))
            Bs (combine operands ws).
Proof.
  intros i H. revert i. induction H as [|A w operands ws HA H IH]; intros i.
  - exists []. split; [reflexivity|constructor].
  - cbn [align_operands combine].
    destruct (align_broadcast A w i HA) as (B & HB & AB). rewrite HB. cbn [bind].
    destruct (IH (S i)) as (Bs & HBs & ABs). rewrite HBs. cbn [bind ret].
    exists (B :: Bs). split; [reflexivity|]. constructor; assumption.
Qed.

Lemma mul_chain_broadcast (Bs : list Tensor) (aws : list (Tensor * string)) : forall P M f,
  aligned E P M f ->
  Forall2 (fun B aw => aligned E B (spans pl aw) (broadcast_factor pl aw)) Bs aws ->
  exists P',
    foldM mul Bs P = inr P' /\
    aligned E P' (fun t => M t || existsb (fun aw => spans pl aw t) aws)
            (fun idx => f idx * prodZ (map (fun aw => broadcast_factor pl aw idx) aws)).
Proof.
  intros P M f HP H. revert P M f HP.
  induction H as [|B aw Bs aws HB H IH]; intros P M f HP.
  - exists P. split; [reflexivity|]. destruct HP as [SP EP]. split.
    + rewrite SP. apply masked_ext. intros t _. cbn [existsb]. rewrite orb_false_r. reflexivity.
    + intros idx Hv. rewrite EP by assumption. cbn [map]. unfold prodZ. cbn [fold_right]. lia.
  - cbn [foldM]. destruct (mul_aligned E P B _ _ _ _ HP HB) as (P1 & H1 & A1).
    rewrite H1. cbn [bind].
    destruct (IH _ _ _ A1) as (P' & H' & [SP' EP']). exists P'. split; [assumption|]. split.
    + rewrite SP'. apply masked_ext. intros t _. cbn [existsb]. rewrite orb_assoc. reflexivity.
    + intros idx Hv. rewrite EP' by assumption. cbn [map]. rewrite prodZ_cons. lia.
Qed.

End Broadcast.

Lemma einsum_result_broadcast (equation : string) (operands : list Tensor) (ws : list string)
  (pl : plan) (out_size : Z) (E : list Z) :
  einsum_plan equation operands = inr (ws, pl, out_size) ->
  zlen E = out_index pl -> wf_sizes E ->
  Forall2 (fun A w =>
             exists own : Z -> Z,
               sizes A = map (fun c => own (label_of c)) (operand_chars w) /\
               forall c, In c (operand_chars w) ->
                 own (label_of c) = znth (slot pl c) E 0 \/ own (label_of c) = 1)
          operands ws ->
  (forall t, 0 <= t < out_index pl ->
     znth t E 0 = 1 \/ exists aw, In aw (combine operands ws) /\ spans pl aw t = true) ->
  exists R,
    einsum equation operands = inr R /\
    sizes R = firstn (Z.to_nat out_size) E /\
    forall o, valid_index (sizes R) o ->
      elem R o =
      sumZ (indices (skipn (Z.to_nat out_size) E))
           (fun c => prodZ (map (fun aw => broadcast_factor pl aw (o ++ c))
                                (combine operands ws))).
Proof.
  intros Hplan HE HwfE Hops Hatt.
  destruct (plan_slots _ _ _ _ _ Hplan) as [Hslot Hcover].
  destruct (einsum_plan_ok _ _ _ _ _ Hplan) as (_ & Hne & _ & _ & Hos & _).
  pose proof (Forall2_length Hops) as Hlen.
  destruct (align_all_broadcast pl E HE HwfE operands ws 0%nat) as (Bs & HBs & HA).
  { eapply Forall2_strengthen; [exact Hops|]. intros A w Hw HsA.
    split; [assumption|]. intros c Hc. exact (Hslot w c Hw Hc). }
  unfold einsum. rewrite Hplan. cbn [bind]. rewrite HBs. cbn [bind].
  destruct operands as [|A0 operands]; [contradiction|].
  destruct ws as [|w0 ws]; [discriminate|].
  cbn [combine] in HA, Hatt |- *. inversion HA as [|B0 aw0 rest aws HB0 Hrest]; subst.
  unfold einsum_compute.
  destruct (mul_chain_broadcast pl E rest (combine operands ws) B0 _ _ HB0 Hrest)
    as (P & HP & [SP EP]).
  rewrite HP. cbn [bind].
  assert (SP' : sizes P = E).
  { rewrite SP. apply masked_covering. intros t Ht. rewrite HE in Ht.
    destruct (Hatt t Ht) as [E1|(aw & Hin & Hs)]; [right; exact E1|left].
    destruct Hin as [<-|Hin]; [rewrite Hs; reflexivity|].
    apply orb_true_iff. right. apply existsb_exists. exists aw. split; assumption. }
  assert (EP' : forall idx, valid_index E idx ->
            elem P idx =
            prodZ (map (fun aw => broadcast_factor pl aw idx) ((A0, w0) :: combine operands ws))).
  { intros idx Hv. rewrite <- (broadcast_coords_valid E idx Hv) at 1.
    rewrite <- SP' at 1. rewrite EP by assumption. cbn [map]. rewrite prodZ_cons. reflexivity. }
  clear SP EP.
  pose proof (zlen_nonneg E) as HE0.
  assert (LS : length (firstn (Z.to_nat out_size) E) = Z.to_nat out_size).
  { rewrite length_firstn. unfold zlen in *. lia. }
  destruct (out_size <? out_index pl) eqn:Elt.
  - apply Z.ltb_lt in Elt.
    destruct (sum_trailing P (firstn (Z.to_nat out_size) E) (skipn (Z.to_nat out_size) E))
      as (R & HR & SR & ER).
    + rewrite firstn_skipn. assumption.
    + intros Hnil. apply (f_equal (@length Z)) in Hnil. rewrite length_skipn in Hnil.
      cbn [length] in Hnil. unfold zlen in *. lia.
    + replace (zlen (skipn (Z.to_nat out_size) E)) with (out_index pl - out_size) in HR
        by (unfold zlen in *; rewrite length_skipn; lia).
      replace (zlen (firstn (Z.to_nat out_size) E)) with out_size in HR
        by (unfold zlen in *; rewrite LS; lia).
      exists R. split; [assumption|]. split; [assumption|].
      intros o Ho. rewrite SR in Ho. rewrite ER by (apply valid_index_length; assumption).
      apply sumZ_ext_in. intros c Hc. apply In_indices in Hc.
      apply EP'. rewrite <- (firstn_skipn (Z.to_nat out_size) E).
      apply valid_index_app; [apply valid_index_length; assumption|]. split; assumption.
  - apply Z.ltb_ge in Elt. assert (out_size = out_index pl) by lia. subst out_size.
    exists P. split; [reflexivity|].
    assert (Hall : Z.to_nat (out_index pl) = length E) by (unfold zlen in *; lia).
    rewrite Hall, firstn_all, skipn_all. split; [assumption|].
    intros o Ho. rewrite SP' in Ho. cbn [indices sumZ fold_right]. rewrite app_nil_r.
    rewrite EP' by assumption. lia.
Qed.

(** ** Broadcasting between the operands

    The subscripts have extents [ext]; an operand may have extent 1
    where its subscript has a larger extent, and is then read at 0 along
    this axis. *)
Theorem einsum_broadcasts (equation : string) (operands : list Tensor) (ext : Z -> Z) :
  operands <> [] ->
  (forall l, 0 <= ext l) ->
  Forall2 (fun A w =>
             Forall (fun c => is_label c = true) (operand_chars w) /\
             exists own : Z -> Z,
               sizes A = map (fun c => own (label_of c)) (operand_chars w) /\
               forall c, In c (operand_chars w) ->
                 own (label_of c) = ext (label_of c) \/ own (label_of c) = 1)
          operands (split_operand_labels equation) ->
  (forall l, 0 <= l < total_labels ->
     0 < occurrences (split_operand_labels equation) l ->
     ext l = 1 \/
     exists A w c, In (A, w) (combine operands (split_operand_labels equation)) /\
                   In (ext l, c) (combine (sizes A) (operand_chars w)) /\ label_of c = l) ->
  (forall p, arrow_pos equation = Some p ->
     NoDup (nonspace (output_chars equation p)) /\
     Forall (fun c => is_label c = true /\
                      0 < occurrences (split_operand_labels equation) (label_of c))
            (nonspace (output_chars equation p))) ->
  exists R contracted,
    einsum equation operands = inr R /\
    sizes R = map ext (output_labels equation) /\
    NoDup (output_labels equation ++ contracted) /\
    (forall l, In l contracted <->
               0 <= l < total_labels /\
               0 < occurrences (split_operand_labels equation) l /\
               ~ In l (output_labels equation)) /\
    forall o, valid_index (sizes R) o ->
      elem R o =
      sumZ (indices (map ext contracted))
           (fun c => prodZ (map (fun aw =>
                                   elem (fst aw)
                                     (broadcast_coords (sizes (fst aw))
                                        (map (fun ch => coord_of (output_labels equation ++ contracted)
                                                                 (o ++ c) (label_of ch))
                                             (operand_chars (snd aw)))))
                                (combine operands (split_operand_labels equation)))).
Proof.
  intros Hne Hext Hops Hatt Hout.
  set (ws := split_operand_labels equation) in *.
  assert (HW : Forall2 well_labelled operands ws).
  { eapply Forall2_strengthen; [exact Hops|]. intros A w _ (F & own & S & _). split; [exact F|].
    unfold dim. rewrite S. unfold zlen. rewrite length_map. reflexivity. }
  destruct (einsum_plan_exists equation operands Hne HW Hout) as (pl & out_size & Hplan).
  fold ws in Hplan.
  destruct (plan_slots _ _ _ _ _ Hplan) as [Hslot Hcover].
  destruct (einsum_plan_ok _ _ _ _ _ Hplan) as (_ & _ & _ & Hinv & Hos & Hocc & Hexp).
  pose proof Hinv as (I1 & I2 & I3 & I4 & I5 & I6).
  pose proof (plan_labels_NoDup _ _ Hinv) as HND.
  set (E := map ext (permuted_labels pl)).
  assert (HE : zlen E = out_index pl) by (unfold E, zlen; rewrite length_map; exact I3).
  assert (Hfirst : firstn (Z.to_nat out_size) (permuted_labels pl) = output_labels equation).
  { unfold output_labels. destruct (arrow_pos equation) as [p|] eqn:Harrow.
    - apply Hexp. reflexivity.
    - destruct (implicit_output_plan _ _ _ _ _ Harrow Hplan) as (_ & _ & F). exact F. }
  set (contracted := skipn (Z.to_nat out_size) (permuted_labels pl)).
  assert (Hsplit : output_labels equation ++ contracted = permuted_labels pl).
  { rewrite <- Hfirst. apply firstn_skipn. }
  assert (Hlabel : forall t, 0 <= t < out_index pl ->
            0 <= znth t (permuted_labels pl) 0 < total_labels /\
            0 < occurrences ws (znth t (permuted_labels pl) 0) /\
            znth (znth t (permuted_labels pl) 0) (label_out_index pl) 0 = t).
  { intros t Ht. destruct (I4 t Ht) as (A1 & A2 & A3).
    rewrite znth_map_zrange in A2 by assumption. tauto. }
  destruct (einsum_result_broadcast equation operands ws pl out_size E Hplan HE)
    as (R & HR & SR & ER).
  { unfold E, wf_sizes. apply Forall_forall. intros x Hx. apply in_map_iff in Hx.
    destruct Hx as (l & <- & _). apply Hext. }
  { eapply Forall2_strengthen; [exact Hops|]. intros A w Hw (_ & own & S & Hown).
    exists own. split; [exact S|]. intros c Hc.
    destruct (Hslot w c Hw Hc) as (_ & Rc & Ec).
    unfold E. rewrite (znth_map_in ext _ 0) by lia. rewrite Ec. apply Hown. exact Hc. }
  { intros t Ht. destruct (Hlabel t Ht) as (Rl & Ol & Sl).
    unfold E. rewrite (znth_map_in ext _ 0) by lia.
    set (l := znth t (permuted_labels pl) 0) in *.
    destruct (Hatt l Rl Ol) as [E1|(A & w & c & Hin & Hac & Hc)]; [left; exact E1|].
    destruct (Z.eq_dec (ext l) 1) as [E1|N1]; [left; exact E1|right].
    exists (A, w). split; [exact Hin|]. unfold spans. cbn [fst snd].
    apply existsb_exists. exists (ext l, c). split; [exact Hac|]. cbn [fst snd].
    apply andb_true_iff. split.
    - apply Z.eqb_eq. unfold slot. rewrite Hc. exact Sl.
    - apply negb_true_iff. apply Z.eqb_neq. exact N1. }
  exists R, contracted. split; [exact HR|]. split; [|split; [|split]].
  - rewrite SR. unfold E. rewrite firstn_map, Hfirst. reflexivity.
  - rewrite Hsplit. exact HND.
  - intros l. split.
    + intros Hl.
      assert (Hin : In l (permuted_labels pl)) by (rewrite <- Hsplit; apply in_or_app; right; exact Hl).
      apply (In_nth _ _ 0) in Hin. destruct Hin as (t & Ht & <-).
      unfold zlen in I3. destruct (Hlabel (Z.of_nat t) ltac:(lia)) as (A1 & A2 & _).
      unfold znth in A1, A2. rewrite Nat2Z.id in A1, A2.
      split; [exact A1|]. split; [exact A2|].
      intros Hin. rewrite <- Hsplit in HND.
      exact (NoDup_app_apart _ _ _ HND Hin Hl).
    + intros (Rl & Ol & Nl). pose proof (Hocc l Rl Ol) as Hne1.
      destruct (I5 l Rl) as [Em|[Rs Es]]; [contradiction|].
      assert (Hin : In l (permuted_labels pl)).
      { rewrite <- Es. set (t := znth l (label_out_index pl) 0) in *.
        unfold znth. apply nth_In. unfold zlen in I3. lia. }
      rewrite <- Hsplit in Hin. apply in_app_or in Hin. destruct Hin; [contradiction|assumption].
  - intros o Ho. rewrite (ER o Ho). unfold E. rewrite skipn_map. fold contracted.
    apply sumZ_ext. intros c. f_equal. apply map_ext_in. intros [A w] Haw.
    unfold broadcast_factor, coords. cbn [fst snd]. f_equal. f_equal.
    apply map_ext_in. intros ch Hch.
    apply in_combine_r in Haw. destruct (Hslot w ch Haw Hch) as (_ & Rc & Ec).
    unfold coord_of. rewrite Hsplit. set (t := slot pl ch) in *.
    rewrite <- Ec. unfold znth. rewrite index_of_nth; [reflexivity|exact HND|].
    unfold zlen in I3. lia.
Qed.

Lemma einsum_broadcasts_witness :
  exists R contracted,
    einsum "ij,ij->ij" [A23; R13] = inr R /\
    sizes R = map (fun l => if l =? 9 then 3 else 2) (output_labels "ij,ij->ij") /\
    NoDup (output_labels "ij,ij->ij" ++ contracted) /\
    (forall l, In l contracted <->
               0 <= l < total_labels /\
               0 < occurrences (split_operand_labels "ij,ij->ij") l /\
               ~ In l (output_labels "ij,ij->ij")) /\
    forall o, valid_index (sizes R) o ->
      elem R o =
      sumZ (indices (map (fun l => if l =? 9 then 3 else 2) contracted))
           (fun c => prodZ (map (fun aw =>
                                   elem (fst aw)
                                     (broadcast_coords (sizes (fst aw))
                                        (map (fun ch => coord_of (output_labels "ij,ij->ij" ++ contracted)
                                                                 (o ++ c) (label_of ch))
                                             (operand_chars (snd aw)))))
                                (combine [A23; R13] (split_operand_labels "ij,ij->ij")))).
Proof.
  apply (einsum_broadcasts "ij,ij->ij" [A23; R13] (fun l => if l =? 9 then 3 else 2)).
  - discriminate.
  - intros l. destruct (l =? 9); lia.
  - change (split_operand_labels "ij,ij->ij") with ["ij"; "ij"]%string.
    constructor; [|constructor; [|constructor]].
    + split; [repeat constructor|].
      exists (fun l => if l =? 9 then 3 else 2). split; [reflexivity|].
      intros c _. left. reflexivity.
    + split; [repeat constructor|].
      exists (fun l => if l =? 9 then 3 else 1). split; [reflexivity|].
      intros c Hc. change (operand_chars "ij") with ["i"; "j"]%char in Hc.
      destruct Hc as [<-|[<-|[]]]; [right|left]; reflexivity.
  - intros l Hl Ho. right. exists A23, "ij"%string.
    change (split_operand_labels "ij,ij->ij") with ["ij"; "ij"]%string in *.
    unfold total_labels in Hl.
    assert (Hc : l = 8 \/ l = 9).
    { destruct (Z.eq_dec l 8) as [|N8]; [auto|]. destruct (Z.eq_dec l 9) as [|N9]; [auto|].
      exfalso. unfold occurrences, count_of in Ho. cbn [sumZ fold_right] in Ho.
      change (subscripts "ij") with [8; 9] in Ho. cbn [count_occ] in Ho.
      destruct (Z.eq_dec 8 l); [lia|]. destruct (Z.eq_dec 9 l); [lia|]. cbn in Ho. lia. }
    destruct Hc as [-> | ->].
    + exists "i"%char. split; [left; reflexivity|]. split; [left; reflexivity|reflexivity].
    + exists "j"%char. split; [left; reflexivity|].
      split; [right; left; reflexivity|reflexivity].
  - intros p Hp. change (arrow_pos "ij,ij->ij") with (Some 5%nat) in Hp.
    injection Hp as <-. split.
    + vm_compute. constructor; [intros [H|[]]; discriminate|].
      constructor; [intros []|constructor].
    + change (nonspace (output_chars "ij,ij->ij" 5)) with ["i"; "j"]%char.
      constructor; [|constructor; [|constructor]];
        (split; [reflexivity|vm_compute; reflexivity]).
Defined.

(** * Spaces in the equation of einsum *)

Lemma group_cons c s : group (String c s) <-> (c <> ","%char /\ c <> "-"%char) /\ group s.
Proof.
  unfold group. cbn [list_ascii_of_string]. split.
  - intros H. inversion H; subst. tauto.
  - intros [H1 H2]. constructor; assumption.
Qed.

Lemma eqb_neq_false (c d : ascii) : c <> d -> Ascii.eqb c d = false.
Proof. intros H. apply Ascii.eqb_neq. exact H. Qed.

Lemma getline_all_nonempty s : getline_all s <> [].
Proof.
  induction s as [|c s IH]; cbn [getline_all]; [discriminate|].
  destruct (Ascii.eqb c ","); [discriminate|].
  destruct (getline_all s); discriminate.
Qed.

Lemma getline_all_group g : group g -> getline_all g = [g].
Proof.
  induction g as [|c g IH]; intros H; [reflexivity|].
  apply group_cons in H. destruct H as [[Hc _] Hg].
  cbn [getline_all]. rewrite eqb_neq_false by exact Hc. rewrite (IH Hg). reflexivity.
Qed.

Lemma getline_all_app g rest :
  group g -> getline_all (g ++ String "," rest) = g :: getline_all rest.
Proof.
  induction g as [|c g IH]; intros H.
  - reflexivity.
  - apply group_cons in H. destruct H as [[Hc _] Hg].
    cbn [append getline_all]. rewrite eqb_neq_false by exact Hc. rewrite (IH Hg). reflexivity.
Qed.

Lemma getline_all_join groups :
  groups <> [] -> Forall group groups -> getline_all (join_groups groups) = groups.
Proof.
  induction groups as [|g gs IH]; intros Hne H; [contradiction|].
  inversion H as [|? ? Hg Hgs]; subst. cbn [join_groups].
  destruct gs as [|g' gs'].
  - apply getline_all_group. exact Hg.
  - rewrite getline_all_app by exact Hg. f_equal. apply IH; [discriminate|exact Hgs].
Qed.

Lemma dashless_cons c s : dashless (String c s) <-> c <> "-"%char /\ dashless s.
Proof.
  unfold dashless. cbn [list_ascii_of_string]. split.
  - intros H. inversion H; subst. tauto.
  - intros [H1 H2]. constructor; assumption.
Qed.

Lemma dashless_app s t : dashless s -> dashless t -> dashless (s ++ t).
Proof.
  induction s as [|c s IH]; intros Hs Ht; [exact Ht|].
  apply dashless_cons in Hs. destruct Hs as [Hc Hs].
  cbn [append]. apply dashless_cons. split; [exact Hc|apply IH; assumption].
Qed.

Lemma dashless_group g : group g -> dashless g.
Proof. unfold group, dashless. apply Forall_impl. tauto. Qed.

Lemma dashless_join groups : Forall group groups -> dashless (join_groups groups).
Proof.
  induction groups as [|g gs IH]; intros H; [constructor|].
  inversion H as [|? ? Hg Hgs]; subst. cbn [join_groups].
  destruct gs as [|g' gs']; [apply dashless_group; exact Hg|].
  apply dashless_app; [apply dashless_group; exact Hg|].
  apply dashless_cons. split; [discriminate|apply IH; exact Hgs].
Qed.

Lemma prefix_arrow_other c s : c <> "-"%char -> prefix "->" (String c s) = false.
Proof.
  intros H. cbn [prefix]. destruct (ascii_dec "-" c) as [E|N]; [congruence|reflexivity].
Qed.

Lemma index_dashless s : dashless s -> index 0 "->" s = None.
Proof.
  induction s as [|c s IH]; intros H; [reflexivity|].
  apply dashless_cons in H. destruct H as [Hc Hs].
  cbn [index]. rewrite prefix_arrow_other by exact Hc. rewrite (IH Hs). reflexivity.
Qed.

Lemma index_arrow s r :
  dashless s -> index 0 "->" (s ++ String "-" (String ">" r)) = Some (String.length s).
Proof.
  induction s as [|c s IH]; intros H.
  - cbn [append String.length index].
    replace (prefix "->" (String "-" (String ">" r))) with true; [reflexivity|].
    cbn [prefix]. destruct (ascii_dec "-" "-"); [|congruence].
    destruct (ascii_dec ">" ">"); [|congruence]. destruct r; reflexivity.
  - apply dashless_cons in H. destruct H as [Hc Hs].
    cbn [append String.length index]. rewrite prefix_arrow_other by exact Hc.
    rewrite (IH Hs). reflexivity.
Qed.

Lemma substring_all s : substring 0 (String.length s) s = s.
Proof. induction s as [|c s IH]; cbn; [reflexivity|]. rewrite IH. reflexivity. Qed.

Lemma substring_front s t : substring 0 (String.length s) (s ++ t) = s.
Proof.
  induction s as [|c s IH]; cbn [append String.length substring].
  - destruct t; reflexivity.
  - rewrite IH. reflexivity.
Qed.

Lemma length_append s t : String.length (s ++ t) = (String.length s + String.length t)%nat.
Proof. induction s as [|c s IH]; cbn; [reflexivity|]. rewrite IH. reflexivity. Qed.

Lemma substring_back s r :
  substring (String.length s + 2)
            (String.length (s ++ String "-" (String ">" r)) - (String.length s + 2))
            (s ++ String "-" (String ">" r)) = r.
Proof.
  rewrite length_append. cbn [String.length].
  replace (String.length s + S (S (String.length r)) - (String.length s + 2))%nat
    with (String.length r) by lia.
  induction s as [|c s IH].
  - cbn [append String.length Nat.add substring]. apply substring_all.
  - cbn [append String.length Nat.add substring]. exact IH.
Qed.

(** The parts of the equation as [einsum] finds them (lines 142-152 and
    207). *)
Lemma arrow_pos_equation_of groups rhs :
  Forall group groups ->
  arrow_pos (equation_of groups rhs) =
  match rhs with
  | Some _ => Some (String.length (join_groups groups))
  | None => None
  end.
Proof.
  intros H. unfold arrow_pos, equation_of. destruct rhs as [r|].
  - apply index_arrow. apply dashless_join. exact H.
  - apply index_dashless. apply dashless_join. exact H.
Qed.

Lemma split_equation_of groups rhs :
  groups <> [] -> Forall group groups ->
  split_operand_labels (equation_of groups rhs) = groups.
Proof.
  intros Hne H. unfold split_operand_labels. rewrite arrow_pos_equation_of by exact H.
  destruct rhs as [r|]; cbn [equation_of].
  - rewrite substring_front. apply getline_all_join; assumption.
  - apply getline_all_join; assumption.
Qed.

Lemma build_plan_equation_of groups rhs lc :
  Forall group groups ->
  build_plan (equation_of groups rhs) lc =
  (pl <- match rhs with
         | None => ret (fold_left implicit_output (zrange total_labels)
                          (mkPlan lc (repeat (-1) (Z.to_nat total_labels)) [] 0))
         | Some r => foldM explicit_output (list_ascii_of_string r)
                       (mkPlan lc (repeat (-1) (Z.to_nat total_labels)) [] 0)
         end ;;
   ret (fold_left contraction_label (zrange total_labels) pl, out_index pl)).
Proof.
  intros H. unfold build_plan. rewrite arrow_pos_equation_of by exact H.
  destruct rhs as [r|]; [|reflexivity].
  cbn [equation_of]. rewrite substring_back. reflexivity.
Qed.

(** ** The loops skip the spaces *)

Lemma foldM_nonspace {S} (f : S -> ascii -> Result S) (cs : list ascii) :
  (forall st c, is_space c = true -> f st c = ret st) ->
  forall st, foldM f cs st = foldM f (nonspace cs) st.
Proof.
  intros Hf. induction cs as [|c cs IH]; intros st; [reflexivity|].
  unfold nonspace. cbn [filter foldM]. fold (nonspace cs).
  destruct (is_space c) eqn:Ec; cbn [negb].
  - rewrite (Hf st c Ec). cbn [bind ret]. apply IH.
  - cbn [foldM]. destruct (f st c); [reflexivity|]. cbn [bind]. apply IH.
Qed.

Lemma nonspace_idem cs : nonspace (nonspace cs) = nonspace cs.
Proof.
  unfold nonspace. induction cs as [|c cs IH]; [reflexivity|].
  cbn [filter]. destruct (negb (is_space c)) eqn:Ec; [|exact IH].
  cbn [filter]. rewrite Ec, IH. reflexivity.
Qed.

Lemma chars_strip_spaces s :
  list_ascii_of_string (strip_spaces s) = nonspace (list_ascii_of_string s).
Proof. unfold strip_spaces. apply list_ascii_of_string_of_list_ascii. Qed.

Lemma foldM_strip {S} (f : S -> ascii -> Result S) (w : string) :
  (forall st c, is_space c = true -> f st c = ret st) ->
  forall st, foldM f (list_ascii_of_string (strip_spaces w)) st =
             foldM f (list_ascii_of_string w) st.
Proof.
  intros Hf st. rewrite chars_strip_spaces. symmetry. apply foldM_nonspace. exact Hf.
Qed.

Lemma parse_label_space A i acc c : is_space c = true -> parse_label A i acc c = ret acc.
Proof. intros H. unfold parse_label. destruct acc as [st count]. rewrite H. reflexivity. Qed.

Lemma explicit_output_space pl c : is_space c = true -> explicit_output pl c = ret pl.
Proof. intros H. unfold explicit_output. rewrite H. reflexivity. Qed.

Lemma align_label_space loi i st c : is_space c = true -> align_label loi i st c = ret st.
Proof. intros H. unfold align_label. rewrite H. reflexivity. Qed.

Lemma parse_operands_strip operands : forall ws i st,
  parse_operands operands (map strip_spaces ws) i st = parse_operands operands ws i st.
Proof.
  induction operands as [|A operands IH]; intros [|w ws] i st; try reflexivity.
  cbn [map parse_operands].
  rewrite (foldM_strip (parse_label A i) w (parse_label_space A i)).
  destruct (foldM (parse_label A i) (list_ascii_of_string w) (st, 0)) as [e|[st' count]];
    [reflexivity|].
  cbn [bind]. destruct (TORCH_CHECK _ _); [reflexivity|]. cbn [bind]. apply IH.
Qed.

Lemma align_operand_strip loi oi i A w :
  align_operand loi oi i A (strip_spaces w) = align_operand loi oi i A w.
Proof.
  unfold align_operand.
  rewrite (foldM_strip (align_label loi i) w (align_label_space loi i)). reflexivity.
Qed.

Lemma align_operands_strip loi oi operands : forall ws i,
  align_operands loi oi i operands (map strip_spaces ws) =
  align_operands loi oi i operands ws.
Proof.
  induction operands as [|A operands IH]; intros [|w ws] i; try reflexivity.
  cbn [map align_operands]. rewrite align_operand_strip, IH. reflexivity.
Qed.

Lemma group_strip g : group g -> group (strip_spaces g).
Proof.
  unfold group. rewrite chars_strip_spaces. intros H.
  apply Forall_forall. intros c Hc. unfold nonspace in Hc. apply filter_In in Hc.
  rewrite Forall_forall in H. apply H. tauto.
Qed.

(** ** Spaces are ignored *)

(** Spaces among the subscripts of the operands and of the output do not
    change the outcome of [einsum], be it a result or an error. *)
Theorem einsum_ignores_spaces (groups : list string) (rhs : option string)
  (operands : list Tensor) :
  groups <> [] -> Forall group groups ->
  einsum (equation_of (map strip_spaces groups) (option_map strip_spaces rhs)) operands =
  einsum (equation_of groups rhs) operands.
Proof.
  intros Hne Hg.
  assert (Hne' : map strip_spaces groups <> []).
  { destruct groups; [contradiction|discriminate]. }
  assert (Hg' : Forall group (map strip_spaces groups)).
  { apply Forall_map. eapply Forall_impl; [|exact Hg]. apply group_strip. }
  unfold einsum, einsum_plan.
  rewrite !split_equation_of by assumption.
  rewrite length_map.
  destruct (TORCH_CHECK (negb match operands with [] => true | _ :: _ => false end)
              EinsumNoOperand); [reflexivity|].
  cbn [bind].
  destruct (TORCH_CHECK (length groups =? length operands)%nat _); [reflexivity|].
  cbn [bind].
  rewrite parse_operands_strip.
  destruct (parse_operands operands groups 0 _) as [e|st]; [reflexivity|].
  cbn [bind].
  rewrite !build_plan_equation_of by assumption.
  assert (Hrhs : match option_map strip_spaces rhs with
                 | None => ret (fold_left implicit_output (zrange total_labels)
                                  (mkPlan (label_count st) (repeat (-1) (Z.to_nat total_labels)) [] 0))
                 | Some r => foldM explicit_output (list_ascii_of_string r)
                               (mkPlan (label_count st) (repeat (-1) (Z.to_nat total_labels)) [] 0)
                 end =
                 match rhs with
                 | None => ret (fold_left implicit_output (zrange total_labels)
                                  (mkPlan (label_count st) (repeat (-1) (Z.to_nat total_labels)) [] 0))
                 | Some r => foldM explicit_output (list_ascii_of_string r)
                               (mkPlan (label_count st) (repeat (-1) (Z.to_nat total_labels)) [] 0)
                 end).
  { destruct rhs as [r|]; cbn [option_map]; [|reflexivity].
    apply (foldM_strip explicit_output r explicit_output_space). }
  rewrite Hrhs.
  destruct (match rhs with
            | None => _
            | Some r => _
            end) as [e|pl]; [reflexivity|].
  cbn [bind ret].
  rewrite align_operands_strip. reflexivity.
Qed.

Lemma einsum_ignores_spaces_witness :
  einsum (equation_of (map strip_spaces ["i j"; " jk"]%string)
                      (option_map strip_spaces (Some "i k "%string))) [A22; B22] =
  einsum (equation_of ["i j"; " jk"]%string (Some "i k "%string)) [A22; B22].
Proof.
  apply (einsum_ignores_spaces ["i j"; " jk"]%string (Some "i k "%string) [A22; B22]).
  - discriminate.
  - repeat constructor; discriminate.
Defined.

(** * _trilinear on an unrolled axis that no operand has *)

Lemma zlen_zupd_same {X} (u : Z) (v : X) (E : list X) : zlen (zupd u v E) = zlen E.
Proof. unfold zlen, zupd. rewrite length_upd. reflexivity. Qed.

Lemma trilinear_zero (i1 i2 i3 : Tensor) (e1 e2 e3 sd : list Z) (u : Z) (E : list Z) :
  0 <= u < zlen E ->
  Forall (fun d => 0 <= d < zlen E) e1 -> NoDup e1 ->
  Forall (fun d => 0 <= d < zlen E) e2 -> NoDup e2 ->
  Forall (fun d => 0 <= d < zlen E) e3 -> NoDup e3 ->
  Forall (fun d => 0 <= d < zlen E) sd -> NoDup sd ->
  sizes i1 = gather (free_of e1 (zlen E)) E ->
  sizes i2 = gather (free_of e2 (zlen E)) E ->
  sizes i3 = gather (free_of e3 (zlen E)) E ->
  In u e1 -> In u e2 -> In u e3 ->
  (forall i, 0 <= i < zlen E -> i <> u -> ~ (In i e1 /\ In i e2 /\ In i e3)) ->
  exists R,
    _trilinear i1 i2 i3 e1 e2 e3 sd u = inr R /\
    sizes R = gather (free_of sd (zlen E)) (zupd u 0 E) /\
    forall idx, elem R idx = 0.
Proof.
  intros Hu R1 N1 R2 N2 R3 N3 Rs Ns S1 S2 S3 U1 U2 U3 Hc.
  assert (TD : dim i1 + zlen e1 = zlen E).
  { unfold dim. rewrite S1. apply free_of_rank; assumption. }
  unfold _trilinear. rewrite TD.
  replace ((0 <=? u) && (u <? zlen E)) with true.
  2:{ symmetry. apply andb_true_iff. rewrite Z.leb_le, Z.ltb_lt. exact Hu. }
  cbn [TORCH_CHECK bind ret].
  destruct (bitset_flags e1 (zlen E) R1 N1) as [ex1 [B1 F1]].
  destruct (bitset_flags e2 (zlen E) R2 N2) as [ex2 [B2 F2]].
  destruct (bitset_flags e3 (zlen E) R3 N3) as [ex3 [B3 F3]].
  destruct (bitset_flags sd (zlen E) Rs Ns) as [sdm [Bs Fs]].
  rewrite B1, B2, B3, Bs. cbn [bind].
  destruct (axes_loop E e1 e2 e3 sd u i1 i2 i3 ex1 ex2 ex3 sdm F1 F2 F3 Fs
              (mkTriState i1 i2 i3 [] [] [] (-1))) with (k := Z.to_nat (zlen E))
    as [st [Hst A]].
  { unfold axes_done. cbn [tri_i1 tri_i2 tri_i3 output_size sum_dims_12 sum_dims_23 unroll_size].
    rewrite (zrange_nonpos 0) by lia.
    repeat (split; [apply unsqueezed_start; assumption|]).
    repeat (split; [reflexivity|]).
    replace (u <? 0) with false by (symmetry; apply Z.ltb_ge; lia). reflexivity. }
  { pose proof (zlen_nonneg E). lia. }
  rewrite Z2Nat.id in Hst, A by apply zlen_nonneg.
  rewrite Hst. cbn [bind].
  destruct A as [_ [_ [_ [Ho [_ [_ Hus]]]]]].
  replace (u <? zlen E) with true in Hus by (symmetry; apply Z.ltb_lt; lia).
  apply existsb_eqb_In in U1, U2, U3.
  assert (Hus' : unroll_size st = 0).
  { rewrite Hus. unfold carried_extent. rewrite U1, U2, U3. reflexivity. }
  set (E0 := zupd u 0 E).
  assert (ZE0 : zlen E0 = zlen E) by apply zlen_zupd_same.
  assert (Ho' : output_size st = kept_shape E0 sd).
  { rewrite Ho. unfold kept_shape. rewrite ZE0. apply map_ext_in. intros j Hj.
    apply In_zrange in Hj. destruct (existsb (Z.eqb j) sd); [reflexivity|].
    unfold carried_extent, E0. destruct (Z.eq_dec j u) as [->|Nj].
    - rewrite U1, U2, U3. rewrite znth_zupd_same by exact Hu. reflexivity.
    - rewrite znth_zupd_other by lia.
      replace (existsb (Z.eqb j) e1 && existsb (Z.eqb j) e2 && existsb (Z.eqb j) e3)
        with false; [reflexivity|].
      symmetry. apply not_true_is_false. rewrite !andb_true_iff, !existsb_eqb_In.
      specialize (Hc j Hj Nj). tauto. }
  rewrite Hus', Ho'. rewrite (zrange_nonpos 0) by lia. cbn [foldM bind ret].
  assert (Rs0 : Forall (fun d => 0 <= d < zlen E0) sd) by (rewrite ZE0; exact Rs).
  assert (LE0 : length E0 = length E) by (unfold E0, zupd; apply length_upd).
  destruct (squeeze_summed_drop sdm (length E0) (zeros (kept_shape E0 sd)))
    with (k := length E0) (hi := @nil nat) (t := zeros (kept_shape E0 sd))
    as [R [HR [SR ER]]].
  { apply kept_shape_length. }
  { intros i Hi Mi. cbn [zeros sizes]. rewrite kept_shape_nth by exact Hi.
    rewrite <- (flags_nth sd sdm Fs), Mi. reflexivity. }
  { lia. }
  { exact I. }
  { reflexivity. }
  { reflexivity. }
  cbn [zeros sizes] in HR, SR, ER |- *. rewrite kept_shape_length. rewrite HR.
  exists R. split; [reflexivity|]. split.
  - rewrite SR. rewrite (dropped_shape E0 sd sdm Fs). rewrite ZE0. reflexivity.
  - intros idx. rewrite ER. reflexivity.
Qed.

(** When the unrolled axis is an inserted axis of all three operands, the
    loops of lines 364-380 make no turn ([unroll_size] is the initial 0
    of [s]): the result is the array of zeros, with extent 0 on the
    unrolled axis unless this axis is summed. *)
Theorem trilinear_unroll_axis_inserted (i1 i2 i3 : Tensor)
  (expand1 expand2 expand3 sumdim : list Z) (unroll_dim : Z) (E : list Z) :
  0 <= unroll_dim < zlen E ->
  Forall (fun d => 0 <= d < zlen E) expand1 -> NoDup expand1 ->
  Forall (fun d => 0 <= d < zlen E) expand2 -> NoDup expand2 ->
  Forall (fun d => 0 <= d < zlen E) expand3 -> NoDup expand3 ->
  Forall (fun d => 0 <= d < zlen E) sumdim -> NoDup sumdim ->
  sizes i1 = gather (free_of expand1 (zlen E)) E ->
  sizes i2 = gather (free_of expand2 (zlen E)) E ->
  sizes i3 = gather (free_of expand3 (zlen E)) E ->
  In unroll_dim expand1 -> In unroll_dim expand2 -> In unroll_dim expand3 ->
  (forall i, 0 <= i < zlen E -> i <> unroll_dim ->
             ~ (In i expand1 /\ In i expand2 /\ In i expand3)) ->
  exists R,
    _trilinear i1 i2 i3 expand1 expand2 expand3 sumdim unroll_dim = inr R /\
    sizes R = gather (free_of sumdim (zlen E)) (zupd unroll_dim 0 E) /\
    forall idx, elem R idx = 0.
Proof.
  intros Hu R1 N1 R2 N2 R3 N3 Rs Ns S1 S2 S3 U1 U2 U3 Hc.
  exact (trilinear_zero i1 i2 i3 expand1 expand2 expand3 sumdim unroll_dim E
           Hu R1 N1 R2 N2 R3 N3 Rs Ns S1 S2 S3 U1 U2 U3 Hc).
Qed.

Lemma trilinear_unroll_axis_inserted_witness :
  exists R,
    _trilinear u2 v2' w2 [1] [1] [1] [1] 1 = inr R /\
    sizes R = gather (free_of [1] (zlen [2; 1])) (zupd 1 0 [2; 1]) /\
    forall idx, elem R idx = 0.
Proof.
  apply (trilinear_unroll_axis_inserted u2 v2' w2 [1] [1] [1] [1] 1 [2; 1]).
  - vm_compute. split; [discriminate|reflexivity].
  - repeat constructor; vm_compute; try discriminate; reflexivity.
  - repeat constructor; simpl; intuition lia.
  - repeat constructor; vm_compute; try discriminate; reflexivity.
  - repeat constructor; simpl; intuition lia.
  - repeat constructor; vm_compute; try discriminate; reflexivity.
  - repeat constructor; simpl; intuition lia.
  - repeat constructor; vm_compute; try discriminate; reflexivity.
  - repeat constructor; simpl; intuition lia.
  - reflexivity.
  - reflexivity.
  - reflexivity.
  - left. reflexivity.
  - left. reflexivity.
  - left. reflexivity.
  - intros i Hi Ni [H1 _]. simpl in H1. lia.
Defined.

(** * The pairwise evaluation order *)

(** ** Reading with broadcasting *)





(** ** Sums over axes summed before *)






(** ** Sums over the trailing axes *)


(** ** One step of the pairwise order *)

Section Steps.
Variable E : list Z.







End Steps.

(** ** The steps one after the other *)

Section Chain.
Variables (pl : plan) (E : list Z) (out_size : Z).
Hypothesis E_length : zlen E = out_index pl.
Hypothesis out_range : 0 <= out_size <= out_index pl.










End Chain.

(** ** The pairwise order on the aligned operands *)






(** ** The two orders *)



